(** * PoPS (pops.py): a shallow embedding and its verified properties

    The development follows the layout of [pops.py]: general helpers,
    block linear algebra, covariance regularisation, covariate projection,
    marginal screening, feature selection and feature-matrix assembly.
    All definitions come first; the lemmas and theorems follow.

    Numbers.  Gene-level matrices and vectors are modelled over the real
    numbers [R] (exact arithmetic).  The library routines the code calls
    ([np.linalg.cholesky], [np.linalg.inv], [np.linalg.eigvalsh],
    [LinearRegression.fit]) are fields of the interface [Libraries];
    theorems state the contracts they rely on as hypotheses.  P-values of the
    marginal association table are either undefined ([nan]) or a rational
    number: feature selection only compares and sorts them.
    [DataFrame.sort_values], which is not stable, is the field of the
    interface [Pandas], with its contract [sort_values_contract].  Where
    rounding decides the outcome the code is embedded on IEEE doubles as
    well: [batch_marginal_ols] over the interface [Float64], and
    [regularize_error_cov] in the module [Binary64]. *)

From Stdlib Require Import ZArith QArith Reals Lra Lia List String Ascii.
From Stdlib Require Import Sorted Permutation OrderedTypeEx.
From Stdlib Require PrimFloat Uint63.
From stdpp Require Import base gmap strings list.
Import ListNotations.

Local Open Scope string_scope.
Local Open Scope list_scope.
Local Open Scope nat_scope.

(* ================================================================== *)
(** * Part I. The embedding *)
(* ================================================================== *)

(** ** GENERAL *)

(** Sorting.  [sorted(xs, key=...)], which Python guarantees to be stable,
    is modelled by a stable insertion sort over a boolean "less or equal":
    an element is placed in front of the first element it is less than or
    equal to, so equal elements keep the order they had in the input. *)
Section StableSort.
Context {A : Type} (le : A → A → bool).

Fixpoint sorted_insert (x : A) (l : list A) : list A :=
  match l with
  | [] => [x]
  | y :: l' => if le x y then x :: y :: l' else y :: sorted_insert x l'
  end.

Fixpoint stable_sort (l : list A) : list A :=
  match l with
  | [] => []
  | x :: l' => sorted_insert x (stable_sort l')
  end.
End StableSort.

(** ** Arrays

    One-dimensional arrays are lists, two-dimensional arrays are lists of
    rows.  Shapes are not part of the types: where numpy would raise on
    arrays of mismatched shapes the functions below truncate, and the
    theorems state the shapes they assume. *)

Abbreviation vector := (list R).
Abbreviation matrix := (list (list R)).

#[global] Instance Req_decision : EqDecision R := Req_EM_T.
#[global] Instance Rle_decision (x y : R) : Decision (x <= y)%R := Rle_dec x y.
#[global] Instance Rlt_decision (x y : R) : Decision (x < y)%R := Rlt_dec x y.

(** [xs[mask]] for a boolean mask. *)
Definition mask_select {A} (mask : list bool) (xs : list A) : list A :=
  snd <$> filter (λ bx, bx.1 = true) (zip mask xs).

(** [xs[mask] = vs], generalised: the positions of [xs] where the mask is
    true are updated, in order, with the successive elements of [vs]. *)
Fixpoint mask_update {T V} (f : T → V → T)
    (mask : list bool) (xs : list T) (vs : list V) : list T :=
  match mask, xs with
  | b :: mask', x :: xs' =>
      if b then
        match vs with
        | v :: vs' => f x v :: mask_update f mask' xs' vs'
        | [] => x :: xs'
        end
      else x :: mask_update f mask' xs' vs
  | _, _ => xs
  end.

Definition mask_assign {T} (mask : list bool) (xs vs : list T) : list T :=
  mask_update (λ _ v, v) mask xs vs.

(** Two masks that are never both [True] at the same position. *)
Definition disjoint_masks (m1 m2 : list bool) : Prop :=
  ∀ i, m1 !! i = Some true → m2 !! i ≠ Some true.

(** [A[np.ix_(rm, cm)]] and [M[np.ix_(rm, cm)] = V]. *)
Definition ix_select (rm cm : list bool) (A : matrix) : matrix :=
  mask_select cm <$> mask_select rm A.

Definition ix_assign (rm cm : list bool) (M V : matrix) : matrix :=
  mask_update (λ row vrow, mask_assign cm row vrow) rm M V.

Definition sum_list (v : vector) : R := fold_right Rplus 0%R v.

Definition dot (u v : vector) : R := sum_list (zip_with Rmult u v).

Definition transpose_w {A} (w : nat) (M : list (list A)) : list (list A) :=
  fold_right (zip_with cons) (replicate w []) M.

Definition ncols {A} (M : list (list A)) : nat :=
  match M with
  | [] => 0
  | row :: _ => length row
  end.

Definition transpose {A} (M : list (list A)) : list (list A) :=
  transpose_w (ncols M) M.

(** [A.dot(v)] and [A.dot(B)]. *)
Definition matvec (A : matrix) (v : vector) : vector :=
  (λ a : vector, dot a v) <$> A.

Definition matmul (A B : matrix) : matrix :=
  (λ a : vector, (λ c, dot a c) <$> transpose B) <$> A.

Definition eye (n : nat) : matrix :=
  (λ i, (λ j, if decide (i = j) then 1%R else 0%R) <$> seq 0 n) <$> seq 0 n.

Definition zeros_like (A : matrix) : matrix :=
  (λ row : vector, (λ _, 0%R) <$> row) <$> A.

Definition madd (A B : matrix) : matrix := zip_with (zip_with Rplus) A B.

Definition mscale (c : R) (A : matrix) : matrix :=
  (λ row : vector, Rmult c <$> row) <$> A.

(** The matrix with entries [f i j], and the entry [M[i, j]] read with
    default 0: every [n] by [m] matrix is the table of its entries. *)
Definition tab (n m : nat) (f : nat → nat → R) : matrix :=
  (λ i, (λ j, f i j) <$> seq 0 m) <$> seq 0 n.

Definition mget (M : matrix) (i j : nat) : R := nth j (nth i M []) 0%R.

(** The sum of [f k] for [k < n]. *)
Definition big_sum (n : nat) (f : nat → R) : R := sum_list (f <$> seq 0 n).

(** The number of positions a mask selects among the first [i], that is
    the place of position [i] in a masked selection. *)
Definition rank (mask : list bool) (i : nat) : nat :=
  length (filter (λ b, b = true) (take i mask)).

(** The positions a mask selects, in increasing order. *)
Definition positions (mask : list bool) : list nat :=
  mask_select mask (seq 0 (length mask)).

(** The [r] by [c] matrix of zeros. *)
Definition zeros (r c : nat) : matrix := replicate r (replicate c 0%R).

(** [A[i, j]], when it exists. *)
Definition entry (A : matrix) (i j : nat) : option R :=
  row ← A !! i; row !! j.

(** The right-hand side of [A.dot(B)] in [block_AB] is a vector in some
    calls and a matrix in others: an array of rows of type [T]. *)
Class NdRows (T : Type) : Type := {
  zeros_like_rows : list T → list T;       (* [np.zeros(B.shape)] *)
  dot_rows : matrix → list T → list T      (* [A.dot(B)] *)
}.

#[global] Instance vector_rows : NdRows R := {|
  zeros_like_rows v := (λ _ : R, 0%R) <$> v;
  dot_rows := matvec
|}.

#[global] Instance matrix_rows : NdRows (list R) := {|
  zeros_like_rows := zeros_like;
  dot_rows := matmul
|}.

(** The library routines the code calls.  [None] stands for the exception
    the routine raises ([LinAlgError]; [ValueError] for the regression,
    which sklearn raises for instance on an [X] without rows). *)
Class Libraries : Type := {
  cholesky : matrix → option matrix;      (* [np.linalg.cholesky] *)
  inv : matrix → option matrix;           (* [np.linalg.inv] *)
  eigvalsh : matrix → vector;             (* [np.linalg.eigvalsh] *)
  (* [LinearRegression(fit_intercept=False).fit(X, y).coef_] *)
  linreg_fit : matrix → vector → option vector
}.

(** The routines on one-by-one matrices and on a single regressor; this
    instance serves to evaluate the model on small inputs. *)
Definition cholesky_1x1 (M : matrix) : option matrix :=
  match M with
  | [[a]] => if decide (0 < a)%R then Some [[sqrt a]] else None
  | _ => None
  end.

Definition inv_1x1 (M : matrix) : option matrix :=
  match M with
  | [[a]] => if decide (a = 0%R) then None else Some [[(/ a)%R]]
  | _ => None
  end.

(** The eigenvalues of a diagonal matrix are its diagonal entries. *)
Definition eigvalsh_diag (M : matrix) : vector :=
  imap (λ i (row : vector), nth i row 0%R) M.

Definition linreg_fit_1 (X : matrix) (y : vector) : option vector :=
  match X with
  | [] => None
  | _ => let x := (λ row : vector, nth 0 row 0%R) <$> X in
         Some [(dot x y / dot x x)%R]
  end.

Definition small_libraries : Libraries := {|
  cholesky := cholesky_1x1;
  inv := inv_1x1;
  eigvalsh := eigvalsh_diag;
  linreg_fit := linreg_fit_1
|}.

(** The same on matrices with one or two rows.  As [np.linalg.cholesky]
    does, the factorisation reads the lower triangle only and raises when
    a pivot is not positive. *)
Definition cholesky_2x2 (M : matrix) : option matrix :=
  match M with
  | [[a]] => if decide (0 < a)%R then Some [[sqrt a]] else None
  | [[a; _]; [c; d]] =>
      if decide (0 < a)%R then
        let l21 := (c / sqrt a)%R in
        if decide (0 < d - l21 * l21)%R
        then Some [[sqrt a; 0%R]; [l21; sqrt (d - l21 * l21)]]
        else None
      else None
  | _ => None
  end.

Definition inv_2x2 (M : matrix) : option matrix :=
  match M with
  | [[a]] => if decide (a = 0%R) then None else Some [[(/ a)%R]]
  | [[a; b]; [c; d]] =>
      let det := (a * d - b * c)%R in
      if decide (det = 0%R) then None
      else Some [[(d / det)%R; (- b / det)%R]; [(- c / det)%R; (a / det)%R]]
  | _ => None
  end.

Definition small_libraries_2x2 : Libraries := {|
  cholesky := cholesky_2x2;
  inv := inv_2x2;
  eigvalsh := eigvalsh_diag;
  linreg_fit := linreg_fit_1
|}.

(** ** PROCESSING DATA *)

(** [block_labels == l] *)
Definition subset_ind (block_labels : list string) (l : string) : list bool :=
  (λ x, bool_decide (x = l)) <$> block_labels.

(** [set(block_labels)], iterated in order of first occurrence.  Python
    does not fix the order in which a set is iterated; the loops below
    return the same result for every order (section [IterationOrder]). *)
Definition py_set (block_labels : list string) : list string :=
  remove_dups block_labels.

(** The bodies of the three loops over [set(block_labels)]. *)
Definition block_Linv_body `{Libraries} (A : matrix)
    (block_labels : list string) (Linv : option matrix) (l : string)
    : option matrix :=
  Linv ← Linv;
  let subset_ind := subset_ind block_labels l in
  let sub_A := ix_select subset_ind subset_ind A in
  L ← cholesky sub_A;
  Li ← inv L;
  Some (ix_assign subset_ind subset_ind Linv Li).

Definition block_AB_body `{NdRows T} (A : matrix)
    (block_labels : list string) (B new_B : list T) (l : string) : list T :=
  let subset_ind := subset_ind block_labels l in
  mask_assign subset_ind new_B
    (dot_rows (ix_select subset_ind subset_ind A) (mask_select subset_ind B)).

Definition block_BA_body (A : matrix) (block_labels : list string)
    (B new_B : matrix) (l : string) : matrix :=
  let subset_ind := subset_ind block_labels l in
  zip_with (mask_assign subset_ind) new_B
    (matmul (mask_select subset_ind <$> B)
            (ix_select subset_ind subset_ind A)).

Definition block_Linv `{Libraries} (A : matrix) (block_labels : list string)
    : option matrix :=
  fold_left (block_Linv_body A block_labels)
    (py_set block_labels) (Some (zeros_like A)).

Definition block_AB `{NdRows T} (A : matrix) (block_labels : list string)
    (B : list T) : list T :=
  fold_left (block_AB_body A block_labels B)
    (py_set block_labels) (zeros_like_rows B).

Definition block_BA (A : matrix) (block_labels : list string) (B : matrix)
    : matrix :=
  fold_left (block_BA_body A block_labels B)
    (py_set block_labels) (zeros_like B).

(** [M] has [n] rows of [n] entries. *)
Definition square (n : nat) (M : matrix) : Prop :=
  length M = n ∧ Forall (λ row, length row = n) M.

(** The quadratic form [x . M x], and "[lam] bounds it from below on the
    unit sphere": for a symmetric [M], this says that the smallest
    eigenvalue of [M] is at least [lam] (Rayleigh quotient). *)
Definition quad_form (M : matrix) (x : vector) : R := dot x (matvec M x).

Definition rayleigh_bound (M : matrix) (lam : R) : Prop :=
  ∀ x, length x = length M → (lam * dot x x <= quad_form M x)%R.

Definition symmetric (M : matrix) : Prop := ∀ i j, mget M i j = mget M j i.

Definition positive_definite (M : matrix) : Prop :=
  ∀ x, length x = length M → (∃ a, a ∈ x ∧ a ≠ 0%R) →
       (0 < quad_form M x)%R.

(** The block of label [c]. *)
Definition block_of (labels : list string) (c : string) (A : matrix) : matrix :=
  ix_select (subset_ind labels c) (subset_ind labels c) A.

(** [inv(cholesky(A[l, l]))] for the block of label [l], when both
    routines return. *)
Definition block_inverse_factor `{Libraries} (labels : list string)
    (A : matrix) (l : string) : matrix :=
  default [] (cholesky (block_of labels l A) ≫= inv).

(** The state of [Linv] in the loop of [block_Linv] once the blocks of the
    labels in [done] have been assigned: those blocks hold their inverse
    factor and every other block is zero. *)
Definition blocks_assigned `{Libraries} (labels : list string) (A : matrix)
    (n : nat) (done : list string) (Linv : matrix) : Prop :=
  square n Linv
  ∧ ∀ b l, ix_select (subset_ind labels b) (subset_ind labels l) Linv
           = if decide (b = l ∧ b ∈ done)
             then block_inverse_factor labels A b
             else zeros (length (positions (subset_ind labels b)))
                        (length (positions (subset_ind labels l))).

(** Two matrices of one shape that agree on every entry whose row and
    column carry the same block label. *)
Definition same_shape (A A' : matrix) : Prop :=
  length <$> A = length <$> A'.

Definition agree_within_blocks (block_labels : list string) (A A' : matrix)
    : Prop :=
  ∀ i j l, block_labels !! i = Some l → block_labels !! j = Some l →
           entry A i j = entry A' i j.

(** The gene annotation table, indexed by ENSGID. *)
Record gene_annot : Type := mk_annot {
  CHR : string;
  TSS : Z
}.

(** [gene_annot_df.loc[genes].CHR.values]; an unknown gene raises
    [KeyError]. *)
Definition loc_CHR (gene_annot_df : gmap string gene_annot)
    (genes : list string) : option (list string) :=
  mapM (λ g, CHR <$> gene_annot_df !! g) genes.

(** [np.var]: the population variance. *)
Definition np_mean (v : vector) : R := (sum_list v / INR (length v))%R.

Definition np_var (v : vector) : R :=
  np_mean ((λ y, (y - np_mean v) * (y - np_mean v))%R <$> v).

(** Python's [min] of a sequence; [ValueError] on an empty one. *)
Definition py_min (W : vector) : option R :=
  match W with
  | [] => None
  | w :: W' => Some (fold_left Rmin W' w)
  end.

(** The loop of [regularize_error_cov] that computes [min_lambda]. *)
Definition min_lambda_body `{Libraries} (error_cov : matrix)
    (Y_chr : list string) (min_lambda : option R) (c : string) : option R :=
  min_lambda ← min_lambda;
  let subset_ind := subset_ind Y_chr c in
  let W := eigvalsh (ix_select subset_ind subset_ind error_cov) in
  w ← py_min W;
  Some (Rmin min_lambda w).

Definition min_lambda_loop `{Libraries} (error_cov : matrix)
    (Y_chr : list string) : option R :=
  fold_left (min_lambda_body error_cov Y_chr) (py_set Y_chr) (Some 0%R).

Definition ridge_of (min_lambda : R) (Y : vector) : R :=
  (Rabs (Rmin min_lambda 0) + 5 / 100 + 9 / 10 * Rmax 0 (np_var Y - 1))%R.

Definition regularize_error_cov `{Libraries} (error_cov : matrix) (Y : vector)
    (Y_indices : list string) (gene_annot_df : gmap string gene_annot)
    : option matrix :=
  Y_chr ← loc_CHR gene_annot_df Y_indices;
  min_lambda ← min_lambda_loop error_cov Y_chr;
  let ridge := ridge_of min_lambda Y in
  Some (madd error_cov (mscale ridge (eye (length error_cov)))).

(** [np.isclose(a, b)] with the default tolerances [rtol=1e-05] and
    [atol=1e-08]. *)
Definition np_isclose (a b : R) : bool :=
  bool_decide (Rabs (a - b) <= / 100000000 + / 100000 * Rabs b)%R.

(** [get_hla_genes]: the index of the genes on chromosome "6" whose TSS lies
    between 20 Mb and 40 Mb, both included. *)
Definition get_hla_genes (gene_annot_df : gmap string gene_annot) : gset string :=
  let sub_gene_annot_df := filter (λ kv, CHR kv.2 = "6") gene_annot_df in
  let sub_gene_annot_df :=
    filter (λ kv, (20 * 10 ^ 6 <= TSS kv.2)%Z) sub_gene_annot_df in
  let sub_gene_annot_df :=
    filter (λ kv, (TSS kv.2 <= 40 * 10 ^ 6)%Z) sub_gene_annot_df in
  dom sub_gene_annot_df.

Definition get_gene_indices_to_use (Y_indices : list string)
    (gene_annot_df : gmap string gene_annot) (use_chrs : list string)
    (remove_hla : bool) : list bool :=
  let all_chr_genes_set : gset string :=
    dom (filter (λ kv, CHR kv.2 ∈ use_chrs) gene_annot_df) in
  if remove_hla then
    let hla_genes_set := get_hla_genes gene_annot_df in
    (λ g, bool_decide (g ∈ all_chr_genes_set)
          && negb (bool_decide (g ∈ hla_genes_set))) <$> Y_indices
  else
    (λ g, bool_decide (g ∈ all_chr_genes_set)) <$> Y_indices.

(** Lines 167-169 of [project_out_covariates]: a column of ones is appended
    unless some column has a variance close to zero. *)
Definition add_intercept_if_missing (covariates : matrix) : matrix :=
  if existsb (λ v, np_isclose v 0) (np_var <$> transpose covariates)
  then covariates
  else (λ row : vector, row ++ [1%R]) <$> covariates.

(** [xs[fitting_indices]] for the boolean array [get_gene_indices_to_use]
    returns: numpy raises [IndexError] when the mask is not as long as the
    array.  Without any gene the mask is [np.array([])], a float array,
    which numpy rejects as an index ([IndexError]). *)
Definition bool_index {A} (mask : list bool) (xs : list A)
    : option (list A) :=
  if decide (mask ≠ [] ∧ length mask = length xs)
  then Some (mask_select mask xs) else None.

(** [error_cov[np.ix_(mask, mask)]]: [np.ix_] turns the mask into the
    positions it selects, and a position beyond the rows or the columns of
    the matrix raises [IndexError]. *)
Definition ix_index (mask : list bool) (E : matrix) : option matrix :=
  if decide (Forall (λ i, i < length E ∧ i < ncols E) (positions mask))
  then Some (ix_select mask mask E) else None.

(** Lines 172-176: the training rows are whitened when an error covariance
    is supplied. *)
Definition whiten_training `{Libraries} (error_cov : option matrix)
    (fitting_indices : list bool) (Y_indices : list string)
    (gene_annot_df : gmap string gene_annot)
    (X_train : matrix) (y_train : vector) : option (matrix * vector) :=
  match error_cov with
  | Some error_cov =>
      sub_error_cov ← ix_index fitting_indices error_cov;
      sub_error_cov_labels ←
        loc_CHR gene_annot_df (mask_select fitting_indices Y_indices);
      Linv ← block_Linv sub_error_cov sub_error_cov_labels;
      Some (block_AB Linv sub_error_cov_labels X_train,
            block_AB Linv sub_error_cov_labels y_train)
  | None => Some (X_train, y_train)
  end.

(** Lines 166-181: the covariates after the intercept check, and the
    coefficients of the model fitted on the training rows ([coef_] has one
    entry per column of [X_train]). *)
Definition fit_covariate_model `{Libraries} (Y : vector) (covariates : matrix)
    (error_cov : option matrix) (Y_indices : list string)
    (gene_annot_df : gmap string gene_annot) (use_chrs : list string)
    (remove_hla : bool) : option (matrix * vector) :=
  let covariates := add_intercept_if_missing covariates in
  let fitting_indices :=
    get_gene_indices_to_use Y_indices gene_annot_df use_chrs remove_hla in
  X_train ← bool_index fitting_indices covariates;
  y_train ← bool_index fitting_indices Y;
  train ← whiten_training error_cov fitting_indices Y_indices gene_annot_df
            X_train y_train;
  coef ← linreg_fit train.1 train.2;
  Some (covariates, coef).

(** [Y - reg.predict(covariates)]: the prediction of a model without
    intercept is [covariates.dot(coef)]. *)
Definition project_out_covariates `{Libraries} (Y : vector)
    (covariates : matrix) (error_cov : option matrix)
    (Y_indices : list string) (gene_annot_df : gmap string gene_annot)
    (use_chrs : list string) (remove_hla : bool) : option vector :=
  model ← fit_covariate_model Y covariates error_cov Y_indices gene_annot_df
            use_chrs remove_hla;
  Some (zip_with Rminus Y (matvec model.1 model.2)).

(** [get_indices_in_target_order]: the dictionary [ref_to_ind_mapper] is
    filled by one pass over [enumerate(ref_list)]; a later occurrence of a
    name overwrites the index stored by an earlier one. *)
Definition ref_to_ind_mapper (ref_list : list string) : gmap string nat :=
  fold_left (λ m ie, <[ie.2 := ie.1]> m) (imap pair ref_list) ∅.

(** The list comprehension looks every target name up; a missing key raises
    [KeyError], modelled by [None]. *)
Definition get_indices_in_target_order
    (ref_list target_names : list string) : option (list nat) :=
  mapM (λ t, ref_to_ind_mapper ref_list !! t) target_names.

(** [a[inds]] for a one-dimensional array and a list of positions
    ([IndexError], i.e. [None], when a position is out of range). *)
Definition fancy_index {A} (a : list A) (inds : list nat) : option (list A) :=
  mapM (λ i, a !! i) inds.

(** Lines 318-324 of [build_training], reduced to the row identifiers:
    [None] when an exception is raised before the [assert] is evaluated,
    [Some b] when the asserted condition evaluates to [b].  An empty
    comprehension gives [np.array([])], a float array, which numpy rejects
    as an index ([IndexError]) on the line before the assertion. *)
Definition build_training_assertion
    (rows training_genes : list string) : option bool :=
  X_train_inds ← get_indices_in_target_order rows training_genes;
  match X_train_inds with
  | [] => None
  | _ => picked ← fancy_index rows X_train_inds;
         Some (bool_decide (picked = training_genes))
  end.

(** Position [i] holds the last occurrence of [t] in [ref_list]. *)
Definition last_position (ref_list : list string) (t : string) (i : nat) : Prop :=
  ref_list !! i = Some t ∧ ∀ j, ref_list !! j = Some t → j ≤ i.

(** ** FEATURE SELECTION: marginal regression *)

(** [batch_marginal_ols] works on IEEE doubles, where a division by zero
    yields an infinity or a NaN (the function sets [np.seterr] to ignore it)
    and NaN propagates.  The arithmetic and the numpy and scipy routines are
    the fields of an interface; the results hold for every implementation
    of it. *)
Class Float64 : Type := {
  float : Type;
  f_one : float;
  f_nan : float;
  f_sub : float → float → float;
  f_mul : float → float → float;
  f_div : float → float → float;
  f_sqrt : float → float;                   (* [np.sqrt] *)
  f_sum : list float → float;               (* [np.sum] along one column *)
  f_mean : list float → float;              (* [np.mean] along one column *)
  f_var : list float → float;               (* [np.var] *)
  f_dot : list float → list float → float;  (* one entry of [Y.dot(X)] *)
  f_isclose0 : float → bool;                (* [np.isclose(x, 0)] *)
  chi2_sf : float → float                   (* [scipy.stats.chi2.sf(x, 1)] *)
}.

(** [xs[mask] = v] for a scalar [v]. *)
Definition mask_fill {A} (mask : list bool) (xs : list A) (v : A) : list A :=
  zip_with (λ (b : bool) x, if b then v else x) mask xs.

Section BatchMarginalOls.
Context `{Float64}.

Definition f_square (a : float) : float := f_mul a a.

(** The matrix [X] is given by its columns, one list per feature. *)
Definition sum_sq_X (X : list (list float)) : list float :=
  (λ x, f_sum (f_square <$> x)) <$> X.

Definition near_const_0 (X : list (list float)) : list bool :=
  f_isclose0 <$> sum_sq_X X.

Definition sum_sq_X_safe (X : list (list float)) : list float :=
  mask_fill (near_const_0 X) (sum_sq_X X) f_one.

(** [np.mean(np.square(Y.reshape(-1,1) - X * betas), axis=0)], for the
    column [x] and its coefficient [b]. *)
Definition column_mse (Y x : list float) (b : float) : float :=
  f_mean (zip_with (λ y a, f_square (f_sub y (f_mul a b))) Y x).

Definition batch_marginal_ols (Y : list float) (X : list (list float))
    : list float * list float * list float * list float :=
  let betas := zip_with f_div ((λ x, f_dot Y x) <$> X) (sum_sq_X_safe X) in
  let mse := zip_with (column_mse Y) X betas in
  let se := zip_with (λ m s, f_sqrt (f_div m s)) mse (sum_sq_X_safe X) in
  let z := zip_with f_div betas se in
  let chi2 := f_square <$> z in
  let pvals := chi2_sf <$> chi2 in
  let r2 := (λ m, f_sub f_one (f_div m (f_var Y))) <$> mse in
  (mask_fill (near_const_0 X) betas f_nan,
   mask_fill (near_const_0 X) se f_nan,
   mask_fill (near_const_0 X) pvals f_nan,
   mask_fill (near_const_0 X) r2 f_nan).

(** The ordinary univariate regression of [Y] on one column [x], without
    intercept and without any guard: beta, standard error, p-value, R2. *)
Definition univariate_ols (Y x : list float) : float * float * float * float :=
  let ssq := f_sum (f_square <$> x) in
  let b := f_div (f_dot Y x) ssq in
  let mse := column_mse Y x b in
  let s := f_sqrt (f_div mse ssq) in
  (b, s, chi2_sf (f_square (f_div b s)),
   f_sub f_one (f_div mse (f_var Y))).

End BatchMarginalOls.

(** Binary64 arithmetic with left-to-right sums, to evaluate the model on
    small inputs.  The chi-squared survival function is not computed: this
    instance returns NaN for it. *)
Definition binary64_sum (l : list PrimFloat.float) : PrimFloat.float :=
  fold_left PrimFloat.add l PrimFloat.zero.

Definition binary64_mean (l : list PrimFloat.float) : PrimFloat.float :=
  PrimFloat.div (binary64_sum l) (PrimFloat.of_uint63 (Uint63.of_Z (Z.of_nat (length l)))).

Definition binary64 : Float64 := {|
  float := PrimFloat.float;
  f_one := PrimFloat.one;
  f_nan := PrimFloat.nan;
  f_sub := PrimFloat.sub;
  f_mul := PrimFloat.mul;
  f_div := PrimFloat.div;
  f_sqrt := PrimFloat.sqrt;
  f_sum := binary64_sum;
  f_mean := binary64_mean;
  f_var l :=
    binary64_mean
      ((λ a, let d := PrimFloat.sub a (binary64_mean l) in PrimFloat.mul d d)
         <$> l);
  f_dot u v := binary64_sum (zip_with PrimFloat.mul u v);
  f_isclose0 a :=
    PrimFloat.leb (PrimFloat.abs a)
      (PrimFloat.div PrimFloat.one
         (PrimFloat.of_uint63 (Uint63.of_Z 100000000)));
  chi2_sf _ := PrimFloat.nan
|}.

(** ** PROCESSING DATA: [regularize_error_cov] on IEEE doubles

    The ridge of [regularize_error_cov] is a sum of doubles, and adding it
    to the diagonal rounds again.  The definitions of this module are
    [regularize_error_cov] once more, with every operation of the source in
    binary64: Python's [min(a, b)] and [max(a, b)] return their second
    argument only when it compares strictly below (above) the first,
    [abs(...) + .05 + .9 * max(...)] associates to the left, and
    [np.eye(n) * ridge] multiplies every entry of the identity, the zeros
    too.  The integer [0] the source starts [min_lambda] with only enters
    comparisons and a sum with a double, where it behaves as [0.0].
    [np.linalg.eigvalsh] and [np.var] are the fields of an interface;
    [eigvalsh] raises [LinAlgError] when the eigenvalue computation does
    not converge. *)
Module Binary64.
Import PrimFloat.
#[local] Set Warnings "-inexact-float".

Local Abbreviation f64 := PrimFloat.float.

Class Numpy : Type := {
  eigvalsh : list (list f64) → option (list f64); (* [np.linalg.eigvalsh] *)
  np_var : list f64 → f64                         (* [np.var] *)
}.

Definition py_min2 (a b : f64) : f64 := if ltb b a then b else a.

Definition py_max2 (a b : f64) : f64 := if ltb a b then b else a.

(** Python's [min] of a sequence; [ValueError] on an empty one. *)
Definition py_min (W : list f64) : option f64 :=
  match W with
  | [] => None
  | w :: W' => Some (fold_left py_min2 W' w)
  end.

Definition ix_select (rm cm : list bool) (A : list (list f64))
    : list (list f64) :=
  mask_select cm <$> mask_select rm A.

Definition entry (A : list (list f64)) (i j : nat) : option f64 :=
  row ← A !! i; row !! j.

Definition min_lambda_body `{Numpy} (error_cov : list (list f64))
    (Y_chr : list string) (min_lambda : option f64) (c : string)
    : option f64 :=
  min_lambda ← min_lambda;
  let subset_ind := subset_ind Y_chr c in
  W ← eigvalsh (ix_select subset_ind subset_ind error_cov);
  w ← py_min W;
  Some (py_min2 min_lambda w).

Definition min_lambda_loop `{Numpy} (error_cov : list (list f64))
    (Y_chr : list string) : option f64 :=
  fold_left (min_lambda_body error_cov Y_chr) (py_set Y_chr) (Some 0%float).

Definition ridge_of `{Numpy} (min_lambda : f64) (Y : list f64) : f64 :=
  (abs (py_min2 min_lambda 0) + 0.05
   + 0.9 * py_max2 0 (np_var Y - 1))%float.

Definition eye (n : nat) : list (list f64) :=
  (λ i, (λ j, if decide (i = j) then 1%float else 0%float) <$> seq 0 n)
    <$> seq 0 n.

Definition regularize_error_cov `{Numpy} (error_cov : list (list f64))
    (Y : list f64) (Y_indices : list string)
    (gene_annot_df : gmap string gene_annot) : option (list (list f64)) :=
  Y_chr ← loc_CHR gene_annot_df Y_indices;
  min_lambda ← min_lambda_loop error_cov Y_chr;
  let ridge := ridge_of min_lambda Y in
  Some (zip_with (zip_with add) error_cov
          ((λ row : list f64, (λ e, e * ridge)%float <$> row)
             <$> eye (length error_cov))).

(** An implementation to evaluate the model on small inputs: the
    eigenvalues of a diagonal matrix are its diagonal entries, and the
    variance is computed with left-to-right sums. *)
Definition small_numpy : Numpy := {|
  eigvalsh M := Some (imap (λ i (row : list f64), nth i row 0%float) M);
  np_var := @f_var binary64
|}.

End Binary64.

(** ** FEATURE SELECTION: the marginal association table *)

(** A float of the table: [nan] or a number. *)
Inductive fl : Type :=
  | nan : fl
  | num : Q → fl.

Record assoc_row : Type := mk_row {
  feature : string;   (* the index label *)
  beta : fl;
  se : fl;
  pval : fl;
  r2 : fl
}.

Abbreviation marginal_assoc_df := (list assoc_row).

Definition Qltb (a b : Q) : bool := negb (Qle_bool b a).

(** [a < b] on floats: false as soon as one side is [nan]. *)
Definition fl_ltb (a b : fl) : bool :=
  match a, b with
  | num x, num y => Qltb x y
  | _, _ => false
  end.

(** [pd.isnull] *)
Definition isnull (a : fl) : bool :=
  match a with nan => true | num _ => false end.

(** The order [sort_values] uses: ascending, undefined values last. *)
Definition sort_le (a b : fl) : bool :=
  match a, b with
  | _, nan => true
  | nan, num _ => false
  | num x, num y => Qle_bool x y
  end.

(** [df.sort_values("pval")].  pandas sorts with numpy's quicksort, which
    is not stable: the rows come out in ascending order of p-value with the
    undefined values last, and rows with equal p-values in an order that is
    the library's choice.  The routine is the field of an interface, and
    [sort_values_contract] is what the theorems assume of it: the result is
    a rearrangement of the rows in the order [sort_le]. *)
Class Pandas : Type := {
  sort_values_pval : marginal_assoc_df → marginal_assoc_df
}.

Definition sort_values_contract `{Pandas} : Prop :=
  ∀ df, sort_values_pval df ≡ₚ df
        ∧ StronglySorted (λ r r', sort_le (pval r) (pval r') = true)
            (sort_values_pval df).

(** An instance for examples: the stable sort, in which rows with equal
    p-values keep their table order. *)
Definition stable_pandas : Pandas := {|
  sort_values_pval := stable_sort (λ r r', sort_le (pval r) (pval r'))
|}.

(** [df.iloc[:n]] with Python's slice rule for a negative bound. *)
Definition iloc_upto {A} (n : Z) (l : list A) : list A :=
  if (n <? 0)%Z then take (Z.to_nat (Z.of_nat (length l) + n)) l
  else take (Z.to_nat n) l.

(** [df.index.isin(names)], row by row. *)
Definition index_isin (names : list string) (r : assoc_row) : bool :=
  bool_decide (feature r ∈ names).

(** [df.loc[labels]] with a list of labels: for each label in turn, all rows
    carrying it, in table order; a label carried by no row raises
    [KeyError]. *)
Definition loc_label (df : marginal_assoc_df) (l : string)
    : option marginal_assoc_df :=
  match filter (λ r, feature r = l) df with
  | [] => None
  | rs => Some rs
  end.

Definition loc_labels (df : marginal_assoc_df) (labels : list string)
    : option marginal_assoc_df :=
  rss ← mapM (loc_label df) labels; Some (List.concat rss).

(** The selection criteria; [None] stands for Python's [None].  The two
    paths are represented by the name lists [np.loadtxt] reads from them. *)
Record criteria : Type := mk_criteria {
  subset_features : option (list string);
  control_features : option (list string);
  feature_selection_p_cutoff : option fl;
  feature_selection_max_num : option Z
}.

(** Step 1: subset to [subset_features]. *)
Definition step_subset (c : criteria) (df : marginal_assoc_df)
    : option marginal_assoc_df :=
  match subset_features c with
  | Some names => loc_labels df names
  | None => Some df
  end.

(** Step 2: the control rows set aside, and the rows that remain. *)
Definition control_df (c : criteria) (df : marginal_assoc_df)
    : marginal_assoc_df :=
  match control_features c with
  | Some names => filter (λ r, index_isin names r = true) df
  | None => []
  end.

Definition step_control (c : criteria) (df : marginal_assoc_df)
    : marginal_assoc_df :=
  match control_features c with
  | Some names => filter (λ r, negb (index_isin names r) = true) df
  | None => df
  end.

(** Step 3: the p-value cutoff. *)
Definition step_cutoff (c : criteria) (df : marginal_assoc_df)
    : marginal_assoc_df :=
  match feature_selection_p_cutoff c with
  | Some cut => filter (λ r, fl_ltb (pval r) cut = true) df
  | None => df
  end.

(** Step 4: the maximum number of features. *)
Definition step_max_num `{Pandas} (c : criteria) (df : marginal_assoc_df)
    : marginal_assoc_df :=
  match feature_selection_max_num c with
  | Some n => iloc_upto n (sort_values_pval df)
  | None => df
  end.

(** The rows of the table that survive steps 2 to 4. *)
Definition surviving_rows `{Pandas} (c : criteria) (df : marginal_assoc_df)
    : marginal_assoc_df :=
  step_max_num c (step_cutoff c (step_control c df)).

Definition select_features_from_marginal_assoc_df `{Pandas}
    (df : marginal_assoc_df) (c : criteria) : option (list string) :=
  df1 ← step_subset c df;
  Some ((feature <$> surviving_rows c df1) ++ (feature <$> control_df c df1)).

(** Lines 513-523 of [main]: the [selected] column of the table, and the
    redefined [selected_features]. *)
Definition main_selected_column `{Pandas}
    (df : marginal_assoc_df) (c : criteria) : option (list bool) :=
  selected_features ← select_features_from_marginal_assoc_df df c;
  Some ((λ r, index_isin selected_features r && negb (isnull (pval r))) <$> df).

Definition main_selected_features `{Pandas}
    (df : marginal_assoc_df) (c : criteria) : option (list string) :=
  selected ← main_selected_column df c;
  Some (mask_select selected (feature <$> df)).

(** The table restricted to the rows whose label is in [names]. *)
Definition restrict_to (names : list string) (df : marginal_assoc_df)
    : marginal_assoc_df :=
  filter (λ r, index_isin names r = true) df.

(** ** Natural sort order of shard identifiers *)

Definition is_digit (a : ascii) : bool :=
  (48 <=? nat_of_ascii a) && (nat_of_ascii a <=? 57).

(** [re.split(r'(\d+)', s)]: the pieces of [s] between maximal runs of
    digits, with the runs themselves (the capture group) in between; the
    result starts and ends with a piece of text, possibly empty. *)
Fixpoint re_split_digits_from (in_digits : bool) (acc s : string) : list string :=
  match s with
  | EmptyString => if in_digits then [acc; ""] else [acc]
  | String a s' =>
      if is_digit a then
        if in_digits then re_split_digits_from true (acc +:+ String a "") s'
        else acc :: re_split_digits_from true (String a "") s'
      else
        if in_digits then acc :: re_split_digits_from false (String a "") s'
        else re_split_digits_from false (acc +:+ String a "") s'
  end.

Definition re_split_digits (s : string) : list string :=
  re_split_digits_from false "" s.

Fixpoint all_digits (s : string) : bool :=
  match s with
  | EmptyString => true
  | String a s' => is_digit a && all_digits s'
  end.

Fixpoint no_digit (s : string) : bool :=
  match s with
  | EmptyString => true
  | String c s' => negb (is_digit c) && no_digit s'
  end.

(** [s.isdigit()]: a non-empty string of digits. *)
Definition str_isdigit (s : string) : bool :=
  match s with
  | EmptyString => false
  | _ => all_digits s
  end.

(** [int(s)] for a string of decimal digits. *)
Fixpoint py_int_from (acc : N) (s : string) : N :=
  match s with
  | EmptyString => acc
  | String a s' => py_int_from (acc * 10 + (N_of_ascii a - 48))%N s'
  end.

Definition py_int (s : string) : N := py_int_from 0%N s.

(** The elements of a natural key: Python ints and strs in one list. *)
Inductive key_part : Type :=
  | key_int : N → key_part
  | key_str : string → key_part.

Definition natural_key (string_ : string) : list key_part :=
  (λ s, if str_isdigit s then key_int (py_int s) else key_str s)
    <$> re_split_digits string_.

(** [==] between list elements never raises; an int never equals a str. *)
Definition part_eqb (a b : key_part) : bool :=
  match a, b with
  | key_int m, key_int n => (m =? n)%N
  | key_str s, key_str t => String.eqb s t
  | _, _ => false
  end.

(** [<] between list elements; between an int and a str it raises
    [TypeError], modelled by [None]. *)
Definition part_ltb (a b : key_part) : option bool :=
  match a, b with
  | key_int m, key_int n => Some (m <? n)%N
  | key_str s, key_str t => Some (String.ltb s t)
  | _, _ => None
  end.

(** [a < b] on Python lists: the first position where the elements are not
    equal decides; a proper prefix is smaller. *)
Fixpoint key_ltb (a b : list key_part) : option bool :=
  match a, b with
  | [], [] => Some false
  | [], _ :: _ => Some true
  | _ :: _, [] => Some false
  | x :: a', y :: b' => if part_eqb x y then key_ltb a' b' else part_ltb x y
  end.

(** "[a] is not after [b]" in natural order.  The comparison of two natural
    keys never raises (lemma [natural_keys_comparable]), so the [None]
    branch is never taken. *)
Definition natural_le (a b : string) : bool :=
  match key_ltb (natural_key b) (natural_key a) with
  | Some true => false
  | _ => true
  end.

(** [sorted(xs, key=lambda x: natural_key(ident(x)))]; Python's sort is
    stable. *)
Definition sorted_natural {A} (ident : A → string) (xs : list A) : list A :=
  stable_sort (λ x y, natural_le (ident x) (ident y)) xs.

(** ** Loading the selected feature columns *)

(** One shard of the feature matrix on disk. *)
Record feature_shard : Type := mk_shard {
  file_id : string;           (* the piece of the file name before [.npy] *)
  shard_mat : list (list R);  (* [np.load(prefix_mat.<id>.npy)], genes by features *)
  shard_cols : list string    (* [np.loadtxt(prefix_cols.<id>.txt)] *)
}.

(** [np.hstack] of one-dimensional arrays; numpy raises [ValueError] on an
    empty sequence of arrays. *)
Definition np_hstack_1d {A} (arrs : list (list A)) : option (list A) :=
  match arrs with
  | [] => None
  | _ => Some (List.concat arrs)
  end.

(** [np.hstack] of two-dimensional arrays, which must agree on the number
    of rows. *)
Definition hstack_pair {A} (a b : list (list A)) : option (list (list A)) :=
  if decide (length a = length b) then Some (zip_with app a b) else None.

Definition np_hstack_2d {A} (arrs : list (list (list A)))
    : option (list (list A)) :=
  match arrs with
  | [] => None
  | m :: arrs' =>
      fold_left (λ acc m', acc ≫= λ a, hstack_pair a m') arrs' (Some m)
  end.

(** The body of the loop over the shards: [mat[:,keep_inds]] and
    [cols[keep_inds]] when a selection is given. *)
Definition keep_columns (selected_features : option (list string))
    (sh : feature_shard) : list (list R) * list string :=
  match selected_features with
  | Some sel =>
      let selected_features_set : gset string := list_to_set sel in
      let keep_inds :=
        (λ c, bool_decide (c ∈ selected_features_set)) <$> shard_cols sh in
      (mask_select keep_inds <$> shard_mat sh,
       mask_select keep_inds (shard_cols sh))
  | None => (shard_mat sh, shard_cols sh)
  end.

(** [load_feature_matrix]: [rows] is the content of [prefix_rows.txt] and
    [shards] are the shards the [glob] finds, in the order it lists them
    (in place of [feature_mat_prefix]). *)
Definition load_feature_matrix (rows : list string)
    (shards : list feature_shard) (selected_features : option (list string))
    : option (list (list R) * list string * list string) :=
  let loaded := keep_columns selected_features <$> sorted_natural file_id shards in
  mat ← np_hstack_2d (fst <$> loaded);
  cols ← np_hstack_1d (snd <$> loaded);
  Some (mat, cols, rows).

(** The entries of a matrix row that lie in the columns with a selected
    name. *)
Definition kept_entries (sel cols : list string) (row : list R) : list R :=
  mask_select ((λ c, bool_decide (c ∈ sel)) <$> cols) row.

(** A shard with [n] gene rows whose matrix has one column per name. *)
Definition shard_shape (n : nat) (sh : feature_shard) : Prop :=
  length (shard_mat sh) = n
  ∧ Forall (λ row, length row = length (shard_cols sh)) (shard_mat sh).

(** A total three-way comparison of keys, used to reason about [key_ltb]:
    it agrees with [key_ltb] wherever the latter is defined. *)
Definition part_cmp (a b : key_part) : comparison :=
  match a, b with
  | key_int m, key_int n => (m ?= n)%N
  | key_str s, key_str t => String.compare s t
  | key_int _, key_str _ => Lt
  | key_str _, key_int _ => Gt
  end.

Fixpoint key_cmp (a b : list key_part) : comparison :=
  match a, b with
  | [], [] => Eq
  | [], _ :: _ => Lt
  | _ :: _, [] => Gt
  | x :: a', y :: b' =>
      match part_cmp x y with
      | Eq => key_cmp a' b'
      | o => o
      end
  end.

(** Keys whose elements alternate between str and int; [true] when the next
    element is an int. *)
Fixpoint alternating (int_next : bool) (k : list key_part) : Prop :=
  match k with
  | [] => True
  | key_int _ :: k' => int_next = true ∧ alternating false k'
  | key_str _ :: k' => int_next = false ∧ alternating true k'
  end.

(** ** Projecting out the columns of a matrix *)

(** [M] has [n] rows of [m] entries. *)
Definition rect (n m : nat) (M : matrix) : Prop :=
  length M = n ∧ Forall (λ row, length row = m) M.

(** [A - B], entry by entry. *)
Definition msub (A B : matrix) : matrix := zip_with (zip_with Rminus) A B.

(** [project_out_V]: the residual of the columns of [M] after a regression
    on the columns of [V]; [np.linalg.inv] raises on a singular Gram
    matrix. *)
Definition project_out_V `{Libraries} (M V : matrix) : option matrix :=
  gram_inv ← inv (matmul (transpose V) V);
  let moment := matmul (transpose V) M in
  let betas := matmul gram_inv moment in
  let M_res := msub M (matmul V betas) in
  Some M_res.

(** ** MODEL FITTING *)

(** [mat[X_train_inds]]: the rows of [mat] at the given positions.  An
    empty list comprehension gives [np.array([])], a float array, which
    numpy rejects as an index ([IndexError]). *)
Definition index_rows (mat : matrix) (X_train_inds : list nat) : option matrix :=
  match X_train_inds with
  | [] => None
  | _ => fancy_index mat X_train_inds
  end.

(** Lines 322-324 of [build_training]: the feature rows of the training
    genes, looked up by name, and the assertion on the row names. *)
Definition training_rows (mat : matrix) (rows training_genes : list string)
    : option matrix :=
  X_train_inds ← get_indices_in_target_order rows training_genes;
  X ← index_rows mat X_train_inds;
  picked ← fancy_index rows X_train_inds;
  if bool_decide (picked = training_genes) then Some X else None.

(** Lines 326-332: the targets, the features and the intercept are whitened
    when an error covariance is supplied. *)
Definition whiten_training_set `{Libraries} (error_cov : option matrix)
    (gene_annot_df : gmap string gene_annot)
    (training_Y_gene_inds : list bool) (training_genes : list string)
    (sub_Y : vector) (X intercept : matrix)
    : option (vector * matrix * matrix) :=
  match error_cov with
  | Some error_cov =>
      let sub_error_cov :=
        ix_select training_Y_gene_inds training_Y_gene_inds error_cov in
      sub_error_cov_labels ← loc_CHR gene_annot_df training_genes;
      Linv ← block_Linv sub_error_cov sub_error_cov_labels;
      Some (block_AB Linv sub_error_cov_labels sub_Y,
            block_AB Linv sub_error_cov_labels X,
            block_AB Linv sub_error_cov_labels intercept)
  | None => Some (sub_Y, X, intercept)
  end.

(** [v.reshape(-1,1)] and [M.flatten()]. *)
Definition reshape_column (v : vector) : matrix := (λ y, [y]) <$> v.

Definition flatten (M : matrix) : vector := List.concat M.

Definition build_training `{Libraries} (mat : matrix) (cols rows : list string)
    (Y : vector) (Y_indices : list string) (error_cov : option matrix)
    (gene_annot_df : gmap string gene_annot)
    (training_Y_gene_inds : list bool) (project_out_intercept : bool)
    : option (matrix * vector) :=
  let training_genes := mask_select training_Y_gene_inds Y_indices in
  let sub_Y := mask_select training_Y_gene_inds Y in
  let intercept := (λ _, [1%R]) <$> sub_Y in
  X ← training_rows mat rows training_genes;
  whitened ← whiten_training_set error_cov gene_annot_df training_Y_gene_inds
               training_genes sub_Y X intercept;
  let '(sub_Y, X, intercept) := whitened in
  if project_out_intercept then
    sub_Y ← project_out_V (reshape_column sub_Y) intercept;
    X ← project_out_V X intercept;
    Some (X, flatten sub_Y)
  else Some (X, sub_Y).

(** ** READING DATA

    The MAGMA files are represented by their content: the lines of the
    [.genes.raw] file and the GENE and ZSTAT columns of the [.genes.out]
    file.  Numbers are reals; parsing a float, dividing and taking a
    logarithm are library routines. *)
Class NumpyFloats : Type := {
  py_float : string → option R;     (* [float(s)]; [ValueError] is [None] *)
  np_divide : R → R → R;            (* [/] on float arrays *)
  np_log : R → R                    (* [np.log] *)
}.

(** [s.strip('\n')] *)
Definition is_newline (a : ascii) : bool := Ascii.eqb a "010"%char.

Fixpoint lstrip_newlines (s : string) : string :=
  match s with
  | String a s' => if is_newline a then lstrip_newlines s' else s
  | EmptyString => EmptyString
  end.

Fixpoint rstrip_newlines (s : string) : string :=
  match s with
  | String a s' =>
      match rstrip_newlines s' with
      | EmptyString => if is_newline a then EmptyString else String a EmptyString
      | r => String a r
      end
  | EmptyString => EmptyString
  end.

Definition strip_newlines (s : string) : string :=
  rstrip_newlines (lstrip_newlines s).

(** [s.split(' ')]: every single space separates two pieces. *)
Fixpoint split_spaces_from (acc s : string) : list string :=
  match s with
  | String a s' =>
      if Ascii.eqb a " "%char then acc :: split_spaces_from "" s'
      else split_spaces_from (acc +:+ String a "") s'
  | EmptyString => [acc]
  end.

Definition split_spaces (s : string) : list string := split_spaces_from "" s.

(** One row of the gene metadata: GENE, NSNPS, NPARAM, MAC. *)
Record gene_metadata_row : Type := mk_metadata {
  GENE : string;
  NSNPS : R;
  NPARAM : R;
  MAC : R
}.

(** [sum([1 for line in lines if line[1] == curr_chrom])]; a line with
    fewer than two fields raises [IndexError]. *)
Definition count_chrom (lines : list (list string)) (curr_chrom : string)
    : option nat :=
  chroms ← mapM (λ line : list string, line !! 1) lines;
  Some (length (filter (λ c, c = curr_chrom) chroms)).

(** A slice bound of an array of length [n], with Python's rule for
    negative and out-of-range bounds. *)
Definition slice_index (n : nat) (i : Z) : nat :=
  Z.to_nat (if (i <? 0)%Z then Z.max 0 (i + Z.of_nat n)
            else Z.min i (Z.of_nat n)).

(** [row[start:stop] = vals] on one-dimensional arrays: the values must be
    as many as the slice is long, or be a single value, which is broadcast
    (also over an empty slice); numpy raises [ValueError] otherwise. *)
Definition assign_slice (row : vector) (start stop : Z) (vals : vector)
    : option vector :=
  let a := slice_index (length row) start in
  let b := slice_index (length row) stop in
  let len := b - a in
  if decide (length vals = len)
  then Some (take a row ++ vals ++ drop (a + len) row)
  else match vals with
       | [v] => Some (take a row ++ replicate len v ++ drop (a + len) row)
       | _ => None
       end.

(** [sigma[i, start:stop] = vals]; a row index out of range raises
    [IndexError]. *)
Definition assign_row_slice (sigma : matrix) (i : nat) (start stop : Z)
    (vals : vector) : option matrix :=
  row ← sigma !! i;
  row' ← assign_slice row start stop vals;
  Some (<[i := row']> sigma).

(** [curr_sigma + curr_sigma.T + np.eye(curr_sigma.shape[0])] *)
Definition symmetrize (curr_sigma : matrix) : matrix :=
  madd (madd curr_sigma (transpose curr_sigma)) (eye (length curr_sigma)).

(** The variables of the loop of [munge_magma_covariance_metadata]. *)
Record munge_state : Type := mk_munge_state {
  sigmas : list matrix;
  gene_metadata : list (list gene_metadata_row);
  curr_chrom : string;
  curr_ind : nat;
  curr_sigma : matrix;
  curr_gene_metadata : list gene_metadata_row
}.

(** Lines 85-94: on a new chromosome the current block is saved and the
    variables are reset. *)
Definition munge_new_chrom (lines : list (list string))
    (st : munge_state) (line : list string) : option munge_state :=
  chrom ← line !! 1;
  if bool_decide (chrom ≠ curr_chrom st) then
    num_genes_in_chr ← count_chrom lines chrom;
    Some (mk_munge_state
            (sigmas st ++ [symmetrize (curr_sigma st)])
            (gene_metadata st ++ [curr_gene_metadata st])
            chrom 0 (zeros num_genes_in_chr num_genes_in_chr) [])
  else Some st.

(** Lines 95-101: the metadata of the gene and its correlations with the
    genes before it. *)
Definition munge_gene `{NumpyFloats} (st : munge_state) (line : list string)
    : option munge_state :=
  gene ← line !! 0;
  nsnps ← line !! 4 ≫= py_float;
  nparam ← line !! 5 ≫= py_float;
  mac ← line !! 7 ≫= py_float;
  let metadata := curr_gene_metadata st ++ [mk_metadata gene nsnps nparam mac] in
  sigma ← (if 9 <? length line then
             gene_corrs ← mapM py_float (drop 9 line);
             assign_row_slice (curr_sigma st) (curr_ind st)
               (Z.of_nat (curr_ind st) - Z.of_nat (length gene_corrs))
               (Z.of_nat (curr_ind st)) gene_corrs
           else Some (curr_sigma st));
  Some (mk_munge_state (sigmas st) (gene_metadata st) (curr_chrom st)
          (S (curr_ind st)) sigma metadata).

Definition munge_line `{NumpyFloats} (lines : list (list string))
    (st : option munge_state) (line : list string) : option munge_state :=
  st ← st;
  st ← munge_new_chrom lines st line;
  munge_gene st line.

(** [munge_magma_covariance_metadata]: [file_lines] are the lines of the
    [.genes.raw] file.  The metadata blocks are stacked in file order. *)
Definition munge_magma_covariance_metadata `{NumpyFloats}
    (file_lines : list string)
    : option (list matrix * list gene_metadata_row) :=
  let lines := (λ line, split_spaces (strip_newlines line))
                 <$> drop 2 file_lines in
  first ← lines !! 0;
  curr_chrom ← first !! 1;
  num_genes_in_chr ← count_chrom lines curr_chrom;
  st ← fold_left (munge_line lines) lines
         (Some (mk_munge_state [] [] curr_chrom 0
                  (zeros num_genes_in_chr num_genes_in_chr) []));
  Some (sigmas st ++ [symmetrize (curr_sigma st)],
        List.concat (gene_metadata st ++ [curr_gene_metadata st])).

(** The labels of the maximal runs of equal consecutive labels: the
    chromosomes in the order in which the loop meets them. *)
Fixpoint runs_after (prev : string) (l : list string) : list string :=
  match l with
  | [] => []
  | c :: l' =>
      if decide (c = prev) then runs_after prev l' else c :: runs_after c l'
  end.

Definition run_labels (l : list string) : list string :=
  match l with
  | [] => []
  | c :: l' => c :: runs_after c l'
  end.

(** [build_control_covariates]: the index (GENE) and the six columns
    gene_size, log_gene_size, gene_density, log_gene_density, inverse_mac,
    log_inverse_mac. *)
Definition build_control_covariates `{NumpyFloats}
    (metadata : list gene_metadata_row) : list (string * vector) :=
  (λ r, let genesize := NPARAM r in
        let genedensity := np_divide (NPARAM r) (NSNPS r) in
        let inverse_mac := np_divide 1 (MAC r) in
        (GENE r, [genesize; np_log genesize; genedensity; np_log genedensity;
                  inverse_mac; np_log inverse_mac])) <$> metadata.

(** [scipy.linalg.block_diag]: the blocks along the diagonal, zeros
    elsewhere; without any block the result is one empty row. *)
Fixpoint block_diag_from (left total : nat) (blocks : list matrix) : matrix :=
  match blocks with
  | [] => []
  | B :: blocks' =>
      ((λ row : vector,
          replicate left 0%R ++ row
          ++ replicate (total - left - length row) 0%R) <$> B)
      ++ block_diag_from (left + ncols B) total blocks'
  end.

Definition block_diag (blocks : list matrix) : matrix :=
  match blocks with
  | [] => [[]]
  | _ => block_diag_from 0 (sum_list_with ncols blocks) blocks
  end.

(** [(a == b).all()] on two one-dimensional arrays of strings.  Arrays of
    one length are compared entry by entry; an array of length one is
    broadcast against the other; for other lengths the comparison gives no
    array and the expression raises. *)
Definition np_all_equal (a b : list string) : option bool :=
  if decide (length a = length b) then Some (bool_decide (a = b))
  else match a, b with
       | [x], _ => Some (bool_decide (Forall (λ y, x = y) b))
       | _, [y] => Some (bool_decide (Forall (λ x, x = y) a))
       | _, _ => None
       end.

(** [read_magma]: [genes_out] holds the GENE and ZSTAT columns of the
    [.genes.out] file; the gene identifiers are strings, as pandas reads
    them unless every identifier is a numeral.  The two options are
    [None], [False] or [True].  When both are [None] the names
    [covariates] and [error_cov] are never bound and the [return] raises
    [UnboundLocalError]. *)
Definition read_magma `{NumpyFloats} (genes_out : list (string * R))
    (raw_lines : list string)
    (use_magma_covariates use_magma_error_cov : option bool)
    : option (vector * option matrix * option matrix * list string) :=
  let Y := snd <$> genes_out in
  let Y_indices := fst <$> genes_out in
  if bool_decide (use_magma_covariates ≠ None ∨ use_magma_error_cov ≠ None)
  then
    munged ← munge_magma_covariance_metadata raw_lines;
    let cov_df := build_control_covariates munged.2 in
    match np_all_equal (fst <$> cov_df) Y_indices with
    | Some true =>
        let covariates := snd <$> cov_df in
        let error_cov := block_diag munged.1 in
        Some (Y,
              if bool_decide (use_magma_covariates = Some false) then None
              else Some covariates,
              if bool_decide (use_magma_error_cov = Some false) then None
              else Some error_cov,
              Y_indices)
    | _ => None
    end
  else None.

(** An instance for examples: [float] on a string of decimal digits (on
    any other string the instance fails), true division and the natural
    logarithm. *)
Definition float_of_digits (s : string) : option R :=
  if str_isdigit s then Some (IZR (Z.of_N (py_int s))) else None.

Definition small_floats : NumpyFloats := {|
  py_float := float_of_digits;
  np_divide := Rdiv;
  np_log := ln
|}.

(** ** MODEL FITTING: coefficients and prediction *)

(** The regressors [initialize_regressor] builds, with the arguments it
    passes; the scorer of [RidgeCV] is the held-out Pearson correlation
    ([corr_score]). *)
Inductive regressor : Type :=
  | RidgeCV (fit_intercept : bool) (alphas : vector)
  | LassoCV (fit_intercept : bool) (n_alphas : nat) (random_state : Z)
  | LinearRegression (fit_intercept : bool).

(** The attributes the code reads off a fitted regressor: [coef_] for
    every method, [alpha_] and [best_score_] for [RidgeCV], [alpha_],
    [alphas_] and [mse_path_] for [LassoCV]. *)
Record fitted_regressor : Type := mk_fitted {
  coef_ : vector;
  alpha_ : R;
  best_score_ : R;
  alphas_ : vector;
  mse_path_ : matrix
}.

Class Sklearn : Type := {
  (* [reg.fit(X, y)]; [None] when it raises *)
  fit : regressor → matrix → vector → option fitted_regressor
}.

(** An instance for examples: least squares on a single regressor,
    whatever the method. *)
Definition small_sklearn : Sklearn := {|
  fit := λ _ X y, coef ← linreg_fit_1 X y;
                  Some (mk_fitted coef 1 0 [1%R] [[0%R]])
|}.

(** [np.logspace(start, stop, num)], for [num] above 1. *)
Definition np_logspace (start stop : R) (num : nat) : vector :=
  (λ i, Rpower 10 (start + INR i * ((stop - start) / INR (num - 1))))%R
    <$> seq 0 num.

(** [initialize_regressor]: for any other method the name [reg] is never
    bound and the [return] raises. *)
Definition initialize_regressor (method : string) (random_state : Z)
    : option regressor :=
  if decide (method = "ridge") then
    Some (RidgeCV false (np_logspace (-2) 10 25))
  else if decide (method = "lasso") then
    Some (LassoCV false 200 random_state)
  else if decide (method = "linreg") then
    Some (LinearRegression false)
  else None.

(** A value of the column [beta] of the coefficient table: a string or a
    float. *)
Inductive cell : Type :=
  | cell_str (s : string)
  | cell_num (x : R).

(** [pd.DataFrame([cols, reg.coef_]).T]: one row per column name and
    coefficient, when they are equally many (pandas pads the shorter of
    the two with missing values; the properties are stated for equal
    lengths). *)
Definition coef_frame (cols : list string) (coef : vector)
    : list (string * cell) :=
  zip cols (cell_num <$> coef).

(** The index labels of the rows before the coefficients. *)
Definition header_parameters (method : string) : list string :=
  if decide (method = "linreg") then ["METHOD"]
  else ["METHOD"; "SELECTED_CV_ALPHA"; "BEST_CV_SCORE"].

(** [compute_coefficients]: the table indexed by [parameter], with the
    column [beta]. *)
Definition compute_coefficients `{Sklearn} (X_train : matrix)
    (Y_train : vector) (cols : list string) (method : string)
    (random_state : Z) : option (list (string * cell)) :=
  if bool_decide (method ∈ ["ridge"; "lasso"; "linreg"]) then
    reg ← initialize_regressor method random_state;
    reg ← fit reg X_train Y_train;
    if decide (method = "ridge") then
      Some ([("METHOD", cell_str "RidgeCV");
             ("SELECTED_CV_ALPHA", cell_num (alpha_ reg));
             ("BEST_CV_SCORE", cell_num (best_score_ reg))]
            ++ coef_frame cols (coef_ reg))
    else if decide (method = "lasso") then
      (* [reg.mse_path_[np.where(reg.alphas_ == reg.alpha_)[0][0]].mean()] *)
      found ← list_find (λ a, a = alpha_ reg) (alphas_ reg);
      path ← mse_path_ reg !! found.1;
      let best_score := np_mean path in
      Some ([("METHOD", cell_str "LassoCV");
             ("SELECTED_CV_ALPHA", cell_num (alpha_ reg));
             ("BEST_CV_SCORE", cell_num best_score)]
            ++ coef_frame cols (coef_ reg))
    else
      Some ([("METHOD", cell_str "LinearRegression")]
            ++ coef_frame cols (coef_ reg))
  else None.

(** [coefs_df.loc[cols].beta.values]: for every label of [cols], in
    order, the values of the rows that carry it; a label that no row
    carries raises [KeyError]. *)
Definition loc_beta (coefs_df : list (string * cell)) (cols : list string)
    : option (list cell) :=
  found ← mapM (λ c, match filter (λ r : string * cell, r.1 = c) coefs_df with
                     | [] => None
                     | found => Some (snd <$> found)
                     end) cols;
  Some (List.concat found).

(** One entry of [mat.dot(beta)], where [beta] is an array of objects: the
    lengths must agree and a product with a string raises. *)
Definition dot_cells (row : vector) (beta : list cell) : option R :=
  if decide (length row = length beta) then
    b ← mapM (λ c, match c with
                   | cell_num x => Some x
                   | cell_str _ => None
                   end) beta;
    Some (dot row b)
  else None.

(** [pops_predict]: the columns ENSGID and PoPS_Score, one row per gene
    when [rows] has one name per row of [mat].  The matrix is given by its
    rows. *)
Definition pops_predict (mat : matrix) (rows cols : list string)
    (coefs_df : list (string * cell)) : option (list (string * R)) :=
  beta ← loc_beta coefs_df cols;
  pred ← mapM (λ row, dot_cells row beta) mat;
  Some (zip rows pred).

(* ================================================================== *)
(** * Part II. Properties *)
(* ================================================================== *)

(** ** Index realignment *)

Section IndexRealignment.

Implicit Types (ref_list target_names : list string) (t : string).

Lemma ref_to_ind_mapper_snoc ref_list e :
  ref_to_ind_mapper (ref_list ++ [e])
  = <[e := length ref_list]> (ref_to_ind_mapper ref_list).
Proof.
  unfold ref_to_ind_mapper.
  rewrite imap_app, fold_left_app. simpl.
  by rewrite Nat.add_0_r.
Qed.

Lemma last_position_snoc_eq ref_list t :
  last_position (ref_list ++ [t]) t (length ref_list).
Proof.
  split.
  - rewrite lookup_app_r by lia. by rewrite Nat.sub_diag.
  - intros j Hj. apply lookup_lt_Some in Hj.
    rewrite length_app in Hj. simpl in Hj. lia.
Qed.

Lemma last_position_snoc_ne ref_list e t i :
  e ≠ t →
  last_position (ref_list ++ [e]) t i ↔ last_position ref_list t i.
Proof.
  intros Hne. unfold last_position. split.
  - intros [Hi Hmax].
    assert (Hlt : i < length ref_list).
    { destruct (decide (i < length ref_list)) as [|Hge]; [done|].
      rewrite lookup_app_r in Hi by lia.
      destruct (i - length ref_list) as [|k] eqn:Hk; simpl in Hi;
        [congruence | by destruct k]. }
    rewrite lookup_app_l in Hi by done. split; [done|].
    intros j Hj. apply Hmax.
    rewrite lookup_app_l; [done | by eapply lookup_lt_Some].
  - intros [Hi Hmax]. split.
    + rewrite lookup_app_l; [done | by eapply lookup_lt_Some].
    + intros j Hj.
      destruct (decide (j < length ref_list)) as [Hlt|Hge].
      * rewrite lookup_app_l in Hj by done. by apply Hmax.
      * rewrite lookup_app_r in Hj by lia.
        destruct (j - length ref_list) as [|k] eqn:Hk; simpl in Hj;
          [congruence | by destruct k].
Qed.

Lemma last_position_unique ref_list t i j :
  last_position ref_list t i → last_position ref_list t j → i = j.
Proof.
  intros [Hi Hmi] [Hj Hmj].
  apply Hmi in Hj. apply Hmj in Hi. lia.
Qed.

(** The dictionary maps a name to the position of its last occurrence. *)
Lemma ref_to_ind_mapper_Some ref_list t i :
  ref_to_ind_mapper ref_list !! t = Some i ↔ last_position ref_list t i.
Proof.
  revert i. induction ref_list as [|e ref_list IH] using rev_ind; intros i.
  - unfold ref_to_ind_mapper, last_position. simpl.
    rewrite lookup_empty. split; [done | by intros [? _]].
  - rewrite ref_to_ind_mapper_snoc.
    destruct (decide (e = t)) as [->|Hne].
    + rewrite lookup_insert_eq. split.
      * intros [= <-]. apply last_position_snoc_eq.
      * intros Hi. f_equal.
        eapply last_position_unique; [apply last_position_snoc_eq | done].
    + rewrite lookup_insert_ne by done.
      by rewrite IH, last_position_snoc_ne.
Qed.

(** A name has no entry exactly when it does not occur in [ref_list]. *)
Lemma ref_to_ind_mapper_None ref_list t :
  ref_to_ind_mapper ref_list !! t = None ↔ t ∉ ref_list.
Proof.
  induction ref_list as [|e ref_list IH] using rev_ind.
  - unfold ref_to_ind_mapper. simpl. rewrite lookup_empty.
    split; [intros _; apply not_elem_of_nil | done].
  - rewrite ref_to_ind_mapper_snoc, elem_of_app, list_elem_of_singleton.
    destruct (decide (e = t)) as [->|Hne].
    + rewrite lookup_insert_eq. split; [done | intros H; destruct H; by right].
    + rewrite lookup_insert_ne, IH by done.
      split; [intros H [?|?]; [done | congruence] | intros H ?; apply H; by left].
Qed.

Lemma get_indices_in_target_order_None ref_list target_names :
  get_indices_in_target_order ref_list target_names = None
  ↔ ∃ t, t ∈ target_names ∧ t ∉ ref_list.
Proof.
  unfold get_indices_in_target_order.
  rewrite mapM_None, Exists_exists.
  by setoid_rewrite ref_to_ind_mapper_None.
Qed.

Lemma get_indices_in_target_order_Some ref_list target_names idx :
  get_indices_in_target_order ref_list target_names = Some idx
  ↔ Forall2 (last_position ref_list) target_names idx.
Proof.
  unfold get_indices_in_target_order. rewrite mapM_Some.
  split; intros H; (eapply Forall2_impl; [exact H|]); intros t i;
    by rewrite ref_to_ind_mapper_Some.
Qed.

Lemma fancy_index_realigned ref_list target_names idx :
  Forall2 (last_position ref_list) target_names idx →
  fancy_index ref_list idx = Some target_names.
Proof.
  intros H. unfold fancy_index. apply mapM_Some.
  apply Forall2_flip. eapply Forall2_impl; [exact H|].
  by intros t i [Hi _].
Qed.

(** C10.  [get_indices_in_target_order] raises the lookup error exactly when
    some target name does not occur in [ref_list]; when it returns [idx],
    [idx] is as long as [target_names] and [idx[k]] is the position of the
    last occurrence of [target_names[k]] in [ref_list], so that
    [ref_list[idx[k]] == target_names[k]]; hence the assertion of
    [build_training] never evaluates to false. *)
Theorem get_indices_in_target_order_correct ref_list target_names :
  (get_indices_in_target_order ref_list target_names = None
     ↔ ∃ t, t ∈ target_names ∧ t ∉ ref_list)
  ∧ (∀ idx, get_indices_in_target_order ref_list target_names = Some idx →
       length idx = length target_names
       ∧ (∀ k t, target_names !! k = Some t →
            ∃ i, idx !! k = Some i ∧ ref_list !! i = Some t
                 ∧ ∀ j, ref_list !! j = Some t → j ≤ i)
       ∧ fancy_index ref_list idx = Some target_names)
  ∧ build_training_assertion ref_list target_names ≠ Some false.
Proof.
  split; [apply get_indices_in_target_order_None|]. split.
  - intros idx Hidx. apply get_indices_in_target_order_Some in Hidx.
    split; [symmetry; by eapply Forall2_length|]. split.
    + intros k t Hk.
      destruct (Forall2_lookup_l _ _ _ _ _ Hidx Hk) as (i & Hi & [Href Hmax]).
      eauto.
    + by apply fancy_index_realigned.
  - unfold build_training_assertion.
    destruct (get_indices_in_target_order ref_list target_names)
      as [idx|] eqn:Hidx; simpl; [|done].
    apply get_indices_in_target_order_Some in Hidx.
    rewrite (fancy_index_realigned _ _ _ Hidx).
    destruct idx; [done|]. simpl.
    by rewrite bool_decide_eq_true_2.
Qed.

(** The theorem at a reference list with a repeated name. *)
Lemma get_indices_in_target_order_correct_witness :
  get_indices_in_target_order ["g1"; "g2"; "g1"; "g3"] ["g3"; "g1"]
    = Some [3; 2]
  ∧ ∃ i, [3; 2] !! 1 = Some i ∧ ["g1"; "g2"; "g1"; "g3"] !! i = Some "g1"
         ∧ ∀ j, ["g1"; "g2"; "g1"; "g3"] !! j = Some "g1" → j ≤ i.
Proof.
  split; [by vm_compute|].
  refine (proj1 (proj2 (proj1 (proj2
    (get_indices_in_target_order_correct
       ["g1"; "g2"; "g1"; "g3"] ["g3"; "g1"])) [3; 2] _)) 1 "g1" _);
    by vm_compute.
Defined.

End IndexRealignment.

(** ** The stable sort *)

Section StableSortFacts.
Context {A : Type} (le : A → A → bool).
Hypothesis le_total : ∀ x y, le x y = false → le y x = true.
Hypothesis le_trans : ∀ x y z, le x y = true → le y z = true → le x z = true.

Local Abbreviation ins := (sorted_insert le).
Local Abbreviation srt := (stable_sort le).
Local Abbreviation Le := (λ x y, le x y = true).

Lemma sorted_insert_perm x l : ins x l ≡ₚ x :: l.
Proof.
  induction l as [|y l IH]; simpl; [done|].
  destruct (le x y); [done|].
  rewrite IH. apply Permutation_swap.
Qed.

Lemma stable_sort_perm l : srt l ≡ₚ l.
Proof.
  induction l as [|x l IH]; simpl; [done|].
  by rewrite sorted_insert_perm, IH.
Qed.

Lemma sorted_insert_below x l : Forall (Le x) l → ins x l = x :: l.
Proof. intros H. destruct H as [|y l Hy _]; simpl; [done | by rewrite Hy]. Qed.

Lemma sorted_insert_sorted x l :
  StronglySorted Le l → StronglySorted Le (ins x l).
Proof.
  induction 1 as [|y l Hs IH Hy]; simpl.
  - repeat constructor.
  - destruct (le x y) eqn:Hxy.
    + constructor; [by constructor|].
      constructor; [done|].
      eapply Forall_impl; [exact Hy|]. intros z Hz. by eapply le_trans.
    + constructor; [done|].
      rewrite sorted_insert_perm. constructor; [by apply le_total | done].
Qed.

Lemma stable_sort_sorted l : StronglySorted Le (srt l).
Proof.
  induction l as [|x l IH]; simpl; [constructor | by apply sorted_insert_sorted].
Qed.

(** Filtering commutes with insertion into a sorted list, and hence with
    the sort: this is what stability buys. *)
Lemma filter_sorted_insert (P : A → Prop) `{!∀ x, Decision (P x)} x l :
  StronglySorted Le l →
  filter P (ins x l) = if decide (P x) then ins x (filter P l) else filter P l.
Proof.
  induction 1 as [|y l Hs IH Hy]; simpl.
  - rewrite filter_cons, filter_nil. by destruct (decide (P x)).
  - destruct (le x y) eqn:Hxy.
    + rewrite (filter_cons _ x). destruct (decide (P x)) as [Hx|Hx]; [|done].
      symmetry. apply sorted_insert_below.
      apply Forall_forall. intros z Hz.
      apply list_elem_of_filter in Hz as [_ Hz].
      apply elem_of_cons in Hz as [->|Hz]; [done|].
      eapply le_trans; [exact Hxy|].
      by eapply (proj1 (Forall_forall _ _) Hy).
    + rewrite !(filter_cons _ y), IH.
      destruct (decide (P y)), (decide (P x)); simpl; try done.
      by rewrite Hxy.
Qed.

Lemma filter_stable_sort (P : A → Prop) `{!∀ x, Decision (P x)} l :
  filter P (srt l) = srt (filter P l).
Proof.
  induction l as [|x l IH]; simpl; [done|].
  rewrite filter_sorted_insert by apply stable_sort_sorted.
  rewrite filter_cons, IH. by destruct (decide (P x)).
Qed.
End StableSortFacts.

(** ** List facts used by the selector *)

Section ListFacts.
Context {A : Type}.
Implicit Types (l : list A).

Lemma filter_filter_absorb (P Q : A → Prop)
    `{!∀ x, Decision (P x)} `{!∀ x, Decision (Q x)} l :
  (∀ x, x ∈ l → P x → Q x) → filter P (filter Q l) = filter P l.
Proof.
  induction l as [|x l IH]; intros Himp; [done|].
  rewrite !(filter_cons _ x).
  assert (IH' : filter P (filter Q l) = filter P l).
  { apply IH. intros y Hy. apply Himp. by right. }
  destruct (decide (Q x)) as [HQ|HQ], (decide (P x)) as [HP|HP].
  - by rewrite filter_cons_True, IH'.
  - by rewrite filter_cons_False.
  - destruct HQ. apply Himp; [by left | done].
  - done.
Qed.

Lemma filter_comm' (P Q : A → Prop)
    `{!∀ x, Decision (P x)} `{!∀ x, Decision (Q x)} l :
  filter P (filter Q l) = filter Q (filter P l).
Proof.
  induction l as [|x l IH]; [done|].
  rewrite !(filter_cons _ x).
  destruct (decide (Q x)), (decide (P x));
    rewrite ?filter_cons_True, ?filter_cons_False by done; by rewrite ?IH.
Qed.

Lemma filter_all (P : A → Prop) `{!∀ x, Decision (P x)} l :
  Forall P l → filter P l = l.
Proof.
  induction 1 as [|x l Hx _ IH]; [done|].
  by rewrite filter_cons_True, IH.
Qed.

Lemma mapM_ext_Forall {B} (f g : A → option B) l :
  Forall (λ x, f x = g x) l → mapM f l = mapM g l.
Proof.
  induction 1 as [|x l Hx _ IH]; [done|].
  cbn [mapM]. by rewrite Hx, IH.
Qed.

Lemma lookup_nth_lt l i d : i < length l → l !! i = Some (nth i l d).
Proof.
  intros Hi. destruct (lookup_lt_is_Some_2 l i Hi) as [x Hx].
  by rewrite (nth_lookup_Some _ _ _ _ Hx).
Qed.

Lemma take_filter_prefix (P : A → Prop) `{!∀ x, Decision (P x)} n l :
  Forall P (take n l) → take n (filter P l) = take n l.
Proof.
  revert n. induction l as [|x l IH]; intros [|n] Hall; simpl in *; try done.
  apply Forall_cons in Hall as [Hx Hall].
  rewrite filter_cons_True by done. simpl. by rewrite IH.
Qed.
End ListFacts.

(** ** Feature selection *)

Section FeatureSelection.

Implicit Types (df : marginal_assoc_df) (c : criteria) (r : assoc_row).

Lemma sort_le_total a b : sort_le a b = false → sort_le b a = true.
Proof.
  destruct a as [|x], b as [|y]; simpl; try done.
  intros H. apply Qle_bool_iff.
  destruct (Qlt_le_dec y x) as [Hlt|Hle].
  - by apply Qlt_le_weak.
  - apply Qle_bool_iff in Hle. congruence.
Qed.

Lemma sort_le_trans a b d :
  sort_le a b = true → sort_le b d = true → sort_le a d = true.
Proof.
  destruct a as [|x], b as [|y], d as [|z]; simpl; try done.
  rewrite !Qle_bool_iff. apply Qle_trans.
Qed.

Lemma row_le_total r r' :
  sort_le (pval r) (pval r') = false → sort_le (pval r') (pval r) = true.
Proof. apply sort_le_total. Qed.

Lemma row_le_trans r1 r2 r3 :
  sort_le (pval r1) (pval r2) = true → sort_le (pval r2) (pval r3) = true →
  sort_le (pval r1) (pval r3) = true.
Proof. apply sort_le_trans. Qed.

(** The stable sort meets the contract of [sort_values]. *)
Lemma stable_pandas_contract : @sort_values_contract stable_pandas.
Proof.
  intros df. split.
  - apply stable_sort_perm.
  - apply stable_sort_sorted; [apply row_le_total | apply row_le_trans].
Qed.

(** Two sorted arrangements of the same elements are equal when no two
    different elements compare as equal. *)
Lemma sorted_perm_unique {A} (R : A → A → Prop) (l1 l2 : list A) :
  (∀ x y, x ∈ l1 → y ∈ l1 → R x y → R y x → x = y) →
  StronglySorted R l1 → StronglySorted R l2 → l1 ≡ₚ l2 → l1 = l2.
Proof.
  revert l2. induction l1 as [|a l1 IH]; intros l2 Hanti Hs1 Hs2 Hp.
  - by apply Permutation_nil_l in Hp.
  - destruct l2 as [|b l2]; [by apply Permutation_nil_r in Hp|].
    apply StronglySorted_inv in Hs1 as [Hs1 Ha].
    apply StronglySorted_inv in Hs2 as [Hs2 Hb].
    assert (Hab : a = b).
    { assert (Hb_in : b ∈ a :: l1) by (rewrite Hp; by left).
      assert (Ha_in : a ∈ b :: l2) by (rewrite <- Hp; by left).
      apply elem_of_cons in Hb_in as [->|Hb1]; [done|].
      apply elem_of_cons in Ha_in as [->|Ha2]; [done|].
      apply Hanti; [by left | by right | |].
      - by apply (proj1 (Forall_forall _ _) Ha).
      - by apply (proj1 (Forall_forall _ _) Hb). }
    subst b. f_equal. apply IH; [|done|done|].
    + intros x y Hx Hy. apply Hanti; by right.
    + by apply Permutation_cons_inv in Hp.
Qed.

Lemma StronglySorted_take {A} (R : A → A → Prop) (k : nat) (l : list A) :
  StronglySorted R l → StronglySorted R (take k l).
Proof.
  intros Hs. revert k. induction Hs as [|a l Hs IH Ha]; intros [|k];
    simpl; try constructor.
  - apply IH.
  - apply Forall_forall. intros x Hx.
    apply (proj1 (Forall_forall _ _) Ha). by eapply subseteq_take.
Qed.

Lemma NoDup_fmap_inj_on {A B} (g : A → B) (l : list A) x y :
  NoDup (g <$> l) → x ∈ l → y ∈ l → g x = g y → x = y.
Proof.
  intros Hnd Hx Hy Hg.
  apply list_elem_of_lookup in Hx as [i Hi].
  apply list_elem_of_lookup in Hy as [j Hj].
  assert (i = j) as ->.
  { eapply NoDup_lookup; [exact Hnd| |]; rewrite list_lookup_fmap.
    - by rewrite Hi.
    - rewrite Hj. simpl. by rewrite Hg. }
  congruence.
Qed.

(** From here on [sort_values] is any routine that meets its contract. *)
Context `{Pandas}.
Hypothesis sort_contract : sort_values_contract.

Lemma sort_values_pval_perm df : sort_values_pval df ≡ₚ df.
Proof. apply sort_contract. Qed.

Lemma sort_values_pval_sorted df :
  StronglySorted (λ r r', sort_le (pval r) (pval r') = true)
    (sort_values_pval df).
Proof. apply sort_contract. Qed.

Lemma iloc_upto_nonneg {A} (n : Z) (l : list A) :
  (0 ≤ n)%Z → iloc_upto n l = take (Z.to_nat n) l.
Proof. intros Hn. unfold iloc_upto. by rewrite (proj2 (Z.ltb_ge n 0) Hn). Qed.

Lemma elem_of_iloc_upto {A} (n : Z) (l : list A) x :
  x ∈ iloc_upto n l → x ∈ l.
Proof.
  unfold iloc_upto. destruct (n <? 0)%Z; intros Hx;
    by eapply subseteq_take.
Qed.

Lemma elem_of_step_max_num c df r : r ∈ step_max_num c df → r ∈ df.
Proof.
  unfold step_max_num. destruct (feature_selection_max_num c); [|done].
  intros Hr. apply elem_of_iloc_upto in Hr.
  by rewrite sort_values_pval_perm in Hr.
Qed.

Lemma elem_of_step_cutoff c df r cut :
  feature_selection_p_cutoff c = Some cut →
  r ∈ step_cutoff c df → r ∈ df ∧ fl_ltb (pval r) cut = true.
Proof.
  unfold step_cutoff. intros ->. rewrite list_elem_of_filter. tauto.
Qed.

Lemma fl_ltb_defined a b : fl_ltb a b = true → a ≠ nan.
Proof. by destruct a. Qed.

Lemma mask_select_fmap {A B} (g : A → bool) (h : A → B) (l : list A) :
  mask_select (g <$> l) (h <$> l) = h <$> filter (λ x, g x = true) l.
Proof.
  unfold mask_select. induction l as [|x l IH]; [done|].
  csimpl. rewrite !filter_cons. csimpl.
  destruct (decide (g x = true)) as [Hg|Hg]; csimpl; by rewrite IH.
Qed.

(** C3.  ([sort_values] is any routine that meets [sort_values_contract].)
    Whatever the criteria, a row of the table with an undefined
    p-value gets the flag [selected = False] in [main], the final
    [selected_features] are exactly the labels of the flagged rows, so each
    of them labels a row with a defined p-value (and a label that is unique
    in the table is never selected when its p-value is undefined); and
    when a cutoff is given every row that survives the filters of
    [select_features_from_marginal_assoc_df] has a defined p-value below the
    cutoff, whatever the cutoff is. *)
Theorem undefined_pvalue_never_selected df c :
  (∀ selected, main_selected_column df c = Some selected →
     length selected = length df
     ∧ ∀ i r, df !! i = Some r → pval r = nan → selected !! i = Some false)
  ∧ (∀ sel, main_selected_features df c = Some sel →
       (∀ f, f ∈ sel → ∃ r, r ∈ df ∧ feature r = f ∧ pval r ≠ nan)
       ∧ (NoDup (feature <$> df) →
            ∀ r, r ∈ df → pval r = nan → feature r ∉ sel))
  ∧ (∀ cut df1 r, feature_selection_p_cutoff c = Some cut →
       r ∈ surviving_rows c df1 →
       pval r ≠ nan ∧ fl_ltb (pval r) cut = true).
Proof.
  assert (Hsel : ∀ sel, main_selected_features df c = Some sel →
            ∀ f, f ∈ sel → ∃ r, r ∈ df ∧ feature r = f ∧ pval r ≠ nan).
  { intros sel Hmain f Hf. unfold main_selected_features, main_selected_column in Hmain.
    destruct (select_features_from_marginal_assoc_df df c) as [s|]; [|done].
    simpl in Hmain. injection Hmain as <-.
    rewrite mask_select_fmap in Hf.
    apply list_elem_of_fmap in Hf as (r & -> & Hr).
    apply list_elem_of_filter in Hr as [Hflag Hr].
    exists r. repeat split; [done|].
    apply andb_true_iff in Hflag as [_ Hnn]. by destruct (pval r). }
  split; [|split].
  - intros selected Hcol. unfold main_selected_column in Hcol.
    destruct (select_features_from_marginal_assoc_df df c) as [s|]; [|done].
    simpl in Hcol. injection Hcol as <-. split; [by rewrite length_fmap|].
    intros i r Hi Hnan. rewrite list_lookup_fmap, Hi. simpl.
    by rewrite Hnan, andb_false_r.
  - intros sel Hmain. split; [by apply Hsel|].
    intros Hnd r Hr Hnan Hin.
    destruct (Hsel sel Hmain _ Hin) as (r' & Hr' & Hfeat & Hdef).
    apply list_elem_of_lookup in Hr as [i Hi].
    apply list_elem_of_lookup in Hr' as [j Hj].
    assert (i = j) as ->.
    { eapply NoDup_lookup; [exact Hnd| |]; rewrite list_lookup_fmap.
      - by rewrite Hi.
      - rewrite Hj. simpl. by rewrite Hfeat. }
    congruence.
  - intros cut df1 r Hcut Hr. unfold surviving_rows in Hr.
    apply elem_of_step_max_num in Hr.
    apply (elem_of_step_cutoff _ _ _ _ Hcut) in Hr as [_ Hlt].
    split; [by eapply fl_ltb_defined | done].
Qed.


(** C4.  The ordering contract of the selector on the four-row table
    (A, 0.01), (B, 0.2), (C1, 0.9), (D, 0.001) with no subset list, control
    list [C1], cutoff 0.05 and at most 2 features: the result is D, A (the
    two lowest p-values under the cutoff among the non-control rows) followed
    by the control feature C1, whatever the other columns hold and whatever
    [sort_values] does with equal p-values. *)
Theorem selection_ordering_contract (ra rb rc rd : assoc_row) :
  feature ra = "A" → pval ra = num (1#100) →
  feature rb = "B" → pval rb = num (2#10) →
  feature rc = "C1" → pval rc = num (9#10) →
  feature rd = "D" → pval rd = num (1#1000) →
  select_features_from_marginal_assoc_df [ra; rb; rc; rd]
    (mk_criteria None (Some ["C1"]) (Some (num (5#100))) (Some 2%Z))
  = Some ["D"; "A"; "C1"].
Proof.
  destruct ra as [fa ba sa pa qa], rb as [fb bb sb pb qb],
    rc as [fc bc sc pc qc], rd as [fd bd sd pd qd].
  simpl. intros -> -> -> -> -> -> -> ->.
  set (ra := mk_row "A" ba sa (num (1#100)) qa).
  set (rd := mk_row "D" bd sd (num (1#1000)) qd).
  unfold select_features_from_marginal_assoc_df, step_subset.
  cbn [subset_features mbind option_bind].
  unfold surviving_rows, step_max_num. cbn [feature_selection_max_num].
  match goal with
  | |- context [sort_values_pval ?cand] =>
      change cand with [ra; rd]
  end.
  assert (Hsort : sort_values_pval [ra; rd] = [rd; ra]).
  { apply (sorted_perm_unique (λ r r', sort_le (pval r) (pval r') = true)).
    - intros x y Hx Hy Hxy Hyx.
      rewrite sort_values_pval_perm in Hx, Hy.
      apply elem_of_cons in Hx as [->|Hx];
        [|apply elem_of_cons in Hx as [->|Hx]; [|by apply elem_of_nil in Hx]];
      (apply elem_of_cons in Hy as [->|Hy];
        [|apply elem_of_cons in Hy as [->|Hy]; [|by apply elem_of_nil in Hy]]);
      done.
    - apply sort_values_pval_sorted.
    - by repeat constructor.
    - rewrite sort_values_pval_perm. apply Permutation_swap. }
  rewrite Hsort. reflexivity.
Qed.

(** *** Applying the selector to its own output *)

Lemma loc_label_restrict_in sel df l :
  l ∈ sel → loc_label (restrict_to sel df) l = loc_label df l.
Proof.
  intros Hl. unfold loc_label, restrict_to.
  rewrite filter_filter_absorb; [done|].
  intros r _ Hr. unfold index_isin. rewrite Hr. by apply bool_decide_eq_true_2.
Qed.

Lemma loc_label_restrict_notin sel df l :
  l ∉ sel → loc_label (restrict_to sel df) l = None.
Proof.
  intros Hl. unfold loc_label, restrict_to.
  destruct (filter _ (filter _ df)) as [|r rs] eqn:Hf; [done|].
  assert (Hr : r ∈ r :: rs) by (by left). rewrite <- Hf in Hr.
  apply list_elem_of_filter in Hr as [Hfeat Hr].
  apply list_elem_of_filter in Hr as [Hin _].
  unfold index_isin in Hin. apply bool_decide_eq_true_1 in Hin. congruence.
Qed.

Lemma loc_labels_restrict_all sel df names :
  Forall (λ l, l ∈ sel) names →
  loc_labels (restrict_to sel df) names = loc_labels df names.
Proof.
  intros Hall. unfold loc_labels.
  rewrite (mapM_ext_Forall _ (loc_label df)); [done|].
  eapply Forall_impl; [exact Hall|].
  intros l Hl. by apply loc_label_restrict_in.
Qed.

Lemma loc_labels_restrict_missing sel df names l :
  l ∈ names → l ∉ sel → loc_labels (restrict_to sel df) names = None.
Proof.
  intros Hl Hnot. unfold loc_labels.
  rewrite (mapM_None_2 (loc_label (restrict_to sel df)) names); [done|].
  apply Exists_exists. exists l. split; [done|].
  by apply loc_label_restrict_notin.
Qed.

Lemma loc_label_Some_elem df l rs r :
  loc_label df l = Some rs → r ∈ rs → r ∈ df ∧ feature r = l.
Proof.
  unfold loc_label. destruct (filter _ df) as [|r0 rs0] eqn:Hf; [done|].
  intros [= <-] Hr. rewrite <- Hf in Hr.
  apply list_elem_of_filter in Hr. tauto.
Qed.

Lemma loc_labels_Some_elem df names df1 r :
  loc_labels df names = Some df1 → r ∈ df1 → r ∈ df ∧ feature r ∈ names.
Proof.
  unfold loc_labels. intros Hloc Hr.
  destruct (mapM (loc_label df) names) as [rss|] eqn:Hm; [|done].
  simpl in Hloc. injection Hloc as <-.
  apply mapM_Some in Hm.
  apply list_elem_of_In, in_concat in Hr as (rs & Hrs & Hr).
  apply list_elem_of_In in Hrs, Hr.
  apply list_elem_of_lookup in Hrs as [i Hi].
  destruct (Forall2_lookup_r _ _ _ _ _ Hm Hi) as (l & Hl & Hlab).
  destruct (loc_label_Some_elem _ _ _ _ Hlab Hr) as [? <-].
  split; [done|]. by eapply list_elem_of_lookup_2.
Qed.

(** Every name the selector returns labels a row of the table it worked
    on; with a subset list, it is one of the listed names. *)
Lemma selected_names_in_table df c sel f :
  select_features_from_marginal_assoc_df df c = Some sel →
  f ∈ sel →
  (∃ r, r ∈ df ∧ feature r = f)
  ∧ ∀ names, subset_features c = Some names → f ∈ names.
Proof.
  unfold select_features_from_marginal_assoc_df.
  destruct (step_subset c df) as [df1|] eqn:Hsub; [|done].
  simpl. intros [= <-] Hf.
  assert (Hr : ∃ r, r ∈ df1 ∧ feature r = f).
  { apply elem_of_app in Hf as [Hf|Hf];
      apply list_elem_of_fmap in Hf as (r & -> & Hr); exists r; (split; [|done]).
    - unfold surviving_rows in Hr. apply elem_of_step_max_num in Hr.
      unfold step_cutoff, step_control in Hr.
      destruct (feature_selection_p_cutoff c);
        [apply list_elem_of_filter in Hr as [_ Hr]|];
        (destruct (control_features c);
          [by apply list_elem_of_filter in Hr as [_ Hr] | done]).
    - unfold control_df in Hr. destruct (control_features c).
      + by apply list_elem_of_filter in Hr as [_ Hr].
      + by apply elem_of_nil in Hr. }
  destruct Hr as (r & Hr & <-).
  unfold step_subset in Hsub. destruct (subset_features c) as [names|].
  - destruct (loc_labels_Some_elem _ _ _ _ Hsub Hr) as [Hdf Hn].
    split; [by exists r|]. by intros ? [= <-].
  - injection Hsub as <-. split; [by exists r | done].
Qed.


(** The control rows, and the rows that pass the cutoff, on the table
    restricted to the selected names. *)
Lemma restricted_candidates df c sel :
  sel = (feature <$> surviving_rows c df) ++ (feature <$> control_df c df) →
  control_df c (restrict_to sel df) = control_df c df
  ∧ step_cutoff c (step_control c (restrict_to sel df))
    = filter (λ r, index_isin sel r = true)
        (step_cutoff c (step_control c df)).
Proof.
  intros Hsel.
  set (Psel := λ r, index_isin sel r = true).
  assert (Hctl : ∀ r, r ∈ control_df c df → Psel r).
  { intros r Hr. unfold Psel, index_isin.
    apply bool_decide_eq_true_2. rewrite Hsel, elem_of_app. right.
    apply list_elem_of_fmap. by exists r. }
  split.
  - unfold control_df in *. destruct (control_features c) as [names|]; [|done].
    unfold restrict_to. fold Psel. apply filter_filter_absorb.
    intros r Hr Hc. apply Hctl. by apply list_elem_of_filter.
  - unfold step_cutoff, step_control, restrict_to.
    destruct (control_features c), (feature_selection_p_cutoff c);
      fold Psel; try done.
    + by rewrite (filter_comm' _ Psel), (filter_comm' _ Psel).
    + by rewrite (filter_comm' _ Psel).
    + by rewrite (filter_comm' _ Psel).
Qed.

Lemma candidates_in_table c df r :
  r ∈ step_cutoff c (step_control c df) → r ∈ df ∧ r ∉ control_df c df.
Proof.
  intros Hr.
  assert (Hr' : r ∈ step_control c df).
  { revert Hr. unfold step_cutoff.
    destruct (feature_selection_p_cutoff c); [|done].
    by intros [_ Hr]%list_elem_of_filter. }
  unfold step_control, control_df in *.
  destruct (control_features c) as [names|].
  - apply list_elem_of_filter in Hr' as [Hnot Hdf]. split; [done|].
    intros [Hin _]%list_elem_of_filter. rewrite Hin in Hnot. done.
  - split; [done|]. apply not_elem_of_nil.
Qed.

Lemma candidates_NoDup c df :
  NoDup df → NoDup (step_cutoff c (step_control c df)).
Proof.
  intros Hnd. unfold step_cutoff, step_control.
  destruct (feature_selection_p_cutoff c), (control_features c);
    repeat apply NoDup_filter; done.
Qed.

(** With unique labels and a maximum number, the candidates of the
    restricted table are the rows that survived on the whole table, in
    table order. *)
Lemma restricted_candidates_perm df c sel n :
  NoDup (feature <$> df) → feature_selection_max_num c = Some n →
  sel = (feature <$> surviving_rows c df) ++ (feature <$> control_df c df) →
  filter (λ r, index_isin sel r = true) (step_cutoff c (step_control c df))
  ≡ₚ surviving_rows c df.
Proof.
  intros Hnd Hn Hsel.
  assert (Hrows : NoDup df) by by apply NoDup_fmap_1 in Hnd.
  set (C := step_cutoff c (step_control c df)).
  assert (HS : ∃ k, surviving_rows c df = take k (sort_values_pval C)).
  { unfold surviving_rows, step_max_num. rewrite Hn. fold C.
    unfold iloc_upto. destruct (n <? 0)%Z; by eexists. }
  destruct HS as [k HS].
  assert (Hsub : ∀ r, r ∈ surviving_rows c df → r ∈ C).
  { intros r Hr. rewrite HS in Hr. apply subseteq_take in Hr.
    by rewrite sort_values_pval_perm in Hr. }
  apply NoDup_Permutation.
  - by apply NoDup_filter, candidates_NoDup.
  - rewrite HS. eapply sublist_NoDup; [|apply sublist_take].
    rewrite sort_values_pval_perm. by apply candidates_NoDup.
  - intros r. rewrite list_elem_of_filter. split.
    + intros [Hin Hr]. unfold index_isin in Hin.
      apply bool_decide_eq_true in Hin.
      destruct (candidates_in_table c df r Hr) as [Hdf Hnotctl].
      rewrite Hsel, elem_of_app in Hin.
      destruct Hin as [Hin|Hin];
        apply list_elem_of_fmap in Hin as (r' & Hfeat & Hr').
      * assert (r = r') as ->; [|done].
        apply (NoDup_fmap_inj_on feature df); [done | done | | done].
        by apply (candidates_in_table c df), Hsub.
      * assert (r = r') as ->; [|done].
        apply (NoDup_fmap_inj_on feature df); [done | done | | done].
        unfold control_df in Hr'. destruct (control_features c).
        -- by apply list_elem_of_filter in Hr' as [_ ?].
        -- by apply elem_of_nil in Hr'.
    + intros Hr. split; [|by apply Hsub].
      unfold index_isin. apply bool_decide_eq_true.
      rewrite Hsel, elem_of_app. left. apply list_elem_of_fmap. by exists r.
Qed.

(** C5, as the code has it.  Let [sel] be the selection made on a table
    under criteria whose maximum count, if any, is not negative, and apply
    the selector again, with the same criteria, to the table restricted to
    the rows labelled by [sel]; [sort_values] is any routine that meets
    [sort_values_contract].  Without a subset list and without a maximum
    count the second selection is [sel] again.  Without a subset list, on a
    table whose labels are unique, the second selection succeeds and
    returns the same set of features, as a rearrangement of [sel]; it is
    [sel] itself when no two of the surviving rows have equal p-values
    (rows with equal p-values may come back in another order, since
    [sort_values] is not stable).  With a subset list the second selection
    returns [sel] again if it returns at all, and it raises [KeyError]
    exactly when the subset list names a feature that is not in [sel]. *)
Theorem selection_idempotent df c sel :
  (∀ n, feature_selection_max_num c = Some n → (0 ≤ n)%Z) →
  select_features_from_marginal_assoc_df df c = Some sel →
  (subset_features c = None → feature_selection_max_num c = None →
     select_features_from_marginal_assoc_df (restrict_to sel df) c = Some sel)
  ∧ (subset_features c = None → NoDup (feature <$> df) →
       ∃ sel',
         select_features_from_marginal_assoc_df (restrict_to sel df) c
         = Some sel'
         ∧ sel' ≡ₚ sel
         ∧ ((∀ r r', r ∈ surviving_rows c df → r' ∈ surviving_rows c df →
               sort_le (pval r) (pval r') = true →
               sort_le (pval r') (pval r) = true → r = r') →
            sel' = sel))
  ∧ (∀ names, subset_features c = Some names →
       (select_features_from_marginal_assoc_df (restrict_to sel df) c = None
        ↔ ∃ l, l ∈ names ∧ l ∉ sel)
       ∧ (∀ sel',
            select_features_from_marginal_assoc_df (restrict_to sel df) c
            = Some sel' → sel' = sel)).
Proof.
  intros Hn Hfirst.
  unfold select_features_from_marginal_assoc_df in *.
  unfold step_subset in *.
  destruct (subset_features c) as [names|] eqn:Hsub.
  - split; [done|]. split; [done|]. intros ? [= <-].
    destruct (loc_labels df names) as [df1|] eqn:Hloc; [|done].
    simpl in Hfirst. injection Hfirst as Hsel.
    destruct (decide (Forall (λ l, l ∈ sel) names)) as [Hall|Hex].
    + rewrite (loc_labels_restrict_all _ _ _ Hall), Hloc. simpl.
      rewrite Hsel. split; [|congruence]. split; [done|].
      intros (l & Hl & Hnot). destruct Hnot.
      by eapply (proj1 (Forall_forall _ _) Hall).
    + apply not_Forall_Exists in Hex; [|intros l; apply _].
      apply Exists_exists in Hex as (l & Hl & Hnot).
      rewrite (loc_labels_restrict_missing _ _ _ _ Hl Hnot). simpl.
      split; [|done]. split; [by exists l | done].
  - simpl in *. injection Hfirst as Hsel. symmetry in Hsel.
    destruct (restricted_candidates df c sel Hsel) as [Hctl Hcand].
    split; [|split; [|done]].
    + intros _ Hmax. rewrite Hctl.
      assert (Hsame : surviving_rows c (restrict_to sel df)
                      = surviving_rows c df).
      { unfold surviving_rows, step_max_num in *. rewrite Hmax in *.
        rewrite Hcand. apply filter_all, Forall_forall. intros r Hr.
        unfold index_isin. apply bool_decide_eq_true.
        rewrite Hsel, elem_of_app. left. apply list_elem_of_fmap.
        by exists r. }
      by rewrite Hsame, <- Hsel.
    + intros _ Hnd. eexists. split; [reflexivity|]. rewrite Hctl.
      destruct (feature_selection_max_num c) as [n|] eqn:Hmax.
      * pose proof (restricted_candidates_perm df c sel n Hnd Hmax Hsel)
          as Hperm.
        assert (Hlen : length (surviving_rows c df) ≤ Z.to_nat n).
        { unfold surviving_rows, step_max_num. rewrite Hmax.
          rewrite iloc_upto_nonneg by auto. rewrite length_take. lia. }
        assert (Hsecond : surviving_rows c (restrict_to sel df)
                          = sort_values_pval
                              (filter (λ r, index_isin sel r = true)
                                 (step_cutoff c (step_control c df)))).
        { unfold surviving_rows at 1. unfold step_max_num. rewrite Hmax.
          rewrite Hcand, iloc_upto_nonneg by auto. apply take_ge.
          rewrite (Permutation_length (sort_values_pval_perm _)).
          by rewrite (Permutation_length Hperm). }
        assert (Hperm' : surviving_rows c (restrict_to sel df)
                         ≡ₚ surviving_rows c df).
        { by rewrite Hsecond, sort_values_pval_perm. }
        split.
        -- rewrite Hperm'. by rewrite <- Hsel.
        -- intros Hanti.
           assert (Hsame : surviving_rows c df
                           = surviving_rows c (restrict_to sel df)).
           { apply (sorted_perm_unique
                      (λ r r', sort_le (pval r) (pval r') = true));
               [done | | | by symmetry].
             - unfold surviving_rows, step_max_num. rewrite Hmax.
               rewrite iloc_upto_nonneg by auto.
               apply StronglySorted_take, sort_values_pval_sorted.
             - rewrite Hsecond. apply sort_values_pval_sorted. }
           by rewrite <- Hsame.
      * assert (Hsame : surviving_rows c (restrict_to sel df)
                        = surviving_rows c df).
        { unfold surviving_rows, step_max_num in *. rewrite Hmax in *.
          rewrite Hcand. apply filter_all, Forall_forall. intros r Hr.
          unfold index_isin. apply bool_decide_eq_true.
          rewrite Hsel, elem_of_app. left. apply list_elem_of_fmap.
          by exists r. }
        rewrite Hsame, <- Hsel. by split.
Qed.

End FeatureSelection.

(** C3 at a table whose control feature has an undefined p-value. *)
Lemma undefined_pvalue_never_selected_witness :
  @main_selected_features stable_pandas
    [mk_row "f1" nan nan (num (1#100)) nan; mk_row "ctl" nan nan nan nan]
    (mk_criteria None (Some ["ctl"]) (Some (num (5#100))) None)
    = Some ["f1"]
  ∧ "ctl" ∉ ["f1"].
Proof.
  split; [by vm_compute|].
  refine (proj2 (proj1 (proj2 (@undefined_pvalue_never_selected
    stable_pandas stable_pandas_contract
    [mk_row "f1" nan nan (num (1#100)) nan; mk_row "ctl" nan nan nan nan]
    (mk_criteria None (Some ["ctl"]) (Some (num (5#100))) None)))
    ["f1"] _) _ (mk_row "ctl" nan nan nan nan) _ _).
  - by vm_compute.
  - compute_done.
  - apply elem_of_cons. right. apply elem_of_cons. by left.
  - done.
Defined.

Lemma selection_ordering_contract_witness :
  @select_features_from_marginal_assoc_df stable_pandas
    [mk_row "A" (num 1) (num 1) (num (1#100)) (num 0);
     mk_row "B" (num 1) (num 1) (num (2#10)) (num 0);
     mk_row "C1" (num 1) (num 1) (num (9#10)) (num 0);
     mk_row "D" (num 1) (num 1) (num (1#1000)) (num 0)]
    (mk_criteria None (Some ["C1"]) (Some (num (5#100))) (Some 2%Z))
  = Some ["D"; "A"; "C1"].
Proof.
  apply (@selection_ordering_contract stable_pandas stable_pandas_contract);
    reflexivity.
Defined.

(** C5 on a table with tied p-values and a control feature: whatever
    [sort_values] does with the tie, the second selection is a
    rearrangement of the first. *)
Lemma selection_idempotent_witness :
  ∃ sel',
    @select_features_from_marginal_assoc_df stable_pandas
      (restrict_to ["f2"; "f1"; "ctl"]
         [mk_row "f1" nan nan (num (1#100)) nan;
          mk_row "ctl" nan nan nan nan;
          mk_row "f2" nan nan (num (1#1000)) nan;
          mk_row "f3" nan nan (num (1#100)) nan])
      (mk_criteria None (Some ["ctl"]) (Some (num (5#100))) (Some 2%Z))
    = Some sel'
    ∧ sel' ≡ₚ ["f2"; "f1"; "ctl"].
Proof.
  set (df := [mk_row "f1" nan nan (num (1#100)) nan;
              mk_row "ctl" nan nan nan nan;
              mk_row "f2" nan nan (num (1#1000)) nan;
              mk_row "f3" nan nan (num (1#100)) nan]).
  set (c := mk_criteria None (Some ["ctl"]) (Some (num (5#100)))
              (Some 2%Z)).
  assert (Hmax : ∀ n, feature_selection_max_num c = Some n → (0 ≤ n)%Z).
  { simpl. intros n [= <-]. lia. }
  assert (Hfirst : @select_features_from_marginal_assoc_df stable_pandas
                     df c = Some ["f2"; "f1"; "ctl"]) by by vm_compute.
  assert (Hnd : NoDup (feature <$> df)) by compute_done.
  destruct (proj1 (proj2 (@selection_idempotent stable_pandas
    stable_pandas_contract df c ["f2"; "f1"; "ctl"] Hmax Hfirst))
    eq_refl Hnd) as (sel' & Hsecond & Hperm & _).
  by exists sel'.
Defined.

(** C5 as stated fails, whatever [sort_values] does: with the subset list
    [A, B] and cutoff 0.05 the first selection keeps only A, and the second
    application, on the table restricted to A, raises [KeyError] for B
    instead of returning the same set.  With a negative maximum count (a
    Python slice bound) the second application returns a different set. *)
Lemma selection_not_idempotent_as_stated :
  let df := [mk_row "A" nan nan (num (1#100)) nan;
             mk_row "B" nan nan (num (2#10)) nan] in
  let c := mk_criteria (Some ["A"; "B"]) None (Some (num (5#100))) None in
  let c' := mk_criteria None None None (Some (-1)%Z) in
  (∀ sort_values : Pandas,
     @select_features_from_marginal_assoc_df sort_values df c = Some ["A"]
     ∧ @select_features_from_marginal_assoc_df sort_values
         (restrict_to ["A"] df) c = None)
  ∧ (∀ sort_values : Pandas, @sort_values_contract sort_values →
       @select_features_from_marginal_assoc_df sort_values df c'
       = Some ["A"]
       ∧ @select_features_from_marginal_assoc_df sort_values
           (restrict_to ["A"] df) c' = Some []).
Proof.
  cbv zeta. split.
  - intros sort_values. by vm_compute.
  - intros sort_values Hcontract.
    set (ra := mk_row "A" nan nan (num (1#100)) nan).
    set (rb := mk_row "B" nan nan (num (2#10)) nan).
    assert (Hsort2 : @sort_values_pval sort_values [ra; rb] = [ra; rb]).
    { destruct (Hcontract [ra; rb]) as [Hperm Hsorted].
      apply (sorted_perm_unique (λ r r', sort_le (pval r) (pval r') = true));
        [|done | by repeat constructor | done].
      intros x y Hx Hy Hxy Hyx. rewrite Hperm in Hx, Hy.
      apply elem_of_cons in Hx as [->|Hx];
        [|apply elem_of_cons in Hx as [->|Hx]; [|by apply elem_of_nil in Hx]];
      (apply elem_of_cons in Hy as [->|Hy];
        [|apply elem_of_cons in Hy as [->|Hy]; [|by apply elem_of_nil in Hy]]);
      done. }
    assert (Hsort1 : @sort_values_pval sort_values [ra] = [ra]).
    { destruct (Hcontract [ra]) as [Hperm _].
      by apply Permutation_singleton_r in Hperm. }
    unfold select_features_from_marginal_assoc_df, step_subset,
      surviving_rows, step_max_num.
    cbn [subset_features feature_selection_max_num mbind option_bind].
    change (step_cutoff _ (step_control _ [ra; rb])) with [ra; rb].
    change (step_cutoff _ (step_control _ (restrict_to ["A"] [ra; rb])))
      with [ra].
    rewrite Hsort2, Hsort1. split; reflexivity.
Qed.


(** ** Natural sort order *)

Section NaturalOrder.

Implicit Types (x y z : key_part) (a b d : list key_part).

Lemma part_cmp_eq x y : part_cmp x y = Eq ↔ x = y.
Proof.
  destruct x as [m|s], y as [n|t]; simpl; try (split; congruence).
  - rewrite N.compare_eq_iff. split; congruence.
  - rewrite (String_as_OT.cmp_eq s t). split; congruence.
Qed.

Lemma part_eqb_eq x y : part_eqb x y = true ↔ x = y.
Proof.
  destruct x as [m|s], y as [n|t]; simpl; try (split; congruence).
  - rewrite N.eqb_eq. split; congruence.
  - rewrite String.eqb_eq. split; congruence.
Qed.

Lemma part_cmp_antisym x y : part_cmp y x = CompOpp (part_cmp x y).
Proof.
  destruct x as [m|s], y as [n|t]; simpl; try done.
  - apply N.compare_antisym.
  - apply String_as_OT.cmp_antisym.
Qed.

Lemma part_cmp_trans x y z :
  part_cmp x y = Lt → part_cmp y z = Lt → part_cmp x z = Lt.
Proof.
  destruct x as [m|s], y as [n|t], z as [k|u]; simpl; try done.
  - rewrite !N.compare_lt_iff. lia.
  - rewrite !(String_as_OT.cmp_lt). apply String_as_OT.lt_trans.
Qed.

Lemma key_cmp_eq a b : key_cmp a b = Eq → a = b.
Proof.
  revert b. induction a as [|x a IH]; intros [|y b]; simpl; try done.
  destruct (part_cmp x y) eqn:Hxy; try done.
  apply part_cmp_eq in Hxy as ->. intros H. f_equal. by apply IH.
Qed.

Lemma key_cmp_refl a : key_cmp a a = Eq.
Proof.
  induction a as [|x a IH]; simpl; [done|].
  by rewrite (proj2 (part_cmp_eq x x) eq_refl).
Qed.

Lemma key_cmp_antisym a b : key_cmp b a = CompOpp (key_cmp a b).
Proof.
  revert b. induction a as [|x a IH]; intros [|y b]; simpl; try done.
  rewrite (part_cmp_antisym x y).
  destruct (part_cmp x y); simpl; [apply IH | done | done].
Qed.

Lemma key_cmp_trans a b d :
  key_cmp a b = Lt → key_cmp b d = Lt → key_cmp a d = Lt.
Proof.
  revert b d. induction a as [|x a IH]; intros [|y b] [|z d]; simpl; try done.
  destruct (part_cmp x y) eqn:Hxy, (part_cmp y z) eqn:Hyz; try done.
  - apply part_cmp_eq in Hxy as ->. rewrite Hyz. apply IH.
  - apply part_cmp_eq in Hxy as ->. by rewrite Hyz.
  - apply part_cmp_eq in Hyz as <-. by rewrite Hxy.
  - by rewrite (part_cmp_trans _ _ _ Hxy Hyz).
Qed.

(** Where Python's [<] on keys is defined, it is [key_cmp = Lt]. *)
Lemma key_ltb_cmp a b r :
  key_ltb a b = Some r → r = match key_cmp a b with Lt => true | _ => false end.
Proof.
  revert b. induction a as [|x a IH]; intros [|y b]; simpl; try congruence.
  destruct (part_eqb x y) eqn:Heq.
  - apply part_eqb_eq in Heq as ->.
    rewrite (proj2 (part_cmp_eq y y) eq_refl). apply IH.
  - assert (Hne : part_cmp x y ≠ Eq).
    { rewrite part_cmp_eq. intros ->.
      by rewrite (proj2 (part_eqb_eq y y) eq_refl) in Heq. }
    destruct x as [m|s], y as [n|t]; simpl in *; try done; intros [= <-].
    + unfold N.ltb. by destruct (m ?= n)%N.
    + unfold String.ltb. by destruct (String.compare s t).
Qed.

Lemma key_ltb_alternating p a b :
  alternating p a → alternating p b → is_Some (key_ltb a b).
Proof.
  revert p b. induction a as [|x a IH]; intros p [|y b]; simpl; try by eexists.
  destruct x, y; simpl; intros [-> Ha] [? Hb]; try done;
    (destruct (_ =? _)%N || destruct (String.eqb _ _)); eauto.
Qed.

Lemma no_digit_not_isdigit s : no_digit s = true → str_isdigit s = false.
Proof.
  destruct s as [|c s]; simpl; [done|].
  intros [Hc _]%andb_true_iff. apply negb_true_iff in Hc. by rewrite Hc.
Qed.

Lemma no_digit_snoc s c :
  no_digit s = true → is_digit c = false → no_digit (s +:+ String c "") = true.
Proof.
  intros Hs Hc. induction s as [|c' s IH]; simpl in *.
  - by rewrite Hc.
  - apply andb_true_iff in Hs as [-> Hs]. by rewrite IH.
Qed.

Lemma all_digits_snoc s c :
  all_digits s = true → is_digit c = true → all_digits (s +:+ String c "") = true.
Proof.
  intros Hs Hc. induction s as [|c' s IH]; simpl in *.
  - by rewrite Hc.
  - apply andb_true_iff in Hs as [-> Hs]. by rewrite IH.
Qed.

Lemma digits_isdigit s : s ≠ "" → all_digits s = true → str_isdigit s = true.
Proof. by destruct s. Qed.

Lemma snoc_nonempty s c : s +:+ String c "" ≠ "".
Proof. by destruct s. Qed.

Local Abbreviation to_part :=
  (λ s : string, if str_isdigit s then key_int (py_int s) else key_str s).

(** The pieces [re.split] returns alternate between text and digits. *)
Lemma re_split_digits_from_alternating (s : string) (in_digits : bool) (acc : string) :
  (if in_digits then acc ≠ "" ∧ all_digits acc = true
   else no_digit acc = true) →
  alternating in_digits (to_part <$> re_split_digits_from in_digits acc s).
Proof.
  revert in_digits acc.
  induction s as [|c s IH]; intros [|] acc Hacc; simpl.
  - destruct Hacc as [Hne Hd]. by rewrite (digits_isdigit _ Hne Hd).
  - by rewrite (no_digit_not_isdigit _ Hacc).
  - destruct Hacc as [Hne Hd]. destruct (is_digit c) eqn:Hc.
    + apply IH. split; [apply snoc_nonempty | by apply all_digits_snoc].
    + csimpl. rewrite (digits_isdigit _ Hne Hd). split; [done|].
      apply IH. simpl. by rewrite Hc.
  - destruct (is_digit c) eqn:Hc.
    + csimpl. rewrite (no_digit_not_isdigit _ Hacc). split; [done|].
      apply IH. simpl. by rewrite Hc.
    + apply IH. by apply no_digit_snoc.
Qed.

Lemma natural_key_alternating s : alternating false (natural_key s).
Proof. by apply re_split_digits_from_alternating. Qed.

(** Comparing two natural keys never raises [TypeError]. *)
Lemma natural_keys_comparable s t :
  is_Some (key_ltb (natural_key s) (natural_key t)).
Proof.
  eapply key_ltb_alternating; apply natural_key_alternating.
Qed.

Lemma natural_le_cmp s t :
  natural_le s t
  = match key_cmp (natural_key s) (natural_key t) with
    | Gt => false
    | _ => true
    end.
Proof.
  unfold natural_le.
  destruct (natural_keys_comparable t s) as [r Hr]. rewrite Hr.
  apply key_ltb_cmp in Hr as ->.
  rewrite (key_cmp_antisym (natural_key s) (natural_key t)).
  by destruct (key_cmp (natural_key s) (natural_key t)).
Qed.

Lemma natural_le_total s t : natural_le s t = false → natural_le t s = true.
Proof.
  rewrite !natural_le_cmp.
  rewrite (key_cmp_antisym (natural_key s) (natural_key t)).
  by destruct (key_cmp (natural_key s) (natural_key t)).
Qed.

Lemma natural_le_trans s t u :
  natural_le s t = true → natural_le t u = true → natural_le s u = true.
Proof.
  rewrite !natural_le_cmp.
  destruct (key_cmp (natural_key s) (natural_key t)) eqn:Hst; [| |done].
  - apply key_cmp_eq in Hst. by rewrite Hst.
  - destruct (key_cmp (natural_key t) (natural_key u)) eqn:Htu; [| |done].
    + apply key_cmp_eq in Htu. by rewrite <- Htu, Hst.
    + by rewrite (key_cmp_trans _ _ _ Hst Htu).
Qed.

Section SortedNatural.
Context {A : Type} (ident : A → string).

Lemma sorted_natural_perm (xs : list A) : sorted_natural ident xs ≡ₚ xs.
Proof. apply stable_sort_perm. Qed.

Lemma sorted_natural_sorted (xs : list A) :
  StronglySorted (λ u v, natural_le (ident u) (ident v) = true)
    (sorted_natural ident xs).
Proof.
  apply (stable_sort_sorted (λ u v, natural_le (ident u) (ident v))).
  - intros u v. apply natural_le_total.
  - intros u v w. apply natural_le_trans.
Qed.
End SortedNatural.

End NaturalOrder.

(** ** Assembling the feature matrix *)

Section FeatureMatrixAssembler.

Lemma mask_select_self {A} (g : A → bool) (l : list A) :
  mask_select (g <$> l) l = filter (λ x, g x = true) l.
Proof.
  rewrite <- (list_fmap_id l) at 2. rewrite mask_select_fmap.
  by rewrite list_fmap_id.
Qed.

Lemma filter_ext_in {A} (P Q : A → Prop)
    `{!∀ x, Decision (P x)} `{!∀ x, Decision (Q x)} (l : list A) :
  (∀ x, P x ↔ Q x) → filter P l = filter Q l.
Proof.
  intros Hiff. induction l as [|x l IH]; [done|].
  rewrite !filter_cons, IH.
  destruct (decide (P x)) as [HP|HP], (decide (Q x)) as [HQ|HQ];
    try done; by apply Hiff in HP || apply Hiff in HQ.
Qed.

Lemma kept_cols_filter (sel cols : list string) :
  mask_select
    ((λ c, bool_decide (c ∈ (list_to_set sel : gset string))) <$> cols) cols
  = filter (λ c, c ∈ sel) cols.
Proof.
  rewrite mask_select_self. apply filter_ext_in.
  intros c. rewrite bool_decide_eq_true. apply elem_of_list_to_set.
Qed.

(** The selection enters [keep_columns] only through its set of names. *)
Lemma keep_columns_set (sel sel' : list string) sh :
  (∀ f, f ∈ sel' ↔ f ∈ sel) →
  keep_columns (Some sel') sh = keep_columns (Some sel) sh.
Proof.
  intros Hset. unfold keep_columns.
  assert (list_to_set sel' = (list_to_set sel : gset string)) as ->; [|done].
  apply set_eq. intros f. by rewrite !elem_of_list_to_set.
Qed.

Lemma hstack_fold_rows {A} (ms : list (list (list A))) (acc : list (list A)) n :
  length acc = n → Forall (λ m, length m = n) ms →
  ∃ M, fold_left (λ acc m', acc ≫= λ a, hstack_pair a m') ms (Some acc) = Some M
       ∧ length M = n
       ∧ ∀ i, i < n →
           M !! i = Some (nth i acc [] ++ List.concat ((λ m, nth i m []) <$> ms)).
Proof.
  intros Hacc Hms. revert acc Hacc.
  induction Hms as [|m ms Hm _ IH]; intros acc Hacc.
  - exists acc. split; [done|]. split; [done|].
    intros i Hi. simpl. rewrite app_nil_r.
    apply lookup_nth_lt. lia.
  - simpl. unfold hstack_pair at 2.
    rewrite decide_True by congruence.
    destruct (IH (zip_with app acc m)) as (M & HM & Hlen & Hrow).
    { rewrite length_zip_with. lia. }
    exists M. split; [done|]. split; [done|].
    intros i Hi. rewrite (Hrow i Hi). f_equal.
    rewrite app_assoc. f_equal.
    destruct (lookup_lt_is_Some_2 acc i) as [x Hx]; [lia|].
    destruct (lookup_lt_is_Some_2 m i) as [y Hy]; [lia|].
    rewrite (nth_lookup_Some _ _ _ _ Hx), (nth_lookup_Some _ _ _ _ Hy).
    apply nth_lookup_Some. by rewrite lookup_zip_with, Hx, Hy.
Qed.

Lemma np_hstack_2d_rows {A} (ms : list (list (list A))) n :
  ms ≠ [] → Forall (λ m, length m = n) ms →
  ∃ M, np_hstack_2d ms = Some M ∧ length M = n
       ∧ ∀ i, i < n → M !! i = Some (List.concat ((λ m, nth i m []) <$> ms)).
Proof.
  destruct ms as [|m ms]; [done|]. intros _ Hms.
  apply Forall_cons in Hms as [Hm Hms].
  destruct (hstack_fold_rows ms m n Hm Hms) as (M & HM & Hlen & Hrow).
  exists M. split; [done|]. split; [done|].
  intros i Hi. by rewrite (Hrow i Hi).
Qed.

Lemma np_hstack_1d_nonempty {A} (arrs : list (list A)) :
  arrs ≠ [] → np_hstack_1d arrs = Some (List.concat arrs).
Proof. by destruct arrs. Qed.

Lemma keep_columns_fst sel sh i :
  i < length (shard_mat sh) →
  nth i (keep_columns (Some sel) sh).1 []
  = kept_entries sel (shard_cols sh) (nth i (shard_mat sh) []).
Proof.
  intros Hi. simpl. apply nth_lookup_Some.
  rewrite list_lookup_fmap, (lookup_nth_lt (shard_mat sh) i [] Hi). simpl.
  unfold kept_entries. do 2 f_equal.
  apply list_fmap_ext. intros _ c _. apply bool_decide_ext.
  apply elem_of_list_to_set.
Qed.

Lemma keep_columns_snd sel sh :
  (keep_columns (Some sel) sh).2 = filter (λ c, c ∈ sel) (shard_cols sh).
Proof. apply kept_cols_filter. Qed.

Lemma keep_columns_length sel sh :
  length (keep_columns sel sh).1 = length (shard_mat sh).
Proof. destruct sel; simpl; [by rewrite length_fmap | done]. Qed.

(** C8, as the code has it.  For a non-empty collection of shards that
    share their [n] gene rows, [load_feature_matrix] returns: the shards
    taken in natural-sort order of their identifiers (a sorted permutation
    of the collection); as column names, the concatenation in that order of
    each shard's names that are in the selected set, in the shard's own
    order; as matrix, row by row, the concatenation in the same order of the
    entries in those columns; and the rows file unchanged.  A selected name
    that is a column of no shard does not appear and raises nothing, and the
    result depends on the selection only through its set of names, not on
    its order. *)
Theorem load_feature_matrix_concatenation rows shards sel n :
  shards ≠ [] →
  Forall (shard_shape n) shards →
  ∃ mat cols,
    load_feature_matrix rows shards (Some sel) = Some (mat, cols, rows)
    ∧ sorted_natural file_id shards ≡ₚ shards
    ∧ StronglySorted (λ s1 s2, natural_le (file_id s1) (file_id s2) = true)
        (sorted_natural file_id shards)
    ∧ cols = List.concat ((λ sh, filter (λ c, c ∈ sel) (shard_cols sh))
                            <$> sorted_natural file_id shards)
    ∧ length mat = n
    ∧ (∀ i, i < n →
         mat !! i
         = Some (List.concat
                   ((λ sh, kept_entries sel (shard_cols sh)
                             (nth i (shard_mat sh) []))
                      <$> sorted_natural file_id shards)))
    ∧ (∀ f, f ∈ sel → (∀ sh, sh ∈ shards → f ∉ shard_cols sh) → f ∉ cols)
    ∧ (∀ sel', (∀ f, f ∈ sel' ↔ f ∈ sel) →
         load_feature_matrix rows shards (Some sel') = Some (mat, cols, rows)).
Proof.
  intros Hne Hshape.
  pose proof (sorted_natural_perm file_id shards) as Hperm.
  set (sorted := sorted_natural file_id shards) in *.
  assert (Hsorted_shape : Forall (shard_shape n) sorted) by by rewrite Hperm.
  assert (Hsorted_ne : sorted ≠ []).
  { intros Hnil. rewrite Hnil in Hperm. by apply Permutation_nil_l in Hperm. }
  destruct (np_hstack_2d_rows ((keep_columns (Some sel) <$> sorted).*1) n)
    as (mat & Hmat & Hlen & Hrow).
  { by destruct sorted. }
  { rewrite <- list_fmap_compose. apply Forall_fmap.
    eapply Forall_impl; [exact Hsorted_shape|].
    intros sh [Hn _]. simpl. by rewrite length_fmap. }
  exists mat,
    (List.concat ((λ sh, filter (λ c, c ∈ sel) (shard_cols sh)) <$> sorted)).
  assert (Hload : ∀ sel', (∀ f, f ∈ sel' ↔ f ∈ sel) →
    load_feature_matrix rows shards (Some sel')
    = Some (mat, List.concat ((λ sh, filter (λ c, c ∈ sel) (shard_cols sh))
                                <$> sorted), rows)).
  { intros sel' Hset. unfold load_feature_matrix. fold sorted.
    rewrite (list_fmap_ext (keep_columns (Some sel'))
               (keep_columns (Some sel)) sorted)
      by (intros; by apply keep_columns_set).
    rewrite Hmat. simpl.
    rewrite np_hstack_1d_nonempty by by destruct sorted.
    rewrite <- list_fmap_compose.
    rewrite (list_fmap_ext (snd ∘ keep_columns (Some sel))
               (λ sh, filter (λ c, c ∈ sel) (shard_cols sh)) sorted); [done|].
    intros _ sh _. apply keep_columns_snd. }
  split; [by apply Hload|]. split; [done|].
  split; [apply sorted_natural_sorted|]. split; [done|]. split; [done|].
  split; [|split; [|exact Hload]].
  - intros i Hi. rewrite (Hrow i Hi). do 2 f_equal.
    rewrite <- !list_fmap_compose. apply Forall_fmap_ext_1.
    eapply Forall_impl; [exact Hsorted_shape|].
    intros sh [Hn _]. simpl. apply (keep_columns_fst sel sh i). lia.
  - intros f _ Habsent Hin.
    apply list_elem_of_In, in_concat in Hin as (cs & Hcs & Hf).
    apply list_elem_of_In, list_elem_of_fmap in Hcs as (sh & -> & Hsh).
    apply list_elem_of_In, list_elem_of_filter in Hf as [_ Hf].
    rewrite Hperm in Hsh. by apply (Habsent sh Hsh).
Qed.


(** The theorem on two shards listed out of order, with a selection that
    names a feature no shard has. *)
Lemma load_feature_matrix_concatenation_witness :
  ∃ mat cols,
    load_feature_matrix ["g1"; "g2"]
      [mk_shard "10" [[1; 2]; [3; 4]]%R ["f3"; "f4"];
       mk_shard "2" [[5; 6]; [7; 8]]%R ["f1"; "f2"]]
      (Some ["f3"; "zz"; "f1"])
    = Some (mat, cols, ["g1"; "g2"])
    ∧ cols = ["f1"; "f3"]
    ∧ mat !! 0 = Some [5; 1]%R.
Proof.
  destruct (load_feature_matrix_concatenation ["g1"; "g2"]
      [mk_shard "10" [[1; 2]; [3; 4]]%R ["f3"; "f4"];
       mk_shard "2" [[5; 6]; [7; 8]]%R ["f1"; "f2"]]
      ["f3"; "zz"; "f1"] 2)
    as (mat & cols & Hload & _ & _ & Hcols & _ & Hrow & _).
  - done.
  - repeat constructor.
  - exists mat, cols. split; [exact Hload|]. split.
    + rewrite Hcols. by vm_compute.
    + rewrite (Hrow 0) by lia. by vm_compute.
Defined.

(** C8 as stated fails on the empty shard collection: [np.hstack] of an
    empty list raises [ValueError], so nothing is returned. *)
Lemma load_feature_matrix_no_shards :
  load_feature_matrix ["g1"; "g2"] [] (Some ["f1"]) = None.
Proof. reflexivity. Qed.

End FeatureMatrixAssembler.

(** ** Block linear algebra: which entries are read *)

Section BlockReads.

Lemma mask_select_nil_r {A} (mask : list bool) : mask_select mask (@nil A) = [].
Proof. unfold mask_select. by destruct mask. Qed.

Lemma mask_select_cons {A} (b : bool) mask (x : A) xs :
  mask_select (b :: mask) (x :: xs)
  = if b then x :: mask_select mask xs else mask_select mask xs.
Proof.
  unfold mask_select. simpl. rewrite filter_cons. by destruct b.
Qed.

Lemma mask_select_fmap_comm {A B} (f : A → B) mask (xs : list A) :
  mask_select mask (f <$> xs) = f <$> mask_select mask xs.
Proof.
  revert xs. induction mask as [|b mask IH]; intros [|x xs]; try done.
  rewrite fmap_cons, !mask_select_cons, IH. by destruct b.
Qed.

(** A masked selection reads only the positions where the mask is true. *)
Lemma mask_select_ext {A} mask (xs ys : list A) :
  (∀ i, mask !! i = Some true → xs !! i = ys !! i) →
  mask_select mask xs = mask_select mask ys.
Proof.
  revert xs ys. induction mask as [|b mask IH]; intros xs ys Hagree; [done|].
  assert (Htl : ∀ xs' ys' : list A,
            (∀ i, mask !! i = Some true → xs' !! i = ys' !! i) →
            mask_select mask xs' = mask_select mask ys') by exact IH.
  destruct xs as [|x xs], ys as [|y ys];
    rewrite ?mask_select_nil_r, ?mask_select_cons; try done.
  - destruct b; [by specialize (Hagree 0 eq_refl)|].
    rewrite <- (mask_select_nil_r mask). apply Htl.
    intros i Hi. apply (Hagree (S i) Hi).
  - destruct b; [by specialize (Hagree 0 eq_refl)|].
    rewrite <- (mask_select_nil_r mask). apply Htl.
    intros i Hi. apply (Hagree (S i) Hi).
  - rewrite (Htl xs ys) by (intros i Hi; apply (Hagree (S i) Hi)).
    destruct b; [|done]. specialize (Hagree 0 eq_refl). simpl in Hagree.
    congruence.
Qed.

Lemma subset_ind_lookup block_labels l i :
  subset_ind block_labels l !! i = Some true ↔ block_labels !! i = Some l.
Proof.
  unfold subset_ind. rewrite list_lookup_fmap.
  destruct (block_labels !! i) as [x|]; simpl; [|done].
  split.
  - intros [= Hx]. apply bool_decide_eq_true_1 in Hx. by subst.
  - intros [= ->]. by rewrite bool_decide_eq_true_2.
Qed.

Lemma same_shape_length A A' : same_shape A A' → length A = length A'.
Proof.
  unfold same_shape. intros Hs.
  by rewrite <- (length_fmap length A), Hs, length_fmap.
Qed.

Lemma same_shape_zeros_like A A' : same_shape A A' → zeros_like A = zeros_like A'.
Proof.
  unfold same_shape, zeros_like. revert A'.
  induction A as [|row A IH]; intros [|row' A'] Hs; try done.
  injection Hs as Hrow Hs. rewrite !fmap_cons, (IH A' Hs). f_equal.
  clear -Hrow. revert row' Hrow.
  induction row as [|x row IH]; intros [|y row'] Hrow; try done.
  injection Hrow as Hrow. by rewrite !fmap_cons, (IH row' Hrow).
Qed.

(** The block of a label is the same in two matrices that agree within
    blocks. *)
Lemma ix_select_agree block_labels A A' l :
  same_shape A A' → agree_within_blocks block_labels A A' →
  ix_select (subset_ind block_labels l) (subset_ind block_labels l) A
  = ix_select (subset_ind block_labels l) (subset_ind block_labels l) A'.
Proof.
  intros Hshape Hagree. unfold ix_select.
  set (m := subset_ind block_labels l).
  rewrite <- !mask_select_fmap_comm. apply mask_select_ext.
  intros i Hi. apply subset_ind_lookup in Hi.
  rewrite !list_lookup_fmap.
  pose proof (same_shape_length _ _ Hshape) as Hlen.
  destruct (A !! i) as [row|] eqn:Hrow, (A' !! i) as [row'|] eqn:Hrow'; simpl.
  - f_equal. apply mask_select_ext. intros j Hj.
    apply subset_ind_lookup in Hj.
    specialize (Hagree i j l Hi Hj). unfold entry in Hagree.
    by rewrite Hrow, Hrow' in Hagree.
  - apply lookup_lt_Some in Hrow. apply lookup_ge_None in Hrow'. lia.
  - apply lookup_ge_None in Hrow. apply lookup_lt_Some in Hrow'. lia.
  - done.
Qed.

Lemma fold_left_ext_in {A B} (f g : A → B → A) (l : list B) (a : A) :
  (∀ a x, x ∈ l → f a x = g a x) → fold_left f l a = fold_left g l a.
Proof.
  revert a. induction l as [|x l IH]; intros a Hfg; [done|].
  simpl. rewrite (Hfg a x) by by left.
  apply IH. intros a' y Hy. apply Hfg. by right.
Qed.

(** C9.  The block operations do not read off-block entries: on two
    matrices of one shape that agree on all within-block entries,
    [block_Linv], [block_AB] and [block_BA] return the same result, for every
    right-hand side [B] (a vector or a matrix for [block_AB]) and whatever
    the library routines compute. *)
Theorem block_operations_ignore_off_block_entries
    `{Libraries} `{NdRows T} (block_labels : list string) (A A' : matrix) :
  same_shape A A' → agree_within_blocks block_labels A A' →
  block_Linv A block_labels = block_Linv A' block_labels
  ∧ (∀ B : list T, block_AB A block_labels B = block_AB A' block_labels B)
  ∧ (∀ B : matrix, block_BA A block_labels B = block_BA A' block_labels B).
Proof.
  intros Hshape Hagree.
  pose proof (λ l, ix_select_agree block_labels A A' l Hshape Hagree) as Hblock.
  split; [|split].
  - unfold block_Linv. rewrite (same_shape_zeros_like _ _ Hshape).
    apply fold_left_ext_in. intros Linv l _.
    unfold block_Linv_body. by rewrite Hblock.
  - intros B. unfold block_AB.
    apply fold_left_ext_in. intros new_B l _.
    unfold block_AB_body. by rewrite Hblock.
  - intros B. unfold block_BA.
    apply fold_left_ext_in. intros new_B l _.
    unfold block_BA_body. by rewrite Hblock.
Qed.

(** The theorem on two 2 by 2 matrices with one gene per chromosome that
    differ off the diagonal. *)
Lemma block_operations_ignore_off_block_entries_witness :
  @block_Linv small_libraries [[4; 2]; [3; 9]]%R ["1"; "2"]
  = @block_Linv small_libraries [[4; 7]; [8; 9]]%R ["1"; "2"]
  ∧ (∀ B : vector, block_AB [[4; 2]; [3; 9]]%R ["1"; "2"] B
                   = block_AB [[4; 7]; [8; 9]]%R ["1"; "2"] B)
  ∧ (∀ B : matrix, block_BA [[4; 2]; [3; 9]]%R ["1"; "2"] B
                   = block_BA [[4; 7]; [8; 9]]%R ["1"; "2"] B).
Proof.
  apply (@block_operations_ignore_off_block_entries small_libraries R _).
  - reflexivity.
  - intros [|[|i]] [|[|j]] l Hi Hj; simpl in *; try done; congruence.
Defined.

End BlockReads.

(** ** The loops do not depend on the iteration order of the set *)

Section IterationOrder.

Lemma fold_left_comm_perm {A B} (f : A → B → A) (l l' : list B) (a : A) :
  (∀ a x y, x ∈ l → y ∈ l → x ≠ y → f (f a x) y = f (f a y) x) →
  NoDup l → l ≡ₚ l' → fold_left f l a = fold_left f l' a.
Proof.
  intros Hcomm Hnd Hperm. revert a Hcomm Hnd.
  induction Hperm as [|x l l' Hperm IH|x y l|l l' l'' Hp1 IH1 Hp2 IH2];
    intros a Hcomm Hnd.
  - done.
  - simpl. apply NoDup_cons in Hnd as [_ Hnd]. apply IH; [|done].
    intros a' u v Hu Hv. apply Hcomm; by right.
  - simpl. f_equal. apply NoDup_cons in Hnd as [Hy _].
    apply Hcomm; [by left | right; by left |].
    intros ->. apply Hy. by left.
  - rewrite IH1 by done. apply IH2.
    + intros a' u v Hu Hv. apply Hcomm; by rewrite Hp1.
    + by rewrite <- Hp1.
Qed.

Lemma disjoint_masks_tail b1 b2 m1 m2 :
  disjoint_masks (b1 :: m1) (b2 :: m2) → disjoint_masks m1 m2.
Proof. intros Hd i. apply (Hd (S i)). Qed.

(** Updates at disjoint masks commute. *)
Lemma mask_update_comm {T V1 V2} (f1 : T → V1 → T) (f2 : T → V2 → T)
    m1 m2 (xs : list T) (v1 : list V1) (v2 : list V2) :
  disjoint_masks m1 m2 →
  mask_update f1 m1 (mask_update f2 m2 xs v2) v1
  = mask_update f2 m2 (mask_update f1 m1 xs v1) v2.
Proof.
  revert m2 xs v1 v2.
  induction m1 as [|b1 m1 IH]; intros m2 xs v1 v2 Hd.
  { done. }
  destruct m2 as [|b2 m2].
  { simpl. by destruct (mask_update f1 (b1 :: m1) xs v1). }
  destruct xs as [|x xs]; [done|].
  pose proof (disjoint_masks_tail _ _ _ _ Hd) as Hd'.
  destruct b1, b2; simpl.
  - by destruct (Hd 0%nat eq_refl eq_refl).
  - destruct v1 as [|w v1]; [done|]. by rewrite IH.
  - destruct v2 as [|w v2]; [done|]. by rewrite IH.
  - by rewrite IH.
Qed.

Lemma subset_ind_disjoint_masks labels l l' :
  l ≠ l' → disjoint_masks (subset_ind labels l) (subset_ind labels l').
Proof.
  intros Hne i Hl Hl'. apply subset_ind_lookup in Hl, Hl'. congruence.
Qed.

Lemma zip_with_mask_assign_comm {T} m1 m2 (X V1 V2 : list (list T)) :
  disjoint_masks m1 m2 →
  zip_with (mask_assign m1) (zip_with (mask_assign m2) X V2) V1
  = zip_with (mask_assign m2) (zip_with (mask_assign m1) X V1) V2.
Proof.
  intros Hd. revert V1 V2.
  induction X as [|x X IH]; intros [|v1 V1] [|v2 V2]; try done.
  cbn [zip_with]. f_equal; [|apply IH].
  by apply mask_update_comm.
Qed.

Context `{Libraries}.

(** For every enumeration [order] of the set of labels without
    repetition, the loops over [order] return what the model returns. *)
Lemma block_AB_any_order `{NdRows T} A labels (B : list T) order :
  order ≡ₚ py_set labels →
  fold_left (block_AB_body A labels B) order (zeros_like_rows B)
  = block_AB A labels B.
Proof.
  intros Hperm. unfold block_AB. symmetry.
  apply fold_left_comm_perm; [|apply NoDup_remove_dups | done].
  intros new_B l l' _ _ Hne. unfold block_AB_body, mask_assign.
  by apply mask_update_comm, subset_ind_disjoint_masks.
Qed.

Lemma block_BA_any_order A labels (B : matrix) order :
  order ≡ₚ py_set labels →
  fold_left (block_BA_body A labels B) order (zeros_like B)
  = block_BA A labels B.
Proof.
  intros Hperm. unfold block_BA. symmetry.
  apply fold_left_comm_perm; [|apply NoDup_remove_dups | done].
  intros new_B l l' _ _ Hne. unfold block_BA_body.
  by apply zip_with_mask_assign_comm, subset_ind_disjoint_masks.
Qed.

Lemma block_Linv_body_eq A labels Linv l :
  block_Linv_body A labels Linv l
  = (M ← Linv;
     Li ← cholesky (ix_select (subset_ind labels l)
                       (subset_ind labels l) A) ≫= inv;
     Some (ix_assign (subset_ind labels l) (subset_ind labels l) M Li)).
Proof.
  unfold block_Linv_body. destruct Linv as [M|]; [|done]. simpl.
  by destruct (cholesky _).
Qed.

Lemma block_Linv_any_order A labels order :
  order ≡ₚ py_set labels →
  fold_left (block_Linv_body A labels) order (Some (zeros_like A))
  = block_Linv A labels.
Proof.
  intros Hperm. unfold block_Linv. symmetry.
  apply fold_left_comm_perm; [|apply NoDup_remove_dups | done].
  intros Linv l l' _ _ Hne. rewrite !block_Linv_body_eq.
  destruct Linv as [M|]; simpl.
  - destruct (cholesky (ix_select (subset_ind labels l)
                          (subset_ind labels l) A) ≫= inv) as [Li|],
      (cholesky (ix_select (subset_ind labels l')
                   (subset_ind labels l') A) ≫= inv) as [Li'|];
      simpl; try done.
    f_equal. unfold ix_assign.
    by apply mask_update_comm, subset_ind_disjoint_masks.
  - done.
Qed.

Lemma min_lambda_any_order error_cov Y_chr order :
  order ≡ₚ py_set Y_chr →
  fold_left (min_lambda_body error_cov Y_chr) order (Some 0%R)
  = min_lambda_loop error_cov Y_chr.
Proof.
  intros Hperm. unfold min_lambda_loop. symmetry.
  apply fold_left_comm_perm; [|apply NoDup_remove_dups | done].
  intros [a|] c c' _ _ _; unfold min_lambda_body; simpl; [|done].
  destruct (py_min (eigvalsh (ix_select (subset_ind Y_chr c)
                                (subset_ind Y_chr c) error_cov))) as [w|],
    (py_min (eigvalsh (ix_select (subset_ind Y_chr c')
                         (subset_ind Y_chr c') error_cov))) as [w'|];
    simpl; try done.
  f_equal. unfold Rmin.
  repeat (destruct (Rle_dec _ _)); lra.
Qed.

End IterationOrder.

(** ** Covariance regularisation *)

Section CovarianceRegularizer.

Implicit Types (u v x : vector) (M : matrix) (mask : list bool).

Lemma dot_nil_r u : dot u [] = 0%R.
Proof. unfold dot. by destruct u. Qed.

Lemma dot_cons a u b v : dot (a :: u) (b :: v) = (a * b + dot u v)%R.
Proof. done. Qed.

Lemma dot_plus_r x u v :
  length u = length v →
  dot x (zip_with Rplus u v) = (dot x u + dot x v)%R.
Proof.
  revert u v. induction x as [|a x IH]; intros [|b u] [|c v] Hlen;
    try done; simpl in Hlen; try (unfold dot; simpl; lra).
  change (zip_with Rplus (b :: u) (c :: v))
    with ((b + c)%R :: zip_with Rplus u v).
  rewrite !dot_cons, IH by lia. lra.
Qed.

Lemma dot_plus_l u v x :
  length u = length v →
  dot (zip_with Rplus u v) x = (dot u x + dot v x)%R.
Proof.
  revert v x. induction u as [|b u IH]; intros [|c v] [|a x] Hlen;
    try done; simpl in Hlen; try (unfold dot; simpl; lra).
  change (zip_with Rplus (b :: u) (c :: v))
    with ((b + c)%R :: zip_with Rplus u v).
  rewrite !dot_cons, IH by lia. lra.
Qed.

Lemma dot_scale_l c u x : dot (Rmult c <$> u) x = (c * dot u x)%R.
Proof.
  revert x. induction u as [|b u IH]; intros [|a x]; try (unfold dot; simpl; lra).
  rewrite fmap_cons, !dot_cons, IH. lra.
Qed.

Lemma dot_zeros_l (n : nat) x : dot (replicate n 0%R) x = 0%R.
Proof.
  revert x. induction n as [|n IH]; intros [|a x]; try done.
  simpl. rewrite dot_cons, IH. lra.
Qed.

Lemma dot_self_nonneg x : (0 <= dot x x)%R.
Proof.
  induction x as [|a x IH]; [unfold dot; simpl; lra|].
  rewrite dot_cons. nra.
Qed.

Lemma eye_S n :
  eye (S n) = (1%R :: replicate n 0%R) :: (cons 0%R <$> eye n).
Proof.
  unfold eye. rewrite <- cons_seq, <- !fmap_S_seq. simpl. f_equal.
  - f_equal. rewrite <- list_fmap_compose.
    assert (Hz : ∀ k, (λ j : nat, if decide (0 = j) then 1%R else 0%R) ∘ S
                        <$> seq k n = replicate n 0%R).
    { induction n as [|n IH]; intros k; [done|]. simpl. by rewrite IH. }
    apply Hz.
  - rewrite <- !list_fmap_compose. apply list_fmap_ext. intros _ i _. simpl.
    f_equal. rewrite <- list_fmap_compose. apply list_fmap_ext. intros _ j _.
    simpl. destruct (decide (S i = S j)), (decide (i = j)); (done || lia).
Qed.

Lemma mask_select_zip_with {A B C} (f : A → B → C) mask (xs : list A) (ys : list B) :
  length xs = length ys →
  mask_select mask (zip_with f xs ys)
  = zip_with f (mask_select mask xs) (mask_select mask ys).
Proof.
  revert xs ys. induction mask as [|b mask IH]; intros [|a xs] [|c ys] Hlen;
    try done; simpl in Hlen.
  change (zip_with f (a :: xs) (c :: ys)) with (f a c :: zip_with f xs ys).
  rewrite !mask_select_cons, IH by lia. by destruct b.
Qed.

Lemma mask_select_replicate {A} mask (n : nat) (a : A) :
  length mask = n →
  mask_select mask (replicate n a) = replicate (length (mask_select mask mask)) a.
Proof.
  revert n. induction mask as [|b mask IH]; intros [|n] Hlen; try done.
  simpl in Hlen. simpl replicate. rewrite !mask_select_cons.
  destruct b; simpl; by rewrite IH by lia.
Qed.

(** The number of positions a mask selects. *)
Lemma mask_select_length {A} mask (xs : list A) :
  length mask = length xs →
  length (mask_select mask xs) = length (mask_select mask mask).
Proof.
  revert xs. induction mask as [|b mask IH]; intros [|a xs] Hlen; try done.
  simpl in Hlen. rewrite !mask_select_cons.
  destruct b; simpl; by rewrite IH by lia.
Qed.

Lemma ix_select_eye mask n :
  length mask = n →
  ix_select mask mask (eye n) = eye (length (mask_select mask mask)).
Proof.
  revert n. induction mask as [|b mask IH]; intros [|n] Hlen; try done.
  simpl in Hlen. rewrite eye_S. unfold ix_select in *.
  rewrite !mask_select_cons. destruct b.
  - rewrite fmap_cons, mask_select_cons. simpl length. rewrite eye_S.
    f_equal.
    + f_equal. rewrite mask_select_replicate by lia. done.
    + rewrite <- (IH n) by lia.
      rewrite mask_select_fmap_comm, <- !list_fmap_compose.
      apply list_fmap_ext. intros _ row _. simpl. by rewrite mask_select_cons.
  - rewrite <- (IH n) by lia.
    rewrite mask_select_fmap_comm, <- !list_fmap_compose.
    apply list_fmap_ext. intros _ row _. simpl. by rewrite mask_select_cons.
Qed.

Lemma Forall_mask_select {A} (P : A → Prop) mask (xs : list A) :
  Forall P xs → Forall P (mask_select mask xs).
Proof.
  intros HP. apply Forall_forall. intros y Hy.
  unfold mask_select in Hy.
  apply list_elem_of_fmap in Hy as ([b y'] & -> & Hy).
  apply list_elem_of_filter in Hy as [_ Hy].
  apply elem_of_zip_r in Hy. by eapply (proj1 (Forall_forall _ _) HP).
Qed.

Lemma fmap_mask_select_madd mask (n : nat) (X Y : matrix) :
  Forall (λ r, length r = n) X → Forall (λ r, length r = n) Y →
  mask_select mask <$> madd X Y
  = madd (mask_select mask <$> X) (mask_select mask <$> Y).
Proof.
  intros HX. revert Y. induction HX as [|r X Hr _ IH]; intros Y HY; [done|].
  destruct HY as [|r' Y Hr' HY]; [done|].
  unfold madd in *. cbn [zip_with fmap list_fmap]. f_equal.
  - apply mask_select_zip_with. congruence.
  - by apply IH.
Qed.

Lemma ix_select_madd mask (n : nat) (X Y : matrix) :
  square n X → square n Y →
  ix_select mask mask (madd X Y)
  = madd (ix_select mask mask X) (ix_select mask mask Y).
Proof.
  intros [HlX HX] [HlY HY]. unfold ix_select, madd.
  rewrite mask_select_zip_with by congruence.
  apply (fmap_mask_select_madd mask n); by apply Forall_mask_select.
Qed.

Lemma ix_select_mscale mask c (X : matrix) :
  ix_select mask mask (mscale c X) = mscale c (ix_select mask mask X).
Proof.
  unfold ix_select, mscale.
  rewrite mask_select_fmap_comm, <- !list_fmap_compose.
  apply list_fmap_ext. intros _ row _. simpl. apply mask_select_fmap_comm.
Qed.

Lemma eye_square n : square n (eye n).
Proof.
  unfold square, eye. split; [by rewrite length_fmap, length_seq|].
  apply Forall_fmap, Forall_forall. intros i _. simpl.
  by rewrite length_fmap, length_seq.
Qed.

Lemma mscale_square n c M : square n M → square n (mscale c M).
Proof.
  intros [Hl HM]. unfold square, mscale. split; [by rewrite length_fmap|].
  apply Forall_fmap. eapply Forall_impl; [exact HM|].
  intros row Hrow. simpl. by rewrite length_fmap.
Qed.

Lemma ix_select_square mask n M :
  length mask = n → square n M →
  square (length (mask_select mask mask)) (ix_select mask mask M).
Proof.
  intros Hm [Hl HM]. unfold square, ix_select. split.
  - rewrite length_fmap. apply mask_select_length. congruence.
  - apply Forall_fmap, Forall_mask_select.
    eapply Forall_impl; [exact HM|]. intros row Hrow. simpl.
    apply mask_select_length. congruence.
Qed.

(** The block of the regularised matrix is the regularised block. *)
Lemma block_of_regularized labels c n M ridge :
  length labels = n → square n M →
  block_of labels c (madd M (mscale ridge (eye n)))
  = madd (block_of labels c M)
      (mscale ridge (eye (length (block_of labels c M)))).
Proof.
  intros Hlab HM. unfold block_of.
  set (mask := subset_ind labels c).
  assert (Hmask : length mask = n) by (unfold mask, subset_ind; by rewrite length_fmap).
  rewrite (ix_select_madd mask n) by (done || apply mscale_square, eye_square).
  rewrite ix_select_mscale, (ix_select_eye mask n Hmask).
  do 3 f_equal. symmetry.
  apply (ix_select_square mask n M Hmask HM).
Qed.

(** *** The quadratic form of [M + ridge * I] *)

Lemma matvec_madd (n : nat) (X Y : matrix) x :
  length X = length Y →
  Forall (λ r, length r = n) X → Forall (λ r, length r = n) Y →
  matvec (madd X Y) x = zip_with Rplus (matvec X x) (matvec Y x).
Proof.
  intros Hlen HX. revert Y Hlen.
  induction HX as [|r X Hr _ IH]; intros [|r' Y] Hlen HY; try done.
  apply Forall_cons in HY as [Hr' HY]. simpl in Hlen.
  unfold matvec, madd in *. cbn [zip_with fmap list_fmap]. f_equal.
  - apply dot_plus_l. congruence.
  - apply IH; [lia | done].
Qed.

Lemma matvec_mscale c (X : matrix) x :
  matvec (mscale c X) x = Rmult c <$> matvec X x.
Proof.
  unfold matvec, mscale. rewrite <- !list_fmap_compose.
  apply list_fmap_ext. intros _ row _. simpl. apply dot_scale_l.
Qed.

Lemma matvec_eye n x : length x = n → matvec (eye n) x = x.
Proof.
  revert x. induction n as [|n IH]; intros [|a x] Hlen; try done.
  simpl in Hlen. rewrite eye_S. unfold matvec in *.
  cbn [fmap list_fmap]. f_equal.
  - rewrite dot_cons, dot_zeros_l. lra.
  - rewrite <- list_fmap_compose.
    etransitivity; [|apply (IH x); lia].
    apply list_fmap_ext. intros _ row _. simpl. rewrite dot_cons. lra.
Qed.

Lemma dot_scale_r c u x : dot x (Rmult c <$> u) = (c * dot x u)%R.
Proof.
  revert u. induction x as [|a x IH]; intros [|b u]; try (unfold dot; simpl; lra).
  rewrite fmap_cons, !dot_cons, IH. lra.
Qed.

Lemma quad_form_regularized n M ridge x :
  square n M → length x = n →
  quad_form (madd M (mscale ridge (eye n))) x
  = (quad_form M x + ridge * dot x x)%R.
Proof.
  intros [Hl HM] Hx. unfold quad_form.
  destruct (eye_square n) as [Hle HE].
  destruct (mscale_square n ridge _ (eye_square n)) as [Hls HS].
  rewrite (matvec_madd n) by (done || congruence).
  rewrite dot_plus_r.
  - by rewrite matvec_mscale, matvec_eye, dot_scale_r.
  - unfold matvec. rewrite !length_fmap. congruence.
Qed.

(** *** The smallest eigenvalue found by the loop *)

Lemma fold_left_Rmin (W : vector) (a : R) :
  (fold_left Rmin W a <= a)%R
  ∧ Forall (λ w, (fold_left Rmin W a <= w)%R) W
  ∧ (fold_left Rmin W a = a ∨ fold_left Rmin W a ∈ W).
Proof.
  revert a. induction W as [|w W IH]; intros a; simpl.
  - split; [lra|]. split; [constructor | by left].
  - destruct (IH (Rmin a w)) as (Hle & Hall & Hin).
    pose proof (Rmin_l a w). pose proof (Rmin_r a w).
    split; [lra|]. split.
    + constructor; [lra | done].
    + destruct Hin as [Heq|Hin]; [|right; by right].
      rewrite Heq. unfold Rmin. destruct (Rle_dec a w); [by left | right; by left].
Qed.

Lemma py_min_spec (W : vector) (w : R) :
  py_min W = Some w → w ∈ W ∧ Forall (λ w', (w <= w')%R) W.
Proof.
  destruct W as [|w0 W]; [done|]. simpl. intros [= <-].
  destruct (fold_left_Rmin W w0) as (Hle & Hall & Hin).
  split.
  - destruct Hin as [->|Hin]; [by left | by right].
  - by constructor.
Qed.

Section MinLambda.
Context `{Libraries} (error_cov : matrix) (Y_chr : list string).

Local Abbreviation eigs := (λ c, eigvalsh (block_of Y_chr c error_cov)).
Local Abbreviation step := (min_lambda_body error_cov Y_chr).

Lemma min_lambda_fold_None (cs : list string) : fold_left step cs None = None.
Proof. by induction cs. Qed.

Lemma min_lambda_fold_spec (cs : list string) (a m : R) :
  fold_left step cs (Some a) = Some m →
  (m <= a)%R
  ∧ (∀ c w, c ∈ cs → w ∈ eigs c → (m <= w)%R)
  ∧ (m = a ∨ ∃ c w, c ∈ cs ∧ w ∈ eigs c ∧ m = w).
Proof.
  revert a. induction cs as [|c cs IH]; intros a; simpl.
  - intros [= <-]. split; [lra|]. split; [|by left].
    intros c w Hc. by apply elem_of_nil in Hc.
  - match goal with |- _ → ?G =>
      change (fold_left step cs
                (match py_min (eigs c) with
                 | Some w => Some (Rmin a w)
                 | None => None
                 end) = Some m → G)
    end.
    destruct (py_min (eigs c)) as [wc|] eqn:Hmin;
      [|by rewrite min_lambda_fold_None].
    intros Hfold. destruct (IH _ Hfold) as (Hle & Hall & Hin).
    destruct (py_min_spec _ _ Hmin) as [Hwc Hleast].
    pose proof (Rmin_l a wc). pose proof (Rmin_r a wc).
    split; [lra|]. split.
    + intros c' w Hc' Hw. apply elem_of_cons in Hc' as [->|Hc'].
      * pose proof (proj1 (Forall_forall _ _) Hleast w Hw). simpl in *. lra.
      * by apply (Hall c' w).
    + destruct Hin as [Heq|(c' & w & Hc' & Hw & Heq)].
      * unfold Rmin in Heq. destruct (Rle_dec a wc); [by left|].
        right. exists c, wc. split; [by left | done].
      * right. exists c', w. split; [by right | done].
Qed.

Lemma min_lambda_fold_Some (cs : list string) (a : R) :
  (∀ c, c ∈ cs → eigs c ≠ []) → is_Some (fold_left step cs (Some a)).
Proof.
  revert a. induction cs as [|c cs IH]; intros a Hne; simpl; [by eexists|].
  change (is_Some (fold_left step cs
              (match py_min (eigs c) with
               | Some w => Some (Rmin a w)
               | None => None
               end))).
  destruct (eigs c) as [|w W] eqn:HW; [by destruct (Hne c); [left|]|].
  cbn [py_min]. apply IH. intros c' Hc'. apply Hne. by right.
Qed.

End MinLambda.

Lemma Rabs_Rmin_0 (m : R) : Rabs (Rmin m 0) = Rmax 0 (- m).
Proof.
  unfold Rmin, Rmax. destruct (Rle_dec m 0), (Rle_dec 0 (- m)); try lra.
  - rewrite Rabs_left1; lra.
  - rewrite Rabs_R0. lra.
Qed.

Lemma block_nonempty labels c (M : matrix) :
  length M = length labels → c ∈ labels → block_of labels c M ≠ [].
Proof.
  intros Hlen Hc. unfold block_of, ix_select.
  apply list_elem_of_lookup in Hc as [i Hi].
  apply subset_ind_lookup in Hi.
  set (mask := subset_ind labels c) in *.
  assert (Hm : length mask = length M).
  { unfold mask, subset_ind. by rewrite length_fmap. }
  clearbody mask. clear Hlen.
  intros Hnil. apply fmap_nil_inv in Hnil.
  revert M i Hi Hm Hnil.
  induction mask as [|b mask IH]; intros [|row M] i Hi Hm Hnil; try done.
  rewrite mask_select_cons in Hnil. destruct b; [done|].
  destruct i as [|i]; [done|]. simpl in *. apply (IH M i Hi); [lia | done].
Qed.

Lemma entry_eye n i j :
  i < n → j < n → entry (eye n) i j = Some (if decide (i = j) then 1%R else 0%R).
Proof.
  intros Hi Hj. unfold entry, eye.
  rewrite list_lookup_fmap, lookup_seq_lt by done. simpl.
  by rewrite list_lookup_fmap, lookup_seq_lt.
Qed.

Lemma entry_regularized n M ridge i j a :
  square n M → entry M i j = Some a →
  entry (madd M (mscale ridge (eye n))) i j
  = Some (a + if decide (i = j) then ridge else 0)%R.
Proof.
  intros [Hl HM] Ha. unfold entry in Ha.
  destruct (M !! i) as [row|] eqn:Hrow; [|done]. simpl in Ha.
  assert (Hi : i < n) by (rewrite <- Hl; by eapply lookup_lt_Some).
  assert (Hj : j < n).
  { rewrite <- (proj1 (Forall_forall _ _) HM row); [by eapply lookup_lt_Some|].
    by eapply list_elem_of_lookup_2. }
  pose proof (entry_eye n i j Hi Hj) as He. unfold entry in He.
  destruct (eye n !! i) as [erow|] eqn:Herow; [|done]. simpl in He.
  unfold entry, madd, mscale.
  rewrite lookup_zip_with, Hrow, list_lookup_fmap, Herow. simpl.
  rewrite lookup_zip_with, Ha, list_lookup_fmap, He. simpl.
  f_equal. destruct (decide (i = j)); lra.
Qed.

Lemma elem_of_py_set (labels : list string) c : c ∈ py_set labels ↔ c ∈ labels.
Proof. apply elem_of_remove_dups. Qed.

Lemma loc_CHR_length (gene_annot_df : gmap string gene_annot) genes chrs :
  loc_CHR gene_annot_df genes = Some chrs → length chrs = length genes.
Proof.
  unfold loc_CHR. intros Hloc. apply mapM_Some in Hloc.
  symmetry. by eapply Forall2_length.
Qed.

(** In exact arithmetic: for an [n] by [n] error covariance and genes that
    all have an annotation, [regularize_error_cov] returns the input plus
    [ridge] times the identity, where [ridge = max(0, -min_lambda) + 0.05
    + 0.9 * max(0, var(Y) - 1)] and [min_lambda] is the least of 0 and of
    the eigenvalues of all chromosome blocks (so only a negative smallest
    eigenvalue counts).  Consequently [ridge >= 0.05], and for every block
    whose reported smallest eigenvalue bounds its Rayleigh quotient from
    below (which holds for a symmetric block), the same block of the output
    has its Rayleigh quotient bounded below by 0.05: it is positive definite
    with smallest eigenvalue at least 0.05.  The library contract used is
    that [eigvalsh] returns one eigenvalue per row. *)
Lemma regularize_error_cov_exact `{Libraries}
    (error_cov : matrix) (Y : vector) (Y_indices : list string)
    (gene_annot_df : gmap string gene_annot) (Y_chr : list string) (n : nat) :
  (∀ M, length (eigvalsh M) = length M) →
  square n error_cov → length Y_indices = n →
  loc_CHR gene_annot_df Y_indices = Some Y_chr →
  ∃ min_lambda out,
    regularize_error_cov error_cov Y Y_indices gene_annot_df = Some out
    ∧ (min_lambda <= 0)%R
    ∧ (∀ c w, c ∈ Y_chr → w ∈ eigvalsh (block_of Y_chr c error_cov) →
              (min_lambda <= w)%R)
    ∧ (min_lambda = 0%R
       ∨ ∃ c w, c ∈ Y_chr ∧ w ∈ eigvalsh (block_of Y_chr c error_cov)
                ∧ min_lambda = w)
    ∧ let ridge :=
        (Rmax 0 (- min_lambda) + 5 / 100 + 9 / 10 * Rmax 0 (np_var Y - 1))%R in
      out = madd error_cov (mscale ridge (eye n))
      ∧ (∀ i j a, entry error_cov i j = Some a →
           entry out i j = Some (a + if decide (i = j) then ridge else 0)%R)
      ∧ (5 / 100 <= ridge)%R
      ∧ (∀ c lam, c ∈ Y_chr →
           py_min (eigvalsh (block_of Y_chr c error_cov)) = Some lam →
           rayleigh_bound (block_of Y_chr c error_cov) lam →
           rayleigh_bound (block_of Y_chr c out) (5 / 100)).
Proof.
  intros Heig Hsq Hn Hloc.
  pose proof (loc_CHR_length _ _ _ Hloc) as Hlen. rewrite Hn in Hlen.
  destruct (min_lambda_fold_Some error_cov Y_chr (py_set Y_chr) 0%R)
    as [m Hm].
  { intros c Hc. apply (proj1 (elem_of_py_set _ _)) in Hc.
    intros Hnil.
    apply (block_nonempty Y_chr c error_cov); [destruct Hsq; congruence|done|].
    apply length_zero_iff_nil. rewrite <- Heig, Hnil. done. }
  destruct (min_lambda_fold_spec _ _ _ _ _ Hm) as (Hle & Hall & Hin).
  exists m, (madd error_cov (mscale (ridge_of m Y) (eye n))).
  assert (Hridge : ridge_of m Y
    = (Rmax 0 (- m) + 5 / 100 + 9 / 10 * Rmax 0 (np_var Y - 1))%R).
  { unfold ridge_of. by rewrite Rabs_Rmin_0. }
  split.
  { change (min_lambda_loop error_cov Y_chr = Some m) in Hm.
    unfold regularize_error_cov. rewrite Hloc. cbn [mbind option_bind].
    rewrite Hm. cbn [mbind option_bind]. by destruct Hsq as [-> _]. }
  split; [done|]. split.
  { intros c w Hc Hw. apply (Hall c w); [|done]. by apply elem_of_py_set. }
  split.
  { destruct Hin as [?|(c & w & Hc & Hw & ?)]; [by left|].
    right. exists c, w. by rewrite <- (elem_of_py_set Y_chr). }
  cbv zeta. rewrite <- Hridge.
  assert (Hfloor : (5 / 100 <= ridge_of m Y)%R).
  { rewrite Hridge. pose proof (Rmax_l 0 (- m)).
    pose proof (Rmax_l 0 (np_var Y - 1)). lra. }
  split; [done|]. split; [intros i j a; by apply entry_regularized|].
  split; [done|].
  intros c lam Hc Hmin Hray x Hx.
  rewrite (block_of_regularized Y_chr c n) in * by done.
  set (B := block_of Y_chr c error_cov) in *.
  assert (HB : square (length B) B).
  { unfold B, block_of. set (mask := subset_ind Y_chr c).
    assert (Hmask : length mask = n).
    { unfold mask, subset_ind. by rewrite length_fmap. }
    pose proof (ix_select_square mask n error_cov Hmask Hsq) as Hs.
    by rewrite <- (proj1 Hs) in Hs at 1. }
  assert (HxB : length x = length B).
  { rewrite Hx. unfold madd. rewrite length_zip_with.
    destruct (mscale_square _ (ridge_of m Y) _ (eye_square (length B))) as [-> _].
    lia. }
  rewrite (quad_form_regularized (length B)) by done.
  specialize (Hray x HxB).
  destruct (py_min_spec _ _ Hmin) as [Hlam _].
  assert (m <= lam)%R.
  { apply (Hall c lam); [by apply elem_of_py_set | done]. }
  pose proof (dot_self_nonneg x).
  assert (- m <= Rmax 0 (- m))%R by apply Rmax_r.
  pose proof (Rmax_l 0 (np_var Y - 1)).
  rewrite Hridge in *. nra.
Qed.

End CovarianceRegularizer.

(** ** Covariance regularisation on IEEE doubles *)

Section RegularizerBinary64.
Import PrimFloat.
#[local] Set Warnings "-inexact-float".
Context `{Binary64.Numpy}.

Local Abbreviation f64 := PrimFloat.float.

Implicit Types (error_cov : list (list f64)) (W : list f64).

Lemma py_min2_cases (a b : f64) :
  Binary64.py_min2 a b = a ∨ Binary64.py_min2 a b = b.
Proof. unfold Binary64.py_min2. destruct (ltb b a); [by right | by left]. Qed.

Lemma fold_left_py_min2 W (a : f64) :
  fold_left Binary64.py_min2 W a = a ∨ fold_left Binary64.py_min2 W a ∈ W.
Proof.
  revert a. induction W as [|w W IH]; intros a; simpl; [by left|].
  destruct (IH (Binary64.py_min2 a w)) as [Heq|Hin]; [|right; by right].
  rewrite Heq. destruct (py_min2_cases a w) as [->| ->];
    [by left | right; by left].
Qed.

Lemma py_min_binary64_elem W (w : f64) : Binary64.py_min W = Some w → w ∈ W.
Proof.
  destruct W as [|w0 W]; [done|]. simpl. intros [= <-].
  destruct (fold_left_py_min2 W w0) as [->|Hin]; [by left | by right].
Qed.

Lemma mask_select_subset_ind_nonempty {A} (labels : list string) c
    (M : list A) :
  length M = length labels → c ∈ labels →
  mask_select (subset_ind labels c) M ≠ [].
Proof.
  intros Hlen Hc.
  apply list_elem_of_lookup in Hc as [i Hi].
  apply subset_ind_lookup in Hi.
  set (mask := subset_ind labels c) in *.
  assert (Hm : length mask = length M).
  { unfold mask, subset_ind. by rewrite length_fmap. }
  clearbody mask. clear Hlen.
  revert M i Hi Hm.
  induction mask as [|b mask IH]; intros [|row M] i Hi Hm Hnil; try done.
  rewrite mask_select_cons in Hnil. destruct b; [done|].
  destruct i as [|i]; [done|]. simpl in *. apply (IH M i Hi); [lia | done].
Qed.

Section MinLambdaBinary64.
Variables (error_cov : list (list f64)) (Y_chr : list string).

Local Abbreviation eigs :=
  (λ c, Binary64.eigvalsh
          (Binary64.ix_select (subset_ind Y_chr c) (subset_ind Y_chr c)
             error_cov)).
Local Abbreviation step := (Binary64.min_lambda_body error_cov Y_chr).

Lemma min_lambda_binary64_fold_None (cs : list string) :
  fold_left step cs None = None.
Proof. by induction cs. Qed.

Lemma min_lambda_binary64_step (a : f64) (c : string) :
  step (Some a) c
  = W ← Binary64.eigvalsh
          (Binary64.ix_select (subset_ind Y_chr c) (subset_ind Y_chr c)
             error_cov);
    w ← Binary64.py_min W; Some (Binary64.py_min2 a w).
Proof. done. Qed.

Lemma min_lambda_binary64_fold_spec (cs : list string) (a m : f64) :
  fold_left step cs (Some a) = Some m →
  m = a ∨ ∃ c W w, c ∈ cs ∧ eigs c = Some W ∧ w ∈ W ∧ m = w.
Proof.
  revert a. induction cs as [|c cs IH]; intros a; cbn [fold_left].
  - intros [= <-]. by left.
  - rewrite min_lambda_binary64_step.
    destruct (Binary64.eigvalsh _) as [W|] eqn:HW; cbn [mbind option_bind];
      [|by rewrite min_lambda_binary64_fold_None].
    destruct (Binary64.py_min W) as [wc|] eqn:Hmin; cbn [mbind option_bind];
      [|by rewrite min_lambda_binary64_fold_None].
    intros Hfold. apply py_min_binary64_elem in Hmin.
    destruct (IH _ Hfold) as [Heq|(c' & W' & w & Hc' & HW' & Hw & Heq)].
    + destruct (py_min2_cases a wc) as [Hm|Hm]; rewrite Hm in Heq.
      * by left.
      * right. exists c, W, wc. split; [by left | done].
    + right. exists c', W', w. split; [by right | done].
Qed.

Lemma min_lambda_binary64_fold_Some (cs : list string) (a : f64) :
  (∀ c, c ∈ cs → ∃ W, eigs c = Some W ∧ W ≠ []) →
  is_Some (fold_left step cs (Some a)).
Proof.
  revert a. induction cs as [|c cs IH]; intros a Hne; cbn [fold_left];
    [by eexists|].
  rewrite min_lambda_binary64_step.
  destruct (Hne c) as (W & HWc & HW); [by left|]. cbv beta in HWc.
  rewrite HWc. cbn [mbind option_bind].
  destruct W as [|w W]; [done|].
  cbn [Binary64.py_min mbind option_bind]. apply IH.
  intros c' Hc'. apply Hne. by right.
Qed.

End MinLambdaBinary64.

Lemma entry_binary64_regularized (n : nat) error_cov (ridge : f64) i j a :
  length error_cov = n → Forall (λ row, length row = n) error_cov →
  Binary64.entry error_cov i j = Some a →
  Binary64.entry
    (zip_with (zip_with add) error_cov
       ((λ row : list f64, (λ e, e * ridge)%float <$> row)
          <$> Binary64.eye n)) i j
  = Some (a + (if decide (i = j) then 1 else 0) * ridge)%float.
Proof.
  intros Hl HM Ha. unfold Binary64.entry in Ha.
  destruct (error_cov !! i) as [row|] eqn:Hrow; [|done]. simpl in Ha.
  assert (Hi : i < n) by (rewrite <- Hl; by eapply lookup_lt_Some).
  assert (Hj : j < n).
  { rewrite <- (proj1 (Forall_forall _ _) HM row); [by eapply lookup_lt_Some|].
    by eapply list_elem_of_lookup_2. }
  unfold Binary64.entry, Binary64.eye.
  rewrite lookup_zip_with, Hrow, list_lookup_fmap, list_lookup_fmap,
    lookup_seq_lt by done. simpl.
  rewrite lookup_zip_with, Ha, list_lookup_fmap, list_lookup_fmap,
    lookup_seq_lt by done. simpl. done.
Qed.

(** On IEEE doubles: for an [n] by [n] error covariance and genes that all
    have an annotation, [regularize_error_cov] returns, and what it returns
    is the input plus the identity times the ridge, each sum and product
    rounded. *)
Lemma regularize_error_cov_binary64 error_cov (Y : list f64)
    (Y_indices : list string) (gene_annot_df : gmap string gene_annot)
    (Y_chr : list string) (n : nat) :
  (∀ c, c ∈ Y_chr →
     let block := Binary64.ix_select (subset_ind Y_chr c)
                    (subset_ind Y_chr c) error_cov in
     ∃ W, Binary64.eigvalsh block = Some W ∧ length W = length block) →
  length error_cov = n → Forall (λ row, length row = n) error_cov →
  length Y_indices = n →
  loc_CHR gene_annot_df Y_indices = Some Y_chr →
  ∃ min_lambda out,
    Binary64.regularize_error_cov error_cov Y Y_indices gene_annot_df
    = Some out
    ∧ (min_lambda = 0%float
       ∨ ∃ c W w, c ∈ Y_chr
                  ∧ Binary64.eigvalsh
                      (Binary64.ix_select (subset_ind Y_chr c)
                         (subset_ind Y_chr c) error_cov) = Some W
                  ∧ w ∈ W ∧ min_lambda = w)
    ∧ let ridge :=
        (abs (Binary64.py_min2 min_lambda 0) + 0.05
         + 0.9 * Binary64.py_max2 0 (Binary64.np_var Y - 1))%float in
      length out = n
      ∧ ∀ i j a, Binary64.entry error_cov i j = Some a →
          Binary64.entry out i j
          = Some (a + (if decide (i = j) then 1 else 0) * ridge)%float.
Proof.
  intros Heig Hl Hrows Hn Hloc.
  pose proof (loc_CHR_length _ _ _ Hloc) as Hlen. rewrite Hn in Hlen.
  destruct (min_lambda_binary64_fold_Some error_cov Y_chr (py_set Y_chr)
              0%float) as [m Hm].
  { intros c Hc. apply (proj1 (elem_of_py_set _ _)) in Hc.
    destruct (Heig c Hc) as (W & HW & HlenW).
    exists W. split; [done|].
    intros Hnil. rewrite Hnil in HlenW. unfold Binary64.ix_select in HlenW.
    rewrite length_fmap in HlenW. symmetry in HlenW.
    apply length_zero_iff_nil in HlenW.
    revert HlenW. apply mask_select_subset_ind_nonempty; [congruence | done]. }
  exists m. eexists. split.
  { change (Binary64.min_lambda_loop error_cov Y_chr = Some m) in Hm.
    unfold Binary64.regularize_error_cov. rewrite Hloc.
    cbn [mbind option_bind]. rewrite Hm. cbn [mbind option_bind].
    reflexivity. }
  split.
  { destruct (min_lambda_binary64_fold_spec _ _ _ _ _ Hm)
      as [?|(c & W & w & Hc & HW & Hw & ?)]; [by left|].
    right. exists c, W, w. by rewrite <- (elem_of_py_set Y_chr). }
  cbv zeta. split.
  { unfold Binary64.eye.
    rewrite length_zip_with, !length_fmap, length_seq. lia. }
  intros i j a Ha. rewrite Hl.
  by apply (entry_binary64_regularized n).
Qed.


(** C2.  For an [n] by [n] error covariance and genes that all have an
    annotation, [regularize_error_cov] returns the input plus the identity
    times [ridge], where [ridge = max(0, -min_lambda) + 0.05
    + 0.9 * max(0, var(Y) - 1)] and [min_lambda] is 0 or the eigenvalue of
    a chromosome block.  What follows from this depends on the arithmetic.
    In exact arithmetic [min_lambda] is the least of 0 and of the
    eigenvalues of all blocks, [ridge >= 0.05], and every block of the
    output whose input block has its Rayleigh quotient bounded below by its
    reported smallest eigenvalue (a symmetric block has) has its Rayleigh
    quotient bounded below by 0.05: its smallest eigenvalue is at least
    0.05.  On IEEE doubles, which the code computes with, the function
    returns as well, [ridge] is [abs(min(min_lambda, 0)) + .05
    + .9 * max(0, var(Y) - 1)] with every operation rounded, and the entry
    [(i, j)] of the output is the rounded sum of the input entry and of 1
    or 0 times [ridge]; no margin is claimed there, because rounding can
    absorb it.  The library contract used is that [eigvalsh] returns one
    eigenvalue per row (on doubles: that it does so on the blocks). *)
Theorem regularize_error_cov_correct `{Libraries}
    (error_cov : matrix) (Y : vector)
    (error_cov64 : list (list f64)) (Y64 : list f64)
    (Y_indices : list string) (gene_annot_df : gmap string gene_annot)
    (Y_chr : list string) (n : nat) :
  (∀ M, length (eigvalsh M) = length M) →
  (∀ c, c ∈ Y_chr →
     let block := Binary64.ix_select (subset_ind Y_chr c)
                    (subset_ind Y_chr c) error_cov64 in
     ∃ W, Binary64.eigvalsh block = Some W ∧ length W = length block) →
  square n error_cov →
  length error_cov64 = n → Forall (λ row, length row = n) error_cov64 →
  length Y_indices = n →
  loc_CHR gene_annot_df Y_indices = Some Y_chr →
  (∃ min_lambda out,
     regularize_error_cov error_cov Y Y_indices gene_annot_df = Some out
     ∧ (min_lambda <= 0)%R
     ∧ (∀ c w, c ∈ Y_chr → w ∈ eigvalsh (block_of Y_chr c error_cov) →
               (min_lambda <= w)%R)
     ∧ (min_lambda = 0%R
        ∨ ∃ c w, c ∈ Y_chr ∧ w ∈ eigvalsh (block_of Y_chr c error_cov)
                 ∧ min_lambda = w)
     ∧ let ridge :=
         (Rmax 0 (- min_lambda) + 5 / 100
          + 9 / 10 * Rmax 0 (np_var Y - 1))%R in
       out = madd error_cov (mscale ridge (eye n))
       ∧ (∀ i j a, entry error_cov i j = Some a →
            entry out i j
            = Some (a + if decide (i = j) then ridge else 0)%R)
       ∧ (5 / 100 <= ridge)%R
       ∧ (∀ c lam, c ∈ Y_chr →
            py_min (eigvalsh (block_of Y_chr c error_cov)) = Some lam →
            rayleigh_bound (block_of Y_chr c error_cov) lam →
            rayleigh_bound (block_of Y_chr c out) (5 / 100)))
  ∧ (∃ min_lambda out,
       Binary64.regularize_error_cov error_cov64 Y64 Y_indices gene_annot_df
       = Some out
       ∧ (min_lambda = 0%float
          ∨ ∃ c W w, c ∈ Y_chr
                     ∧ Binary64.eigvalsh
                         (Binary64.ix_select (subset_ind Y_chr c)
                            (subset_ind Y_chr c) error_cov64) = Some W
                     ∧ w ∈ W ∧ min_lambda = w)
       ∧ let ridge :=
           (abs (if ltb 0 min_lambda then 0 else min_lambda) + 0.05
            + 0.9 * (let v := Binary64.np_var Y64 - 1 in
                     if ltb 0 v then v else 0))%float in
         length out = n
         ∧ ∀ i j a, Binary64.entry error_cov64 i j = Some a →
             Binary64.entry out i j
             = Some (a + (if decide (i = j) then 1 else 0) * ridge)%float).
Proof.
  intros Heig Heig64 Hsq Hl64 Hrows64 Hn Hloc. split.
  - by apply (regularize_error_cov_exact error_cov Y Y_indices gene_annot_df
                Y_chr n).
  - by apply (regularize_error_cov_binary64 error_cov64 Y64 Y_indices
                gene_annot_df Y_chr n).
Qed.

End RegularizerBinary64.

Section RegularizerExamples.
Import PrimFloat.
#[local] Set Warnings "-inexact-float".

(** The theorem on a diagonal matrix with a negative entry. *)
Lemma regularize_error_cov_correct_witness :
  let gene_annot_df : gmap string gene_annot :=
    <["g1" := mk_annot "1" 100]> (<["g2" := mk_annot "2" 200]> ∅) in
  (∃ min_lambda out,
     @regularize_error_cov small_libraries [[1; 0]; [0; -2]]%R [3; -3]%R
       ["g1"; "g2"] gene_annot_df
     = Some out
     ∧ (min_lambda <= 0)%R
     ∧ (∀ w, w ∈ [-2]%R → (min_lambda <= w)%R))
  ∧ (∃ out,
       @Binary64.regularize_error_cov Binary64.small_numpy
         [[1; 0]; [0; -2]]%float [3; -3]%float ["g1"; "g2"] gene_annot_df
       = Some out
       ∧ length out = 2
       ∧ Binary64.entry out 1 1 = Some 7.25%float).
Proof.
  cbv zeta.
  destruct (@regularize_error_cov_correct Binary64.small_numpy
      small_libraries
      [[1; 0]; [0; -2]]%R [3; -3]%R
      [[1; 0]; [0; -2]]%float [3; -3]%float ["g1"; "g2"]
      (<["g1" := mk_annot "1" 100]> (<["g2" := mk_annot "2" 200]> ∅))
      ["1"; "2"] 2)
    as [(m & out & Hout & Hle & Hall & _)
        (m64 & out64 & Hout64 & _ & Hlen64 & _)].
  - intros M. apply length_imap.
  - intros c _. eexists. split; [reflexivity | apply length_imap].
  - split; [done | by repeat constructor].
  - done.
  - by repeat constructor.
  - done.
  - by vm_compute.
  - split.
    + exists m, out. split; [exact Hout|]. split; [exact Hle|].
      intros w Hw. apply (Hall "2" w); [|exact Hw].
      apply elem_of_cons. right. apply elem_of_cons. by left.
    + exists out64. split; [exact Hout64|]. split; [exact Hlen64|].
      revert Hout64. vm_compute. by intros [= <-].
Defined.

(** C2 as stated fails on IEEE doubles.  For the 1 by 1 error covariance
    [[-1e16]] and [Y = [1.0]] the smallest eigenvalue is [-1e16], the ridge
    [1e16 + .05 + .9 * 0] rounds to [1e16], and the function returns
    [[0.0]]: the only eigenvalue of the output is 0, not above it.  For
    [[-0.3]] the function returns [[0.04999999999999999]], whose eigenvalue
    is positive but below 0.05. *)
Lemma regularize_error_cov_margin_lost :
  let gene_annot_df : gmap string gene_annot :=
    <["g1" := mk_annot "1" 100]> ∅ in
  @Binary64.regularize_error_cov Binary64.small_numpy
    [[-1e16]]%float [1]%float ["g1"] gene_annot_df
  = Some [[0]]%float
  ∧ @Binary64.eigvalsh Binary64.small_numpy [[0]]%float = Some [0]%float
  ∧ @Binary64.regularize_error_cov Binary64.small_numpy
      [[-0.3]]%float [1]%float ["g1"] gene_annot_df
    = Some [[0.04999999999999999]]%float
  ∧ ltb 0.04999999999999999 0.05 = true.
Proof. cbv zeta. repeat split; by vm_compute. Qed.

End RegularizerExamples.

(** ** Projecting out covariates *)

Section CovariateProjector.
Context `{Libraries}.


Lemma add_intercept_length covariates :
  length (add_intercept_if_missing covariates) = length covariates.
Proof.
  unfold add_intercept_if_missing.
  destruct (existsb _ _); [done | by rewrite length_fmap].
Qed.

Lemma get_gene_indices_to_use_length Y_indices gene_annot_df use_chrs
    (remove_hla : bool) :
  length (get_gene_indices_to_use Y_indices gene_annot_df use_chrs remove_hla)
  = length Y_indices.
Proof.
  unfold get_gene_indices_to_use. destruct remove_hla; by rewrite length_fmap.
Qed.


Lemma bool_index_same_length {A} (mask : list bool) (xs : list A) :
  mask ≠ [] → length mask = length xs →
  bool_index mask xs = Some (mask_select mask xs).
Proof. intros ? ?. unfold bool_index. by rewrite decide_True. Qed.


End CovariateProjector.


(** ** Marginal regression *)

Section MarginalScreener.
Context `{Float64}.

Implicit Types (Y : list float) (X : list (list float)).

Lemma mask_fill_lookup {A} (mask : list bool) (xs : list A) (v : A)
    (i : nat) (b : bool) (a : A) :
  mask !! i = Some b → xs !! i = Some a →
  mask_fill mask xs v !! i = Some (if b then v else a).
Proof.
  intros Hb Ha. unfold mask_fill. by rewrite lookup_zip_with, Hb, Ha.
Qed.

Lemma mask_fill_length {A} (mask : list bool) (xs : list A) (v : A) :
  length mask = length xs → length (mask_fill mask xs v) = length xs.
Proof. intros Hl. unfold mask_fill. rewrite length_zip_with. lia. Qed.

Lemma near_const_0_length X : length (near_const_0 X) = length X.
Proof. unfold near_const_0, sum_sq_X. by rewrite !length_fmap. Qed.

Lemma sum_sq_X_safe_length X : length (sum_sq_X_safe X) = length X.
Proof.
  unfold sum_sq_X_safe.
  rewrite mask_fill_length; unfold near_const_0, sum_sq_X; by rewrite !length_fmap.
Qed.

Lemma near_const_0_lookup X j x :
  X !! j = Some x →
  near_const_0 X !! j = Some (f_isclose0 (f_sum (f_square <$> x))).
Proof.
  intros Hx. unfold near_const_0, sum_sq_X.
  by rewrite !list_lookup_fmap, Hx.
Qed.

Lemma sum_sq_X_safe_lookup X j x :
  X !! j = Some x →
  sum_sq_X_safe X !! j
  = Some (if f_isclose0 (f_sum (f_square <$> x)) then f_one
          else f_sum (f_square <$> x)).
Proof.
  intros Hx. unfold sum_sq_X_safe.
  apply mask_fill_lookup; [by apply near_const_0_lookup|].
  unfold sum_sq_X. by rewrite list_lookup_fmap, Hx.
Qed.

(** C7.  [batch_marginal_ols] returns four arrays with one entry per
    feature column, for every input.  For a column whose sum of squares is
    close to zero all four entries are NaN.  The denominator used for a
    column is 1 when its sum of squares is close to zero and the sum of
    squares itself otherwise, so (1 not being close to zero) no denominator
    is close to zero.  For a column whose sum of squares is not close to
    zero the four entries are the ordinary univariate statistics, computed
    with the sum of squares itself. *)
Theorem batch_marginal_ols_degenerate_columns Y X :
  let '(betas, se, pvals, r2) := batch_marginal_ols Y X in
  (length betas = length X ∧ length se = length X
   ∧ length pvals = length X ∧ length r2 = length X)
  ∧ ∀ j x, X !! j = Some x →
      let ssq := f_sum (f_square <$> x) in
      sum_sq_X_safe X !! j = Some (if f_isclose0 ssq then f_one else ssq)
      ∧ (f_isclose0 f_one = false →
           ∃ d, sum_sq_X_safe X !! j = Some d ∧ f_isclose0 d = false)
      ∧ (f_isclose0 ssq = true →
           betas !! j = Some f_nan ∧ se !! j = Some f_nan
           ∧ pvals !! j = Some f_nan ∧ r2 !! j = Some f_nan)
      ∧ (f_isclose0 ssq = false →
           let '(b, s, p, r) := univariate_ols Y x in
           betas !! j = Some b ∧ se !! j = Some s
           ∧ pvals !! j = Some p ∧ r2 !! j = Some r).
Proof.
  unfold batch_marginal_ols.
  set (betas := zip_with f_div _ _).
  set (mse := zip_with (column_mse Y) X betas).
  set (se := zip_with _ mse _).
  set (z := zip_with f_div betas se).
  set (pvals := chi2_sf <$> _).
  set (r2 := _ <$> mse).
  assert (Hlb : length betas = length X).
  { unfold betas. rewrite length_zip_with, length_fmap, sum_sq_X_safe_length. lia. }
  assert (Hlm : length mse = length X).
  { unfold mse. rewrite length_zip_with. lia. }
  assert (Hls : length se = length X).
  { unfold se. rewrite length_zip_with, sum_sq_X_safe_length. lia. }
  assert (Hlp : length pvals = length X).
  { unfold pvals, z. rewrite !length_fmap, length_zip_with. lia. }
  assert (Hlr : length r2 = length X).
  { unfold r2. by rewrite length_fmap. }
  lazy beta iota. split.
  { rewrite !mask_fill_length by (rewrite near_const_0_length; congruence).
    done. }
  intros j x Hx. set (ssq := f_sum (f_square <$> x)).
  pose proof (sum_sq_X_safe_lookup X j x Hx) as Hsafe. fold ssq in Hsafe.
  pose proof (near_const_0_lookup X j x Hx) as Hnear. fold ssq in Hnear.
  assert (Hb : betas !! j
               = Some (f_div (f_dot Y x) (if f_isclose0 ssq then f_one else ssq))).
  { unfold betas. by rewrite lookup_zip_with, list_lookup_fmap, Hx, Hsafe. }
  assert (Hm : mse !! j
               = Some (column_mse Y x
                  (f_div (f_dot Y x) (if f_isclose0 ssq then f_one else ssq)))).
  { unfold mse. by rewrite lookup_zip_with, Hx, Hb. }
  assert (Hs : ∃ s, se !! j = Some s
     ∧ s = f_sqrt (f_div (column_mse Y x
            (f_div (f_dot Y x) (if f_isclose0 ssq then f_one else ssq)))
            (if f_isclose0 ssq then f_one else ssq))).
  { eexists. split; [|done]. unfold se. by rewrite lookup_zip_with, Hm, Hsafe. }
  destruct Hs as (s & Hs & Hsv).
  assert (Hp : pvals !! j
     = Some (chi2_sf (f_square (f_div
         (f_div (f_dot Y x) (if f_isclose0 ssq then f_one else ssq)) s)))).
  { unfold pvals, z.
    by rewrite !list_lookup_fmap, lookup_zip_with, Hb, Hs. }
  assert (Hr : r2 !! j
     = Some (f_sub f_one (f_div (column_mse Y x
         (f_div (f_dot Y x) (if f_isclose0 ssq then f_one else ssq)))
         (f_var Y)))).
  { unfold r2. by rewrite list_lookup_fmap, Hm. }
  split; [done|]. split.
  { intros Hone. eexists. split; [exact Hsafe|].
    by destruct (f_isclose0 ssq) eqn:Hc. }
  split.
  - intros Hc. rewrite Hc in *.
    by rewrite !(mask_fill_lookup _ _ _ j true _ Hnear) by eassumption.
  - intros Hc. rewrite Hc in *. unfold univariate_ols. fold ssq.
    rewrite (mask_fill_lookup _ _ _ j _ _ Hnear Hb),
      (mask_fill_lookup _ _ _ j _ _ Hnear Hs),
      (mask_fill_lookup _ _ _ j _ _ Hnear Hp),
      (mask_fill_lookup _ _ _ j _ _ Hnear Hr).
    by rewrite Hsv.
Qed.

End MarginalScreener.

(** The theorem in binary64 arithmetic, on a zero column and a column of
    ones. *)
Lemma batch_marginal_ols_degenerate_columns_witness :
  ∃ betas se pvals r2,
    @batch_marginal_ols binary64 [PrimFloat.one; PrimFloat.one]
      [[PrimFloat.zero; PrimFloat.zero]; [PrimFloat.one; PrimFloat.one]]
    = (betas, se, pvals, r2)
    ∧ betas !! 0 = Some PrimFloat.nan
    ∧ betas !! 1 = Some PrimFloat.one.
Proof.
  pose proof (@batch_marginal_ols_degenerate_columns binary64
    [PrimFloat.one; PrimFloat.one]
    [[PrimFloat.zero; PrimFloat.zero]; [PrimFloat.one; PrimFloat.one]])
    as Hthm.
  destruct (@batch_marginal_ols binary64 [PrimFloat.one; PrimFloat.one]
    [[PrimFloat.zero; PrimFloat.zero]; [PrimFloat.one; PrimFloat.one]])
    as [[[betas se] pvals] r2].
  exists betas, se, pvals, r2. split; [reflexivity|].
  destruct Hthm as [_ Hcols]. split.
  - destruct (Hcols 0 [PrimFloat.zero; PrimFloat.zero] eq_refl)
      as (_ & _ & Hnan & _).
    apply Hnan. by vm_compute.
  - destruct (Hcols 1 [PrimFloat.one; PrimFloat.one] eq_refl)
      as (_ & _ & _ & Hord).
    specialize (Hord ltac:(by vm_compute)).
    vm_compute in Hord. apply Hord.
Defined.

(** ** Block inverse Cholesky *)

Section SumsAndTables.

Implicit Types (f g : nat → R) (u v : vector) (M : matrix).

Lemma big_sum_S_r n f : big_sum (S n) f = (big_sum n f + f n)%R.
Proof.
  unfold big_sum. rewrite seq_S, fmap_app. simpl.
  generalize (f <$> seq 0 n). intros l.
  induction l as [|a l IH]; simpl; [lra|]. rewrite IH. lra.
Qed.

Lemma big_sum_ext n f g :
  (∀ k, k < n → f k = g k) → big_sum n f = big_sum n g.
Proof.
  intros Hfg. induction n as [|n IH]; [done|].
  rewrite !big_sum_S_r, IH, Hfg by (intros; auto with lia). done.
Qed.

Lemma big_sum_0 n : big_sum n (λ _, 0%R) = 0%R.
Proof. induction n as [|n IH]; [done|]. rewrite big_sum_S_r, IH. lra. Qed.

Lemma big_sum_plus n f g :
  big_sum n (λ k, f k + g k)%R = (big_sum n f + big_sum n g)%R.
Proof.
  induction n as [|n IH]; [unfold big_sum; simpl; lra|].
  rewrite !big_sum_S_r, IH. lra.
Qed.

Lemma big_sum_mul_l n c f :
  (c * big_sum n f)%R = big_sum n (λ k, c * f k)%R.
Proof.
  induction n as [|n IH]; [unfold big_sum; simpl; lra|].
  rewrite !big_sum_S_r, <- IH. lra.
Qed.

Lemma big_sum_mul_r n c f :
  (big_sum n f * c)%R = big_sum n (λ k, f k * c)%R.
Proof.
  induction n as [|n IH]; [unfold big_sum; simpl; lra|].
  rewrite !big_sum_S_r, <- IH. lra.
Qed.

Lemma big_sum_exchange n m (h : nat → nat → R) :
  big_sum n (λ i, big_sum m (λ j, h i j))
  = big_sum m (λ j, big_sum n (λ i, h i j)).
Proof.
  induction n as [|n IH].
  - transitivity 0%R; [done|]. rewrite <- (big_sum_0 m).
    by apply big_sum_ext.
  - rewrite big_sum_S_r, IH, <- big_sum_plus.
    apply big_sum_ext. intros j _. by rewrite big_sum_S_r.
Qed.

Lemma big_sum_delta n p f :
  p < n →
  big_sum n (λ k, if decide (p = k) then f k else 0%R) = f p.
Proof.
  induction n as [|n IH]; intros Hp; [lia|].
  rewrite big_sum_S_r. destruct (decide (p = n)) as [->|Hne].
  - rewrite (big_sum_ext n _ (λ _, 0%R)), big_sum_0; [lra|].
    intros k Hk. destruct (decide (n = k)); [lia | done].
  - rewrite IH by lia. lra.
Qed.

(** *** Tables *)

Lemma tab_lookup n m (h : nat → nat → R) i :
  i < n → tab n m h !! i = Some ((λ j, h i j) <$> seq 0 m).
Proof. intros Hi. unfold tab. by rewrite list_lookup_fmap, lookup_seq_lt. Qed.

Lemma tab_square n (h : nat → nat → R) : square n (tab n n h).
Proof.
  unfold square, tab. split; [by rewrite length_fmap, length_seq|].
  apply Forall_fmap, Forall_forall. intros i _. simpl.
  by rewrite length_fmap, length_seq.
Qed.

Lemma tab_ext n m (h h' : nat → nat → R) :
  (∀ i j, i < n → j < m → h i j = h' i j) → tab n m h = tab n m h'.
Proof.
  intros Hh. unfold tab. apply list_eq_Forall2, Forall2_fmap, Forall_Forall2_diag.
  apply Forall_forall. intros i Hi%elem_of_seq.
  apply list_eq_Forall2, Forall2_fmap, Forall_Forall2_diag.
  apply Forall_forall. intros j Hj%elem_of_seq. apply Hh; lia.
Qed.

Lemma mget_tab n m (h : nat → nat → R) i j :
  i < n → j < m → mget (tab n m h) i j = h i j.
Proof.
  intros Hi Hj. unfold mget.
  rewrite (nth_lookup_Some _ _ _ _ (tab_lookup n m h i Hi)).
  apply nth_lookup_Some. by rewrite list_lookup_fmap, lookup_seq_lt.
Qed.

Lemma tab_inj n m (h h' : nat → nat → R) i j :
  tab n m h = tab n m h' → i < n → j < m → h i j = h' i j.
Proof.
  intros Heq Hi Hj.
  by rewrite <- (mget_tab n m h i j), Heq, mget_tab.
Qed.

Lemma list_tabulate {A} (l : list A) (d : A) :
  l = (λ i, nth i l d) <$> seq 0 (length l).
Proof.
  apply list_eq. intros i. rewrite list_lookup_fmap.
  destruct (decide (i < length l)) as [Hi|Hi].
  - rewrite lookup_seq_lt by done. simpl. by apply lookup_nth_lt.
  - rewrite lookup_seq_ge by lia. simpl. apply lookup_ge_None. lia.
Qed.

(** A matrix with [n] rows of [m] entries is the table of its entries. *)
Lemma rect_tab n m M :
  length M = n → Forall (λ row, length row = m) M → M = tab n m (mget M).
Proof.
  intros Hn Hm. unfold tab, mget. rewrite (list_tabulate M []) at 1.
  rewrite Hn. apply list_eq_Forall2, Forall2_fmap, Forall_Forall2_diag.
  apply Forall_forall. intros i Hi%elem_of_seq.
  rewrite (list_tabulate (nth i M []) 0%R) at 1.
  rewrite (proj1 (Forall_forall _ _) Hm (nth i M [])); [done|].
  apply list_elem_of_In, nth_In. lia.
Qed.

Lemma square_tab n M : square n M → M = tab n n (mget M).
Proof. intros [Hl HM]. by apply rect_tab. Qed.

Lemma sum_list_fmap_tab {A} (h : A → R) (l : list A) (d : A) :
  sum_list (h <$> l) = big_sum (length l) (λ q, h (nth q l d)).
Proof.
  induction l as [|a l IH] using rev_ind; [done|].
  rewrite length_app, Nat.add_1_r, big_sum_S_r, fmap_app.
  rewrite app_nth2, Nat.sub_diag by lia. simpl.
  rewrite <- (big_sum_ext (length l) (λ q, h (nth q l d)))
    by (intros k Hk; by rewrite app_nth1).
  rewrite <- IH. generalize (h <$> l). intros l'.
  induction l' as [|b l' IH']; simpl; [lra|]. rewrite IH'. lra.
Qed.

Lemma dot_fmap_same {A} (h h' : A → R) (l : list A) :
  dot (h <$> l) (h' <$> l) = sum_list ((λ a, h a * h' a)%R <$> l).
Proof.
  induction l as [|a l IH]; [done|].
  rewrite !fmap_cons, dot_cons, IH. done.
Qed.

Lemma dot_tab n f g :
  dot (f <$> seq 0 n) (g <$> seq 0 n) = big_sum n (λ k, f k * g k)%R.
Proof. apply dot_fmap_same. Qed.

Lemma tab_S n m (h : nat → nat → R) :
  tab (S n) m h = ((λ j, h 0 j) <$> seq 0 m) :: tab n m (λ i, h (S i)).
Proof.
  unfold tab. rewrite <- cons_seq, <- fmap_S_seq. simpl.
  by rewrite <- list_fmap_compose.
Qed.

Lemma zip_with_fmap_same {A B C D} (h : B → C → D) (a : A → B) (b : A → C)
    (l : list A) :
  zip_with h (a <$> l) (b <$> l) = (λ x, h (a x) (b x)) <$> l.
Proof.
  induction l as [|x l IH]; [done|].
  rewrite !fmap_cons. cbn [zip_with]. by rewrite IH.
Qed.

Lemma replicate_fmap_seq {A} (a : A) (m k : nat) :
  replicate m a = (λ _, a) <$> seq k m.
Proof. revert k. induction m as [|m IH]; intros k; [done|]. simpl. by rewrite <- IH. Qed.

Lemma transpose_w_tab n m (h : nat → nat → R) :
  transpose_w m (tab n m h) = tab m n (λ j i, h i j).
Proof.
  revert h. induction n as [|n IH]; intros h.
  - unfold transpose_w, tab. simpl. apply replicate_fmap_seq.
  - rewrite tab_S. unfold transpose_w in *. simpl. rewrite IH.
    unfold tab at 1. rewrite zip_with_fmap_same.
    unfold tab. apply list_fmap_ext. intros _ j _. simpl.
    rewrite <- fmap_S_seq, <- list_fmap_compose. done.
Qed.

Lemma ncols_tab n (h : nat → nat → R) : ncols (tab n n h) = n.
Proof.
  destruct n as [|n]; [done|]. rewrite tab_S. simpl.
  by rewrite length_fmap, length_seq.
Qed.

Lemma transpose_tab n (h : nat → nat → R) :
  transpose (tab n n h) = tab n n (λ j i, h i j).
Proof. unfold transpose. by rewrite ncols_tab, transpose_w_tab. Qed.

Lemma matmul_tab n (h h' : nat → nat → R) :
  matmul (tab n n h) (tab n n h')
  = tab n n (λ i j, big_sum n (λ k, h i k * h' k j)%R).
Proof.
  unfold matmul. rewrite transpose_tab. unfold tab.
  rewrite <- list_fmap_compose. apply list_fmap_ext. intros _ i _. simpl.
  rewrite <- list_fmap_compose.
  apply list_fmap_ext. intros _ j _. simpl. apply dot_tab.
Qed.

Lemma eye_tab n : eye n = tab n n (λ i j, if decide (i = j) then 1%R else 0%R).
Proof. done. Qed.

(** The whitening identity for one block: if [L L^T = S] and [Li L = I],
    then the entries of [Li S Li^T] are those of the identity. *)
Lemma block_whitening k (L Li S : matrix) p q :
  square k L → square k Li →
  matmul L (transpose L) = S → matmul Li L = eye k →
  p < k → q < k →
  big_sum k (λ t, mget Li q t
             * big_sum k (λ s, mget Li p s * mget S s t))%R
  = if decide (p = q) then 1%R else 0%R.
Proof.
  intros HL HLi HS HI Hp Hq.
  rewrite (square_tab k L HL) in HS, HI.
  rewrite (square_tab k Li HLi) in HI.
  rewrite transpose_tab, matmul_tab in HS.
  rewrite matmul_tab, eye_tab in HI.
  set (l := mget L) in *. set (li := mget Li) in *.
  assert (Hinv : ∀ a b, a < k → b < k →
            big_sum k (λ s, li a s * l s b)%R
            = if decide (a = b) then 1%R else 0%R).
  { intros a b Ha Hb. by apply (tab_inj k k _ _ a b HI). }
  transitivity (big_sum k (λ r,
     big_sum k (λ s, li p s * l s r) * big_sum k (λ t, li q t * l t r))%R).
  - transitivity (big_sum k (λ t, big_sum k (λ s, big_sum k (λ r,
        li q t * (li p s * (l s r * l t r)))))%R).
    + apply big_sum_ext. intros t Ht. rewrite big_sum_mul_l.
      apply big_sum_ext. intros s Hs.
      rewrite <- HS, mget_tab by done.
      rewrite !big_sum_mul_l. done.
    + transitivity (big_sum k (λ t, big_sum k (λ r, big_sum k (λ s,
        li q t * (li p s * (l s r * l t r)))))%R).
      { apply big_sum_ext. intros t Ht. apply big_sum_exchange. }
      rewrite big_sum_exchange. apply big_sum_ext. intros r Hr.
      rewrite big_sum_mul_l.
      apply big_sum_ext. intros t Ht. rewrite big_sum_mul_r.
      apply big_sum_ext. intros s Hs. lra.
  - rewrite (big_sum_ext k _
      (λ r, if decide (p = r)
            then (if decide (q = r) then 1%R else 0%R) else 0%R)).
    + rewrite big_sum_delta by done.
      destruct (decide (q = p)), (decide (p = q)); (done || congruence).
    + intros r Hr. rewrite !Hinv by done.
      destruct (decide (p = r)), (decide (q = r)); lra.
Qed.

End SumsAndTables.

Section Masks.

Implicit Types (mask r : list bool) (f g : nat → R).

Lemma positions_cons (b : bool) mask :
  positions (b :: mask)
  = (if b then [0] else []) ++ (S <$> positions mask).
Proof.
  unfold positions. simpl length. rewrite <- cons_seq, mask_select_cons.
  rewrite <- fmap_S_seq, mask_select_fmap_comm. by destruct b.
Qed.

Lemma elem_of_positions mask p : p ∈ positions mask ↔ mask !! p = Some true.
Proof.
  revert p. induction mask as [|b mask IH]; intros p.
  - unfold positions. simpl. split; [by intros ?%elem_of_nil | done].
  - rewrite positions_cons, elem_of_app, list_elem_of_fmap. split.
    + intros [Hp|(p' & -> & Hp')].
      * destruct b; [|by apply elem_of_nil in Hp].
        apply list_elem_of_singleton in Hp as ->. done.
      * by apply IH in Hp'.
    + destruct p as [|p]; simpl.
      * intros [= ->]. left. by left.
      * intros Hp. right. exists p. split; [done|]. by apply IH.
Qed.

Lemma positions_lt mask p : p ∈ positions mask → p < length mask.
Proof. intros Hp%elem_of_positions. by eapply lookup_lt_Some. Qed.

Lemma positions_length {A} mask (xs : list A) :
  length mask = length xs →
  length (mask_select mask xs) = length (positions mask).
Proof.
  intros Hl. unfold positions.
  rewrite (mask_select_length mask xs Hl). symmetry.
  apply mask_select_length. by rewrite length_seq.
Qed.

(** A masked selection gathers the elements at the selected positions. *)
Lemma mask_select_gather {A} mask (xs : list A) (d : A) :
  length xs = length mask →
  mask_select mask xs = (λ p, nth p xs d) <$> positions mask.
Proof.
  revert xs. induction mask as [|b mask IH]; intros [|x xs] Hl; try done.
  simpl in Hl. rewrite positions_cons, mask_select_cons, fmap_app.
  rewrite <- list_fmap_compose, (IH xs) by lia. by destruct b.
Qed.

Lemma big_sum_S_l n f :
  big_sum (S n) f = (f 0%nat + big_sum n (λ k, f (S k)))%R.
Proof.
  unfold big_sum. rewrite <- cons_seq, <- fmap_S_seq. simpl.
  by rewrite <- list_fmap_compose.
Qed.

(** A sum whose terms vanish off the mask is a sum over the selected
    positions. *)
Lemma big_sum_positions mask f :
  (∀ k, k < length mask → mask !! k ≠ Some true → f k = 0%R) →
  big_sum (length mask) f = sum_list (f <$> positions mask).
Proof.
  revert f. induction mask as [|b mask IH]; intros f Hf; [done|].
  simpl length. rewrite big_sum_S_l, positions_cons, fmap_app.
  rewrite <- list_fmap_compose, (IH (λ k, f (S k))).
  - destruct b; simpl; [done|].
    rewrite (Hf 0); [|simpl; lia | done].
    change (f ∘ S) with (λ k, f (S k)). lra.
  - intros k Hk Hm. apply Hf; [simpl; lia | done].
Qed.

(** *** Masked updates *)

Lemma length_mask_update {T V} (h : T → V → T) mask (xs : list T) (vs : list V) :
  length (mask_update h mask xs vs) = length xs.
Proof.
  revert xs vs. induction mask as [|b mask IH]; intros [|x xs] vs; try done.
  simpl. destruct b; [destruct vs|]; simpl; by rewrite ?IH.
Qed.

Lemma Forall_mask_update {T V} (P : T → Prop) (h : T → V → T) mask
    (xs : list T) (vs : list V) :
  (∀ x v, P x → P (h x v)) → Forall P xs →
  Forall P (mask_update h mask xs vs).
Proof.
  intros Hh HP. revert mask vs.
  induction HP as [|x xs Hx HP IH]; intros [|b mask] vs; simpl;
    try (by constructor).
  destruct b; [destruct vs|]; constructor; auto.
Qed.

Lemma mask_select_update_same {T V} (h : T → V → T) mask
    (xs : list T) (vs : list V) :
  length xs = length mask → length vs = length (positions mask) →
  mask_select mask (mask_update h mask xs vs)
  = zip_with h (mask_select mask xs) vs.
Proof.
  revert xs vs. induction mask as [|b mask IH]; intros [|x xs] vs Hl Hv;
    try done.
  simpl in Hl. rewrite positions_cons, length_app, length_fmap in Hv.
  simpl mask_update. destruct b; simpl in Hv.
  - destruct vs as [|v vs]; [done|]. simpl in Hv.
    rewrite !mask_select_cons. cbn [zip_with]. by rewrite IH by lia.
  - rewrite !mask_select_cons. by rewrite IH by lia.
Qed.

Lemma mask_select_update_disjoint {T V} (h : T → V → T) r mask
    (xs : list T) (vs : list V) :
  (∀ i, r !! i = Some true → mask !! i ≠ Some true) →
  mask_select r (mask_update h mask xs vs) = mask_select r xs.
Proof.
  revert r xs vs. induction mask as [|b mask IH]; intros r [|x xs] vs Hd;
    try done.
  destruct r as [|c r]; [done|].
  assert (Hd' : ∀ i, r !! i = Some true → mask !! i ≠ Some true).
  { intros i Hi. apply (Hd (S i) Hi). }
  simpl mask_update. destruct b.
  - destruct c; [by destruct (Hd 0 eq_refl)|].
    destruct vs as [|v vs]; [done|].
    rewrite !mask_select_cons. by apply IH.
  - rewrite !mask_select_cons. by rewrite IH.
Qed.

Lemma fmap_mask_update_invariant {T V W} (k : T → W) (h : T → V → T) mask
    (xs : list T) (vs : list V) :
  (∀ x v, k (h x v) = k x) →
  k <$> mask_update h mask xs vs = k <$> xs.
Proof.
  intros Hk. revert xs vs.
  induction mask as [|b mask IH]; intros [|x xs] vs; try done.
  simpl mask_update. destruct b; [destruct vs|];
    rewrite ?fmap_cons, ?IH, ?Hk; done.
Qed.

End Masks.

Section BlockAssignment.

Implicit Types (mask r c : list bool) (M V : matrix).

Lemma zip_with_snd_eq {A B} (xs : list A) (vs : list B) :
  length xs = length vs → zip_with (λ _ v, v) xs vs = vs.
Proof.
  revert vs. induction xs as [|x xs IH]; intros [|v vs] Hl; try done.
  simpl in *. by rewrite IH by lia.
Qed.

Lemma mask_select_assign_same {T} mask (row vrow : list T) :
  length row = length mask → length vrow = length (positions mask) →
  mask_select mask (mask_assign mask row vrow) = vrow.
Proof.
  intros Hr Hv. unfold mask_assign.
  rewrite mask_select_update_same by done.
  apply zip_with_snd_eq. by rewrite positions_length.
Qed.

Lemma fmap_zip_with_rows {A B} (k : A → B) (h : A → B → A)
    (X : list A) (V : list B) :
  length X = length V →
  Forall2 (λ x v, k (h x v) = v) X V →
  k <$> zip_with h X V = V.
Proof.
  intros _ HF. induction HF as [|x v X V Hxv _ IH]; [done|].
  cbn [zip_with]. by rewrite fmap_cons, Hxv, IH.
Qed.

(** Reading back the block that was just assigned. *)
Lemma ix_select_assign_same mask n M V :
  length mask = n → square n M → square (length (positions mask)) V →
  ix_select mask mask (ix_assign mask mask M V) = V.
Proof.
  intros Hm [Hl HM] [HlV HV]. unfold ix_select, ix_assign.
  rewrite mask_select_update_same by congruence.
  apply fmap_zip_with_rows.
  - rewrite positions_length; congruence.
  - apply Forall2_same_length_lookup_2.
    + rewrite positions_length; congruence.
    + intros i row vrow Hrow Hvrow.
      apply mask_select_assign_same.
      * assert (Hin : row ∈ mask_select mask M)
          by by eapply list_elem_of_lookup_2.
        pose proof (Forall_mask_select _ mask M HM) as HM'.
        rewrite (proj1 (Forall_forall _ _) HM' row Hin). done.
      * apply (proj1 (Forall_forall _ _) HV vrow).
        by eapply list_elem_of_lookup_2.
Qed.

(** Blocks whose rows, or whose columns, are disjoint from the assigned
    block are left as they were. *)
Lemma ix_select_assign_rows_disjoint r c mask M V :
  (∀ i, r !! i = Some true → mask !! i ≠ Some true) →
  ix_select r c (ix_assign mask mask M V) = ix_select r c M.
Proof.
  intros Hd. unfold ix_select, ix_assign.
  by rewrite mask_select_update_disjoint.
Qed.

Lemma ix_select_assign_cols_disjoint r c mask M V :
  (∀ i, c !! i = Some true → mask !! i ≠ Some true) →
  ix_select r c (ix_assign mask mask M V) = ix_select r c M.
Proof.
  intros Hd. unfold ix_select, ix_assign.
  rewrite <- !mask_select_fmap_comm. f_equal.
  apply fmap_mask_update_invariant. intros row vrow.
  by apply mask_select_update_disjoint.
Qed.

Lemma ix_assign_square mask n M V :
  square n M → square n (ix_assign mask mask M V).
Proof.
  intros [Hl HM]. unfold square, ix_assign. split.
  - by rewrite length_mask_update.
  - apply Forall_mask_update; [|done].
    intros row vrow Hrow. unfold mask_assign.
    by rewrite length_mask_update.
Qed.

Lemma zeros_like_square n M : square n M → zeros_like M = zeros n n.
Proof.
  intros [Hl HM]. unfold zeros_like, zeros.
  rewrite <- Hl at 1. clear Hl. induction HM as [|row M Hrow _ IH]; [done|].
  rewrite fmap_cons, IH. simpl. f_equal.
  rewrite <- Hrow. clear. induction row as [|a row IH]; [done|].
  by rewrite fmap_cons, IH.
Qed.

Lemma ix_select_zeros r c n :
  length r = n → length c = n →
  ix_select r c (zeros n n)
  = zeros (length (positions r)) (length (positions c)).
Proof.
  intros Hr Hc. unfold ix_select, zeros.
  rewrite mask_select_replicate by done. rewrite fmap_replicate.
  rewrite mask_select_replicate by done.
  rewrite <- !(positions_length _ _ eq_refl). done.
Qed.

Lemma zeros_square n : square n (zeros n n).
Proof.
  unfold square, zeros. split; [by rewrite length_replicate|].
  apply Forall_replicate. by rewrite length_replicate.
Qed.

(** The entries of a block are the entries at the selected positions. *)
Lemma mget_ix_select r c n M q t :
  length r = n → length c = n → square n M →
  q < length (positions r) → t < length (positions c) →
  mget (ix_select r c M) q t
  = mget M (nth q (positions r) 0) (nth t (positions c) 0).
Proof.
  intros Hr Hc [Hl HM] Hq Ht. unfold mget, ix_select.
  rewrite (mask_select_gather r M []) by congruence.
  rewrite <- list_fmap_compose.
  assert (Hp : nth q (positions r) 0 ∈ positions r).
  { apply list_elem_of_In, nth_In. done. }
  rewrite (nth_lookup_Some _ q _
             (mask_select c (nth (nth q (positions r) 0) M []))).
  2:{ rewrite list_lookup_fmap, (lookup_nth_lt _ q 0) by done. done. }
  rewrite (mask_select_gather c _ 0%R).
  - apply nth_lookup_Some.
    by rewrite list_lookup_fmap, (lookup_nth_lt _ t 0) by done.
  - rewrite Hc. apply (proj1 (Forall_forall _ _) HM).
    apply list_elem_of_In, nth_In. rewrite Hl, <- Hr.
    by apply positions_lt.
Qed.

End BlockAssignment.

Section BlockLinvCorrect.
Context `{Libraries}.
Variables (A : matrix) (labels : list string) (n : nat).

(** The shapes of what the routines return, and the blocks on which they
    return. *)
Hypothesis cholesky_shape : ∀ M L,
  cholesky M = Some L → square (length M) L.
Hypothesis inv_shape : ∀ L Li, inv L = Some Li → square (length L) Li.
Hypothesis labels_length : length labels = n.
Hypothesis A_square : square n A.
Hypothesis blocks_invert : ∀ l,
  l ∈ labels → is_Some (cholesky (block_of labels l A) ≫= inv).

(** The contracts of the routines: the Cholesky factor of a symmetric
    matrix and the inverse. *)
Hypothesis cholesky_sound : ∀ M L,
  symmetric M → cholesky M = Some L → matmul L (transpose L) = M.
Hypothesis inv_sound : ∀ L Li,
  inv L = Some Li → matmul Li L = eye (length L).
Hypothesis blocks_symmetric : ∀ l, symmetric (block_of labels l A).
Hypothesis A_block_diagonal : ∀ i j li lj,
  labels !! i = Some li → labels !! j = Some lj → li ≠ lj →
  entry A i j = Some 0%R.

Local Abbreviation m := (subset_ind labels).
Local Abbreviation pos := (λ l, positions (subset_ind labels l)).
Local Abbreviation Li_of := (block_inverse_factor labels A).

Lemma subset_ind_length l : length (m l) = n.
Proof. unfold subset_ind. by rewrite length_fmap. Qed.

Lemma block_of_length l : length (block_of labels l A) = length (pos l).
Proof.
  unfold block_of, ix_select. rewrite length_fmap.
  apply positions_length. rewrite subset_ind_length. by destruct A_square.
Qed.

Lemma block_inverse_factor_shape l :
  l ∈ labels →
  ∃ L, cholesky (block_of labels l A) = Some L
       ∧ inv L = Some (Li_of l)
       ∧ square (length (pos l)) L
       ∧ square (length (pos l)) (Li_of l).
Proof.
  intros Hl. destruct (blocks_invert l Hl) as [Li HLi].
  destruct (cholesky (block_of labels l A)) as [L|] eqn:HL; [|done].
  cbn [mbind option_bind] in HLi.
  pose proof (cholesky_shape _ _ HL) as HLsq.
  pose proof (inv_shape _ _ HLi) as HLisq.
  rewrite block_of_length in HLsq.
  rewrite (proj1 HLsq) in HLisq.
  exists L. unfold block_inverse_factor. rewrite HL. simpl. rewrite HLi. simpl.
  done.
Qed.

Lemma block_inverse_factor_spec l :
  l ∈ labels →
  ∃ L, cholesky (block_of labels l A) = Some L
       ∧ inv L = Some (Li_of l)
       ∧ square (length (pos l)) L
       ∧ square (length (pos l)) (Li_of l)
       ∧ matmul L (transpose L) = block_of labels l A
       ∧ matmul (Li_of l) L = eye (length (pos l)).
Proof.
  intros Hl.
  destruct (block_inverse_factor_shape l Hl) as (L & HL & HLi & HLsq & HLisq).
  exists L. repeat (split; [done|]). split.
  - by apply cholesky_sound.
  - rewrite <- (proj1 HLsq). by apply inv_sound.
Qed.

Lemma subset_ind_disjoint b l i :
  b ≠ l → m b !! i = Some true → m l !! i ≠ Some true.
Proof.
  intros Hne Hb Hl. apply subset_ind_lookup in Hb, Hl. congruence.
Qed.

Local Abbreviation blocks_assigned := (blocks_assigned labels A n).

Local Abbreviation step := (block_Linv_body A labels).

Lemma block_Linv_step done Linv c :
  c ∈ labels → c ∉ done → blocks_assigned done Linv →
  step (Some Linv) c = Some (ix_assign (m c) (m c) Linv (Li_of c))
  ∧ blocks_assigned (c :: done) (ix_assign (m c) (m c) Linv (Li_of c)).
Proof.
  intros Hc Hnew [Hsq Hblocks].
  destruct (block_inverse_factor_shape c Hc) as (L & HL & HLi & _ & HLisq).
  split.
  { simpl. fold (block_of labels c A). rewrite HL. simpl. by rewrite HLi. }
  split; [by apply ix_assign_square|].
  intros b l. destruct (decide (b = c)) as [->|Hbc].
  - destruct (decide (l = c)) as [->|Hlc].
    + rewrite (ix_select_assign_same _ n) by (done || apply subset_ind_length).
      rewrite decide_True; [done|]. split; [done | by left].
    + rewrite ix_select_assign_cols_disjoint
        by (intros i; by apply subset_ind_disjoint).
      rewrite Hblocks.
      rewrite !decide_False; [done | intros [? _]; congruence
                                   | intros [? _]; congruence].
  - rewrite ix_select_assign_rows_disjoint
      by (intros i; by apply subset_ind_disjoint).
    rewrite Hblocks.
    destruct (decide (b = l ∧ b ∈ done)) as [[-> Hd]|Hn].
    + rewrite decide_True; [done|]. split; [done | by right].
    + rewrite decide_False; [done|]. intros [-> Hd].
      apply elem_of_cons in Hd as [?|?]; [done|]. by apply Hn.
Qed.

Lemma block_Linv_fold todo done Linv :
  (∀ l, l ∈ todo → l ∈ labels) → NoDup todo →
  (∀ l, l ∈ todo → l ∉ done) → blocks_assigned done Linv →
  ∃ Linv', fold_left step todo (Some Linv) = Some Linv'
           ∧ blocks_assigned (rev todo ++ done) Linv'.
Proof.
  revert done Linv. induction todo as [|c todo IH];
    intros done Linv Hin Hnd Hfresh Hinv.
  - exists Linv. by split.
  - apply NoDup_cons in Hnd as [Hc Hnd].
    destruct (block_Linv_step done Linv c) as [Hstep Hinv'];
      [apply Hin; by left | apply Hfresh; by left | done |].
    destruct (IH (c :: done) (ix_assign (m c) (m c) Linv (Li_of c)))
      as (Linv' & Hfold & Hfin).
    + intros l Hl. apply Hin. by right.
    + done.
    + intros l Hl Hd. apply elem_of_cons in Hd as [->|Hd]; [done|].
      apply (Hfresh l); [by right | done].
    + done.
    + exists Linv'. split.
      * exact (eq_trans (f_equal (fold_left step todo) Hstep) Hfold).
      * simpl rev. by rewrite <- app_assoc.
Qed.

Lemma mget_zeros r c q t : mget (zeros r c) q t = 0%R.
Proof.
  unfold mget, zeros. destruct (decide (q < r)) as [Hq|Hq].
  - rewrite (nth_lookup_Some _ q _ (replicate c 0%R))
      by (by apply lookup_replicate_2).
    destruct (decide (t < c)) as [Ht|Ht].
    + apply nth_lookup_Some. by apply lookup_replicate_2.
    + apply nth_overflow. rewrite length_replicate. lia.
  - rewrite (nth_overflow _ []) by (rewrite length_replicate; lia).
    by destruct t.
Qed.

Lemma entry_mget M i j a : entry M i j = Some a → mget M i j = a.
Proof.
  unfold entry, mget. destruct (M !! i) as [row|] eqn:Hrow; [|done]. simpl.
  intros Ha. rewrite (nth_lookup_Some _ _ _ _ Hrow).
  by apply nth_lookup_Some.
Qed.

Lemma position_of i b :
  labels !! i = Some b →
  ∃ q, q < length (pos b) ∧ nth q (pos b) 0 = i.
Proof.
  intros Hi. apply subset_ind_lookup, elem_of_positions in Hi.
  apply list_elem_of_lookup in Hi as [q Hq].
  exists q. split; [by eapply lookup_lt_Some | by apply nth_lookup_Some].
Qed.

Lemma label_of_position b q :
  q < length (pos b) → labels !! (nth q (pos b) 0) = Some b.
Proof.
  intros Hq. apply subset_ind_lookup, elem_of_positions.
  apply list_elem_of_In, nth_In. done.
Qed.

Section Whitening.
Variable Linv : matrix.
Hypothesis Linv_blocks : blocks_assigned labels Linv.

Lemma Linv_in_block b q t :
  b ∈ labels → q < length (pos b) → t < length (pos b) →
  mget Linv (nth q (pos b) 0%nat) (nth t (pos b) 0%nat) = mget (Li_of b) q t.
Proof.
  intros Hb Hq Ht. destruct Linv_blocks as [Hsq Hblocks].
  rewrite <- (mget_ix_select (m b) (m b) n)
    by (done || apply subset_ind_length).
  rewrite Hblocks, decide_True; done.
Qed.

Lemma Linv_off_block b l q t :
  b ≠ l → q < length (pos b) → t < length (pos l) →
  mget Linv (nth q (pos b) 0%nat) (nth t (pos l) 0%nat) = 0%R.
Proof.
  intros Hne Hq Ht. destruct Linv_blocks as [Hsq Hblocks].
  rewrite <- (mget_ix_select (m b) (m l) n)
    by (done || apply subset_ind_length).
  rewrite Hblocks, decide_False by (intros [? _]; done).
  apply mget_zeros.
Qed.

(** A row of [Linv] against any vector: only the row's own block
    contributes. *)
Lemma Linv_row_sum b q (x : nat → R) :
  b ∈ labels → q < length (pos b) →
  big_sum n (λ k, mget Linv (nth q (pos b) 0%nat) k * x k)%R
  = big_sum (length (pos b))
      (λ t, mget (Li_of b) q t * x (nth t (pos b) 0%nat))%R.
Proof.
  intros Hb Hq. rewrite <- (subset_ind_length b).
  rewrite big_sum_positions.
  - rewrite (sum_list_fmap_tab _ _ 0).
    apply big_sum_ext. intros t Ht. by rewrite Linv_in_block.
  - intros k Hk Hoff. rewrite subset_ind_length, <- labels_length in Hk.
    destruct (lookup_lt_is_Some_2 labels k Hk) as [l Hl].
    assert (Hne : b ≠ l).
    { intros ->. by apply Hoff, subset_ind_lookup. }
    destruct (position_of k l Hl) as (t & Ht & <-).
    rewrite Linv_off_block by done. lra.
Qed.

Lemma whitened_entry i j :
  i < n → j < n →
  big_sum n (λ c, big_sum n (λ k, mget Linv i k * mget A k c)
                  * mget Linv j c)%R
  = if decide (i = j) then 1%R else 0%R.
Proof.
  intros Hi Hj. rewrite <- labels_length in Hi, Hj.
  destruct (lookup_lt_is_Some_2 labels i Hi) as [b Hb].
  destruct (lookup_lt_is_Some_2 labels j Hj) as [b' Hb'].
  assert (Hbin : b ∈ labels) by by eapply list_elem_of_lookup_2.
  assert (Hbin' : b' ∈ labels) by by eapply list_elem_of_lookup_2.
  destruct (position_of i b Hb) as (qi & Hqi & Hpi).
  assert (Hq' : ∃ qj, qj < length (pos b') ∧ nth qj (pos b') 0 = j
                      ∧ (i = j → b = b' ∧ qi = qj)).
  { destruct (decide (i = j)) as [->|Hij].
    - assert (b = b') as <- by congruence. by exists qi.
    - destruct (position_of j b' Hb') as (qj & ? & ?). exists qj. by repeat split. }
  destruct Hq' as (qj & Hqj & Hpj & Hsame).
  rewrite <- Hpi, <- Hpj.
  rewrite (big_sum_ext n _
    (λ c, mget Linv (nth qj (pos b') 0%nat) c
          * big_sum n (λ k, mget Linv (nth qi (pos b) 0%nat) k * mget A k c))%R)
    by (intros; lra).
  rewrite (Linv_row_sum b' qj) by done.
  rewrite (big_sum_ext (length (pos b')) _
    (λ t, mget (Li_of b') qj t
          * big_sum (length (pos b))
              (λ s, mget (Li_of b) qi s
                    * mget A (nth s (pos b) 0%nat) (nth t (pos b') 0%nat)))%R).
  2:{ intros t Ht. f_equal. by apply (Linv_row_sum b qi). }
  destruct (decide (b = b')) as [<-|Hbb].
  - destruct (block_inverse_factor_spec b Hbin)
      as (L & _ & _ & HLsq & HLisq & HLL & HLiL).
    transitivity (if decide (qi = qj) then 1%R else 0%R).
    + rewrite <- (block_whitening (length (pos b)) L (Li_of b)
                    (block_of labels b A) qi qj) by done.
      apply big_sum_ext. intros t Ht. f_equal.
      apply big_sum_ext. intros s Hs. f_equal. unfold block_of.
      by rewrite (mget_ix_select (m b) (m b) n)
        by (done || apply subset_ind_length).
    + rewrite Hpi, Hpj. destruct (decide (qi = qj)) as [->|Hq].
      * rewrite decide_True; [done | congruence].
      * rewrite decide_False; [done|]. intros Hij.
        destruct (Hsame Hij) as [_ ?]. done.
  - rewrite Hpi, Hpj, decide_False.
    2:{ intros Hij. by destruct (Hsame Hij). }
    rewrite <- (big_sum_0 (length (pos b'))).
    apply big_sum_ext. intros t Ht.
    rewrite (big_sum_ext _ _ (λ _, 0%R)), big_sum_0; [lra|].
    intros s Hs.
    rewrite (entry_mget A _ _ 0%R); [lra|].
    apply (A_block_diagonal _ _ b b'); [by apply label_of_position..|done].
Qed.

Lemma whitened_identity :
  matmul (matmul Linv A) (transpose Linv) = eye n.
Proof.
  destruct Linv_blocks as [Hsq _].
  rewrite (square_tab n Linv Hsq), (square_tab n A A_square).
  rewrite matmul_tab, transpose_tab, matmul_tab, eye_tab.
  apply tab_ext. intros i j Hi Hj.
  by rewrite <- (whitened_entry i j Hi Hj).
Qed.

End Whitening.

Lemma blocks_assigned_ext done done' Linv :
  (∀ b, b ∈ done ↔ b ∈ done') →
  blocks_assigned done Linv → blocks_assigned done' Linv.
Proof.
  intros Hext [Hsq Hblocks]. split; [done|]. intros b l.
  rewrite Hblocks. apply decide_ext. by rewrite Hext.
Qed.

(** The loop of [block_Linv] succeeds and leaves every block assigned. *)
Lemma block_Linv_blocks :
  ∃ Linv, block_Linv A labels = Some Linv ∧ blocks_assigned labels Linv.
Proof.
  destruct (block_Linv_fold (py_set labels) [] (zeros_like A))
    as (Linv & Hfold & Hinv).
  - intros l. apply elem_of_py_set.
  - apply NoDup_remove_dups.
  - intros l _. apply not_elem_of_nil.
  - rewrite (zeros_like_square n A A_square). split; [apply zeros_square|].
    intros b l. rewrite (ix_select_zeros _ _ n) by apply subset_ind_length.
    rewrite decide_False; [done|]. intros [_ Hb]. by apply elem_of_nil in Hb.
  - exists Linv. split; [exact Hfold|].
    eapply blocks_assigned_ext; [|exact Hinv].
    intros b. rewrite app_nil_r, <- (elem_of_py_set labels b).
    rewrite !list_elem_of_In. symmetry. apply in_rev.
Qed.

Lemma entry_square M i j :
  square n M → i < n → j < n → entry M i j = Some (mget M i j).
Proof.
  intros [Hl HM] Hi Hj. unfold entry, mget.
  destruct (lookup_lt_is_Some_2 M i) as [row Hrow]; [lia|].
  rewrite Hrow, (nth_lookup_Some _ _ _ _ Hrow). simpl.
  apply lookup_nth_lt.
  rewrite (proj1 (Forall_forall _ _) HM row); [done|].
  by eapply list_elem_of_lookup_2.
Qed.

Lemma block_Linv_result :
  ∃ Linv, block_Linv A labels = Some Linv
    ∧ square n Linv
    ∧ (∀ l, l ∈ labels →
         ∃ L, cholesky (block_of labels l A) = Some L
              ∧ inv L = Some (block_of labels l Linv))
    ∧ (∀ i j li lj, labels !! i = Some li → labels !! j = Some lj →
         li ≠ lj → entry Linv i j = Some 0%R)
    ∧ matmul (matmul Linv A) (transpose Linv) = eye n.
Proof.
  destruct block_Linv_blocks as (Linv & HLinv & Hblocks).
  exists Linv. split; [done|]. split; [by destruct Hblocks|]. split; [|split].
  - intros l Hl.
    destruct (block_inverse_factor_shape l Hl) as (L & HL & HLi & _).
    exists L. split; [done|]. unfold block_of.
    rewrite (proj2 Hblocks l l), decide_True; done.
  - intros i j li lj Hi Hj Hne.
    destruct (position_of i li Hi) as (q & Hq & <-).
    destruct (position_of j lj Hj) as (t & Ht & <-).
    rewrite entry_square.
    + by rewrite (Linv_off_block Linv Hblocks li lj q t).
    + by destruct Hblocks.
    + rewrite <- labels_length. by eapply lookup_lt_Some.
    + rewrite <- labels_length. by eapply lookup_lt_Some.
  - by apply whitened_identity.
Qed.

End BlockLinvCorrect.

Section PrincipalBlocks.

Implicit Types (mask : list bool) (M : matrix) (x v : vector).

Lemma mask_update_lookup_off {T V} (h : T → V → T) mask
    (xs : list T) (vs : list V) i :
  mask !! i ≠ Some true → mask_update h mask xs vs !! i = xs !! i.
Proof.
  revert xs vs i. induction mask as [|b mask IH]; intros [|a xs] vs i Hoff;
    try done.
  simpl mask_update. destruct b.
  - destruct i as [|i]; [done|]. destruct vs as [|w vs]; [done|].
    simpl. by apply IH.
  - destruct i as [|i]; [done|]. simpl. by apply IH.
Qed.

Lemma quad_form_sum n M v :
  square n M → length v = n →
  quad_form M v
  = big_sum n (λ i, nth i v 0 * big_sum n (λ j, mget M i j * nth j v 0))%R.
Proof.
  intros HM Hv. unfold quad_form, matvec.
  rewrite (square_tab n M HM) at 1. unfold tab.
  rewrite <- list_fmap_compose.
  rewrite (list_tabulate v 0%R) at 1. rewrite Hv, dot_tab.
  apply big_sum_ext. intros i Hi. f_equal. simpl.
  rewrite (list_tabulate v 0%R) at 1. rewrite Hv. apply dot_tab.
Qed.

Lemma mget_out_of_range n M i j :
  square n M → n ≤ i ∨ n ≤ j → mget M i j = 0%R.
Proof.
  intros [Hl HM] Hij. unfold mget.
  destruct (decide (i < n)) as [Hi|Hi].
  - destruct Hij as [?|Hj]; [lia|]. apply nth_overflow.
    rewrite (proj1 (Forall_forall _ _) HM); [done|].
    apply list_elem_of_In, nth_In. lia.
  - rewrite (nth_overflow M) by lia. by destruct j.
Qed.

Lemma block_symmetric mask n M :
  length mask = n → square n M → symmetric M →
  symmetric (ix_select mask mask M).
Proof.
  intros Hm HM Hsym q t.
  pose proof (ix_select_square mask n M Hm HM) as HS.
  rewrite (positions_length mask mask eq_refl) in HS.
  destruct (decide (q < length (positions mask))) as [Hq|Hq];
    [destruct (decide (t < length (positions mask))) as [Ht|Ht]|].
  - rewrite !(mget_ix_select mask mask n) by done. apply Hsym.
  - rewrite !(mget_out_of_range _ _ _ _ HS) by lia. done.
  - rewrite !(mget_out_of_range _ _ _ _ HS) by lia. done.
Qed.

(** The quadratic form of a block is the quadratic form of the whole
    matrix at the vector extended by zeros outside the block. *)
Lemma block_quad_form mask n M x :
  length mask = n → square n M → length x = length (positions mask) →
  quad_form M (mask_assign mask (replicate n 0%R) x)
  = quad_form (ix_select mask mask M) x.
Proof.
  intros Hm HM Hx.
  set (xt := mask_assign mask (replicate n 0%R) x).
  assert (Hxt : length xt = n).
  { unfold xt, mask_assign. by rewrite length_mask_update, length_replicate. }
  assert (Hon : ∀ q, q < length (positions mask) →
            nth (nth q (positions mask) 0) xt 0%R = nth q x 0%R).
  { intros q Hq.
    assert (Hsel : mask_select mask xt = x).
    { apply mask_select_assign_same; [by rewrite length_replicate | done]. }
    rewrite (mask_select_gather mask xt 0%R) in Hsel by congruence.
    rewrite <- Hsel. symmetry. apply nth_lookup_Some.
    by rewrite list_lookup_fmap, (lookup_nth_lt _ q 0) by done. }
  assert (Hoff : ∀ i, i < n → mask !! i ≠ Some true → nth i xt 0%R = 0%R).
  { intros i Hi Hmi. apply nth_lookup_Some. unfold xt, mask_assign.
    rewrite mask_update_lookup_off by done. by apply lookup_replicate_2. }
  pose proof (ix_select_square mask n M Hm HM) as HS.
  rewrite (positions_length mask mask eq_refl) in HS.
  rewrite (quad_form_sum n M xt HM Hxt).
  rewrite (quad_form_sum _ _ x HS Hx).
  rewrite <- Hm at 1. rewrite big_sum_positions.
  2:{ intros i Hi Hmi. rewrite Hoff by (done || lia). lra. }
  rewrite (sum_list_fmap_tab _ _ 0).
  apply big_sum_ext. intros q Hq. rewrite Hon by done. f_equal.
  rewrite <- Hm at 1. rewrite big_sum_positions.
  2:{ intros i Hi Hmi. rewrite Hoff by (done || lia). lra. }
  rewrite (sum_list_fmap_tab _ _ 0).
  apply big_sum_ext. intros t Ht. rewrite Hon by done.
  by rewrite (mget_ix_select mask mask n).
Qed.

Lemma block_positive_definite mask n M :
  length mask = n → square n M → positive_definite M →
  positive_definite (ix_select mask mask M).
Proof.
  intros Hm HM Hpd x Hx (a & Ha & Hne).
  pose proof (ix_select_square mask n M Hm HM) as [HlS _].
  rewrite (positions_length mask mask eq_refl) in HlS.
  rewrite HlS in Hx.
  rewrite <- (block_quad_form mask n M x Hm HM Hx).
  apply Hpd.
  - unfold mask_assign. rewrite length_mask_update, length_replicate.
    by destruct HM.
  - exists a. split; [|done].
    assert (Hsel : mask_select mask (mask_assign mask (replicate n 0%R) x) = x).
    { apply mask_select_assign_same; [by rewrite length_replicate | done]. }
    rewrite <- Hsel in Ha. unfold mask_select in Ha.
    apply list_elem_of_fmap in Ha as ([b a'] & -> & Ha).
    apply list_elem_of_filter in Ha as [_ Ha]. by apply elem_of_zip_r in Ha.
Qed.

End PrincipalBlocks.

(** C1.  Let [A] be a symmetric positive-definite [n] by [n] matrix that is
    block diagonal for the labelling (entries whose row and column carry
    different labels are zero), and let the library routines meet their
    contracts over exact arithmetic: [cholesky] returns a matrix of the
    shape of its argument, on a symmetric argument the factor it returns
    satisfies [L L^T = M], an inverse returned by [inv] satisfies
    [Li L = I], [inv] returns on Cholesky factors, and [cholesky] returns
    on the symmetric positive-definite blocks of [A].  Then [block_Linv]
    returns a matrix [Linv] whose block for each label is the inverse of
    the Cholesky factor of that block of [A], whose entries outside the
    blocks are zero, and [Linv A Linv^T] is the identity: its block for each
    label is an identity matrix and its entries outside the blocks are
    exactly zero. *)
Theorem block_Linv_whitens `{Libraries} (A : matrix) (labels : list string)
    (n : nat) :
  (∀ M L, cholesky M = Some L → square (length M) L) →
  (∀ M L, symmetric M → cholesky M = Some L →
          matmul L (transpose L) = M) →
  (∀ L Li, inv L = Some Li →
           square (length L) Li ∧ matmul Li L = eye (length L)) →
  (∀ M L, cholesky M = Some L → is_Some (inv L)) →
  (∀ l, l ∈ labels → symmetric (block_of labels l A) →
        positive_definite (block_of labels l A) →
        is_Some (cholesky (block_of labels l A))) →
  length labels = n → square n A → symmetric A → positive_definite A →
  (∀ i j li lj, labels !! i = Some li → labels !! j = Some lj → li ≠ lj →
                entry A i j = Some 0%R) →
  ∃ Linv,
    block_Linv A labels = Some Linv
    ∧ square n Linv
    ∧ (∀ l, l ∈ labels →
         ∃ L, cholesky (block_of labels l A) = Some L
              ∧ inv L = Some (block_of labels l Linv))
    ∧ (∀ i j li lj, labels !! i = Some li → labels !! j = Some lj →
         li ≠ lj → entry Linv i j = Some 0%R)
    ∧ matmul (matmul Linv A) (transpose Linv) = eye n
    ∧ (∀ l, block_of labels l (matmul (matmul Linv A) (transpose Linv))
            = eye (length (block_of labels l A)))
    ∧ (∀ i j li lj, labels !! i = Some li → labels !! j = Some lj →
         li ≠ lj →
         entry (matmul (matmul Linv A) (transpose Linv)) i j = Some 0%R).
Proof.
  intros Hshape Hchol Hinv Hinvchol Hcomplete Hlen Hsq Hsym Hpd Hdiag.
  assert (Hm : ∀ l, length (subset_ind labels l) = n).
  { intros l. unfold subset_ind. by rewrite length_fmap. }
  assert (Hbsym : ∀ l, symmetric (block_of labels l A)).
  { intros l. by apply (block_symmetric _ n). }
  assert (Hinvert : ∀ l, l ∈ labels →
            is_Some (cholesky (block_of labels l A) ≫= inv)).
  { intros l Hl. destruct (Hcomplete l Hl (Hbsym l)) as [L HL].
    - by apply (block_positive_definite _ n).
    - rewrite HL. cbn [mbind option_bind]. by apply (Hinvchol _ _ HL). }
  destruct (block_Linv_result A labels n Hshape
              (λ L Li HLi, proj1 (Hinv L Li HLi)) Hlen Hsq Hinvert Hchol
              (λ L Li HLi, proj2 (Hinv L Li HLi)) Hbsym Hdiag)
    as (Linv & HLinv & HLsq & Hblocks & Hoff & Hid).
  exists Linv. repeat (split; [done|]). rewrite Hid. split.
  - intros l. unfold block_of.
    rewrite (ix_select_eye _ n) by done.
    pose proof (ix_select_square _ n A (Hm l) Hsq) as [-> _]. done.
  - intros i j li lj Hi Hj Hne.
    rewrite entry_eye.
    + rewrite decide_False; [done|]. intros ->. congruence.
    + rewrite <- Hlen. by eapply lookup_lt_Some.
    + rewrite <- Hlen. by eapply lookup_lt_Some.
Qed.

(** The routines on matrices with one or two rows meet the contracts. *)
Lemma cholesky_2x2_shape M L :
  cholesky_2x2 M = Some L → square (length M) L.
Proof.
  destruct M as [|[|a [|b [|]]] [|[|c [|d [|]]] [|]]]; simpl; try done.
  - destruct (decide (0 < a)%R); [|done]. intros [= <-].
    split; [done | by repeat constructor].
  - destruct (decide (0 < a)%R); [|done].
    destruct (decide (0 < d - c / sqrt a * (c / sqrt a))%R); [|done].
    intros [= <-]. split; [done | by repeat constructor].
Qed.

Lemma cholesky_2x2_sound M L :
  symmetric M → cholesky_2x2 M = Some L → matmul L (transpose L) = M.
Proof.
  intros Hsym.
  destruct M as [|[|a [|b [|]]] [|[|c [|d [|]]] [|]]]; simpl; try done.
  - destruct (decide (0 < a)%R) as [Ha|]; [|done]. intros [= <-].
    unfold matmul, transpose, dot. simpl. do 2 f_equal.
    rewrite sqrt_sqrt by lra. lra.
  - destruct (decide (0 < a)%R) as [Ha|]; [|done].
    destruct (decide (0 < d - c / sqrt a * (c / sqrt a))%R) as [Hd|]; [|done].
    intros [= <-].
    pose proof (Hsym 0 1) as Hbc. unfold mget in Hbc. simpl in Hbc.
    pose proof (sqrt_lt_R0 a Ha) as Hs.
    pose proof (sqrt_sqrt a ltac:(lra)) as Hss.
    pose proof (sqrt_sqrt _ (Rlt_le _ _ Hd)) as Hdd.
    unfold matmul, transpose, dot. simpl.
    f_equal; [|f_equal]; f_equal; [| f_equal | | f_equal].
    + lra.
    + rewrite Hbc. field. lra.
    + field. lra.
    + lra.
Qed.

Lemma inv_2x2_sound L Li :
  inv_2x2 L = Some Li →
  square (length L) Li ∧ matmul Li L = eye (length L).
Proof.
  destruct L as [|[|a [|b [|]]] [|[|c [|d [|]]] [|]]]; simpl; try done.
  - destruct (decide (a = 0%R)) as [|Ha]; [done|]. intros [= <-].
    split; [split; [done | by repeat constructor]|].
    unfold matmul, transpose, dot, eye. simpl. do 2 f_equal. by field.
  - destruct (decide ((a * d - b * c)%R = 0%R)) as [|Hdet]; [done|].
    intros [= <-].
    split; [split; [done | by repeat constructor]|].
    unfold matmul, transpose, dot, eye. simpl.
    f_equal; [|f_equal]; f_equal; [| f_equal | | f_equal]; by field.
Qed.

Lemma inv_2x2_cholesky M L :
  cholesky_2x2 M = Some L → is_Some (inv_2x2 L).
Proof.
  destruct M as [|[|a [|b [|]]] [|[|c [|d [|]]] [|]]]; simpl; try done.
  - destruct (decide (0 < a)%R) as [Ha|]; [|done]. intros [= <-]. simpl.
    pose proof (sqrt_lt_R0 a Ha).
    rewrite decide_False by lra. by eexists.
  - destruct (decide (0 < a)%R) as [Ha|]; [|done].
    destruct (decide (0 < d - c / sqrt a * (c / sqrt a))%R) as [Hd|]; [|done].
    intros [= <-]. simpl.
    pose proof (sqrt_lt_R0 a Ha). pose proof (sqrt_lt_R0 _ Hd).
    rewrite decide_False; [by eexists|]. nra.
Qed.

Lemma sqrt_4 : sqrt 4 = 2%R.
Proof. replace 4%R with (2 * 2)%R by lra. apply sqrt_square. lra. Qed.

(** The theorem on a matrix with a two-by-two block for chromosome 1 and a
    one-by-one block for chromosome 2. *)
Lemma block_Linv_whitens_witness :
  ∃ Linv,
    @block_Linv small_libraries_2x2
      [[4; 2; 0]; [2; 5; 0]; [0; 0; 9]]%R ["1"; "1"; "2"] = Some Linv
    ∧ matmul (matmul Linv [[4; 2; 0]; [2; 5; 0]; [0; 0; 9]]%R)
        (transpose Linv) = eye 3
    ∧ ∃ L, cholesky_2x2 [[4; 2]; [2; 5]]%R = Some L
           ∧ inv_2x2 L
             = Some (block_of ["1"; "1"; "2"] "1" Linv).
Proof.
  destruct (@block_Linv_whitens small_libraries_2x2
              [[4; 2; 0]; [2; 5; 0]; [0; 0; 9]]%R ["1"; "1"; "2"] 3)
    as (Linv & HLinv & _ & Hblocks & _ & Hid & _).
  - apply cholesky_2x2_shape.
  - apply cholesky_2x2_sound.
  - apply inv_2x2_sound.
  - apply inv_2x2_cholesky.
  - intros l Hl _ _.
    apply elem_of_cons in Hl as [->|Hl];
      [|apply elem_of_cons in Hl as [->|Hl];
        [|apply elem_of_cons in Hl as [->|Hl];
          [|by apply elem_of_nil in Hl]]].
    + change (is_Some (cholesky_2x2 [[4; 2]; [2; 5]]%R)). simpl.
      rewrite decide_True by lra. rewrite sqrt_4.
      rewrite decide_True by lra. by eexists.
    + change (is_Some (cholesky_2x2 [[4; 2]; [2; 5]]%R)). simpl.
      rewrite decide_True by lra. rewrite sqrt_4.
      rewrite decide_True by lra. by eexists.
    + change (is_Some (cholesky_2x2 [[9%R]])). simpl.
      rewrite decide_True by lra. by eexists.
  - done.
  - split; [done | by repeat constructor].
  - intros [|[|[|[|i]]]] [|[|[|[|j]]]]; reflexivity.
  - intros [|a [|b [|c [|]]]] Hx; try done. intros (e & He & Hne).
    unfold quad_form, matvec, dot. simpl.
    match goal with
    | |- (0 < ?q)%R =>
        replace q
          with (3 * (a * a) + (a + 2 * b) * (a + 2 * b) + b * b
                + 9 * (c * c))%R by ring
    end.
    pose proof (Rle_0_sqr a) as Ha. pose proof (Rle_0_sqr b) as Hb.
    pose proof (Rle_0_sqr c) as Hc. pose proof (Rle_0_sqr (a + 2 * b)) as Hab.
    pose proof (Rsqr_pos_lt e Hne) as Hpos. unfold Rsqr in *.
    apply elem_of_cons in He as [->|He];
      [|apply elem_of_cons in He as [->|He];
        [|apply elem_of_cons in He as [->|He];
          [|by apply elem_of_nil in He]]]; lra.
  - intros [|[|[|i]]] [|[|[|j]]] li lj Hi Hj Hne; simpl in *;
      try done; congruence.
  - exists Linv. split; [done|]. split; [done|].
    apply (Hblocks "1"). by left.
Defined.

(** ** Iteration order of the label sets *)

Section AnyIterationOrder.
Context `{Libraries}.

Lemma enumeration_perm (labels order : list string) :
  NoDup order → (∀ l, l ∈ order ↔ l ∈ labels) → order ≡ₚ py_set labels.
Proof.
  intros Hnd Hel. apply NoDup_Permutation; [done | apply NoDup_remove_dups|].
  intros l. unfold py_set. by rewrite elem_of_remove_dups.
Qed.

(** X1.  The three block operations loop over [set(block_labels)], whose
    iteration order Python does not fix.  Whatever the order in which the
    distinct labels are visited, the loop of [block_Linv] ends with the
    same matrix (or raises in both cases), and the loops of [block_AB] and
    [block_BA] end with the same array: the blocks written in different
    iterations do not overlap. *)
Theorem block_operations_any_iteration_order `{NdRows T}
    (A : matrix) (block_labels order : list string) :
  NoDup order → (∀ l, l ∈ order ↔ l ∈ block_labels) →
  fold_left (block_Linv_body A block_labels) order (Some (zeros_like A))
    = block_Linv A block_labels
  ∧ (∀ B : list T,
       fold_left (block_AB_body A block_labels B) order (zeros_like_rows B)
       = block_AB A block_labels B)
  ∧ (∀ B : matrix,
       fold_left (block_BA_body A block_labels B) order (zeros_like B)
       = block_BA A block_labels B).
Proof.
  intros Hnd Hel. pose proof (enumeration_perm _ _ Hnd Hel) as Hperm.
  split; [by apply block_Linv_any_order|]. split; intros B.
  - by apply block_AB_any_order.
  - by apply block_BA_any_order.
Qed.

(** X2.  The loop of [regularize_error_cov] over [set(Y_chr)] computes the
    same [min_lambda] (or raises in both cases) whatever the order in which
    the chromosomes are visited. *)
Theorem min_lambda_any_iteration_order
    (error_cov : matrix) (Y_chr order : list string) :
  NoDup order → (∀ c, c ∈ order ↔ c ∈ Y_chr) →
  fold_left (min_lambda_body error_cov Y_chr) order (Some 0%R)
  = min_lambda_loop error_cov Y_chr.
Proof.
  intros Hnd Hel. by apply min_lambda_any_order, enumeration_perm.
Qed.

End AnyIterationOrder.

Lemma block_operations_any_iteration_order_witness :
  let A := [[4; 1; 0]; [1; 9; 0]; [0; 0; 16]]%R in
  let labels := ["1"; "1"; "2"] in
  let order := ["2"; "1"] in
  fold_left (@block_Linv_body small_libraries A labels) order
    (Some (zeros_like A))
    = @block_Linv small_libraries A labels
  ∧ (∀ B : vector,
       fold_left (block_AB_body A labels B) order (zeros_like_rows B)
       = block_AB A labels B)
  ∧ (∀ B : matrix,
       fold_left (block_BA_body A labels B) order (zeros_like B)
       = block_BA A labels B).
Proof.
  apply (@block_operations_any_iteration_order small_libraries R vector_rows).
  - compute_done.
  - intros l. rewrite !elem_of_cons, !elem_of_nil. tauto.
Defined.

Lemma min_lambda_any_iteration_order_witness :
  let error_cov := [[4; 0; 0]; [0; -2; 0]; [0; 0; 16]]%R in
  fold_left (@min_lambda_body small_libraries error_cov ["1"; "1"; "2"])
    ["2"; "1"] (Some 0%R)
  = @min_lambda_loop small_libraries error_cov ["1"; "1"; "2"].
Proof.
  apply (@min_lambda_any_iteration_order small_libraries).
  - compute_done.
  - intros l. rewrite !elem_of_cons, !elem_of_nil. tauto.
Defined.

(** ** Natural keys *)

Section NaturalKeyOrder.

Lemma string_app_nil_r (s : string) : s +:+ "" = s.
Proof.
  induction s as [|a s IH]; [done|].
  change (String a (s +:+ "") = String a s). by rewrite IH.
Qed.

Lemma string_app_snoc (acc : string) c (p : string) :
  (acc +:+ String c "") +:+ p = acc +:+ String c p.
Proof.
  induction acc as [|a acc IH]; [done|].
  change (String a ((acc +:+ String c "") +:+ p) = String a (acc +:+ String c p)).
  by rewrite IH.
Qed.

Lemma re_split_digits_from_digits acc s :
  all_digits s = true → re_split_digits_from true acc s = [acc +:+ s; ""].
Proof.
  revert acc. induction s as [|a s IH]; intros acc Hs; simpl in *.
  - by rewrite string_app_nil_r.
  - apply andb_true_iff in Hs as [Ha Hs]. rewrite Ha.
    by rewrite IH, string_app_snoc.
Qed.

Lemma re_split_digits_from_text acc p s :
  no_digit p = true → s ≠ "" → all_digits s = true →
  re_split_digits_from false acc (p +:+ s) = [acc +:+ p; s; ""].
Proof.
  intros Hp Hne Hs. revert acc.
  induction p as [|c p IH]; intros acc; simpl in *.
  - destruct s as [|a s]; [done|]. simpl in *.
    apply andb_true_iff in Hs as [Ha Hs]. rewrite Ha.
    by rewrite re_split_digits_from_digits, string_app_nil_r.
  - apply andb_true_iff in Hp as [Hc Hp]. apply negb_true_iff in Hc.
    rewrite Hc. by rewrite IH, string_app_snoc.
Qed.

(** The key of a text without digits followed by a number. *)
Lemma natural_key_text_number p s :
  no_digit p = true → s ≠ "" → all_digits s = true →
  natural_key (p +:+ s) = [key_str p; key_int (py_int s); key_str ""].
Proof.
  intros Hp Hne Hs. unfold natural_key, re_split_digits.
  rewrite re_split_digits_from_text by done.
  change ("" +:+ p) with p. cbn [fmap list_fmap].
  by rewrite (no_digit_not_isdigit _ Hp), (digits_isdigit _ Hne Hs).
Qed.

(** X3.  Sorting with [key=natural_key] never raises: although a natural
    key mixes ints and strs, its elements alternate between a str and an
    int, starting with a str, so two keys are always compared str with str
    and int with int; and the order the keys induce on identifiers is total
    and transitive, so that sorting is well defined. *)
Theorem natural_key_comparison_never_raises (s t u : string) :
  alternating false (natural_key s)
  ∧ is_Some (key_ltb (natural_key s) (natural_key t))
  ∧ (natural_le s t = true ∨ natural_le t s = true)
  ∧ (natural_le s t = true → natural_le t u = true → natural_le s u = true).
Proof.
  split; [apply natural_key_alternating|].
  split; [apply natural_keys_comparable|]. split.
  - destruct (natural_le s t) eqn:Hst; [by left|].
    right. by apply natural_le_total.
  - apply natural_le_trans.
Qed.

(** X4.  Natural order is numeric on a trailing number: for identifiers
    made of one text without digits followed by a number, such as [chr2]
    and [chr10], the keys compare as the numbers do, so leading zeros do
    not count and [chr2] comes before [chr10]. *)
Theorem natural_order_is_numeric (p s t : string) :
  no_digit p = true →
  s ≠ "" → all_digits s = true → t ≠ "" → all_digits t = true →
  key_ltb (natural_key (p +:+ s)) (natural_key (p +:+ t))
    = Some (py_int s <? py_int t)%N
  ∧ natural_le (p +:+ s) (p +:+ t) = (py_int s <=? py_int t)%N.
Proof.
  intros Hp Hs Hsd Ht Htd.
  assert (Hlt : ∀ a b : N,
            key_ltb [key_str p; key_int a; key_str ""]
                    [key_str p; key_int b; key_str ""] = Some (a <? b)%N).
  { intros a b. simpl. rewrite String.eqb_refl.
    destruct (a =? b)%N eqn:Hab; [|done].
    apply N.eqb_eq in Hab as ->. by rewrite N.ltb_irrefl. }
  unfold natural_le. rewrite !natural_key_text_number by done.
  rewrite !Hlt. split; [done|].
  rewrite N.leb_antisym. by destruct (py_int t <? py_int s)%N.
Qed.

End NaturalKeyOrder.

Lemma natural_order_is_numeric_witness :
  key_ltb (natural_key ("chr" +:+ "2")) (natural_key ("chr" +:+ "10"))
    = Some (py_int "2" <? py_int "10")%N
  ∧ natural_le ("chr" +:+ "2") ("chr" +:+ "10")
    = (py_int "2" <=? py_int "10")%N.
Proof. by apply natural_order_is_numeric. Defined.

(** ** Choosing the genes to use *)

Section GeneIndices.

Implicit Types (gene_annot_df : gmap string gene_annot) (g : string).
Implicit Types (use_chrs : list string).

(** "[g] lies in the HLA region": chromosome 6, TSS from 20 Mb to 40 Mb. *)
Lemma elem_of_get_hla_genes gene_annot_df g :
  g ∈ get_hla_genes gene_annot_df
  ↔ ∃ a, gene_annot_df !! g = Some a ∧ CHR a = "6"
         ∧ (20000000 ≤ TSS a ≤ 40000000)%Z.
Proof.
  unfold get_hla_genes. rewrite elem_of_dom. unfold is_Some.
  setoid_rewrite map_lookup_filter_Some.
  setoid_rewrite map_lookup_filter_Some.
  setoid_rewrite map_lookup_filter_Some. simpl.
  change (10 ^ 6)%Z with 1000000%Z.
  split.
  - intros (a & ((Ha & Hchr) & Hlo) & Hhi). exists a. repeat split; (done || lia).
  - intros (a & Ha & Hchr & Hlo & Hhi). exists a. repeat split; (done || lia).
Qed.

Lemma elem_of_all_chr_genes gene_annot_df use_chrs g :
  g ∈ dom (filter (λ kv : string * gene_annot, CHR kv.2 ∈ use_chrs)
             gene_annot_df)
  ↔ ∃ a, gene_annot_df !! g = Some a ∧ CHR a ∈ use_chrs.
Proof.
  rewrite elem_of_dom. unfold is_Some.
  by setoid_rewrite map_lookup_filter_Some.
Qed.

(** X5.  [get_gene_indices_to_use] returns one flag per entry of
    [Y_indices], and never raises: the flag of a gene is [True] exactly
    when the gene has an annotation whose chromosome is one of [use_chrs]
    and, if [remove_hla] is set, the gene does not lie on chromosome 6 with
    a TSS between 20 Mb and 40 Mb (both bounds included).  A gene without
    annotation gets [False]. *)
Theorem get_gene_indices_to_use_spec (Y_indices : list string)
    gene_annot_df use_chrs (remove_hla : bool) :
  let use_genes :=
    get_gene_indices_to_use Y_indices gene_annot_df use_chrs remove_hla in
  length use_genes = length Y_indices
  ∧ ∀ i g, Y_indices !! i = Some g →
      ∃ b, use_genes !! i = Some b
           ∧ (b = true ↔
                ∃ a, gene_annot_df !! g = Some a ∧ CHR a ∈ use_chrs
                     ∧ (remove_hla = true →
                          ¬ (CHR a = "6"
                             ∧ (20000000 ≤ TSS a ≤ 40000000)%Z)))
           ∧ (gene_annot_df !! g = None → b = false).
Proof.
  unfold get_gene_indices_to_use.
  destruct remove_hla; simpl.
  - split; [by rewrite length_fmap|]. intros i g Hg.
    eexists. rewrite list_lookup_fmap, Hg. simpl. split; [done|].
    pose proof (elem_of_all_chr_genes gene_annot_df use_chrs g) as Hall.
    pose proof (elem_of_get_hla_genes gene_annot_df g) as Hhla.
    split; [split|].
    + intros [Hin Hout]%andb_true_iff.
      apply bool_decide_eq_true, Hall in Hin as (a & Ha & Hchr).
      apply negb_true_iff, bool_decide_eq_false in Hout.
      exists a. repeat split; try done.
      intros _ [H6 Htss]. apply Hout, Hhla. by exists a.
    + intros (a & Ha & Hchr & Hout). apply andb_true_iff. split.
      * apply bool_decide_eq_true, Hall. by exists a.
      * apply negb_true_iff, bool_decide_eq_false.
        intros (a' & Ha' & H6 & Htss)%Hhla.
        apply Hout; [done|]. by simplify_eq.
    + intros Hnone. apply andb_false_iff. left.
      apply bool_decide_eq_false. intros (a & Ha & _)%Hall. congruence.
  - split; [by rewrite length_fmap|]. intros i g Hg.
    eexists. rewrite list_lookup_fmap, Hg. simpl. split; [done|].
    pose proof (elem_of_all_chr_genes gene_annot_df use_chrs g) as Hall.
    split; [split|].
    + intros (a & Ha & Hchr)%bool_decide_eq_true%Hall. by exists a.
    + intros (a & Ha & Hchr & _). apply bool_decide_eq_true, Hall. by exists a.
    + intros Hnone. apply bool_decide_eq_false.
      intros (a & Ha & _)%Hall. congruence.
Qed.

Lemma mask_select_fmap_bool {A} (f : A → bool) (l : list A) :
  mask_select (f <$> l) l = filter (λ x, f x = true) l.
Proof.
  induction l as [|x l IH]; [done|].
  rewrite fmap_cons, mask_select_cons, filter_cons, IH.
  by destruct (f x).
Qed.

Lemma mapM_is_Some_Forall {A B} (f : A → option B) (l : list A) :
  Forall (λ x, is_Some (f x)) l → ∃ k, mapM f l = Some k.
Proof.
  intros Hl. apply (mapM_is_Some f l) in Hl. by destruct Hl as [k Hk]; exists k.
Qed.

Lemma loc_CHR_selected_genes (Y_indices : list string)
    gene_annot_df use_chrs (remove_hla : bool) :
  let use_genes :=
    get_gene_indices_to_use Y_indices gene_annot_df use_chrs remove_hla in
  ∃ chrs,
    loc_CHR gene_annot_df (mask_select use_genes Y_indices) = Some chrs
    ∧ length chrs = length (mask_select use_genes Y_indices)
    ∧ Forall (λ c, c ∈ use_chrs) chrs.
Proof.
  intros use_genes.
  assert (Hsel : Forall (λ g, ∃ a, gene_annot_df !! g = Some a
                                   ∧ CHR a ∈ use_chrs)
                   (mask_select use_genes Y_indices)).
  { unfold use_genes, get_gene_indices_to_use.
    destruct remove_hla; rewrite mask_select_fmap_bool;
      apply Forall_forall; intros g [Hg _]%list_elem_of_filter.
    - apply andb_true_iff in Hg as [Hg _].
      by apply bool_decide_eq_true, elem_of_all_chr_genes in Hg.
    - by apply bool_decide_eq_true, elem_of_all_chr_genes in Hg. }
  unfold loc_CHR.
  destruct (mapM_is_Some_Forall (λ g, CHR <$> gene_annot_df !! g)
              (mask_select use_genes Y_indices)) as [chrs Hchrs].
  { eapply Forall_impl; [exact Hsel|]. intros g (a & -> & _). by eexists. }
  exists chrs. split; [done|].
  apply mapM_Some in Hchrs. split; [symmetry; by eapply Forall2_length|].
  apply Forall_forall. intros c Hc.
  apply list_elem_of_lookup in Hc as [i Hi].
  destruct (Forall2_lookup_r _ _ _ _ _ Hchrs Hi) as (g & Hg & Hgc).
  apply list_elem_of_lookup_2 in Hg.
  destruct (proj1 (Forall_forall _ _) Hsel g Hg) as (a & Ha & Hchr).
  rewrite Ha in Hgc. simpl in Hgc. congruence.
Qed.

(** X6.  The genes [get_gene_indices_to_use] selects all have an
    annotation, so the chromosome lookup [gene_annot_df.loc[genes].CHR] the
    callers make on the selected genes never raises [KeyError]; it returns
    one label per selected gene and every label is one of [use_chrs]. *)
Theorem selected_genes_have_chromosomes (Y_indices : list string)
    gene_annot_df use_chrs (remove_hla : bool) :
  let use_genes :=
    get_gene_indices_to_use Y_indices gene_annot_df use_chrs remove_hla in
  ∃ chrs,
    loc_CHR gene_annot_df (mask_select use_genes Y_indices) = Some chrs
    ∧ length chrs = length (mask_select use_genes Y_indices)
    ∧ Forall (λ c, c ∈ use_chrs) chrs.
Proof. apply loc_CHR_selected_genes. Qed.

End GeneIndices.

(** ** When the block operations and the projection raise *)

Section BlockErrors.
Context `{Libraries}.

Lemma block_Linv_fold_None A labels (ls : list string) :
  fold_left (block_Linv_body A labels) ls None = None.
Proof. by induction ls. Qed.

Lemma block_Linv_fold_is_Some A labels (ls : list string) Linv :
  is_Some (fold_left (block_Linv_body A labels) ls (Some Linv))
  ↔ ∀ l, l ∈ ls → is_Some (cholesky (block_of labels l A) ≫= inv).
Proof.
  revert Linv. induction ls as [|l ls IH]; intros Linv.
  - simpl. split; [|by eexists]. intros _ l Hl. by apply elem_of_nil in Hl.
  - cbn [fold_left]. rewrite block_Linv_body_eq. cbn [mbind option_bind].
    fold (block_of labels l A).
    destruct (cholesky (block_of labels l A) ≫= inv) as [Li|] eqn:HLi;
      cbn [mbind option_bind].
    + rewrite IH. split.
      * intros Hls l' [->|Hl']%elem_of_cons; [by rewrite HLi | by apply Hls].
      * intros Hls l' Hl'. apply Hls. by right.
    + rewrite block_Linv_fold_None. split; [by intros [? [=]]|].
      intros Hls. rewrite <- HLi. apply Hls. by left.
Qed.

(** X7.  On a square matrix with one label per row, [block_Linv] raises
    exactly when, for some label, the block of that label has no Cholesky
    factor or the factor has no inverse (the library routine raises
    [LinAlgError]); it returns otherwise, in particular when there are no
    labels.  Blocks are factorised one by one: entries outside the blocks
    play no part. *)
Theorem block_Linv_raises_iff (A : matrix) (block_labels : list string) :
  square (length block_labels) A →
  (block_Linv A block_labels = None
   ↔ ∃ l, l ∈ block_labels
          ∧ (cholesky (block_of block_labels l A) = None
             ∨ ∃ L, cholesky (block_of block_labels l A) = Some L
                    ∧ inv L = None))
  ∧ (block_labels = [] → block_Linv A block_labels = Some (zeros_like A)).
Proof.
  intros _. split; [|by intros ->].
  pose proof (block_Linv_fold_is_Some A block_labels (py_set block_labels)
                (zeros_like A)) as Hsome.
  fold (block_Linv A block_labels) in Hsome.
  rewrite eq_None_not_Some, Hsome, <- Forall_forall. split.
  - intros Hnot. apply not_Forall_Exists in Hnot; [|intros l; apply _].
    apply Exists_exists in Hnot as (l & Hl & Hnone).
    exists l. split; [by apply elem_of_py_set|].
    cbn [compose] in Hnone.
    destruct (cholesky (block_of block_labels l A)) as [L|]; [|by left].
    right. exists L. split; [done|]. simpl in Hnone.
    by apply eq_None_not_Some.
  - intros (l & Hl & Hfail) Hall.
    apply (proj2 (elem_of_py_set _ _)) in Hl.
    apply (proj1 (Forall_forall _ _) Hall l) in Hl as [Li HLi].
    destruct Hfail as [Hc|(L & Hc & Hi)]; rewrite Hc in HLi; simpl in HLi;
      congruence.
Qed.

Lemma ncols_square n (M : matrix) : 0 < n → square n M → ncols M = n.
Proof.
  intros Hn [Hl HM]. destruct M as [|row M]; [simpl in Hl; lia|].
  by apply Forall_cons in HM as [? _].
Qed.

Lemma ix_index_square mask n (E : matrix) :
  length mask = n → square n E →
  ix_index mask E = Some (ix_select mask mask E).
Proof.
  intros Hm HE. unfold ix_index. rewrite decide_True; [done|].
  apply Forall_forall. intros i Hi. apply positions_lt in Hi.
  rewrite (ncols_square n E), (proj1 HE) by (done || lia). lia.
Qed.

(** X8.  On a target, covariates and gene identifiers of one length (and
    an error covariance, if any, of that size), [project_out_covariates]
    never raises [KeyError]: the genes it fits on were selected by
    [get_gene_indices_to_use], so all of them have an annotation.  It
    raises exactly when there is no gene at all ([IndexError]), when an
    error covariance is supplied and [block_Linv] raises on the sub-matrix
    of the fitting genes, labelled by their chromosomes, or when the
    regression raises on the training rows.  When the regression rejects
    an input without rows, as sklearn does, the function raises whenever
    no gene is selected for fitting. *)
Theorem project_out_covariates_raises_iff (Y : vector) (covariates : matrix)
    (error_cov : option matrix) (Y_indices : list string)
    (gene_annot_df : gmap string gene_annot) (use_chrs : list string)
    (remove_hla : bool) :
  length Y = length Y_indices → length covariates = length Y_indices →
  (∀ E, error_cov = Some E → square (length Y_indices) E) →
  let fitting_indices :=
    get_gene_indices_to_use Y_indices gene_annot_df use_chrs remove_hla in
  let X_sub :=
    mask_select fitting_indices (add_intercept_if_missing covariates) in
  let y_sub := mask_select fitting_indices Y in
  ∃ sub_error_cov_labels,
    loc_CHR gene_annot_df (mask_select fitting_indices Y_indices)
      = Some sub_error_cov_labels
    ∧ (project_out_covariates Y covariates error_cov Y_indices gene_annot_df
         use_chrs remove_hla = None
       ↔ Y_indices = []
         ∨ (∃ E, error_cov = Some E
                 ∧ block_Linv (ix_select fitting_indices fitting_indices E)
                     sub_error_cov_labels = None)
         ∨ (∃ X_train y_train,
              match error_cov with
              | None => X_train = X_sub ∧ y_train = y_sub
              | Some E =>
                  ∃ Linv,
                    block_Linv (ix_select fitting_indices fitting_indices E)
                      sub_error_cov_labels = Some Linv
                    ∧ X_train = block_AB Linv sub_error_cov_labels X_sub
                    ∧ y_train = block_AB Linv sub_error_cov_labels y_sub
              end
              ∧ linreg_fit X_train y_train = None))
    ∧ ((∀ y, linreg_fit [] y = None) →
       mask_select fitting_indices Y_indices = [] →
       project_out_covariates Y covariates error_cov Y_indices gene_annot_df
         use_chrs remove_hla = None).
Proof.
  intros HlenY Hlencov Hsq fitting_indices X_sub y_sub.
  destruct (loc_CHR_selected_genes Y_indices gene_annot_df use_chrs remove_hla)
    as (labels & Hlabels & _).
  fold fitting_indices in Hlabels.
  exists labels. split; [done|].
  assert (Hfi : length fitting_indices = length Y_indices)
    by apply get_gene_indices_to_use_length.
  assert (Hiff :
    project_out_covariates Y covariates error_cov Y_indices gene_annot_df
      use_chrs remove_hla = None
    ↔ Y_indices = []
      ∨ (∃ E, error_cov = Some E
              ∧ block_Linv (ix_select fitting_indices fitting_indices E)
                  labels = None)
      ∨ (∃ X_train y_train,
           match error_cov with
           | None => X_train = X_sub ∧ y_train = y_sub
           | Some E =>
               ∃ Linv,
                 block_Linv (ix_select fitting_indices fitting_indices E)
                   labels = Some Linv
                 ∧ X_train = block_AB Linv labels X_sub
                 ∧ y_train = block_AB Linv labels y_sub
           end
           ∧ linreg_fit X_train y_train = None)).
  { unfold project_out_covariates, fit_covariate_model.
    fold fitting_indices.
    destruct (decide (Y_indices = [])) as [Hnil|Hnil].
    { assert (fitting_indices = []) as ->
        by (apply length_zero_iff_nil; by rewrite Hfi, Hnil).
      unfold bool_index. rewrite decide_False by (by intros [? _]).
      split; [by left | done]. }
    assert (Hne : fitting_indices ≠ []).
    { intros Hfi0. apply Hnil, length_zero_iff_nil.
      by rewrite <- Hfi, Hfi0. }
    rewrite !bool_index_same_length
      by (done || rewrite ?add_intercept_length; congruence).
    cbn [mbind option_bind]. fold X_sub y_sub.
    unfold whiten_training. destruct error_cov as [E|].
    - rewrite (ix_index_square _ (length Y_indices)) by auto.
      cbn [mbind option_bind]. rewrite Hlabels. cbn [mbind option_bind].
      destruct (block_Linv (ix_select fitting_indices fitting_indices E)
                  labels) as [Linv|] eqn:HLinv; cbn [mbind option_bind fst snd].
      + destruct (linreg_fit (block_AB Linv labels X_sub)
                    (block_AB Linv labels y_sub)) as [coef|] eqn:Hfit;
          cbn [mbind option_bind].
        * split; [done|]. intros [?|[(E' & [= <-] & HE)|Hfail]];
            [done | congruence |].
          destruct Hfail as (X_train & y_train & (Linv' & HL & -> & ->) & Hf).
          congruence.
        * split; [|done]. intros _. right. right.
          exists (block_AB Linv labels X_sub), (block_AB Linv labels y_sub).
          split; [by exists Linv | done].
      + split; [|done]. intros _. right. left. by exists E.
    - cbn [mbind option_bind fst snd].
      destruct (linreg_fit X_sub y_sub) as [coef|] eqn:Hfit;
        cbn [mbind option_bind].
      + split; [done|]. intros [?|[(E & ? & _)|Hfail]]; [done | done |].
        destruct Hfail as (X_train & y_train & [-> ->] & Hf). congruence.
      + split; [|done]. intros _. right. right. by exists X_sub, y_sub. }
  split; [exact Hiff|].
  intros Hempty Hnone. apply Hiff.
  destruct (decide (Y_indices = [])) as [Hnil|Hnil]; [by left|].
  right.
  assert (HX : X_sub = []).
  { apply length_zero_iff_nil. unfold X_sub.
    rewrite (positions_length fitting_indices
               (add_intercept_if_missing covariates))
      by (rewrite add_intercept_length; congruence).
    rewrite <- (positions_length fitting_indices Y_indices) by done.
    by rewrite Hnone. }
  assert (Hlab : labels = []).
  { rewrite Hnone in Hlabels. by injection Hlabels as <-. }
  destruct error_cov as [E|].
  - destruct (block_Linv (ix_select fitting_indices fitting_indices E) labels)
      as [Linv|] eqn:HLinv; [right | left; by exists E].
    exists (block_AB Linv labels X_sub), (block_AB Linv labels y_sub).
    split; [by exists Linv|].
    rewrite HX, Hlab. apply Hempty.
  - right. exists X_sub, y_sub. split; [done|]. rewrite HX. apply Hempty.
Qed.

End BlockErrors.

Lemma small_square_1 (a : R) : square 1 [[a]].
Proof. split; [done|]. by repeat constructor. Qed.

Lemma block_Linv_raises_iff_witness :
  (@block_Linv small_libraries [[-4]]%R ["1"] = None
   ↔ ∃ l, l ∈ ["1"]
          ∧ (@cholesky small_libraries (block_of ["1"] l [[-4]]%R) = None
             ∨ ∃ L, @cholesky small_libraries (block_of ["1"] l [[-4]]%R)
                      = Some L
                    ∧ @inv small_libraries L = None))
  ∧ (["1"] = [] → @block_Linv small_libraries [[-4]]%R ["1"]
                  = Some (zeros_like [[-4]]%R)).
Proof.
  apply (@block_Linv_raises_iff small_libraries [[-4]]%R ["1"]).
  apply small_square_1.
Defined.


(** ** The selector: errors, control features, and the maximum number *)

Section SelectorFacts.

Implicit Types (df : marginal_assoc_df) (c : criteria) (r : assoc_row).

(** [sort_values] is any routine that meets its contract. *)
Context `{Pandas}.
Hypothesis sort_contract : sort_values_contract.

Lemma loc_label_None df l : loc_label df l = None ↔ l ∉ feature <$> df.
Proof.
  unfold loc_label. rewrite list_elem_of_fmap. split.
  - destruct (filter _ df) as [|r rs] eqn:Hf; [|done].
    intros _ (r & -> & Hr).
    assert (Hin : r ∈ filter (λ r', feature r' = feature r) df)
      by by apply list_elem_of_filter.
    rewrite Hf in Hin. by apply elem_of_nil in Hin.
  - intros Hnot. destruct (filter _ df) as [|r rs] eqn:Hf; [done|].
    destruct Hnot. exists r.
    assert (Hin : r ∈ filter (λ r', feature r' = l) df)
      by (rewrite Hf; by left).
    apply list_elem_of_filter in Hin as [-> Hin]. done.
Qed.

(** X9.  [select_features_from_marginal_assoc_df] raises exactly when a
    subset list is given that names a feature labelling no row of the
    table ([KeyError] from [.loc]); without a subset list it always
    returns. *)
Theorem selector_raises_iff df c :
  select_features_from_marginal_assoc_df df c = None
  ↔ ∃ names l, subset_features c = Some names ∧ l ∈ names
               ∧ l ∉ feature <$> df.
Proof.
  unfold select_features_from_marginal_assoc_df, step_subset, loc_labels.
  destruct (subset_features c) as [names|]; cbn [mbind option_bind].
  - destruct (mapM (loc_label df) names) as [rss|] eqn:Hm;
      cbn [mbind option_bind].
    + split; [done|]. intros (names' & l & [= <-] & Hl & Hnot).
      apply mapM_Some in Hm.
      apply list_elem_of_lookup in Hl as [i Hi].
      destruct (Forall2_lookup_l _ _ _ _ _ Hm Hi) as (rs & _ & Hrs).
      apply loc_label_None in Hnot. congruence.
    + split; [|done]. intros _. apply mapM_None, Exists_exists in Hm.
      destruct Hm as (l & Hl & Hnone). exists names, l.
      split; [done|]. split; [done|]. by apply loc_label_None.
  - split; [done|]. by intros (names & l & [=] & _).
Qed.

Lemma fmap_filter_feature (names : list string) df :
  feature <$> filter (λ r, index_isin names r = true) df
  = filter (λ f, f ∈ names) (feature <$> df).
Proof.
  induction df as [|r df IH]; [done|].
  rewrite fmap_cons, !filter_cons.
  destruct (decide (index_isin names r = true)) as [Hb|Hb],
    (decide (feature r ∈ names)) as [Hin|Hin];
    rewrite ?fmap_cons, ?IH; try done.
  - by apply bool_decide_eq_true in Hb.
  - destruct Hb. by apply bool_decide_eq_true.
Qed.

Lemma length_iloc_upto {A} (n : Z) (l : list A) :
  Z.of_nat (length (iloc_upto n l))
  = (if (n <? 0)%Z then Z.max 0 (Z.of_nat (length l) + n)
     else Z.min n (Z.of_nat (length l)))%Z.
Proof.
  unfold iloc_upto. destruct (n <? 0)%Z eqn:Hn; rewrite length_take.
  - apply Z.ltb_lt in Hn. lia.
  - apply Z.ltb_ge in Hn. lia.
Qed.

(** X10.  ([sort_values] is any routine that meets [sort_values_contract].)
    Control features bypass the filters.  When a control list is
    given, the result is the chosen non-control features followed by the
    labels of all rows of the (subsetted) table that carry a control name,
    in table order, whatever their p-values; no chosen feature is a control
    feature, and when a non-negative maximum is given it bounds the number
    of chosen features only: control features do not count toward it. *)
Theorem control_features_bypass_filters df c df1 names sel :
  step_subset c df = Some df1 → control_features c = Some names →
  select_features_from_marginal_assoc_df df c = Some sel →
  ∃ chosen,
    sel = chosen ++ filter (λ f, f ∈ names) (feature <$> df1)
    ∧ Forall (λ f, f ∉ names) chosen
    ∧ ∀ n, feature_selection_max_num c = Some n → (0 ≤ n)%Z →
           length chosen ≤ Z.to_nat n.
Proof.
  intros Hsub Hctl. unfold select_features_from_marginal_assoc_df.
  rewrite Hsub. cbn [mbind option_bind]. intros [= <-].
  exists (feature <$> surviving_rows c df1). split; [|split].
  - f_equal. unfold control_df. rewrite Hctl. apply fmap_filter_feature.
  - apply Forall_fmap, Forall_forall. intros r Hr. simpl.
    unfold surviving_rows in Hr. apply (elem_of_step_max_num sort_contract) in Hr.
    assert (Hr' : r ∈ step_control c df1).
    { revert Hr. unfold step_cutoff.
      destruct (feature_selection_p_cutoff c); [|done].
      by intros [_ Hr]%list_elem_of_filter. }
    unfold step_control in Hr'. rewrite Hctl in Hr'.
    apply list_elem_of_filter in Hr' as [Hnot _].
    apply negb_true_iff in Hnot. unfold index_isin in Hnot.
    by apply bool_decide_eq_false in Hnot.
  - intros n Hn Hpos. rewrite length_fmap.
    unfold surviving_rows, step_max_num. rewrite Hn.
    rewrite iloc_upto_nonneg by done. rewrite length_take. lia.
Qed.

Lemma StronglySorted_app_cross {A} (R : A → A → Prop) (l1 l2 : list A) :
  StronglySorted R (l1 ++ l2) → ∀ x y, x ∈ l1 → y ∈ l2 → R x y.
Proof.
  induction l1 as [|a l1 IH]; simpl; intros Hs x y Hx Hy.
  - by apply elem_of_nil in Hx.
  - apply StronglySorted_inv in Hs as [Hs Ha].
    apply elem_of_cons in Hx as [->|Hx]; [|by apply IH].
    apply (proj1 (Forall_forall _ _) Ha). apply elem_of_app. by right.
Qed.

Lemma StronglySorted_app_l {A} (R : A → A → Prop) (l1 l2 : list A) :
  StronglySorted R (l1 ++ l2) → StronglySorted R l1.
Proof.
  induction l1 as [|a l1 IH]; simpl; intros Hs; [constructor|].
  apply StronglySorted_inv in Hs as [Hs Ha]. constructor; [by apply IH|].
  by apply Forall_app in Ha as [Ha _].
Qed.

(** X11.  ([sort_values] is any routine that meets [sort_values_contract].)
    When a maximum number [n] is given, the rows that pass the
    earlier filters are split into the rows kept and the rows dropped: the
    kept rows are in ascending order of p-value, no kept row has a larger
    p-value than a dropped row (an undefined p-value counting as the
    largest), and the number of kept rows is the smaller of [n] and the
    number of candidates when [n] is not negative.  A negative [n] does not
    empty the selection: as a Python slice bound it drops the [-n] rows
    with the largest p-values. *)
Theorem selection_keeps_smallest_pvalues df1 c n :
  feature_selection_max_num c = Some n →
  let candidates := step_cutoff c (step_control c df1) in
  let kept := surviving_rows c df1 in
  ∃ dropped,
    kept ++ dropped ≡ₚ candidates
    ∧ StronglySorted (λ r r', sort_le (pval r) (pval r') = true) kept
    ∧ (∀ r r', r ∈ kept → r' ∈ dropped →
         sort_le (pval r) (pval r') = true)
    ∧ Z.of_nat (length kept)
      = (if (n <? 0)%Z then Z.max 0 (Z.of_nat (length candidates) + n)
         else Z.min n (Z.of_nat (length candidates)))%Z.
Proof.
  intros Hn candidates kept.
  pose proof (sort_values_pval_sorted sort_contract candidates) as Hsorted.
  assert (Hkept : ∃ k, kept = take k (sort_values_pval candidates)).
  { unfold kept, surviving_rows, step_max_num. rewrite Hn.
    fold candidates. unfold iloc_upto. destruct (n <? 0)%Z; by eexists. }
  destruct Hkept as [k Hk].
  exists (drop k (sort_values_pval candidates)).
  rewrite Hk, take_drop. rewrite <- (take_drop k (sort_values_pval candidates))
    in Hsorted.
  split; [by apply sort_values_pval_perm|]. split; [|split].
  - by apply StronglySorted_app_l in Hsorted.
  - by apply StronglySorted_app_cross.
  - rewrite <- Hk. unfold kept, surviving_rows, step_max_num. rewrite Hn.
    fold candidates. rewrite length_iloc_upto.
    by rewrite (Permutation_length
                  (sort_values_pval_perm sort_contract candidates)).
Qed.

End SelectorFacts.

(** The two theorems on a table of four rows, one of them a control
    feature with an undefined p-value. *)
Local Abbreviation selector_example_table :=
  ([ mk_row "a" nan nan (num (3 # 100)) nan;
     mk_row "ctl" nan nan nan nan;
     mk_row "b" nan nan (num (1 # 100)) nan;
     mk_row "d" nan nan (num (2 # 100)) nan ]).

Local Abbreviation selector_example_criteria :=
  (mk_criteria None (Some ["ctl"; "zzz"]) (Some (num (5 # 100))) (Some 2%Z)).

Lemma control_features_bypass_filters_witness :
  ∃ chosen,
    ["b"; "d"; "ctl"]
    = chosen ++ filter (λ f, f ∈ ["ctl"; "zzz"])
                  (feature <$> selector_example_table)
    ∧ Forall (λ f, f ∉ ["ctl"; "zzz"]) chosen
    ∧ ∀ n, feature_selection_max_num selector_example_criteria = Some n →
           (0 ≤ n)%Z → length chosen ≤ Z.to_nat n.
Proof.
  apply (@control_features_bypass_filters stable_pandas
           stable_pandas_contract selector_example_table
           selector_example_criteria selector_example_table
           ["ctl"; "zzz"] ["b"; "d"; "ctl"]); reflexivity.
Defined.

Lemma selection_keeps_smallest_pvalues_witness :
  let candidates :=
    step_cutoff selector_example_criteria
      (step_control selector_example_criteria selector_example_table) in
  let kept :=
    @surviving_rows stable_pandas selector_example_criteria
      selector_example_table in
  ∃ dropped,
    kept ++ dropped ≡ₚ candidates
    ∧ StronglySorted (λ r r', sort_le (pval r) (pval r') = true) kept
    ∧ (∀ r r', r ∈ kept → r' ∈ dropped →
         sort_le (pval r) (pval r') = true)
    ∧ Z.of_nat (length kept)
      = (if (2 <? 0)%Z then Z.max 0 (Z.of_nat (length candidates) + 2)
         else Z.min 2 (Z.of_nat (length candidates)))%Z.
Proof.
  apply (@selection_keeps_smallest_pvalues stable_pandas
           stable_pandas_contract selector_example_table
           selector_example_criteria 2%Z).
  reflexivity.
Defined.

(** ** Loading the feature matrix: shapes and errors *)

Section FeatureMatrixShapes.

Lemma hstack_fold_Some {A} (ms : list (list (list A))) (acc M : list (list A)) :
  fold_left (λ acc m', acc ≫= λ a, hstack_pair a m') ms (Some acc) = Some M →
  length M = length acc ∧ Forall (λ m, length m = length acc) ms.
Proof.
  revert acc. induction ms as [|m ms IH]; intros acc; simpl.
  - intros [= <-]. by split.
  - unfold hstack_pair at 2.
    destruct (decide (length acc = length m)) as [Hl|Hl].
    + intros HM. apply IH in HM as [HM Hms].
      rewrite length_zip_with in HM, Hms.
      rewrite <- Hl, Nat.min_id in HM, Hms. split; [done|].
      constructor; [done|]. eapply Forall_impl; [exact Hms|].
      intros m' Hm'. simpl in Hm'. lia.
    + assert (Hnone : ∀ l : list (list (list A)),
                fold_left (λ acc m', acc ≫= λ a, hstack_pair a m') l None
                = None) by by intros l; induction l.
      by rewrite Hnone.
Qed.

Lemma np_hstack_2d_Some {A} (ms : list (list (list A))) (M : list (list A)) :
  np_hstack_2d ms = Some M → Forall (λ m, length m = length M) ms.
Proof.
  destruct ms as [|m ms]; [done|]. simpl.
  intros [HM Hms]%hstack_fold_Some. rewrite HM.
  by constructor.
Qed.

Lemma keep_columns_aligned sel sh n :
  shard_shape n sh →
  length (keep_columns sel sh).1 = n
  ∧ Forall (λ row, length row = length (keep_columns sel sh).2)
      (keep_columns sel sh).1.
Proof.
  intros [Hn Hrows]. split; [by rewrite keep_columns_length|].
  destruct sel as [sel|]; simpl; [|done].
  apply Forall_fmap, Forall_forall. intros row Hrow. simpl.
  pose proof (proj1 (Forall_forall _ _) Hrows row Hrow) as Hlen.
  simpl in Hlen.
  rewrite (mask_select_length _ row) by by rewrite length_fmap.
  rewrite (mask_select_length _ (shard_cols sh)) by by rewrite length_fmap.
  done.
Qed.

Lemma stacked_row_length (loaded : list (list (list R) * list string)) n i :
  Forall (λ p, length p.1 = n ∧ Forall (λ row, length row = length p.2) p.1)
    loaded →
  i < n →
  length (List.concat ((λ m, nth i m []) <$> loaded.*1))
  = length (List.concat loaded.*2).
Proof.
  intros Hl Hi. induction Hl as [|p loaded [Hn Hrows] _ IH]; [done|].
  rewrite !fmap_cons. cbn [List.concat]. rewrite !length_app, IH. f_equal.
  apply (proj1 (Forall_forall _ _) Hrows).
  apply list_elem_of_In, nth_In. lia.
Qed.

(** X12.  For a non-empty collection of shards that share their [n] gene
    rows, and for every selection (a list of names or [None]),
    [load_feature_matrix] returns a matrix with [n] rows in which every row
    has exactly one entry per returned column name, so that the names label
    the matrix columns.  When the selection is [None] nothing is filtered:
    the names are the concatenation of all shards' names and each row is
    the concatenation of the shards' rows, in natural-sort order of the
    shard identifiers. *)
Theorem load_feature_matrix_columns_aligned rows shards selected_features n :
  shards ≠ [] →
  Forall (shard_shape n) shards →
  ∃ mat cols,
    load_feature_matrix rows shards selected_features = Some (mat, cols, rows)
    ∧ length mat = n
    ∧ Forall (λ row, length row = length cols) mat
    ∧ (selected_features = None →
         cols = List.concat (shard_cols <$> sorted_natural file_id shards)
         ∧ ∀ i, i < n →
             mat !! i
             = Some (List.concat ((λ sh, nth i (shard_mat sh) [])
                                    <$> sorted_natural file_id shards))).
Proof.
  intros Hne Hshape.
  pose proof (sorted_natural_perm file_id shards) as Hperm.
  unfold load_feature_matrix.
  set (sorted := sorted_natural file_id shards) in *.
  assert (Hsorted_shape : Forall (shard_shape n) sorted) by by rewrite Hperm.
  assert (Hsorted_ne : sorted ≠ []).
  { intros Hnil. rewrite Hnil in Hperm. by apply Permutation_nil_l in Hperm. }
  set (loaded := keep_columns selected_features <$> sorted).
  assert (Hloaded : Forall (λ p, length p.1 = n
                     ∧ Forall (λ row, length row = length p.2) p.1) loaded).
  { apply Forall_fmap. eapply Forall_impl; [exact Hsorted_shape|].
    intros sh Hsh. by apply keep_columns_aligned. }
  destruct (np_hstack_2d_rows loaded.*1 n) as (mat & Hmat & Hlen & Hrow).
  { unfold loaded. by destruct sorted. }
  { apply Forall_fmap. eapply Forall_impl; [exact Hloaded|]. by intros p [? _]. }
  exists mat, (List.concat loaded.*2).
  rewrite Hmat. cbn [mbind option_bind].
  rewrite np_hstack_1d_nonempty by (unfold loaded; by destruct sorted).
  cbn [mbind option_bind].
  split; [done|]. split; [done|]. split.
  - apply Forall_forall. intros row Hrow'.
    apply list_elem_of_lookup in Hrow' as [i Hi].
    assert (i < n) as Hin by (rewrite <- Hlen; by eapply lookup_lt_Some).
    rewrite (Hrow i Hin) in Hi. injection Hi as <-.
    by apply (stacked_row_length loaded n).
  - intros ->. unfold loaded. simpl. split.
    + by rewrite <- list_fmap_compose.
    + intros i Hi. rewrite (Hrow i Hi). do 2 f_equal.
      unfold loaded. by rewrite <- !list_fmap_compose.
Qed.

Lemma np_hstack_2d_cons_None {A} (ms : list (list (list A))) :
  ms ≠ [] → np_hstack_2d ms = None →
  ∃ m1 m2, m1 ∈ ms ∧ m2 ∈ ms ∧ length m1 ≠ length m2.
Proof.
  destruct ms as [|m ms]; [done|]. intros _ Hnone.
  destruct (decide (Forall (λ m', length m' = length m) ms)) as [Hall|Hex].
  - destruct (hstack_fold_rows ms m (length m) eq_refl Hall) as (M & HM & _).
    simpl in Hnone. congruence.
  - apply not_Forall_Exists in Hex; [|intros m'; apply _].
    apply Exists_exists in Hex as (m' & Hm' & Hlen).
    exists m', m. split; [by right|]. split; [by left|]. done.
Qed.

(** X13.  On shards whose matrices have one column per column name,
    [load_feature_matrix] raises exactly when there is no shard or two
    shards differ in their number of gene rows ([np.hstack] raises
    [ValueError]): shards are never stacked out of line. *)
Theorem load_feature_matrix_raises_iff rows shards selected_features :
  Forall (λ sh, Forall (λ row, length row = length (shard_cols sh))
                  (shard_mat sh)) shards →
  load_feature_matrix rows shards selected_features = None
  ↔ shards = []
    ∨ ∃ sh1 sh2, sh1 ∈ shards ∧ sh2 ∈ shards
                 ∧ length (shard_mat sh1) ≠ length (shard_mat sh2).
Proof.
  intros _.
  pose proof (sorted_natural_perm file_id shards) as Hperm.
  unfold load_feature_matrix.
  set (sorted := sorted_natural file_id shards) in *.
  set (loaded := keep_columns selected_features <$> sorted).
  split.
  - intros Hnone.
    destruct (decide (shards = [])) as [|Hne]; [by left|]. right.
    assert (Hsorted_ne : sorted ≠ []).
    { intros Hnil. rewrite Hnil in Hperm. by apply Permutation_nil_l in Hperm. }
    destruct (np_hstack_2d loaded.*1) as [mat|] eqn:Hmat.
    + cbn [mbind option_bind] in Hnone.
      rewrite np_hstack_1d_nonempty in Hnone
        by (unfold loaded; by destruct sorted).
      done.
    + apply np_hstack_2d_cons_None in Hmat
        as (m1 & m2 & Hm1 & Hm2 & Hlen);
        [|unfold loaded; by destruct sorted].
      unfold loaded in Hm1, Hm2. rewrite <- list_fmap_compose in Hm1, Hm2.
      apply list_elem_of_fmap in Hm1 as (sh1 & -> & Hsh1).
      apply list_elem_of_fmap in Hm2 as (sh2 & -> & Hsh2).
      simpl in Hlen. rewrite !keep_columns_length in Hlen.
      exists sh1, sh2. by rewrite <- !Hperm.
  - intros [->|(sh1 & sh2 & Hsh1 & Hsh2 & Hlen)]; [done|].
    destruct (np_hstack_2d loaded.*1) as [mat|] eqn:Hmat; [|done].
    apply np_hstack_2d_Some in Hmat.
    assert (Hrows : ∀ sh, sh ∈ shards → length (shard_mat sh) = length mat).
    { intros sh Hsh. rewrite <- Hperm in Hsh.
      rewrite <- (keep_columns_length selected_features).
      apply (proj1 (Forall_forall _ _) Hmat).
      unfold loaded. rewrite <- list_fmap_compose.
      apply list_elem_of_fmap. by exists sh. }
    destruct Hlen. by rewrite !Hrows.
Qed.

End FeatureMatrixShapes.

Local Abbreviation two_shards :=
  ([mk_shard "10" [[1; 2]; [3; 4]]%R ["f3"; "f4"];
    mk_shard "2" [[5]; [7]]%R ["f1"]]).

Lemma load_feature_matrix_columns_aligned_witness :
  ∃ mat cols,
    load_feature_matrix ["g1"; "g2"] two_shards None
      = Some (mat, cols, ["g1"; "g2"])
    ∧ length mat = 2
    ∧ Forall (λ row, length row = length cols) mat
    ∧ (@None (list string) = None →
         cols = List.concat (shard_cols <$> sorted_natural file_id two_shards)
         ∧ ∀ i, i < 2 →
             mat !! i
             = Some (List.concat ((λ sh, nth i (shard_mat sh) [])
                                    <$> sorted_natural file_id two_shards))).
Proof.
  apply (load_feature_matrix_columns_aligned ["g1"; "g2"] two_shards None 2).
  - done.
  - repeat constructor.
Defined.

Lemma load_feature_matrix_raises_iff_witness :
  load_feature_matrix ["g1"; "g2"]
    [mk_shard "10" [[1; 2]; [3; 4]]%R ["f3"; "f4"];
     mk_shard "2" [[5]]%R ["f1"]] (Some ["f1"]) = None
  ↔ [mk_shard "10" [[1; 2]; [3; 4]]%R ["f3"; "f4"];
     mk_shard "2" [[5]]%R ["f1"]] = []
    ∨ ∃ sh1 sh2,
        sh1 ∈ [mk_shard "10" [[1; 2]; [3; 4]]%R ["f3"; "f4"];
               mk_shard "2" [[5]]%R ["f1"]]
        ∧ sh2 ∈ [mk_shard "10" [[1; 2]; [3; 4]]%R ["f3"; "f4"];
                 mk_shard "2" [[5]]%R ["f1"]]
        ∧ length (shard_mat sh1) ≠ length (shard_mat sh2).
Proof.
  apply load_feature_matrix_raises_iff. repeat constructor.
Defined.

(** ** Regularisation and the intercept check: edge behaviour *)

Section RegularizeErrors.
Context `{Libraries}.

(** X14.  On an [n] by [n] error covariance and [n] gene identifiers, with
    [eigvalsh] returning one eigenvalue per row, [regularize_error_cov]
    raises exactly when some gene of [Y_indices] has no annotation
    ([KeyError] from [gene_annot_df.loc]); the minimum over the eigenvalues
    of a chromosome block is never taken over an empty sequence. *)
Theorem regularize_error_cov_raises_iff (error_cov : matrix) (Y : vector)
    (Y_indices : list string) (gene_annot_df : gmap string gene_annot) :
  (∀ M, length (eigvalsh M) = length M) →
  square (length Y_indices) error_cov →
  regularize_error_cov error_cov Y Y_indices gene_annot_df = None
  ↔ ∃ g, g ∈ Y_indices ∧ gene_annot_df !! g = None.
Proof.
  intros Heig [Hrows _]. unfold regularize_error_cov.
  destruct (loc_CHR gene_annot_df Y_indices) as [Y_chr|] eqn:Hloc;
    cbn [mbind option_bind].
  - assert (Hmin : is_Some (min_lambda_loop error_cov Y_chr)).
    { apply min_lambda_fold_Some. intros c Hc Hnil.
      apply (proj1 (elem_of_py_set _ _)) in Hc.
      apply (block_nonempty Y_chr c error_cov).
      - rewrite Hrows. symmetry. by eapply loc_CHR_length.
      - done.
      - apply length_zero_iff_nil. by rewrite <- Heig, Hnil. }
    destruct Hmin as [min_lambda ->]. cbn [mbind option_bind].
    split; [done|]. intros (g & Hg & Hnone).
    unfold loc_CHR in Hloc. apply mapM_Some in Hloc.
    apply list_elem_of_lookup in Hg as [i Hi].
    destruct (Forall2_lookup_l _ _ _ _ _ Hloc Hi) as (c & _ & Hc).
    by rewrite Hnone in Hc.
  - split; [|done]. intros _. unfold loc_CHR in Hloc.
    apply mapM_None, Exists_exists in Hloc as (g & Hg & Hnone).
    exists g. split; [done|].
    by destruct (gene_annot_df !! g).
Qed.

End RegularizeErrors.

Lemma regularize_error_cov_raises_iff_witness :
  @regularize_error_cov small_libraries [[2]]%R [1]%R ["g9"]
    {[ "g1" := mk_annot "1" 100%Z ]} = None
  ↔ ∃ g, g ∈ ["g9"]
         ∧ ({[ "g1" := mk_annot "1" 100%Z ]} : gmap string gene_annot) !! g
           = None.
Proof.
  apply (@regularize_error_cov_raises_iff small_libraries).
  - intros M. simpl. unfold eigvalsh_diag. by rewrite length_imap.
  - apply small_square_1.
Defined.

Section InterceptCheck.

Lemma sum_list_replicate (n : nat) (a : R) :
  sum_list (replicate n a) = (INR n * a)%R.
Proof.
  induction n as [|n IH]; [simpl; lra|].
  rewrite S_INR. simpl replicate. unfold sum_list in *. simpl. rewrite IH. lra.
Qed.

Lemma np_var_constant (n : nat) (a : R) : 0 < n → np_var (replicate n a) = 0%R.
Proof.
  intros Hn. unfold np_var, np_mean.
  rewrite fmap_replicate, !length_replicate, !sum_list_replicate.
  assert (INR n ≠ 0%R) by (apply not_0_INR; lia).
  field. done.
Qed.

Lemma np_isclose_0 : np_isclose 0 0 = true.
Proof.
  unfold np_isclose. apply bool_decide_eq_true.
  rewrite Rminus_diag, Rabs_R0. lra.
Qed.

Lemma ncols_tab_pos n m (h : nat → nat → R) : 0 < n → ncols (tab n m h) = m.
Proof.
  destruct n as [|n]; [lia|]. intros _. rewrite tab_S. simpl.
  by rewrite length_fmap, length_seq.
Qed.

Lemma transpose_tab_rect n m (h : nat → nat → R) :
  0 < n → transpose (tab n m h) = tab m n (λ j i, h i j).
Proof.
  intros Hn. unfold transpose. by rewrite ncols_tab_pos, transpose_w_tab.
Qed.

(** A constant column is seen by the check. *)
Lemma constant_column_detected (covariates : matrix) n k j a :
  0 < n → length covariates = n →
  Forall (λ row, length row = k) covariates →
  j < k → (∀ i, i < n → mget covariates i j = a) →
  add_intercept_if_missing covariates = covariates.
Proof.
  intros Hn Hlen Hrows Hj Hcol. unfold add_intercept_if_missing.
  assert (Hex : existsb (λ v, np_isclose v 0) (np_var <$> transpose covariates)
                = true); [|by rewrite Hex].
  apply existsb_exists. exists 0%R. split; [|apply np_isclose_0].
  apply list_elem_of_In, list_elem_of_fmap. exists (replicate n a).
  split; [by rewrite np_var_constant|].
  rewrite (rect_tab n k covariates Hlen Hrows), transpose_tab_rect by done.
  apply list_elem_of_lookup. exists j. rewrite tab_lookup by done.
  f_equal. rewrite (replicate_fmap_seq a n 0).
  apply list_fmap_ext. intros _ i Hi%list_elem_of_lookup_2%elem_of_seq.
  apply Hcol. lia.
Qed.

(** X15.  The intercept check of [project_out_covariates], on covariates
    with at least one gene row and [k] columns.  The covariates are either
    left as they are or extended by one trailing column of ones.  They are
    left as they are as soon as one column is constant, whatever the
    constant (so a column of zeros also suppresses the intercept).  And the
    check is idempotent: applied to its own result it changes nothing,
    because the column of ones it may have added is constant. *)
Theorem add_intercept_if_missing_idempotent (covariates : matrix) (n k : nat) :
  0 < n → length covariates = n →
  Forall (λ row, length row = k) covariates →
  (add_intercept_if_missing covariates = covariates
   ∨ add_intercept_if_missing covariates
     = (λ row : vector, row ++ [1%R]) <$> covariates)
  ∧ (∀ j a, j < k → (∀ i, i < n → mget covariates i j = a) →
       add_intercept_if_missing covariates = covariates)
  ∧ add_intercept_if_missing (add_intercept_if_missing covariates)
    = add_intercept_if_missing covariates.
Proof.
  intros Hn Hlen Hrows.
  assert (Hcases : add_intercept_if_missing covariates = covariates
            ∨ add_intercept_if_missing covariates
              = (λ row : vector, row ++ [1%R]) <$> covariates).
  { unfold add_intercept_if_missing. destruct (existsb _ _); auto. }
  split; [done|]. split.
  - intros j a Hj Hcol. by apply (constant_column_detected _ n k j a).
  - destruct Hcases as [Heq|Heq]; [by rewrite !Heq | rewrite Heq].
    apply (constant_column_detected _ n (S k) k 1%R); try done.
    + by rewrite length_fmap.
    + apply Forall_fmap. eapply Forall_impl; [exact Hrows|].
      intros row Hrow. simpl. rewrite length_app, Hrow. simpl. lia.
    + lia.
    + intros i Hi. unfold mget.
      destruct (lookup_lt_is_Some_2 covariates i) as [row Hrow]; [lia|].
      rewrite (nth_lookup_Some _ i [] (row ++ [1%R]))
        by by rewrite list_lookup_fmap, Hrow.
      assert (length row = k) as <-.
      { apply (proj1 (Forall_forall _ _) Hrows).
        by eapply list_elem_of_lookup_2. }
      by rewrite app_nth2, Nat.sub_diag by lia.
Qed.

End InterceptCheck.

Lemma add_intercept_if_missing_idempotent_witness :
  (add_intercept_if_missing [[0; 3]; [0; 5]]%R = [[0; 3]; [0; 5]]%R
   ∨ add_intercept_if_missing [[0; 3]; [0; 5]]%R
     = (λ row : vector, row ++ [1%R]) <$> [[0; 3]; [0; 5]]%R)
  ∧ (∀ j a, j < 2 → (∀ i, i < 2 → mget [[0; 3]; [0; 5]]%R i j = a) →
       add_intercept_if_missing [[0; 3]; [0; 5]]%R = [[0; 3]; [0; 5]]%R)
  ∧ add_intercept_if_missing (add_intercept_if_missing [[0; 3]; [0; 5]]%R)
    = add_intercept_if_missing [[0; 3]; [0; 5]]%R.
Proof.
  apply (add_intercept_if_missing_idempotent [[0; 3]; [0; 5]]%R 2 2).
  - lia.
  - reflexivity.
  - repeat constructor.
Defined.


Lemma project_out_covariates_raises_iff_witness :
  let gene_annot_df : gmap string gene_annot :=
    {[ "g1" := mk_annot "1" 100%Z ]} in
  let fitting_indices :=
    get_gene_indices_to_use ["g1"] gene_annot_df ["1"] true in
  let X_sub :=
    mask_select fitting_indices (add_intercept_if_missing [[1]]%R) in
  let y_sub := mask_select fitting_indices [2]%R in
  ∃ sub_error_cov_labels,
    loc_CHR gene_annot_df (mask_select fitting_indices ["g1"])
      = Some sub_error_cov_labels
    ∧ (@project_out_covariates small_libraries [2]%R [[1]]%R
         (Some [[-4]]%R) ["g1"] gene_annot_df ["1"] true = None
       ↔ ["g1"] = []
         ∨ (∃ E, Some [[-4]]%R = Some E
                 ∧ @block_Linv small_libraries
                     (ix_select fitting_indices fitting_indices E)
                     sub_error_cov_labels = None)
         ∨ (∃ X_train y_train,
              (∃ Linv,
                 @block_Linv small_libraries
                   (ix_select fitting_indices fitting_indices [[-4]]%R)
                   sub_error_cov_labels = Some Linv
                 ∧ X_train = block_AB Linv sub_error_cov_labels X_sub
                 ∧ y_train = block_AB Linv sub_error_cov_labels y_sub)
              ∧ @linreg_fit small_libraries X_train y_train = None))
    ∧ ((∀ y, @linreg_fit small_libraries [] y = None) →
       mask_select fitting_indices ["g1"] = [] →
       @project_out_covariates small_libraries [2]%R [[1]]%R
         (Some [[-4]]%R) ["g1"] gene_annot_df ["1"] true = None).
Proof.
  apply (@project_out_covariates_raises_iff small_libraries); [done | done |].
  intros E [= <-]. apply small_square_1.
Defined.

(** ** The block operations as matrix products *)

Section BlockProducts.

Implicit Types (mask : list bool) (a c u v : vector).
Implicit Types (labels ls : list string).

Lemma dot_mask_select mask a c :
  length a = length mask → length c = length mask →
  (∀ j, mask !! j = Some false → a !! j = Some 0%R ∨ c !! j = Some 0%R) →
  dot a c = dot (mask_select mask a) (mask_select mask c).
Proof.
  revert a c. induction mask as [|b mask IH]; intros [|x a] [|y c] Ha Hc Hz;
    try done.
  simpl in Ha, Hc. rewrite !mask_select_cons, dot_cons.
  rewrite (IH a c) by (try lia; intros j Hj; apply (Hz (S j) Hj)).
  destruct b; [by rewrite dot_cons|].
  destruct (Hz 0 eq_refl) as [[= ->]|[= ->]]; lra.
Qed.

Lemma length_transpose_w {A} p (M : list (list A)) :
  Forall (λ row, length row = p) M → length (transpose_w p M) = p.
Proof.
  unfold transpose_w. induction 1 as [|row M Hrow _ IH]; simpl.
  - by rewrite length_replicate.
  - rewrite length_zip_with, IH, Hrow. lia.
Qed.

Lemma Forall_length_transpose_w {A} p (M : list (list A)) :
  Forall (λ col, length col = length M) (transpose_w p M).
Proof.
  unfold transpose_w. induction M as [|row M IH]; simpl.
  - by apply Forall_replicate.
  - revert row. induction IH as [|t T Ht _ IHT]; intros [|x row]; simpl;
      try by constructor.
    constructor; [simpl; by rewrite Ht | apply IHT].
Qed.

Lemma fmap_zip_with_cons {A} (f : list A → list A) (g : A → list A → list A)
    (row : list A) (T : list (list A)) :
  (∀ x t, f (x :: t) = g x t) →
  f <$> zip_with cons row T = zip_with g row T.
Proof.
  intros Hfg. revert T. induction row as [|x row IH]; intros [|t T]; try done.
  simpl. by rewrite Hfg, IH.
Qed.

Lemma zip_with_ignore_l {A B C} (f : B → C) (xs : list A) (ys : list B) :
  length xs = length ys → zip_with (λ _ y, f y) xs ys = f <$> ys.
Proof.
  revert ys. induction xs as [|x xs IH]; intros [|y ys] Hl; try done.
  simpl in *. by rewrite IH by lia.
Qed.

Lemma zip_with_fmap_r' {A B C D} (g : A → C → D) (f : B → C)
    (xs : list A) (ys : list B) :
  zip_with g xs (f <$> ys) = zip_with (λ x y, g x (f y)) xs ys.
Proof.
  revert ys. induction xs as [|x xs IH]; intros [|y ys]; try done.
  simpl. by rewrite IH.
Qed.

(** Selecting rows of a matrix selects the same entries of its columns. *)
Lemma transpose_w_mask_select_rows mask p (B : matrix) :
  Forall (λ row, length row = p) B →
  transpose_w p (mask_select mask B) = mask_select mask <$> transpose_w p B.
Proof.
  intros HB. revert mask.
  induction HB as [|row B Hrow HB IH]; intros mask.
  - rewrite mask_select_nil_r. unfold transpose_w. simpl.
    rewrite fmap_replicate. by rewrite mask_select_nil_r.
  - destruct mask as [|b mask].
    + change (mask_select [] (row :: B)) with (@nil vector).
      assert (Hnil : ∀ T : matrix,
                mask_select [] <$> T = replicate (length T) []).
      { intros T. induction T as [|t T IHT]; [done|].
        rewrite fmap_cons, IHT. done. }
      rewrite Hnil, length_transpose_w by by constructor. done.
    + rewrite mask_select_cons.
      change (transpose_w p (row :: B))
        with (zip_with cons row (transpose_w p B)).
      destruct b.
      * change (transpose_w p (row :: mask_select mask B))
          with (zip_with cons row (transpose_w p (mask_select mask B))).
        rewrite IH, zip_with_fmap_r'. symmetry.
        apply fmap_zip_with_cons. intros x t. by rewrite mask_select_cons.
      * rewrite IH. symmetry.
        rewrite (fmap_zip_with_cons _ (λ _ t, mask_select mask t))
          by (intros x t; by rewrite mask_select_cons).
        apply zip_with_ignore_l. by rewrite length_transpose_w.
Qed.

(** Selecting columns of a matrix selects rows of its transpose. *)
Lemma transpose_w_mask_select_cols mask n (M : matrix) :
  length mask = n → Forall (λ row, length row = n) M →
  transpose_w (length (mask_select mask mask)) (mask_select mask <$> M)
  = mask_select mask (transpose_w n M).
Proof.
  intros Hmask HM. induction HM as [|row M Hrow HM IH].
  - unfold transpose_w. simpl. by rewrite mask_select_replicate.
  - rewrite fmap_cons.
    change (transpose_w n (row :: M)) with (zip_with cons row (transpose_w n M)).
    change (transpose_w ?w (?r :: ?N)) with (zip_with cons r (transpose_w w N)).
    rewrite IH. symmetry. apply mask_select_zip_with.
    by rewrite length_transpose_w.
Qed.

Lemma mask_select_eq_lookup {T} mask (xs ys : list T) i :
  length xs = length ys →
  mask_select mask xs = mask_select mask ys →
  mask !! i = Some true → xs !! i = ys !! i.
Proof.
  revert xs ys i.
  induction mask as [|b mask IH]; intros [|x xs] [|y ys] i Hl Heq Hi; try done.
  simpl in Hl. rewrite !mask_select_cons in Heq.
  destruct i as [|i]; simpl in *.
  - injection Hi as ->. by injection Heq as ->.
  - apply (IH xs ys i); [lia | | done]. destruct b; [by injection Heq | done].
Qed.

(** Two arrays with one entry per label that agree on the entries of every
    label are equal. *)
Lemma eq_by_blocks {T} labels (xs ys : list T) :
  length xs = length labels → length ys = length labels →
  (∀ l, l ∈ labels →
     mask_select (subset_ind labels l) xs = mask_select (subset_ind labels l) ys) →
  xs = ys.
Proof.
  intros Hx Hy Hblocks. apply list_eq. intros i.
  destruct (labels !! i) as [l|] eqn:Hl.
  - apply (mask_select_eq_lookup (subset_ind labels l)); [congruence | |].
    + apply Hblocks. by eapply list_elem_of_lookup_2.
    + by apply subset_ind_lookup.
  - apply lookup_ge_None in Hl.
    rewrite !(proj2 (lookup_ge_None _ _)); (done || lia).
Qed.

Lemma length_subset_ind labels l : length (subset_ind labels l) = length labels.
Proof. unfold subset_ind. by rewrite length_fmap. Qed.

(** The loops: once the labels [ls] have been visited, the entries of
    every visited label hold the array computed for it, and the other
    entries are as before. *)
Lemma mask_assign_fold {T} labels (V : string → list T) ls (acc : list T) :
  NoDup ls → length acc = length labels →
  (∀ l, l ∈ ls → length (V l) = length (positions (subset_ind labels l))) →
  length (fold_left (λ acc l, mask_assign (subset_ind labels l) acc (V l))
            ls acc) = length labels
  ∧ ∀ l, mask_select (subset_ind labels l)
           (fold_left (λ acc l, mask_assign (subset_ind labels l) acc (V l))
              ls acc)
         = if decide (l ∈ ls) then V l
           else mask_select (subset_ind labels l) acc.
Proof.
  intros Hnd. revert acc. induction Hnd as [|c ls Hc Hnd IH]; intros acc Hacc HV.
  - split; [done|]. intros l. rewrite decide_False; [done|]. apply not_elem_of_nil.
  - cbn [fold_left].
    set (acc' := mask_assign (subset_ind labels c) acc (V c)).
    assert (Hacc' : length acc' = length labels).
    { unfold acc', mask_assign. by rewrite length_mask_update. }
    destruct (IH acc' Hacc') as [Hlen Hsel].
    { intros l Hl. apply HV. by right. }
    split; [done|]. intros l. rewrite Hsel.
    destruct (decide (l ∈ ls)) as [Hl|Hl].
    + rewrite decide_True; [done|]. by right.
    + destruct (decide (l = c)) as [->|Hne].
      * rewrite decide_True by by left. unfold acc'.
        apply mask_select_assign_same.
        -- by rewrite length_subset_ind.
        -- apply HV. by left.
      * rewrite decide_False.
        2:{ intros [->|?]%elem_of_cons; done. }
        unfold acc', mask_assign. apply mask_select_update_disjoint.
        by apply subset_ind_disjoint_masks.
Qed.

Lemma Forall2_mask_select_label {T} (P : string → T → Prop)
    labels (xs : list T) l :
  Forall2 P labels xs → Forall (P l) (mask_select (subset_ind labels l) xs).
Proof.
  induction 1 as [|x a labels xs Hxa _ IH]; [constructor|].
  unfold subset_ind in *. rewrite fmap_cons, mask_select_cons.
  destruct (bool_decide_reflect (x = l)) as [->|_]; [by constructor | done].
Qed.

Lemma mask_select_nonempty {T} labels l (xs : list T) :
  length xs = length labels → l ∈ labels →
  mask_select (subset_ind labels l) xs ≠ [].
Proof.
  intros Hlen [i Hi]%list_elem_of_lookup Hnil.
  apply subset_ind_lookup in Hi.
  destruct (lookup_lt_is_Some_2 xs i) as [x Hx].
  { rewrite Hlen. by apply lookup_lt_Some in Hi;
      rewrite length_subset_ind in Hi. }
  pose proof (mask_select_gather (subset_ind labels l) xs x) as Hg.
  rewrite Hnil in Hg. symmetry in Hg.
  rewrite length_subset_ind in Hg. specialize (Hg Hlen).
  apply fmap_nil_inv in Hg.
  apply elem_of_positions in Hi. rewrite Hg in Hi. by apply elem_of_nil in Hi.
Qed.

(** A loop that assigns columns row by row is, on each row, a loop of
    masked assignments. *)
Lemma fold_zip_rows {T} (g : string → list bool) (W : string → list (list T))
    ls (acc0 : list (list T)) :
  (∀ l, l ∈ ls → length (W l) = length acc0) →
  length (fold_left (λ acc l, zip_with (mask_assign (g l)) acc (W l)) ls acc0)
    = length acc0
  ∧ ∀ k r0, acc0 !! k = Some r0 →
      fold_left (λ acc l, zip_with (mask_assign (g l)) acc (W l)) ls acc0 !! k
      = Some (fold_left (λ r l, mask_assign (g l) r (nth k (W l) [])) ls r0).
Proof.
  revert acc0. induction ls as [|c ls IH]; intros acc0 HW; [done|].
  cbn [fold_left].
  assert (Hc : length (W c) = length acc0) by (apply HW; by left).
  destruct (IH (zip_with (mask_assign (g c)) acc0 (W c))) as [Hlen Hrow].
  { intros l Hl. rewrite length_zip_with, Hc, Nat.min_id.
    rewrite <- Hc. rewrite Hc. apply HW. by right. }
  split.
  - rewrite Hlen, length_zip_with. lia.
  - intros k r0 Hk.
    destruct (lookup_lt_is_Some_2 (W c) k) as [w Hw].
    { rewrite Hc. by eapply lookup_lt_Some. }
    rewrite (Hrow k (mask_assign (g c) r0 w)).
    + by rewrite (nth_lookup_Some _ _ _ _ Hw).
    + by rewrite lookup_zip_with, Hk, Hw.
Qed.

Section BlockDiagonal.
Variables (A : matrix) (labels : list string) (n : nat).
Hypothesis labels_length : length labels = n.
Hypothesis A_square : square n A.
Hypothesis A_block_diagonal : ∀ i j li lj,
  labels !! i = Some li → labels !! j = Some lj → li ≠ lj →
  entry A i j = Some 0%R.

Local Abbreviation m := (subset_ind labels).

Lemma subset_ind_false l j :
  m l !! j = Some false ↔ ∃ lj, labels !! j = Some lj ∧ lj ≠ l.
Proof.
  unfold subset_ind. rewrite list_lookup_fmap.
  destruct (labels !! j) as [lj|]; simpl.
  - split.
    + intros [= Hb%bool_decide_eq_false]. by exists lj.
    + intros (lj' & [= <-] & Hne). f_equal. by apply bool_decide_eq_false.
  - split; [done|]. by intros (? & ? & _).
Qed.

(** A row of a block-diagonal matrix vanishes outside the block of its
    label, and so does a column. *)
Lemma rows_zero_off_block :
  Forall2 (λ l a, length a = n
                  ∧ ∀ j, m l !! j = Some false → a !! j = Some 0%R) labels A.
Proof.
  destruct A_square as [Hl HA].
  apply Forall2_same_length_lookup_2; [congruence|].
  intros i l a Hi Ha. split.
  - apply (proj1 (Forall_forall _ _) HA). by eapply list_elem_of_lookup_2.
  - intros j (lj & Hj & Hne)%subset_ind_false.
    pose proof (A_block_diagonal i j l lj Hi Hj (not_eq_sym Hne)) as He.
    unfold entry in He. by rewrite Ha in He.
Qed.

Lemma transpose_square :
  transpose A = tab n n (λ j i, mget A i j).
Proof. rewrite (square_tab n A A_square) at 1. apply transpose_tab. Qed.

Lemma cols_zero_off_block :
  Forall2 (λ l c, length c = n
                  ∧ ∀ i, m l !! i = Some false → c !! i = Some 0%R)
    labels (transpose A).
Proof.
  rewrite transpose_square.
  apply Forall2_same_length_lookup_2.
  { unfold tab. by rewrite length_fmap, length_seq. }
  intros j l c Hj Hc.
  assert (Hjn : j < n) by (rewrite <- labels_length; by eapply lookup_lt_Some).
  rewrite tab_lookup in Hc by done. injection Hc as <-.
  split; [by rewrite length_fmap, length_seq|].
  intros i (li & Hi & Hne)%subset_ind_false.
  assert (Hin : i < n) by (rewrite <- labels_length; by eapply lookup_lt_Some).
  rewrite list_lookup_fmap, lookup_seq_lt by done. simpl. f_equal.
  pose proof (A_block_diagonal i j li l Hi Hj Hne) as He.
  unfold entry in He. unfold mget.
  destruct (A !! i) as [row|] eqn:Hrow; [|done]. simpl in He.
  rewrite (nth_lookup_Some _ _ _ _ Hrow). by apply nth_lookup_Some.
Qed.

Lemma block_rows_length {T} l (xs : list T) :
  length xs = n →
  length (mask_select (m l) xs) = length (positions (m l)).
Proof.
  intros Hx. apply positions_length. rewrite length_subset_ind. congruence.
Qed.

(** [block_AB] on a vector. *)
Lemma block_AB_vector (v : vector) :
  length v = n → block_AB A labels v = matvec A v.
Proof.
  intros Hv. destruct A_square as [HlA HA].
  unfold block_AB.
  change (fold_left (block_AB_body A labels v))
    with (fold_left (λ acc l, mask_assign (m l) acc
            (matvec (ix_select (m l) (m l) A) (mask_select (m l) v)))).
  destruct (mask_assign_fold labels
              (λ l, matvec (ix_select (m l) (m l) A) (mask_select (m l) v))
              (py_set labels) (zeros_like_rows v)) as [Hlen Hsel].
  { apply NoDup_remove_dups. }
  { simpl. rewrite length_fmap. congruence. }
  { intros l _. unfold matvec, ix_select. rewrite !length_fmap.
    by apply block_rows_length. }
  apply (eq_by_blocks labels); [done | |].
  { unfold matvec. rewrite length_fmap. congruence. }
  intros l Hl. rewrite Hsel.
  rewrite decide_True by by apply elem_of_py_set.
  unfold matvec, ix_select.
  rewrite mask_select_fmap_comm, <- list_fmap_compose.
  apply Forall_fmap_ext_1.
  eapply Forall_impl;
    [apply (Forall2_mask_select_label _ labels A l rows_zero_off_block)|].
  intros a [Ha Hz]. simpl. symmetry. apply dot_mask_select.
  - rewrite length_subset_ind. congruence.
  - rewrite length_subset_ind. congruence.
  - intros j Hj. left. by apply Hz.
Qed.

Lemma ncols_rect {T} p (M : list (list T)) :
  M ≠ [] → Forall (λ row, length row = p) M → ncols M = p.
Proof. destruct M as [|row M]; [done|]. by intros _ [? _]%Forall_cons. Qed.

(** [block_AB] on a matrix with [p] columns. *)
Lemma block_AB_matrix (B : matrix) (p : nat) :
  length B = n → Forall (λ row, length row = p) B →
  block_AB A labels B = matmul A B.
Proof.
  intros HlB HB. destruct A_square as [HlA HA].
  unfold block_AB.
  change (fold_left (block_AB_body A labels B))
    with (fold_left (λ acc l, mask_assign (m l) acc
            (matmul (ix_select (m l) (m l) A) (mask_select (m l) B)))).
  destruct (mask_assign_fold labels
              (λ l, matmul (ix_select (m l) (m l) A) (mask_select (m l) B))
              (py_set labels) (zeros_like_rows B)) as [Hlen Hsel].
  { apply NoDup_remove_dups. }
  { simpl. unfold zeros_like. rewrite length_fmap. congruence. }
  { intros l _. unfold matmul, ix_select. rewrite !length_fmap.
    by apply block_rows_length. }
  apply (eq_by_blocks labels); [done | |].
  { unfold matmul. rewrite length_fmap. congruence. }
  intros l Hl. rewrite Hsel.
  rewrite decide_True by by apply elem_of_py_set.
  assert (HBl : mask_select (m l) B ≠ [])
    by (apply mask_select_nonempty; [congruence | done]).
  assert (HBne : B ≠ []) by (intros ->; by rewrite mask_select_nil_r in HBl).
  unfold matmul, ix_select, transpose.
  rewrite (ncols_rect p (mask_select (m l) B))
    by (done || by apply Forall_mask_select).
  rewrite (ncols_rect p B) by done.
  rewrite transpose_w_mask_select_rows by done.
  rewrite mask_select_fmap_comm, <- !list_fmap_compose.
  apply Forall_fmap_ext_1.
  eapply Forall_impl;
    [apply (Forall2_mask_select_label _ labels A l rows_zero_off_block)|].
  intros a [Ha Hz]. simpl. rewrite <- list_fmap_compose.
  apply Forall_fmap_ext_1.
  eapply Forall_impl; [apply (Forall_length_transpose_w p B)|].
  intros c Hc. simpl. symmetry. apply dot_mask_select.
  - rewrite length_subset_ind. congruence.
  - rewrite length_subset_ind. congruence.
  - intros j Hj. left. by apply Hz.
Qed.

Lemma dot_comm (u v : vector) : dot u v = dot v u.
Proof.
  revert v. induction u as [|x u IH]; intros [|y v]; try done.
  rewrite !dot_cons, IH. lra.
Qed.

Lemma length_transpose_square : length (transpose A) = n.
Proof.
  rewrite transpose_square. unfold tab. by rewrite length_fmap, length_seq.
Qed.

Lemma transpose_block l :
  l ∈ labels →
  transpose (ix_select (m l) (m l) A) = ix_select (m l) (m l) (transpose A).
Proof.
  intros Hl. destruct A_square as [HlA HA].
  assert (Hne : mask_select (m l) A ≠ [])
    by (apply mask_select_nonempty; [congruence | done]).
  assert (HAne : A ≠ []) by (intros ->; by rewrite mask_select_nil_r in Hne).
  assert (Hrows : Forall (λ row : vector, length row = n) (mask_select (m l) A))
    by by apply Forall_mask_select.
  unfold ix_select, transpose at 1.
  assert (ncols (mask_select (m l) <$> mask_select (m l) A)
          = length (mask_select (m l) (m l))) as ->.
  { destruct (mask_select (m l) A) as [|a M'] eqn:HM'; [done|].
    apply Forall_cons in Hrows as [Ha _]. rewrite fmap_cons. simpl.
    apply mask_select_length. rewrite length_subset_ind. congruence. }
  rewrite (transpose_w_mask_select_cols _ n)
    by (done || rewrite length_subset_ind; congruence).
  rewrite transpose_w_mask_select_rows by done.
  rewrite mask_select_fmap_comm. unfold transpose.
  by rewrite (ncols_rect n A).
Qed.

(** [block_BA]: the array [B] has one column per label. *)
Lemma block_BA_matrix (B : matrix) :
  Forall (λ row, length row = n) B → block_BA A labels B = matmul B A.
Proof.
  intros HB. unfold block_BA.
  set (W := λ l, matmul (mask_select (m l) <$> B) (ix_select (m l) (m l) A)).
  change (fold_left (block_BA_body A labels B))
    with (fold_left (λ acc l, zip_with (mask_assign (m l)) acc (W l))).
  destruct (fold_zip_rows m W (py_set labels) (zeros_like B)) as [Hlen Hrow].
  { intros l _. unfold W, matmul, zeros_like. by rewrite !length_fmap. }
  unfold zeros_like in Hlen at 2. rewrite length_fmap in Hlen.
  apply list_eq. intros k.
  destruct (B !! k) as [b|] eqn:Hb.
  2:{ apply lookup_ge_None in Hb.
      rewrite !(proj2 (lookup_ge_None _ _)); try done; [|lia].
      unfold matmul. by rewrite length_fmap. }
  assert (Hbn : length b = n).
  { apply (proj1 (Forall_forall _ _) HB). by eapply list_elem_of_lookup_2. }
  rewrite (Hrow k ((λ _, 0%R) <$> b))
    by (unfold zeros_like; by rewrite list_lookup_fmap, Hb).
  unfold matmul at 1. rewrite list_lookup_fmap, Hb. simpl. f_equal.
  set (V := λ l, (λ c, dot (mask_select (m l) b) c)
                   <$> transpose (ix_select (m l) (m l) A)).
  assert (HWV : ∀ l, nth k (W l) [] = V l).
  { intros l. apply nth_lookup_Some. unfold W, matmul.
    by rewrite !list_lookup_fmap, Hb. }
  rewrite (fold_left_ext_in _ (λ r l, mask_assign (m l) r (V l)))
    by (intros r l _; by rewrite HWV).
  destruct (mask_assign_fold labels V (py_set labels) ((λ _, 0%R) <$> b))
    as [HlenV Hsel].
  { apply NoDup_remove_dups. }
  { rewrite length_fmap. congruence. }
  { intros l Hl. apply (proj1 (elem_of_py_set _ _)) in Hl. unfold V.
    rewrite length_fmap, transpose_block by done.
    unfold ix_select. rewrite length_fmap.
    apply block_rows_length, length_transpose_square. }
  apply (eq_by_blocks labels); [done | |].
  { rewrite length_fmap, length_transpose_square. congruence. }
  intros l Hl. rewrite Hsel.
  rewrite decide_True by by apply elem_of_py_set.
  unfold V. rewrite transpose_block by done. unfold ix_select.
  rewrite mask_select_fmap_comm, <- list_fmap_compose.
  apply Forall_fmap_ext_1.
  eapply Forall_impl;
    [apply (Forall2_mask_select_label _ labels (transpose A) l
              cols_zero_off_block)|].
  intros c [Hc Hz]. simpl. symmetry. apply dot_mask_select.
  - rewrite length_subset_ind. congruence.
  - rewrite length_subset_ind. congruence.
  - intros j Hj. right. by apply Hz.
Qed.

End BlockDiagonal.

(** X16.  On a matrix [A] that is block diagonal for the labelling
    (entries whose row and column carry different labels are zero), the
    block operations are the full matrix products: [block_AB] returns
    [A.dot(B)] for a vector or a matrix [B] with one row per label, and
    [block_BA] returns [B.dot(A)] for a matrix [B] with one column per
    label.  Working block by block loses nothing. *)
Theorem block_products_on_block_diagonal (A : matrix) labels (n : nat) :
  length labels = n → square n A →
  (∀ i j li lj, labels !! i = Some li → labels !! j = Some lj → li ≠ lj →
                entry A i j = Some 0%R) →
  (∀ v : vector, length v = n → block_AB A labels v = matvec A v)
  ∧ (∀ (B : matrix) (p : nat),
       length B = n → Forall (λ row, length row = p) B →
       block_AB A labels B = matmul A B)
  ∧ (∀ B : matrix,
       Forall (λ row, length row = n) B → block_BA A labels B = matmul B A).
Proof.
  intros Hlen Hsq Hdiag. split; [|split].
  - intros v. by apply block_AB_vector.
  - intros B p. by apply block_AB_matrix.
  - intros B. by apply block_BA_matrix.
Qed.

Section Whitener.
Context `{Libraries}.

(** What [block_Linv] returns is square and block diagonal. *)
Lemma block_Linv_block_diagonal (A : matrix) labels (n : nat) (Linv : matrix) :
  (∀ M L, cholesky M = Some L → square (length M) L) →
  (∀ L Li, inv L = Some Li → square (length L) Li) →
  length labels = n → square n A →
  block_Linv A labels = Some Linv →
  square n Linv
  ∧ (∀ i j li lj, labels !! i = Some li → labels !! j = Some lj → li ≠ lj →
                  entry Linv i j = Some 0%R).
Proof.
  intros Hchol Hinv Hlen Hsq HLinv.
  destruct (block_Linv_blocks A labels n Hchol Hinv Hlen Hsq)
    as (Linv' & HLinv' & Hblocks).
  { intros l Hl. apply (proj2 (elem_of_py_set _ _)) in Hl.
    pose proof (proj1 (block_Linv_fold_is_Some A labels (py_set labels)
                         (zeros_like A))) as Hsome.
    fold (block_Linv A labels) in Hsome. rewrite HLinv in Hsome.
    exact (Hsome (mk_is_Some _ _ eq_refl) l Hl). }
  rewrite HLinv in HLinv'. injection HLinv' as <-.
  assert (Hsq' : square n Linv) by by destruct Hblocks.
  split; [done|]. intros i j li lj Hi Hj Hne.
  destruct (position_of labels i li Hi) as (q & Hq & <-).
  destruct (position_of labels j lj Hj) as (t & Ht & <-).
  rewrite (entry_square labels n Hlen).
  - by rewrite (Linv_off_block A labels n Hlen Linv Hblocks li lj q t).
  - done.
  - rewrite <- Hlen. by eapply lookup_lt_Some.
  - rewrite <- Hlen. by eapply lookup_lt_Some.
Qed.

(** X17.  Whitening is a matrix product.  Let [cholesky] and [inv] return
    matrices of the shape of their argument and let [block_Linv] return
    [Linv] on an [n] by [n] matrix with one label per row.  Then [Linv] is
    [n] by [n] and block diagonal for the labelling, so the whitened arrays
    the callers compute with [block_AB(Linv, labels, B)] are the products
    [Linv.dot(B)], for a vector and for a matrix [B]. *)
Theorem whitening_is_multiplication (A : matrix) labels (n : nat)
    (Linv : matrix) :
  (∀ M L, cholesky M = Some L → square (length M) L) →
  (∀ L Li, inv L = Some Li → square (length L) Li) →
  length labels = n → square n A →
  block_Linv A labels = Some Linv →
  square n Linv
  ∧ (∀ i j li lj, labels !! i = Some li → labels !! j = Some lj → li ≠ lj →
                  entry Linv i j = Some 0%R)
  ∧ (∀ v : vector, length v = n → block_AB Linv labels v = matvec Linv v)
  ∧ (∀ (B : matrix) (p : nat),
       length B = n → Forall (λ row, length row = p) B →
       block_AB Linv labels B = matmul Linv B).
Proof.
  intros Hchol Hinv Hlen Hsq HLinv.
  destruct (block_Linv_block_diagonal A labels n Linv Hchol Hinv
              Hlen Hsq HLinv) as [Hsq' Hdiag].
  split; [done|]. split; [done|]. split.
  - intros v. by apply block_AB_vector.
  - intros B p. by apply block_AB_matrix.
Qed.

End Whitener.

End BlockProducts.

Lemma block_products_on_block_diagonal_witness :
  (∀ v : vector, length v = 2 →
     block_AB [[2; 0]; [0; 3]]%R ["1"; "2"] v = matvec [[2; 0]; [0; 3]]%R v)
  ∧ (∀ (B : matrix) (p : nat),
       length B = 2 → Forall (λ row, length row = p) B →
       block_AB [[2; 0]; [0; 3]]%R ["1"; "2"] B
       = matmul [[2; 0]; [0; 3]]%R B)
  ∧ (∀ B : matrix,
       Forall (λ row, length row = 2) B →
       block_BA [[2; 0]; [0; 3]]%R ["1"; "2"] B
       = matmul B [[2; 0]; [0; 3]]%R).
Proof.
  apply (block_products_on_block_diagonal [[2; 0]; [0; 3]]%R ["1"; "2"] 2).
  - reflexivity.
  - split; [reflexivity | by repeat constructor].
  - intros [|[|i]] [|[|j]] li lj; simpl; intros Hi Hj Hne; try done;
      congruence.
Defined.

(** The one-by-one routines meet the contracts. *)
Lemma cholesky_1x1_sound (M L : matrix) :
  cholesky_1x1 M = Some L → square (length M) L ∧ matmul L (transpose L) = M.
Proof.
  destruct M as [|[|a [|]] [|]]; simpl; try done.
  destruct (decide (0 < a)%R) as [Ha|]; [|done]. intros [= <-].
  split; [split; [done | by repeat constructor]|].
  unfold matmul, transpose, dot. simpl. do 2 f_equal.
  rewrite sqrt_sqrt by lra. lra.
Qed.

Lemma inv_1x1_sound (L Li : matrix) :
  inv_1x1 L = Some Li →
  square (length L) Li
  ∧ matmul Li L = eye (length L) ∧ matmul L Li = eye (length L).
Proof.
  destruct L as [|[|a [|]] [|]]; simpl; try done.
  destruct (decide (a = 0%R)) as [|Ha]; [done|]. intros [= <-].
  split; [split; [done | by repeat constructor]|].
  unfold matmul, transpose, dot, eye. simpl.
  split; do 2 f_equal; by field.
Qed.

Lemma inv_1x1_cholesky (M L : matrix) :
  cholesky_1x1 M = Some L → is_Some (inv_1x1 L).
Proof.
  destruct M as [|[|a [|]] [|]]; simpl; try done.
  destruct (decide (0 < a)%R) as [Ha|]; [|done]. intros [= <-]. simpl.
  rewrite decide_False; [by eexists|].
  pose proof (sqrt_lt_R0 a Ha). lra.
Qed.

(** The routines with two rows on the block [[4, 2], [2, 5]]. *)
Lemma cholesky_2x2_example :
  cholesky_2x2 [[4; 2]; [2; 5]]%R = Some [[2; 0]; [1; 2]]%R.
Proof.
  simpl. rewrite decide_True by lra. rewrite sqrt_4.
  rewrite decide_True by lra.
  replace (5 - 2 / 2 * (2 / 2))%R with 4%R by lra. rewrite sqrt_4.
  replace (2 / 2)%R with 1%R by lra. done.
Qed.

Lemma inv_2x2_example :
  inv_2x2 [[2; 0]; [1; 2]]%R = Some [[/ 2; 0]; [- / 4; / 2]]%R.
Proof.
  simpl. rewrite decide_False by lra.
  f_equal. f_equal; [|f_equal]; f_equal; try f_equal; lra.
Qed.

Lemma block_Linv_example_2x2 :
  @block_Linv small_libraries_2x2 [[4; 2]; [2; 5]]%R ["1"; "1"]
  = Some [[/ 2; 0]; [- / 4; / 2]]%R.
Proof.
  unfold block_Linv. change (py_set ["1"; "1"]) with ["1"].
  cbn [fold_left]. unfold block_Linv_body. cbn [mbind option_bind].
  change (ix_select (subset_ind ["1"; "1"] "1") (subset_ind ["1"; "1"] "1")
            [[4; 2]; [2; 5]]%R) with [[4; 2]; [2; 5]]%R.
  change (@cholesky small_libraries_2x2) with cholesky_2x2.
  change (@inv small_libraries_2x2) with inv_2x2.
  rewrite cholesky_2x2_example. cbn [mbind option_bind].
  rewrite inv_2x2_example. cbn [mbind option_bind]. reflexivity.
Qed.

Lemma sqrt_9 : sqrt 9 = 3%R.
Proof. replace 9%R with (3 * 3)%R by lra. apply sqrt_square. lra. Qed.

Lemma block_Linv_example_3x3 :
  @block_Linv small_libraries_2x2
    [[4; 2; 0]; [2; 5; 0]; [0; 0; 9]]%R ["1"; "1"; "2"]
  = Some [[/ 2; 0; 0]; [- / 4; / 2; 0]; [0; 0; / 3]]%R.
Proof.
  unfold block_Linv. change (py_set ["1"; "1"; "2"]) with ["1"; "2"].
  cbn [fold_left]. unfold block_Linv_body at 2. cbn [mbind option_bind].
  change (ix_select (subset_ind ["1"; "1"; "2"] "1")
            (subset_ind ["1"; "1"; "2"] "1")
            [[4; 2; 0]; [2; 5; 0]; [0; 0; 9]]%R) with [[4; 2]; [2; 5]]%R.
  change (@cholesky small_libraries_2x2) with cholesky_2x2.
  change (@inv small_libraries_2x2) with inv_2x2.
  rewrite cholesky_2x2_example. cbn [mbind option_bind].
  rewrite inv_2x2_example. cbn [mbind option_bind].
  unfold block_Linv_body. cbn [mbind option_bind].
  change (ix_select (subset_ind ["1"; "1"; "2"] "2")
            (subset_ind ["1"; "1"; "2"] "2")
            [[4; 2; 0]; [2; 5; 0]; [0; 0; 9]]%R) with [[9%R]].
  change (@cholesky small_libraries_2x2) with cholesky_2x2.
  change (@inv small_libraries_2x2) with inv_2x2.
  cbn [cholesky_2x2]. rewrite decide_True by lra. cbn [mbind option_bind].
  rewrite sqrt_9. cbn [inv_2x2]. rewrite decide_False by lra.
  cbn [mbind option_bind]. reflexivity.
Qed.

Lemma whitening_is_multiplication_witness :
  ∃ Linv,
    @block_Linv small_libraries_2x2
      [[4; 2; 0]; [2; 5; 0]; [0; 0; 9]]%R ["1"; "1"; "2"] = Some Linv
    ∧ square 3 Linv
    ∧ (∀ i j li lj, ["1"; "1"; "2"] !! i = Some li →
         ["1"; "1"; "2"] !! j = Some lj → li ≠ lj →
         entry Linv i j = Some 0%R)
    ∧ (∀ v : vector, length v = 3 →
         block_AB Linv ["1"; "1"; "2"] v = matvec Linv v).
Proof.
  exists [[/ 2; 0; 0]; [- / 4; / 2; 0]; [0; 0; / 3]]%R.
  split; [exact block_Linv_example_3x3|].
  destruct (@whitening_is_multiplication small_libraries_2x2
              [[4; 2; 0]; [2; 5; 0]; [0; 0; 9]]%R ["1"; "1"; "2"] 3
              [[/ 2; 0; 0]; [- / 4; / 2; 0]; [0; 0; / 3]]%R)
    as (Hsq & Hdiag & Hv & _).
  - apply cholesky_2x2_shape.
  - intros L Li HLi. by destruct (inv_2x2_sound L Li HLi).
  - reflexivity.
  - split; [reflexivity | by repeat constructor].
  - exact block_Linv_example_3x3.
  - split; [exact Hsq|]. split; [exact Hdiag|]. exact Hv.
Defined.

(** ** Matrix algebra on rectangular matrices *)

Section MatrixAlgebra.

Implicit Types (f g h : nat → nat → R).

Lemma rect_is_tab n m (M : matrix) : rect n m M → M = tab n m (mget M).
Proof. intros [Hn Hm]. by apply rect_tab. Qed.

Lemma tab_rect n m f : rect n m (tab n m f).
Proof.
  unfold rect, tab. split; [by rewrite length_fmap, length_seq|].
  apply Forall_fmap, Forall_forall. intros i _. simpl.
  by rewrite length_fmap, length_seq.
Qed.

Lemma matmul_tab_rect n m p f g :
  0 < m →
  matmul (tab n m f) (tab m p g)
  = tab n p (λ i j, big_sum m (λ k, f i k * g k j)%R).
Proof.
  intros Hm. unfold matmul. rewrite transpose_tab_rect by done. unfold tab.
  rewrite <- list_fmap_compose. apply list_fmap_ext. intros _ i _. simpl.
  rewrite <- list_fmap_compose.
  apply list_fmap_ext. intros _ j _. simpl. apply dot_tab.
Qed.

Lemma msub_tab n m f g :
  msub (tab n m f) (tab n m g) = tab n m (λ i j, f i j - g i j)%R.
Proof.
  unfold msub, tab. rewrite zip_with_fmap_same.
  apply list_fmap_ext. intros _ i _. simpl. by rewrite zip_with_fmap_same.
Qed.

Lemma madd_tab n m f g :
  madd (tab n m f) (tab n m g) = tab n m (λ i j, f i j + g i j)%R.
Proof.
  unfold madd, tab. rewrite zip_with_fmap_same.
  apply list_fmap_ext. intros _ i _. simpl. by rewrite zip_with_fmap_same.
Qed.

Lemma zeros_tab n m : zeros n m = tab n m (λ _ _, 0%R).
Proof.
  unfold zeros, tab. rewrite (replicate_fmap_seq _ n 0).
  apply list_fmap_ext. intros _ i _. apply replicate_fmap_seq.
Qed.

Lemma matmul_rect n m p (A B : matrix) :
  0 < m → rect n m A → rect m p B → rect n p (matmul A B).
Proof.
  intros Hm HA HB.
  rewrite (rect_is_tab _ _ _ HA), (rect_is_tab _ _ _ HB), matmul_tab_rect
    by done.
  apply tab_rect.
Qed.

Lemma transpose_rect n m (A : matrix) :
  0 < n → rect n m A → rect m n (transpose A).
Proof.
  intros Hn HA. rewrite (rect_is_tab _ _ _ HA), transpose_tab_rect by done.
  apply tab_rect.
Qed.

Lemma matmul_assoc n m p q (A B C : matrix) :
  0 < m → 0 < p → rect n m A → rect m p B → rect p q C →
  matmul (matmul A B) C = matmul A (matmul B C).
Proof.
  intros Hm Hp HA HB HC.
  rewrite (rect_is_tab _ _ _ HA), (rect_is_tab _ _ _ HB),
    (rect_is_tab _ _ _ HC).
  rewrite !matmul_tab_rect by done.
  apply tab_ext. intros i j Hi Hj.
  transitivity (big_sum p (λ k, big_sum m (λ s,
                  mget A i s * mget B s k * mget C k j)))%R.
  { apply big_sum_ext. intros k Hk. rewrite big_sum_mul_r. done. }
  rewrite big_sum_exchange. apply big_sum_ext. intros s Hs.
  rewrite big_sum_mul_l. apply big_sum_ext. intros k Hk. lra.
Qed.

Lemma big_sum_minus n (u v : nat → R) :
  big_sum n (λ k, u k - v k)%R = (big_sum n u - big_sum n v)%R.
Proof.
  induction n as [|n IH]; [unfold big_sum; simpl; lra|].
  rewrite !big_sum_S_r, IH. lra.
Qed.

Lemma matmul_msub_r n m p (A B C : matrix) :
  0 < m → rect n m A → rect m p B → rect m p C →
  matmul A (msub B C) = msub (matmul A B) (matmul A C).
Proof.
  intros Hm HA HB HC.
  rewrite (rect_is_tab _ _ _ HA), (rect_is_tab _ _ _ HB),
    (rect_is_tab _ _ _ HC).
  rewrite msub_tab, !matmul_tab_rect, msub_tab by done.
  apply tab_ext. intros i j Hi Hj. rewrite <- big_sum_minus.
  apply big_sum_ext. intros k Hk. lra.
Qed.

Lemma matmul_madd_r n m p (A B C : matrix) :
  0 < m → rect n m A → rect m p B → rect m p C →
  matmul A (madd B C) = madd (matmul A B) (matmul A C).
Proof.
  intros Hm HA HB HC.
  rewrite (rect_is_tab _ _ _ HA), (rect_is_tab _ _ _ HB),
    (rect_is_tab _ _ _ HC).
  rewrite madd_tab, !matmul_tab_rect, madd_tab by done.
  apply tab_ext. intros i j Hi Hj. rewrite <- big_sum_plus.
  apply big_sum_ext. intros k Hk. lra.
Qed.

Lemma matmul_eye_l k p (B : matrix) :
  0 < k → rect k p B → matmul (eye k) B = B.
Proof.
  intros Hk HB. rewrite (rect_is_tab _ _ _ HB) at 2.
  rewrite (rect_is_tab _ _ _ HB) at 1.
  rewrite eye_tab, matmul_tab_rect by done.
  apply tab_ext. intros i j Hi Hj.
  rewrite (big_sum_ext k _ (λ s, if decide (i = s) then mget B s j else 0%R)).
  - by apply (big_sum_delta k i (λ s, mget B s j)).
  - intros s Hs. destruct (decide (i = s)); lra.
Qed.

Lemma matmul_zeros_r n m p (A : matrix) :
  0 < m → rect n m A → matmul A (zeros m p) = zeros n p.
Proof.
  intros Hm HA. rewrite (rect_is_tab _ _ _ HA), !zeros_tab, matmul_tab_rect
    by done.
  apply tab_ext. intros i j Hi Hj.
  rewrite (big_sum_ext m _ (λ _, 0%R)) by (intros; lra). apply big_sum_0.
Qed.

Lemma msub_self n m (M : matrix) : rect n m M → msub M M = zeros n m.
Proof.
  intros HM. rewrite (rect_is_tab _ _ _ HM), msub_tab, zeros_tab.
  apply tab_ext. intros. lra.
Qed.

Lemma msub_zeros n m (M : matrix) : rect n m M → msub M (zeros n m) = M.
Proof.
  intros HM. rewrite (rect_is_tab _ _ _ HM) at 2.
  rewrite (rect_is_tab _ _ _ HM) at 1. rewrite zeros_tab, msub_tab.
  apply tab_ext. intros. lra.
Qed.

Lemma msub_madd_cancel n m (M X Y : matrix) :
  rect n m M → rect n m X → rect n m Y →
  msub (madd M X) (madd Y X) = msub M Y.
Proof.
  intros HM HX HY.
  rewrite (rect_is_tab _ _ _ HM), (rect_is_tab _ _ _ HX),
    (rect_is_tab _ _ _ HY).
  rewrite !madd_tab, !msub_tab. apply tab_ext. intros. lra.
Qed.

Lemma msub_rect n m (A B : matrix) :
  rect n m A → rect n m B → rect n m (msub A B).
Proof.
  intros HA HB. rewrite (rect_is_tab _ _ _ HA), (rect_is_tab _ _ _ HB), msub_tab.
  apply tab_rect.
Qed.

Lemma madd_rect n m (A B : matrix) :
  rect n m A → rect n m B → rect n m (madd A B).
Proof.
  intros HA HB. rewrite (rect_is_tab _ _ _ HA), (rect_is_tab _ _ _ HB), madd_tab.
  apply tab_rect.
Qed.

Lemma square_rect n (M : matrix) : square n M ↔ rect n n M.
Proof. done. Qed.

End MatrixAlgebra.

(** ** Projecting out the columns of [V] *)

Section ProjectOutV.
Context `{Libraries}.
Variables (n k : nat) (V : matrix).
Hypothesis inv_two_sided : ∀ L Li,
  inv L = Some Li →
  square (length L) Li
  ∧ matmul Li L = eye (length L) ∧ matmul L Li = eye (length L).
Hypothesis n_pos : 0 < n.
Hypothesis k_pos : 0 < k.
Hypothesis V_rect : rect n k V.

Local Abbreviation Vt := (transpose V).
Local Abbreviation gram := (matmul (transpose V) V).

Lemma Vt_rect : rect k n Vt.
Proof. by apply transpose_rect. Qed.

Lemma gram_rect : rect k k gram.
Proof. apply (matmul_rect k n k); [done | apply Vt_rect | done]. Qed.

Lemma gram_inv_spec Gi :
  inv gram = Some Gi →
  rect k k Gi ∧ matmul Gi gram = eye k ∧ matmul gram Gi = eye k.
Proof.
  intros HGi. destruct (inv_two_sided _ _ HGi) as (Hsq & Hl & Hr).
  destruct gram_rect as [Hlen _]. rewrite Hlen in Hsq, Hl, Hr. done.
Qed.

Lemma project_out_V_unfold (M : matrix) Gi :
  inv gram = Some Gi →
  project_out_V M V = Some (msub M (matmul V (matmul Gi (matmul Vt M)))).
Proof. intros HGi. unfold project_out_V. by rewrite HGi. Qed.

(** The moment of the residual vanishes. *)
Lemma residual_moment (M : matrix) p Gi :
  rect n p M → inv gram = Some Gi →
  matmul Vt (msub M (matmul V (matmul Gi (matmul Vt M)))) = zeros k p.
Proof.
  intros HM HGi. destruct (gram_inv_spec Gi HGi) as (HGir & _ & Hright).
  pose proof Vt_rect as HVt.
  assert (Hmu : rect k p (matmul Vt M)) by by apply (matmul_rect k n p).
  assert (Hbeta : rect k p (matmul Gi (matmul Vt M)))
    by by apply (matmul_rect k k p).
  assert (HVb : rect n p (matmul V (matmul Gi (matmul Vt M))))
    by by apply (matmul_rect n k p).
  rewrite (matmul_msub_r k n p) by done.
  rewrite <- (matmul_assoc k n k p Vt V) by done.
  rewrite <- (matmul_assoc k k k p gram Gi) by (done || apply gram_rect).
  rewrite Hright, (matmul_eye_l k p) by done.
  by apply msub_self.
Qed.

Lemma project_out_V_fixed (M : matrix) p Gi :
  rect n p M → inv gram = Some Gi → matmul Vt M = zeros k p →
  project_out_V M V = Some M.
Proof.
  intros HM HGi Hzero. destruct (gram_inv_spec Gi HGi) as (HGir & _ & _).
  rewrite (project_out_V_unfold M Gi HGi), Hzero.
  rewrite (matmul_zeros_r k k p), (matmul_zeros_r n k p) by done.
  by rewrite (msub_zeros n p).
Qed.

(** X18.  [project_out_V] on a matrix [V] with [n > 0] rows and [k > 0]
    columns and a matrix [M] with [n] rows, over exact arithmetic and with
    [np.linalg.inv] returning a two-sided inverse.  When the function
    returns, the residual has the shape of [M], it is orthogonal to every
    column of [V] ([V.T.dot(M_res)] is zero), and projecting again changes
    nothing.  A matrix that is already orthogonal to [V] is returned as it
    is. *)
Theorem project_out_V_orthogonal (M M_res : matrix) (p : nat) :
  rect n p M → project_out_V M V = Some M_res →
  rect n p M_res
  ∧ matmul (transpose V) M_res = zeros k p
  ∧ project_out_V M_res V = Some M_res
  ∧ (matmul (transpose V) M = zeros k p → M_res = M).
Proof.
  intros HM Hproj.
  destruct (inv gram) as [Gi|] eqn:HGi;
    [|unfold project_out_V in Hproj; by rewrite HGi in Hproj].
  destruct (gram_inv_spec Gi HGi) as (HGir & _ & _).
  pose proof Vt_rect as HVt.
  rewrite (project_out_V_unfold M Gi HGi) in Hproj. injection Hproj as <-.
  assert (Hres : rect n p (msub M (matmul V (matmul Gi (matmul Vt M))))).
  { apply msub_rect; [done|]. apply (matmul_rect n k p); [done | done|].
    apply (matmul_rect k k p); [done | done|].
    by apply (matmul_rect k n p). }
  split; [done|]. split; [by apply residual_moment|]. split.
  - apply (project_out_V_fixed _ p Gi); [done | done|].
    by apply residual_moment.
  - intros Hzero.
    pose proof (project_out_V_fixed M p Gi HM HGi Hzero) as Hfix.
    rewrite (project_out_V_unfold M Gi HGi) in Hfix. by injection Hfix.
Qed.

Lemma project_out_V_shift (M C : matrix) (p : nat) :
  rect n p M → rect k p C →
  project_out_V (madd M (matmul V C)) V = project_out_V M V.
Proof.
  intros HM HC.
  destruct (inv gram) as [Gi|] eqn:HGi;
    [|unfold project_out_V; by rewrite HGi].
  destruct (gram_inv_spec Gi HGi) as (HGir & Hleft & _).
  pose proof Vt_rect as HVt. pose proof gram_rect as HG.
  rewrite !(project_out_V_unfold _ Gi HGi). f_equal.
  assert (HVC : rect n p (matmul V C)) by by apply (matmul_rect n k p).
  assert (Hmu : rect k p (matmul Vt M)) by by apply (matmul_rect k n p).
  assert (HGC : rect k p (matmul gram C)) by by apply (matmul_rect k k p).
  assert (Hbeta : rect k p (matmul Gi (matmul Vt M)))
    by by apply (matmul_rect k k p).
  rewrite (matmul_madd_r k n p) by done.
  rewrite <- (matmul_assoc k n k p Vt V C) by done.
  rewrite (matmul_madd_r k k p) by done.
  rewrite <- (matmul_assoc k k k p Gi gram C) by done.
  rewrite Hleft, (matmul_eye_l k p) by done.
  rewrite (matmul_madd_r n k p) by done.
  apply (msub_madd_cancel n p); [done | done|].
  by apply (matmul_rect n k p).
Qed.

Lemma madd_zeros_l n' m' (X : matrix) :
  rect n' m' X → madd (zeros n' m') X = X.
Proof.
  intros HX. rewrite (rect_is_tab _ _ _ HX) at 2.
  rewrite (rect_is_tab _ _ _ HX) at 1. rewrite zeros_tab, madd_tab.
  apply tab_ext. intros. lra.
Qed.

(** X19.  The residual does not see the component along [V]: adding to [M]
    any combination [V.dot(C)] of the columns of [V] leaves the result of
    [project_out_V] unchanged (and it raises on the one input exactly when
    it raises on the other); and the residual of a combination of the
    columns of [V] is the zero matrix. *)
Theorem project_out_V_shift_invariant (M C : matrix) (p : nat) :
  rect n p M → rect k p C →
  project_out_V (madd M (matmul V C)) V = project_out_V M V
  ∧ (is_Some (inv (matmul (transpose V) V)) →
       project_out_V (matmul V C) V = Some (zeros n p)).
Proof.
  intros HM HC. split; [by apply (project_out_V_shift M C p)|].
  intros [Gi HGi].
  assert (Hz : rect n p (zeros n p)) by (rewrite zeros_tab; apply tab_rect).
  rewrite <- (madd_zeros_l n p (matmul V C))
    by by apply (matmul_rect n k p).
  rewrite (project_out_V_shift (zeros n p) C p) by done.
  apply (project_out_V_fixed _ p Gi); [done | done|].
  apply (matmul_zeros_r k n p); [done | apply Vt_rect].
Qed.

End ProjectOutV.

Lemma inv_1x1_two_sided (L Li : matrix) :
  @inv small_libraries L = Some Li →
  square (length L) Li
  ∧ matmul Li L = eye (length L) ∧ matmul L Li = eye (length L).
Proof. apply inv_1x1_sound. Qed.

Lemma ones_column_rect : rect 2 1 [[1]; [1]]%R.
Proof. split; [done | by repeat constructor]. Qed.

Lemma project_out_V_orthogonal_witness :
  ∃ M_res,
    @project_out_V small_libraries [[3]; [5]]%R [[1]; [1]]%R = Some M_res
    ∧ rect 2 1 M_res
    ∧ matmul (transpose [[1]; [1]]%R) M_res = zeros 1 1
    ∧ @project_out_V small_libraries M_res [[1]; [1]]%R = Some M_res.
Proof.
  destruct (@project_out_V small_libraries [[3]; [5]]%R [[1]; [1]]%R)
    as [M_res|] eqn:Hproj.
  - exists M_res. split; [done|].
    destruct (@project_out_V_orthogonal small_libraries 2 1 [[1]; [1]]%R
                inv_1x1_two_sided ltac:(lia) ltac:(lia) ones_column_rect
                [[3]; [5]]%R M_res 1) as (Hrect & Horth & Hidem & _).
    + split; [done | by repeat constructor].
    + exact Hproj.
    + done.
  - exfalso. revert Hproj. unfold project_out_V. simpl.
    unfold dot. simpl. rewrite decide_False by lra. done.
Defined.

Lemma project_out_V_shift_invariant_witness :
  @project_out_V small_libraries
    (madd [[3]; [5]]%R (matmul [[1]; [1]]%R [[7]]%R)) [[1]; [1]]%R
  = @project_out_V small_libraries [[3]; [5]]%R [[1]; [1]]%R
  ∧ (is_Some (@inv small_libraries
                (matmul (transpose [[1]; [1]]%R) [[1]; [1]]%R)) →
       @project_out_V small_libraries (matmul [[1]; [1]]%R [[7]]%R)
         [[1]; [1]]%R = Some (zeros 2 1)).
Proof.
  apply (@project_out_V_shift_invariant small_libraries 2 1 [[1]; [1]]%R
           inv_1x1_two_sided ltac:(lia) ltac:(lia) ones_column_rect
           [[3]; [5]]%R [[7]]%R 1).
  - split; [done | by repeat constructor].
  - split; [done | by repeat constructor].
Defined.

(** ** Building the training set *)

Section TrainingRows.

Implicit Types (mat X : matrix) (rows genes : list string).

Lemma training_rows_Some mat rows genes X :
  length mat = length rows →
  training_rows mat rows genes = Some X
  ↔ genes ≠ []
    ∧ Forall2 (λ g x, ∃ i, last_position rows g i ∧ mat !! i = Some x) genes X.
Proof.
  intros Hlen. unfold training_rows.
  destruct (get_indices_in_target_order rows genes) as [idx|] eqn:Hidx;
    cbn [mbind option_bind].
  - apply get_indices_in_target_order_Some in Hidx.
    rewrite (fancy_index_realigned _ _ _ Hidx).
    assert (Hmat : ∃ X0, fancy_index mat idx = Some X0
              ∧ Forall2 (λ g x, ∃ i, last_position rows g i ∧ mat !! i = Some x)
                  genes X0).
    { induction Hidx as [|g i genes idx Hgi _ IH].
      - by exists [].
      - destruct IH as (X0 & HX0 & Hall).
        destruct (lookup_lt_is_Some_2 mat i) as [x Hx].
        { rewrite Hlen. destruct Hgi as [Hi _]. by eapply lookup_lt_Some. }
        exists (x :: X0). unfold fancy_index in *. cbn [mapM].
        rewrite Hx, HX0. split; [done|]. constructor; [|done]. by exists i. }
    destruct Hmat as (X0 & HX0 & Hall).
    destruct idx as [|i idx].
    + apply Forall2_nil_inv_r in Hidx as ->. simpl. split; [done|].
      by intros [? _].
    + unfold index_rows. rewrite HX0. cbn [mbind option_bind].
      rewrite bool_decide_eq_true_2 by done.
      assert (Hne : genes ≠ []) by (intros ->; inversion Hidx).
      split.
      * intros [= <-]. done.
      * intros [_ HX]. f_equal.
        clear -Hall HX. revert X HX.
        induction Hall as [|g x genes X0 (i & Hi & Hx) _ IH]; intros X HX.
        -- by apply Forall2_nil_inv_l in HX.
        -- apply Forall2_cons_inv_l in HX as (x' & X' & (i' & Hi' & Hx') & HX & ->).
           rewrite (last_position_unique _ _ _ _ Hi Hi') in Hx.
           f_equal; [congruence | by apply IH].
  - split; [done|]. intros [_ HX].
    apply get_indices_in_target_order_None in Hidx as (g & Hg & Hnot).
    apply list_elem_of_lookup in Hg as [j Hj].
    destruct (Forall2_lookup_l _ _ _ _ _ HX Hj) as (x & _ & i & [Hi _] & _).
    destruct Hnot. by eapply list_elem_of_lookup_2.
Qed.

Lemma training_rows_None mat rows genes :
  length mat = length rows →
  training_rows mat rows genes = None
  ↔ genes = [] ∨ ∃ g, g ∈ genes ∧ g ∉ rows.
Proof.
  intros Hlen. split.
  - intros Hnone.
    destruct (decide (genes = [])) as [|Hne]; [by left|]. right.
    destruct (get_indices_in_target_order rows genes) as [idx|] eqn:Hidx.
    2:{ by apply get_indices_in_target_order_None in Hidx. }
    exfalso. apply get_indices_in_target_order_Some in Hidx.
    assert (HX : ∃ X, Forall2 (λ g x, ∃ i, last_position rows g i
                                         ∧ mat !! i = Some x) genes X).
    { clear Hne Hnone. induction Hidx as [|g i genes idx Hgi _ IH].
      - by exists [].
      - destruct IH as (X0 & Hall).
        destruct (lookup_lt_is_Some_2 mat i) as [x Hx].
        { rewrite Hlen. destruct Hgi as [Hi _]. by eapply lookup_lt_Some. }
        exists (x :: X0). constructor; [by exists i | done]. }
    destruct HX as [X HX].
    assert (training_rows mat rows genes = Some X) as Hsome
      by by apply training_rows_Some.
    congruence.
  - intros Hcase.
    destruct (training_rows mat rows genes) as [X|] eqn:HX; [|done].
    apply training_rows_Some in HX as [Hne HX]; [|done].
    destruct Hcase as [->|(g & Hg & Hnot)]; [done|].
    apply list_elem_of_lookup in Hg as [j Hj].
    destruct (Forall2_lookup_l _ _ _ _ _ HX Hj) as (x & _ & i & [Hi _] & _).
    destruct Hnot. by eapply list_elem_of_lookup_2.
Qed.

Context `{Libraries}.

(** X20.  [build_training] aligns the feature rows with the targets by
    gene name (for a matrix with one row per row name and a mask as long
    as the targets).  Whatever the other arguments, it can only return
    when there is at least one training gene and every training gene is a
    row name.  Without error covariance and without projection it raises
    exactly when there is no training gene or some training gene is not a
    row name, and otherwise returns the targets of the training genes
    and, for each training gene in turn, the matrix row stored at the last
    position of that gene among the row names. *)
Theorem build_training_rows_aligned mat (cols : list string) rows
    (Y : vector) (Y_indices : list string)
    (gene_annot_df : gmap string gene_annot)
    (training_Y_gene_inds : list bool) :
  length mat = length rows →
  length training_Y_gene_inds = length Y_indices →
  length Y = length Y_indices →
  let training_genes := mask_select training_Y_gene_inds Y_indices in
  (∀ error_cov project_out_intercept,
     is_Some (build_training mat cols rows Y Y_indices error_cov
                gene_annot_df training_Y_gene_inds project_out_intercept) →
     training_genes ≠ [] ∧ ∀ g, g ∈ training_genes → g ∈ rows)
  ∧ (build_training mat cols rows Y Y_indices None gene_annot_df
       training_Y_gene_inds false = None
     ↔ training_genes = [] ∨ ∃ g, g ∈ training_genes ∧ g ∉ rows)
  ∧ (∀ X sub_Y,
       build_training mat cols rows Y Y_indices None gene_annot_df
         training_Y_gene_inds false = Some (X, sub_Y) →
       sub_Y = mask_select training_Y_gene_inds Y
       ∧ Forall2 (λ g x, ∃ i, last_position rows g i ∧ mat !! i = Some x)
           training_genes X).
Proof.
  intros Hlen _ _ training_genes. split; [|split].
  - intros error_cov poi [r Hr]. unfold build_training in Hr.
    fold training_genes in Hr.
    destruct (training_rows mat rows training_genes) as [X|] eqn:HX; [|done].
    apply training_rows_Some in HX as [Hne HX]; [|done].
    split; [done|]. intros g [j Hj]%list_elem_of_lookup.
    destruct (Forall2_lookup_l _ _ _ _ _ HX Hj) as (x & _ & i & [Hi _] & _).
    by eapply list_elem_of_lookup_2.
  - rewrite <- (training_rows_None mat rows training_genes Hlen).
    unfold build_training. fold training_genes.
    by destruct (training_rows mat rows training_genes).
  - intros X sub_Y. unfold build_training. fold training_genes.
    destruct (training_rows mat rows training_genes) as [X0|] eqn:HX; [|done].
    cbn. intros [= <- <-]. split; [done|].
    by apply training_rows_Some in HX as [_ HX].
Qed.

End TrainingRows.

Section TrainingProjection.
Context `{Libraries}.
Hypothesis inv_two_sided : ∀ L Li,
  inv L = Some Li →
  square (length L) Li
  ∧ matmul Li L = eye (length L) ∧ matmul L Li = eye (length L).

Lemma reshape_column_rect (v : vector) : rect (length v) 1 (reshape_column v).
Proof.
  unfold rect, reshape_column. split; [by rewrite length_fmap|].
  apply Forall_fmap, Forall_forall. by intros y _.
Qed.

Lemma ones_column_rect_n {A} (l : list A) :
  rect (length l) 1 ((λ _, [1%R]) <$> l).
Proof.
  unfold rect. split; [by rewrite length_fmap|].
  apply Forall_fmap, Forall_forall. by intros y _.
Qed.

Lemma flatten_reshape_column (v : vector) : flatten (reshape_column v) = v.
Proof.
  unfold flatten, reshape_column. induction v as [|y v IH]; [done|].
  rewrite fmap_cons. simpl. by rewrite IH.
Qed.

Lemma reshape_column_flatten n (M : matrix) :
  rect n 1 M → reshape_column (flatten M) = M ∧ length (flatten M) = n.
Proof.
  intros [Hn HM]. subst n. unfold flatten, reshape_column.
  induction HM as [|row M Hrow _ IH]; [done|].
  destruct row as [|y [|]]; try done. destruct IH as [IH1 IH2].
  simpl. rewrite IH2. split; [|done]. f_equal. exact IH1.
Qed.

Lemma training_rows_rect (mat X : matrix) (rows genes : list string) p :
  Forall (λ row, length row = p) mat →
  Forall2 (λ g x, ∃ i, last_position rows g i ∧ mat !! i = Some x) genes X →
  rect (length genes) p X.
Proof.
  intros Hmat HX. split; [symmetry; by eapply Forall2_length|].
  apply Forall_forall. intros x [j Hj]%list_elem_of_lookup.
  destruct (Forall2_lookup_r _ _ _ _ _ HX Hj) as (g & _ & i & _ & Hx).
  apply (proj1 (Forall_forall _ _) Hmat). by eapply list_elem_of_lookup_2.
Qed.

(** The last step of [build_training], for any intercept column [w]. *)
Lemma projected_training_set n p (w X X' My : matrix) (y : vector) :
  0 < n → rect n 1 w → rect n p X → length y = n →
  project_out_V (reshape_column y) w = Some My →
  project_out_V X w = Some X' →
  rect n p X' ∧ length (flatten My) = n
  ∧ matmul (transpose w) X' = zeros 1 p
  ∧ matmul (transpose w) (reshape_column (flatten My)) = zeros 1 1.
Proof.
  intros Hn Hw HX Hy HMy HX'.
  assert (Hyr : rect n 1 (reshape_column y))
    by (rewrite <- Hy; apply reshape_column_rect).
  destruct (inv (matmul (transpose w) w)) as [Gi|] eqn:HGi;
    [|unfold project_out_V in HX'; by rewrite HGi in HX'].
  assert (Hres : ∀ (M M' : matrix) q, rect n q M →
            project_out_V M w = Some M' →
            rect n q M' ∧ matmul (transpose w) M' = zeros 1 q).
  { intros M M' q HM HM'.
    rewrite (project_out_V_unfold w M Gi HGi) in HM'. injection HM' as <-.
    destruct (gram_inv_spec n 1 w inv_two_sided Hn Hw Gi HGi)
      as (HGir & _ & _).
    pose proof (Vt_rect n 1 w Hn Hw) as HVt.
    split.
    - apply msub_rect; [done|]. apply (matmul_rect n 1 q); [lia | done|].
      apply (matmul_rect 1 1 q); [lia | done|].
      by apply (matmul_rect 1 n q).
    - by apply (residual_moment n 1 w inv_two_sided Hn ltac:(lia) Hw). }
  destruct (Hres X X' p HX HX') as [HX'r HX'o].
  destruct (Hres _ My 1 Hyr HMy) as [HMyr HMyo].
  destruct (reshape_column_flatten n My HMyr) as [-> Hlen].
  done.
Qed.

Lemma mask_select_same_length {A B} mask (xs : list A) (ys : list B) :
  length xs = length mask → length ys = length mask →
  length (mask_select mask xs) = length (mask_select mask ys).
Proof.
  intros Hx Hy.
  rewrite (mask_select_length mask xs), (mask_select_length mask ys); done.
Qed.

Lemma mget_ones_column {A} (l : list A) i :
  i < length l → mget ((λ _, [1%R]) <$> l) i 0 = 1%R.
Proof.
  intros Hi. unfold mget.
  destruct (lookup_lt_is_Some_2 l i Hi) as [a Ha].
  by rewrite (nth_lookup_Some _ i [] [1%R]) by by rewrite list_lookup_fmap, Ha.
Qed.

(** Orthogonality to a column of ones: every column sums to zero. *)
Lemma ones_moment {A} (l : list A) q (M : matrix) :
  0 < length l → rect (length l) q M →
  matmul (transpose ((λ _, [1%R]) <$> l)) M = zeros 1 q →
  ∀ j, j < q → sum_list ((λ row, nth j row 0%R) <$> M) = 0%R.
Proof.
  intros Hn HM Hzero j Hj.
  pose proof (ones_column_rect_n l) as Hones.
  rewrite (rect_is_tab _ _ _ Hones), (rect_is_tab _ _ _ HM) in Hzero.
  rewrite transpose_tab_rect, matmul_tab_rect, zeros_tab in Hzero by done.
  apply (tab_inj 1 q _ _ 0 j) in Hzero; try lia. simpl in Hzero.
  rewrite (sum_list_fmap_tab _ M []). destruct HM as [-> _].
  etransitivity; [|exact Hzero]. apply big_sum_ext. intros i Hi.
  rewrite mget_ones_column by done. unfold mget. lra.
Qed.

Lemma flatten_column n (M : matrix) :
  rect n 1 M → flatten M = (λ row, nth 0 row 0%R) <$> M.
Proof.
  intros [_ HM]. unfold flatten.
  induction HM as [|row M Hrow _ IH]; [done|].
  destruct row as [|y [|]]; try done. simpl. by rewrite IH.
Qed.

Lemma reshape_column_shift (v : vector) (c : R) :
  reshape_column ((λ y, y + c)%R <$> v)
  = madd (reshape_column v) (matmul ((λ _, [1%R]) <$> v) [[c]]).
Proof.
  unfold reshape_column, madd, matmul.
  induction v as [|y v IH]; [done|].
  rewrite !fmap_cons. cbn [zip_with]. rewrite <- IH. f_equal.
  unfold transpose, transpose_w, dot. simpl. f_equal. lra.
Qed.

(** X21.  [build_training] without error covariance and with the
    intercept projected out, on a feature matrix with [p] columns and one
    row per row name, over exact arithmetic and with [np.linalg.inv]
    returning a two-sided inverse.  When it returns, the training matrix
    has one row per training gene and [p] columns, the target vector has
    one entry per training gene, every column of the training matrix sums
    to zero and so does the target vector: both are centred.  The result
    does not depend on the level of the targets: adding one constant to
    every target gives the same training set. *)
Theorem build_training_centered (mat : matrix) (cols rows : list string)
    (Y : vector) (Y_indices : list string)
    (gene_annot_df : gmap string gene_annot)
    (training_Y_gene_inds : list bool) (p : nat)
    (X : matrix) (sub_Y : vector) :
  length mat = length rows → Forall (λ row, length row = p) mat →
  length training_Y_gene_inds = length Y_indices →
  length Y = length Y_indices →
  build_training mat cols rows Y Y_indices None gene_annot_df
    training_Y_gene_inds true = Some (X, sub_Y) →
  let n := length (mask_select training_Y_gene_inds Y_indices) in
  rect n p X ∧ length sub_Y = n
  ∧ (∀ j, j < p → sum_list ((λ row, nth j row 0%R) <$> X) = 0%R)
  ∧ sum_list sub_Y = 0%R
  ∧ ∀ c, build_training mat cols rows ((λ y, y + c)%R <$> Y) Y_indices None
           gene_annot_df training_Y_gene_inds true = Some (X, sub_Y).
Proof.
  intros Hlen Hmat Hmask HY Hbuild n.
  unfold build_training in Hbuild.
  set (genes := mask_select training_Y_gene_inds Y_indices) in *.
  set (y0 := mask_select training_Y_gene_inds Y) in *.
  destruct (training_rows mat rows genes) as [X0|] eqn:HX0; [|done].
  cbn [mbind option_bind whiten_training_set] in Hbuild.
  destruct (project_out_V (reshape_column y0) ((λ _, [1%R]) <$> y0))
    as [My|] eqn:HMy; [|done].
  cbn [mbind option_bind] in Hbuild.
  destruct (project_out_V X0 ((λ _, [1%R]) <$> y0)) as [X'|] eqn:HX';
    [|done].
  cbn [mbind option_bind] in Hbuild. injection Hbuild as <- <-.
  pose proof HX0 as HX0'.
  apply training_rows_Some in HX0' as [Hne Hrows]; [|done].
  assert (Hy0 : length y0 = n).
  { unfold y0, n, genes. apply mask_select_same_length; congruence. }
  assert (Hn : 0 < n) by (unfold n; destruct genes; [done | simpl; lia]).
  assert (HX0r : rect n p X0) by by eapply training_rows_rect.
  pose proof (ones_column_rect_n y0) as Hones. rewrite Hy0 in Hones.
  destruct (projected_training_set n p _ X0 X' My y0 Hn Hones HX0r Hy0 HMy HX')
    as (HX'r & HlenMy & HX'o & HMyo).
  split; [done|]. split; [done|]. split; [|split].
  - apply (ones_moment y0); rewrite ?Hy0; done.
  - assert (HMyr : rect n 1 (reshape_column (flatten My))).
    { rewrite <- HlenMy. apply reshape_column_rect. }
    rewrite <- (flatten_reshape_column (flatten My)).
    rewrite (flatten_column n) by done.
    apply (ones_moment y0 1); rewrite ?Hy0; (done || lia).
  - intros c. unfold build_training. fold genes. rewrite HX0.
    cbn [mbind option_bind whiten_training_set].
    rewrite mask_select_fmap_comm. fold y0.
    rewrite <- list_fmap_compose.
    change ((λ _ : R, [1%R]) ∘ (λ y : R, (y + c)%R)) with (λ _ : R, [1%R]).
    rewrite reshape_column_shift.
    rewrite (project_out_V_shift n 1 _ inv_two_sided Hn ltac:(lia) Hones
               (reshape_column y0) [[c]] 1).
    + rewrite HMy. cbn [mbind option_bind]. by rewrite HX'.
    + rewrite <- Hy0. apply reshape_column_rect.
    + split; [done | by repeat constructor].
Qed.

(** X22.  [build_training] with an error covariance and with the intercept
    projected out, over exact arithmetic, with [cholesky] returning a matrix
    of the shape of its argument and [np.linalg.inv] a two-sided inverse.
    When it returns, the chromosome lookup and [block_Linv] have returned,
    and the training matrix and the targets are orthogonal to the whitened
    intercept [Linv.dot(ones)]: the intercept is projected out in the
    whitened coordinates. *)
Theorem build_training_whitened (mat : matrix) (cols rows : list string)
    (Y : vector) (Y_indices : list string) (error_cov : matrix)
    (gene_annot_df : gmap string gene_annot)
    (training_Y_gene_inds : list bool) (p : nat)
    (X : matrix) (sub_Y : vector) :
  (∀ M L, cholesky M = Some L → square (length M) L) →
  length mat = length rows → Forall (λ row, length row = p) mat →
  length training_Y_gene_inds = length Y_indices →
  length Y = length Y_indices →
  square (length Y_indices) error_cov →
  build_training mat cols rows Y Y_indices (Some error_cov) gene_annot_df
    training_Y_gene_inds true = Some (X, sub_Y) →
  let training_genes := mask_select training_Y_gene_inds Y_indices in
  let n := length training_genes in
  ∃ sub_error_cov_labels Linv,
    loc_CHR gene_annot_df training_genes = Some sub_error_cov_labels
    ∧ block_Linv
        (ix_select training_Y_gene_inds training_Y_gene_inds error_cov)
        sub_error_cov_labels = Some Linv
    ∧ let w := matmul Linv ((λ _, [1%R]) <$> training_genes) in
      rect n p X ∧ length sub_Y = n
      ∧ matmul (transpose w) X = zeros 1 p
      ∧ matmul (transpose w) (reshape_column sub_Y) = zeros 1 1.
Proof.
  intros Hchol Hlen Hmat Hmask HY Hcov Hbuild genes n.
  unfold build_training in Hbuild. fold genes in Hbuild.
  set (y0 := mask_select training_Y_gene_inds Y) in *.
  destruct (training_rows mat rows genes) as [X0|] eqn:HX0; [|done].
  cbn [mbind option_bind whiten_training_set] in Hbuild.
  destruct (loc_CHR gene_annot_df genes) as [labels|] eqn:Hlabels; [|done].
  cbn [mbind option_bind] in Hbuild.
  destruct (block_Linv _ labels) as [Linv|] eqn:HLinv; [|done].
  cbn [mbind option_bind] in Hbuild.
  exists labels, Linv. split; [done|]. split; [done|].
  apply training_rows_Some in HX0 as [Hne Hrows]; [|done].
  assert (Hy0 : length y0 = n).
  { unfold y0, n, genes. apply mask_select_same_length; congruence. }
  assert (Hn : 0 < n) by (unfold n; destruct genes; [done | simpl; lia]).
  assert (HX0r : rect n p X0) by by eapply training_rows_rect.
  assert (Hlab : length labels = n) by by apply loc_CHR_length in Hlabels.
  assert (Hpos : length (mask_select training_Y_gene_inds training_Y_gene_inds)
                 = n).
  { unfold n, genes. symmetry. by apply mask_select_length. }
  assert (Hsub : square n (ix_select training_Y_gene_inds
                             training_Y_gene_inds error_cov)).
  { rewrite <- Hpos. by apply (ix_select_square _ (length Y_indices)). }
  assert (Hinv1 : ∀ L Li, inv L = Some Li → square (length L) Li).
  { intros L Li HLi. by destruct (inv_two_sided L Li HLi) as (? & _). }
  destruct (block_Linv_block_diagonal _ labels n Linv Hchol Hinv1
              Hlab Hsub HLinv) as [HLsq Hdiag].
  pose proof (ones_column_rect_n genes) as Hones. fold n in Hones.
  assert (Hones' : (λ _ : R, [1%R]) <$> y0 = (λ _ : string, [1%R]) <$> genes).
  { apply list_eq. intros i. rewrite !list_lookup_fmap.
    destruct (decide (i < n)) as [Hi|Hi].
    - destruct (lookup_lt_is_Some_2 y0 i) as [? ->]; [lia|].
      destruct (lookup_lt_is_Some_2 genes i) as [? ->]; [done|]. done.
    - rewrite !(proj2 (lookup_ge_None _ _)); (done || unfold n in *; lia). }
  rewrite Hones' in Hbuild.
  rewrite (block_AB_vector Linv labels n Hlab HLsq Hdiag y0 Hy0) in Hbuild.
  rewrite (block_AB_matrix Linv labels n Hlab HLsq Hdiag X0 p) in Hbuild
    by by destruct HX0r.
  rewrite (block_AB_matrix Linv labels n Hlab HLsq Hdiag _ 1) in Hbuild
    by by destruct Hones.
  set (w := matmul Linv ((λ _ : string, [1%R]) <$> genes)) in *.
  destruct (project_out_V (reshape_column (matvec Linv y0)) w)
    as [My|] eqn:HMy; [|done].
  cbn [mbind option_bind] in Hbuild.
  destruct (project_out_V (matmul Linv X0) w) as [X'|] eqn:HX'; [|done].
  cbn [mbind option_bind] in Hbuild. injection Hbuild as <- <-.
  apply (projected_training_set n p w (matmul Linv X0) X' My (matvec Linv y0));
    try done.
  - by apply (matmul_rect n n 1).
  - by apply (matmul_rect n n p).
  - unfold matvec. rewrite length_fmap. by destruct HLsq.
Qed.

End TrainingProjection.

Lemma build_training_rows_aligned_witness :
  let training_genes := mask_select [true; false; true] ["g2"; "g9"; "g1"] in
  (∀ error_cov project_out_intercept,
     is_Some (@build_training small_libraries [[1; 2]; [3; 4]]%R ["f1"; "f2"]
                ["g1"; "g2"] [10; 20; 30]%R ["g2"; "g9"; "g1"] error_cov ∅
                [true; false; true] project_out_intercept) →
     training_genes ≠ [] ∧ ∀ g, g ∈ training_genes → g ∈ ["g1"; "g2"])
  ∧ (@build_training small_libraries [[1; 2]; [3; 4]]%R ["f1"; "f2"]
       ["g1"; "g2"] [10; 20; 30]%R ["g2"; "g9"; "g1"] None ∅
       [true; false; true] false = None
     ↔ training_genes = [] ∨ ∃ g, g ∈ training_genes ∧ g ∉ ["g1"; "g2"])
  ∧ (∀ X sub_Y,
       @build_training small_libraries [[1; 2]; [3; 4]]%R ["f1"; "f2"]
         ["g1"; "g2"] [10; 20; 30]%R ["g2"; "g9"; "g1"] None ∅
         [true; false; true] false = Some (X, sub_Y) →
       sub_Y = mask_select [true; false; true] [10; 20; 30]%R
       ∧ Forall2 (λ g x, ∃ i, last_position ["g1"; "g2"] g i
                              ∧ [[1; 2]; [3; 4]]%R !! i = Some x)
           training_genes X).
Proof.
  apply (@build_training_rows_aligned small_libraries); reflexivity.
Defined.

Lemma build_training_example_rows :
  training_rows [[1]; [3]]%R ["g1"; "g2"] ["g2"; "g1"] = Some [[3]; [1]]%R.
Proof. by vm_compute. Qed.

Lemma build_training_centered_witness :
  ∃ X sub_Y,
    @build_training small_libraries [[1]; [3]]%R ["f1"] ["g1"; "g2"]
      [10; 20]%R ["g2"; "g1"] None ∅ [true; true] true = Some (X, sub_Y)
    ∧ rect 2 1 X ∧ length sub_Y = 2
    ∧ (∀ j, j < 1 → sum_list ((λ row, nth j row 0%R) <$> X) = 0%R)
    ∧ sum_list sub_Y = 0%R.
Proof.
  destruct (@build_training small_libraries [[1]; [3]]%R ["f1"] ["g1"; "g2"]
              [10; 20]%R ["g2"; "g1"] None ∅ [true; true] true)
    as [[X sub_Y]|] eqn:Hbuild.
  - exists X, sub_Y. split; [done|].
    destruct (@build_training_centered small_libraries inv_1x1_two_sided
                [[1]; [3]]%R ["f1"] ["g1"; "g2"] [10; 20]%R ["g2"; "g1"] ∅
                [true; true] 1 X sub_Y)
      as (HX & Hlen & Hcols & Hsum & _); try done.
    by repeat constructor.
  - exfalso. revert Hbuild. unfold build_training.
    change (mask_select [true; true] ["g2"; "g1"]) with ["g2"; "g1"].
    rewrite build_training_example_rows.
    cbn [mbind option_bind whiten_training_set].
    unfold project_out_V. simpl. unfold dot. simpl.
    rewrite decide_False by lra. done.
Defined.

Lemma build_training_example_labels :
  loc_CHR ({[ "g1" := mk_annot "1" 0; "g2" := mk_annot "2" 0 ]}
             : gmap string gene_annot) ["g2"; "g1"] = Some ["2"; "1"].
Proof. by vm_compute. Qed.

Lemma inv_2x2_two_sided (L Li : matrix) :
  @inv small_libraries_2x2 L = Some Li →
  square (length L) Li
  ∧ matmul Li L = eye (length L) ∧ matmul L Li = eye (length L).
Proof.
  change (@inv small_libraries_2x2) with inv_2x2.
  destruct L as [|[|a [|b [|]]] [|[|c [|d [|]]] [|]]]; simpl; try done.
  - destruct (decide (a = 0%R)) as [|Ha]; [done|]. intros [= <-].
    split; [split; [done | by repeat constructor]|].
    unfold matmul, transpose, dot, eye. simpl.
    split; do 2 f_equal; by field.
  - destruct (decide ((a * d - b * c)%R = 0%R)) as [|Hdet]; [done|].
    intros [= <-].
    split; [split; [done | by repeat constructor]|].
    unfold matmul, transpose, dot, eye. simpl.
    split; (f_equal; [|f_equal]; f_equal; [| f_equal | | f_equal]; by field).
Qed.

Lemma build_training_example_labels_one_chromosome :
  loc_CHR ({[ "g1" := mk_annot "1" 0; "g2" := mk_annot "1" 0 ]}
             : gmap string gene_annot) ["g2"; "g1"] = Some ["1"; "1"].
Proof. by vm_compute. Qed.

Lemma build_training_whitened_witness :
  ∃ X sub_Y sub_error_cov_labels Linv,
    @build_training small_libraries_2x2 [[1]; [3]]%R ["f1"] ["g1"; "g2"]
      [10; 20]%R ["g2"; "g1"] (Some [[4; 2]; [2; 5]]%R)
      {[ "g1" := mk_annot "1" 0; "g2" := mk_annot "1" 0 ]}
      [true; true] true = Some (X, sub_Y)
    ∧ @block_Linv small_libraries_2x2
        (ix_select [true; true] [true; true] [[4; 2]; [2; 5]]%R)
        sub_error_cov_labels = Some Linv
    ∧ matmul (transpose (matmul Linv [[1]; [1]]%R)) X = zeros 1 1
    ∧ matmul (transpose (matmul Linv [[1]; [1]]%R)) (reshape_column sub_Y)
      = zeros 1 1.
Proof.
  destruct (@build_training small_libraries_2x2 [[1]; [3]]%R ["f1"]
              ["g1"; "g2"] [10; 20]%R ["g2"; "g1"] (Some [[4; 2]; [2; 5]]%R)
              {[ "g1" := mk_annot "1" 0; "g2" := mk_annot "1" 0 ]}
              [true; true] true)
    as [[X sub_Y]|] eqn:Hbuild.
  - destruct (@build_training_whitened small_libraries_2x2 inv_2x2_two_sided
                [[1]; [3]]%R ["f1"] ["g1"; "g2"] [10; 20]%R ["g2"; "g1"]
                [[4; 2]; [2; 5]]%R
                {[ "g1" := mk_annot "1" 0; "g2" := mk_annot "1" 0 ]}
                [true; true] 1 X sub_Y)
      as (labels & Linv & _ & HLinv & _ & _ & HX & Hy); try done.
    + apply cholesky_2x2_shape.
    + by repeat constructor.
    + split; [done | by repeat constructor].
    + by exists X, sub_Y, labels, Linv.
  - exfalso. revert Hbuild. unfold build_training.
    change (mask_select [true; true] ["g2"; "g1"]) with ["g2"; "g1"].
    rewrite build_training_example_rows.
    cbn [mbind option_bind whiten_training_set].
    rewrite build_training_example_labels_one_chromosome.
    cbn [mbind option_bind].
    change (ix_select [true; true] [true; true] [[4; 2]; [2; 5]]%R)
      with [[4; 2]; [2; 5]]%R.
    rewrite block_Linv_example_2x2. cbn [mbind option_bind].
    unfold project_out_V. simpl. unfold dot. simpl.
    rewrite decide_False by lra. done.
Defined.

(** ** Reading the MAGMA covariance *)

Section MungeSigmas.
Context `{NumpyFloats}.

Implicit Types (S : matrix) (st : munge_state) (row vals : vector).

(** A strictly lower triangular matrix: zero on and above the diagonal. *)
Local Abbreviation strictly_lower :=
  (λ S : matrix, ∀ i j, i ≤ j → mget S i j = 0%R).

Lemma slice_index_le n i : slice_index n i ≤ n.
Proof. unfold slice_index. destruct (Z.ltb_spec i 0); lia. Qed.

Lemma slice_index_nat n (r : nat) : slice_index n (Z.of_nat r) = r `min` n.
Proof.
  unfold slice_index. rewrite (proj2 (Z.ltb_ge _ _)) by lia. lia.
Qed.

(** A slice assignment keeps the length of the row and the entries from
    the upper bound of the slice onwards. *)
Lemma assign_slice_spec row start stop vals row' :
  assign_slice row start stop vals = Some row' →
  length row' = length row
  ∧ ∀ j, slice_index (length row) stop ≤ j → nth j row' 0%R = nth j row 0%R.
Proof.
  unfold assign_slice.
  set (a := slice_index (length row) start).
  set (b := slice_index (length row) stop).
  pose proof (slice_index_le (length row) start) as Ha. fold a in Ha.
  pose proof (slice_index_le (length row) stop) as Hb. fold b in Hb.
  assert (Hgen : ∀ X : vector, length X = b - a →
            length (take a row ++ X ++ drop (a + (b - a)) row) = length row
            ∧ ∀ j, b ≤ j →
                nth j (take a row ++ X ++ drop (a + (b - a)) row) 0%R
                = nth j row 0%R).
  { intros X HX. destruct (decide (a ≤ b)) as [Hab|Hab].
    - split.
      + rewrite !length_app, length_take, length_drop, HX. lia.
      + intros j Hj.
        rewrite app_nth2 by (rewrite length_take; lia).
        rewrite length_take, Nat.min_l by lia.
        rewrite app_nth2 by lia. rewrite HX.
        rewrite <- (take_drop (a + (b - a)) row) at 2.
        rewrite app_nth2 by (rewrite length_take; lia).
        rewrite length_take, Nat.min_l by lia. f_equal. lia.
    - assert (b - a = 0) as Hz by lia. rewrite Hz in *.
      apply nil_length_inv in HX as ->. rewrite Nat.add_0_r. simpl.
      by rewrite take_drop. }
  destruct (decide (length vals = b - a)) as [Hlen|Hlen].
  - intros [= <-]. by apply Hgen.
  - destruct vals as [|v [|]]; try done.
    intros [= <-]. apply Hgen. by rewrite length_replicate.
Qed.

Lemma mget_insert S (r : nat) row i j :
  r < length S →
  mget (<[r := row]> S) i j = if decide (i = r) then nth j row 0%R
                              else mget S i j.
Proof.
  intros Hr. unfold mget. destruct (decide (i = r)) as [->|Hne].
  - by rewrite (nth_lookup_Some _ r [] row) by by apply list_lookup_insert_eq.
  - destruct (S !! i) as [x|] eqn:Hx.
    + rewrite (nth_lookup_Some _ i [] x)
        by by rewrite list_lookup_insert_ne.
      by rewrite (nth_lookup_Some _ _ _ _ Hx).
    + apply lookup_ge_None in Hx.
      rewrite !(nth_overflow _ []); rewrite ?length_insert; done.
Qed.

Lemma assign_row_slice_lower S n (r : nat) start vals S' :
  square n S → strictly_lower S →
  assign_row_slice S r start (Z.of_nat r) vals = Some S' →
  square n S' ∧ strictly_lower S'.
Proof.
  intros [Hl HS] Hlow. unfold assign_row_slice.
  destruct (S !! r) as [row|] eqn:Hrow; [|done]. cbn [mbind option_bind].
  destruct (assign_slice row start (Z.of_nat r) vals) as [row'|] eqn:Hrow';
    [|done].
  cbn [mbind option_bind]. intros [= <-].
  apply assign_slice_spec in Hrow' as [Hlen Hkeep].
  assert (Hr : r < length S) by by eapply lookup_lt_Some.
  assert (Hrown : length row = n).
  { apply (proj1 (Forall_forall _ _) HS). by eapply list_elem_of_lookup_2. }
  split.
  - split; [by rewrite length_insert|].
    apply Forall_insert; [done | congruence].
  - intros i j Hij. rewrite mget_insert by done.
    destruct (decide (i = r)) as [->|Hne]; [|by apply Hlow].
    rewrite Hkeep.
    + specialize (Hlow r j Hij). unfold mget in Hlow.
      by rewrite (nth_lookup_Some _ _ _ _ Hrow) in Hlow.
    + rewrite slice_index_nat. lia.
Qed.

Lemma zeros_lower n : square n (zeros n n) ∧ strictly_lower (zeros n n).
Proof.
  split; [apply zeros_square|]. intros i j _.
  apply (mget_zeros [] 0 eq_refl).
Qed.

Lemma mget_tab_out n (h : nat → nat → R) i j :
  n ≤ i ∨ n ≤ j → mget (tab n n h) i j = 0%R.
Proof. apply mget_out_of_range, tab_square. Qed.

(** The saved block: symmetric with a unit diagonal. *)
Lemma symmetrize_good n S :
  square n S → strictly_lower S →
  square n (symmetrize S) ∧ symmetric (symmetrize S)
  ∧ ∀ i, i < n → mget (symmetrize S) i i = 1%R.
Proof.
  intros HS Hlow. unfold symmetrize.
  destruct HS as [Hl HS']. rewrite Hl.
  assert (HS : square n S) by done.
  rewrite (square_tab n S HS), transpose_tab, !madd_tab, eye_tab, madd_tab.
  split; [apply tab_square|]. split.
  - intros i j. destruct (decide (i < n ∧ j < n)) as [[Hi Hj]|Hout].
    + rewrite !mget_tab by done.
      destruct (decide (i = j)), (decide (j = i)); try lia; lra.
    + rewrite !mget_tab_out by lia. done.
  - intros i Hi. rewrite mget_tab by done.
    rewrite (Hlow i i) by done. rewrite decide_True by done. lra.
Qed.

Local Abbreviation good_sigma :=
  (λ sigma : matrix, ∃ n, 0 < n ∧ square n sigma ∧ symmetric sigma
                           ∧ ∀ i, i < n → mget sigma i i = 1%R).

Local Abbreviation munge_inv :=
  (λ st, Forall good_sigma (sigmas st)
         ∧ ∃ n, 0 < n ∧ square n (curr_sigma st)
                ∧ strictly_lower (curr_sigma st)).

Lemma count_chrom_pos (lines : list (list string)) line chrom num :
  line ∈ lines → line !! 1 = Some chrom →
  count_chrom lines chrom = Some num → 0 < num.
Proof.
  intros Hline Hchrom. unfold count_chrom.
  destruct (mapM _ lines) as [chroms|] eqn:Hm; [|done].
  cbn [mbind option_bind]. intros [= <-].
  apply mapM_Some in Hm.
  apply list_elem_of_lookup in Hline as [i Hi].
  destruct (Forall2_lookup_l _ _ _ _ _ Hm Hi) as (c & Hc & Hlc).
  assert (c = chrom) as -> by congruence.
  assert (Hin : chrom ∈ filter (λ c, c = chrom) chroms).
  { apply list_elem_of_filter. split; [done|]. by eapply list_elem_of_lookup_2. }
  destruct (filter _ chroms); [by apply elem_of_nil in Hin | simpl; lia].
Qed.

Lemma munge_line_inv (lines : list (list string)) st line st' :
  line ∈ lines → munge_inv st →
  munge_line lines (Some st) line = Some st' → munge_inv st'.
Proof.
  intros Hline [Hsig (n & Hn & Hsq & Hlow)]. unfold munge_line.
  cbn [mbind option_bind].
  destruct (munge_new_chrom lines st line) as [st1|] eqn:Hnew; [|done].
  cbn [mbind option_bind].
  assert (Hinv1 : munge_inv st1).
  { unfold munge_new_chrom in Hnew.
    destruct (line !! 1) as [chrom|] eqn:Hchrom; [|done].
    cbn [mbind option_bind] in Hnew.
    destruct (bool_decide (chrom ≠ curr_chrom st)).
    - destruct (count_chrom lines chrom) as [num|] eqn:Hnum; [|done].
      cbn [mbind option_bind] in Hnew. injection Hnew as <-. simpl. split.
      + apply Forall_app. split; [done|]. constructor; [|constructor].
        exists n. split; [done|]. by apply symmetrize_good.
      + exists num. split; [by eapply count_chrom_pos|]. apply zeros_lower.
    - injection Hnew as <-. split; [done|]. by exists n. }
  clear Hsig n Hn Hsq Hlow Hnew.
  destruct Hinv1 as [Hsig (n & Hn & Hsq & Hlow)].
  unfold munge_gene.
  destruct (line !! 0) as [gene|]; [|done]. cbn [mbind option_bind].
  destruct (line !! 4 ≫= py_float) as [nsnps|]; [|done].
  cbn [mbind option_bind].
  destruct (line !! 5 ≫= py_float) as [nparam|]; [|done].
  cbn [mbind option_bind].
  destruct (line !! 7 ≫= py_float) as [mac|]; [|done].
  cbn [mbind option_bind].
  destruct (9 <? length line).
  - destruct (mapM py_float (drop 9 line)) as [gene_corrs|]; [|done].
    cbn [mbind option_bind].
    destruct (assign_row_slice _ _ _ _ gene_corrs) as [sigma|] eqn:Hassign;
      [|done].
    cbn [mbind option_bind]. intros [= <-]. simpl. split; [done|].
    exists n. split; [done|]. by eapply assign_row_slice_lower.
  - cbn [mbind option_bind]. intros [= <-]. simpl. split; [done|]. by exists n.
Qed.

Lemma munge_fold_None (lines ls : list (list string)) :
  fold_left (munge_line lines) ls None = None.
Proof. by induction ls. Qed.

Lemma munge_fold_inv (lines ls : list (list string)) st st' :
  ls ⊆ lines → munge_inv st →
  fold_left (munge_line lines) ls (Some st) = Some st' → munge_inv st'.
Proof.
  revert st. induction ls as [|line ls IH]; intros st Hsub Hinv.
  - by intros [= <-].
  - cbn [fold_left].
    destruct (munge_line lines (Some st) line) as [st1|] eqn:Hstep;
      [|by rewrite munge_fold_None].
    apply IH.
    + intros x Hx. apply Hsub. by right.
    + eapply munge_line_inv; [|exact Hinv | exact Hstep].
      apply Hsub. by left.
Qed.

Lemma munge_sigmas_symmetric_lemma (file_lines : list string)
    (all_sigmas : list matrix) (metadata : list gene_metadata_row) :
  munge_magma_covariance_metadata file_lines = Some (all_sigmas, metadata) →
  all_sigmas ≠ []
  ∧ Forall (λ sigma, ∃ n, 0 < n ∧ square n sigma ∧ symmetric sigma
                          ∧ ∀ i, i < n → mget sigma i i = 1%R) all_sigmas.
Proof.
  unfold munge_magma_covariance_metadata.
  set (lines := (λ line, split_spaces (strip_newlines line))
                  <$> drop 2 file_lines).
  destruct (lines !! 0) as [first|] eqn:Hfirst; [|done].
  cbn [mbind option_bind].
  destruct (first !! 1) as [chrom|] eqn:Hchrom; [|done].
  cbn [mbind option_bind].
  destruct (count_chrom lines chrom) as [num|] eqn:Hnum; [|done].
  cbn [mbind option_bind].
  destruct (fold_left _ lines _) as [st|] eqn:Hfold; [|done].
  cbn [mbind option_bind]. intros [= <- <-].
  apply munge_fold_inv in Hfold as [Hsig (n & Hn & Hsq & Hlow)]; [|done|].
  - split; [by destruct (sigmas st)|].
    apply Forall_app. split; [done|]. constructor; [|constructor].
    exists n. split; [done|]. by apply symmetrize_good.
  - simpl. split; [constructor|]. exists num. split; [|apply zeros_lower].
    eapply count_chrom_pos; [|exact Hchrom | exact Hnum].
    by eapply list_elem_of_lookup_2.
Qed.

(** X23.  Every covariance block [munge_magma_covariance_metadata] returns
    is a square matrix with at least one row, symmetric, with ones on the
    diagonal, whatever the lines of the file hold: a correlation is only
    ever written below the diagonal of the block under construction, and
    the block is saved as [sigma + sigma.T + I].  There is at least one
    block. *)
Theorem munge_sigmas_symmetric (file_lines : list string)
    (all_sigmas : list matrix) (metadata : list gene_metadata_row) :
  munge_magma_covariance_metadata file_lines = Some (all_sigmas, metadata) →
  all_sigmas ≠ []
  ∧ Forall (λ sigma, ∃ n, 0 < n ∧ square n sigma ∧ symmetric sigma
                          ∧ ∀ i, i < n → mget sigma i i = 1%R) all_sigmas.
Proof.
  intros Hmunge.
  destruct (munge_sigmas_symmetric_lemma _ _ _ Hmunge) as [Hne Hgood].
  by split.
Qed.

(** The metadata stacked so far. *)
Local Abbreviation stacked_metadata :=
  (λ st, List.concat (gene_metadata st ++ [curr_gene_metadata st])).

Local Abbreviation metadata_of_line :=
  (λ (line : list string) (r : gene_metadata_row),
     line !! 0 = Some (GENE r)
     ∧ line !! 4 ≫= py_float = Some (NSNPS r)
     ∧ line !! 5 ≫= py_float = Some (NPARAM r)
     ∧ line !! 7 ≫= py_float = Some (MAC r)).

Lemma concat_snoc {A} (ls : list (list A)) (l : list A) :
  List.concat (ls ++ [l]) = List.concat ls ++ l.
Proof. by rewrite concat_app; simpl; rewrite app_nil_r. Qed.

Lemma munge_line_metadata (lines : list (list string)) st line st' :
  munge_line lines (Some st) line = Some st' →
  ∃ r, stacked_metadata st' = stacked_metadata st ++ [r]
       ∧ metadata_of_line line r.
Proof.
  unfold munge_line. cbn [mbind option_bind].
  destruct (munge_new_chrom lines st line) as [st1|] eqn:Hnew; [|done].
  cbn [mbind option_bind].
  assert (Hst1 : stacked_metadata st1 = stacked_metadata st).
  { unfold munge_new_chrom in Hnew.
    destruct (line !! 1) as [chrom|]; [|done].
    cbn [mbind option_bind] in Hnew.
    destruct (bool_decide (chrom ≠ curr_chrom st)).
    - destruct (count_chrom lines chrom) as [num|]; [|done].
      cbn [mbind option_bind] in Hnew. injection Hnew as <-. simpl.
      by rewrite concat_snoc, app_nil_r.
    - by injection Hnew as <-. }
  rewrite <- Hst1. clear Hst1 Hnew.
  unfold munge_gene.
  destruct (line !! 0) as [gene|]; [|done]. cbn [mbind option_bind].
  destruct (line !! 4 ≫= py_float) as [nsnps|]; [|done].
  cbn [mbind option_bind].
  destruct (line !! 5 ≫= py_float) as [nparam|]; [|done].
  cbn [mbind option_bind].
  destruct (line !! 7 ≫= py_float) as [mac|]; [|done].
  cbn [mbind option_bind].
  match goal with
  | |- context [@mbind _ _ _ _ _ ?o] =>
      destruct o as [sigma|]; [|done]
  end.
  cbn [mbind option_bind]. intros [= <-]. simpl.
  exists (mk_metadata gene nsnps nparam mac).
  by rewrite !concat_snoc, app_assoc.
Qed.

Lemma munge_fold_metadata (lines ls : list (list string)) st st' :
  fold_left (munge_line lines) ls (Some st) = Some st' →
  ∃ rows, stacked_metadata st' = stacked_metadata st ++ rows
          ∧ Forall2 metadata_of_line ls rows.
Proof.
  revert st. induction ls as [|line ls IH]; intros st.
  - intros [= <-]. exists []. by rewrite app_nil_r.
  - cbn [fold_left].
    destruct (munge_line lines (Some st) line) as [st1|] eqn:Hstep;
      [|by rewrite munge_fold_None].
    intros Hfold. destruct (IH st1 Hfold) as (rows & Hrows & Hall).
    destruct (munge_line_metadata _ _ _ _ Hstep) as (r & Hr & Hline).
    exists (r :: rows). split; [|by constructor].
    by rewrite Hrows, Hr, <- app_assoc.
Qed.

(** X24.  The gene metadata [munge_magma_covariance_metadata] returns has
    one row per line of the file after the two header lines, in file
    order, whatever the chromosomes are: the row of a line holds its first
    field as GENE and the floats parsed from its fields 4, 5 and 7 as
    NSNPS, NPARAM and MAC. *)
Theorem munge_metadata_in_file_order (file_lines : list string)
    (all_sigmas : list matrix) (metadata : list gene_metadata_row) :
  munge_magma_covariance_metadata file_lines = Some (all_sigmas, metadata) →
  let lines := (λ line, split_spaces (strip_newlines line))
                 <$> drop 2 file_lines in
  length metadata = length file_lines - 2
  ∧ Forall2 (λ (line : list string) r,
               line !! 0 = Some (GENE r)
               ∧ line !! 4 ≫= py_float = Some (NSNPS r)
               ∧ line !! 5 ≫= py_float = Some (NPARAM r)
               ∧ line !! 7 ≫= py_float = Some (MAC r)) lines metadata.
Proof.
  unfold munge_magma_covariance_metadata.
  set (lines := (λ line, split_spaces (strip_newlines line))
                  <$> drop 2 file_lines).
  destruct (lines !! 0) as [first|]; [|done]. cbn [mbind option_bind].
  destruct (first !! 1) as [chrom|]; [|done]. cbn [mbind option_bind].
  destruct (count_chrom lines chrom) as [num|]; [|done].
  cbn [mbind option_bind].
  destruct (fold_left _ lines _) as [st|] eqn:Hfold; [|done].
  cbn [mbind option_bind]. intros [= <- <-].
  apply munge_fold_metadata in Hfold as (rows & Hrows & Hall).
  simpl in Hrows. rewrite Hrows. split; [|done].
  rewrite <- (Forall2_length _ _ _ Hall). unfold lines.
  by rewrite length_fmap, length_drop.
Qed.

Local Abbreviation count_of :=
  (λ (chroms : list string) (c : string), length (filter (λ x, x = c) chroms)).

Lemma count_chrom_Some (lines : list (list string)) chroms c :
  mapM (λ line : list string, line !! 1) lines = Some chroms →
  count_chrom lines c = Some (count_of chroms c).
Proof. intros Hm. unfold count_chrom. by rewrite Hm. Qed.

Lemma assign_row_slice_square S n i start stop vals S' :
  square n S → assign_row_slice S i start stop vals = Some S' → square n S'.
Proof.
  intros [Hl HS]. unfold assign_row_slice.
  destruct (S !! i) as [row|] eqn:Hrow; [|done].
  cbn [mbind option_bind].
  destruct (assign_slice _ _ _ _) as [row'|] eqn:Hrow'; [|done].
  cbn [mbind option_bind]. intros [= <-].
  apply assign_slice_spec in Hrow' as [Hlen _].
  split; [by rewrite length_insert|]. apply Forall_insert; [done|].
  rewrite Hlen. apply (proj1 (Forall_forall _ _) HS).
  by eapply list_elem_of_lookup_2.
Qed.

Lemma munge_gene_sizes st line st' :
  munge_gene st line = Some st' →
  sigmas st' = sigmas st ∧ curr_chrom st' = curr_chrom st
  ∧ ∀ n, square n (curr_sigma st) → square n (curr_sigma st').
Proof.
  unfold munge_gene.
  destruct (line !! 0) as [gene|]; [|done]. cbn [mbind option_bind].
  destruct (line !! 4 ≫= py_float) as [nsnps|]; [|done].
  cbn [mbind option_bind].
  destruct (line !! 5 ≫= py_float) as [nparam|]; [|done].
  cbn [mbind option_bind].
  destruct (line !! 7 ≫= py_float) as [mac|]; [|done].
  cbn [mbind option_bind].
  destruct (9 <? length line).
  - destruct (mapM py_float (drop 9 line)) as [gene_corrs|]; [|done].
    cbn [mbind option_bind].
    destruct (assign_row_slice _ _ _ _ gene_corrs) as [sigma|] eqn:Hassign;
      [|done].
    cbn [mbind option_bind]. intros [= <-]. simpl.
    split; [done|]. split; [done|]. intros n Hn.
    by eapply assign_row_slice_square.
  - cbn [mbind option_bind]. by intros [= <-].
Qed.

Lemma length_symmetrize n S : square n S → length (symmetrize S) = n.
Proof.
  intros [Hl HS]. unfold symmetrize, madd, eye.
  rewrite !length_zip_with, length_fmap, length_seq.
  assert (length (transpose S) = n); [|lia].
  rewrite (square_tab n S (conj Hl HS)), transpose_tab. unfold tab.
  by rewrite length_fmap, length_seq.
Qed.

(** The sizes of the blocks: one block per run of lines with one
    chromosome, as large as the number of lines of the whole file that
    carry that chromosome. *)
Lemma munge_fold_sizes (lines ls : list (list string)) chroms ls_chroms st st' :
  mapM (λ line : list string, line !! 1) lines = Some chroms →
  Forall2 (λ (line : list string) c, line !! 1 = Some c) ls ls_chroms →
  square (count_of chroms (curr_chrom st)) (curr_sigma st) →
  fold_left (munge_line lines) ls (Some st) = Some st' →
  (∃ n, square n (curr_sigma st'))
  ∧ length <$> (sigmas st' ++ [symmetrize (curr_sigma st')])
    = (length <$> sigmas st)
      ++ (count_of chroms <$> (curr_chrom st
                                 :: runs_after (curr_chrom st) ls_chroms)).
Proof.
  intros Hchroms Hls. revert st.
  induction Hls as [|line c ls ls_chroms Hc _ IH]; intros st Hsq.
  - intros [= <-]. split; [by eexists|]. rewrite fmap_app. simpl.
    by rewrite (length_symmetrize _ _ Hsq).
  - cbn [fold_left].
    destruct (munge_line lines (Some st) line) as [st1|] eqn:Hstep;
      [|by rewrite munge_fold_None].
    unfold munge_line in Hstep. cbn [mbind option_bind] in Hstep.
    destruct (munge_new_chrom lines st line) as [st0|] eqn:Hnew; [|done].
    cbn [mbind option_bind] in Hstep.
    apply munge_gene_sizes in Hstep as (Hsig & Hchr & Hkeep).
    unfold munge_new_chrom in Hnew. rewrite Hc in Hnew.
    cbn [mbind option_bind] in Hnew. cbn [runs_after].
    destruct (bool_decide_reflect (c ≠ curr_chrom st)) as [Hne|Heq].
    + rewrite (count_chrom_Some _ _ _ Hchroms) in Hnew.
      cbn [mbind option_bind] in Hnew. injection Hnew as <-.
      simpl in Hsig, Hchr, Hkeep.
      rewrite decide_False by done.
      intros Hfold. destruct (IH st1) as [Hsq' Hsizes]; [|done|].
      { rewrite Hchr. apply Hkeep, zeros_square. }
      split; [done|]. rewrite Hsizes, Hsig, Hchr, fmap_app. simpl.
      rewrite (length_symmetrize _ _ Hsq). by rewrite <- app_assoc.
    + injection Hnew as <-. apply dec_stable in Heq.
      rewrite decide_True by done.
      intros Hfold. destruct (IH st1) as [Hsq' Hsizes]; [|done|].
      { rewrite Hchr. by apply Hkeep. }
      split; [done|]. by rewrite Hsizes, Hsig, Hchr.
Qed.

Lemma elem_of_runs_after prev (l : list string) c :
  c ∈ prev :: runs_after prev l ↔ c = prev ∨ c ∈ l.
Proof.
  revert prev. induction l as [|x l IH]; intros prev; simpl.
  - rewrite elem_of_cons, !elem_of_nil. tauto.
  - destruct (decide (x = prev)) as [->|Hne].
    + rewrite IH, elem_of_cons. tauto.
    + rewrite elem_of_cons, IH, elem_of_cons. tauto.
Qed.

Lemma elem_of_run_labels (l : list string) c : c ∈ run_labels l ↔ c ∈ l.
Proof.
  destruct l as [|x l]; [done|]. simpl.
  rewrite elem_of_runs_after, elem_of_cons. tauto.
Qed.

Lemma sum_list_with_indicator (ds : list string) x :
  NoDup ds → x ∈ ds →
  sum_list_with (λ c, if decide (x = c) then 1 else 0) ds = 1.
Proof.
  induction 1 as [|d ds Hd Hnd IH]; intros Hx; [by apply elem_of_nil in Hx|].
  simpl. destruct (decide (x = d)) as [->|Hne].
  - assert (sum_list_with (λ c, if decide (d = c) then 1 else 0) ds = 0) as ->;
      [|done].
    clear IH Hnd Hx. induction ds as [|e ds IH]; [done|]. simpl.
    rewrite decide_False by (intros ->; apply Hd; by left).
    apply IH. intros He. apply Hd. by right.
  - apply elem_of_cons in Hx as [?|Hx]; [done|]. by rewrite IH.
Qed.

(** The counts of the distinct labels add up to the number of lines. *)
Lemma sum_count_of (ds l : list string) :
  NoDup ds → (∀ x, x ∈ l → x ∈ ds) →
  sum_list_with (count_of l) ds = length l.
Proof.
  intros Hnd. induction l as [|x l IH]; intros Hsub.
  - simpl. clear. induction ds as [|d ds IH]; [done|]. simpl. by rewrite IH.
  - transitivity (sum_list_with (λ c, if decide (x = c) then 1 else 0) ds
                  + sum_list_with (count_of l) ds).
    + clear. induction ds as [|d ds IH]; [done|]. simpl. rewrite IH.
      rewrite filter_cons. destruct (decide (x = d)); simpl; lia.
    + rewrite sum_list_with_indicator, IH; [done | | done |].
      * intros y Hy. apply Hsub. by right.
      * apply Hsub. by left.
Qed.

Lemma sum_list_with_fmap_length (Bs : list matrix) :
  sum_list_with length Bs = sum_list_with (λ k, k) (length <$> Bs).
Proof. induction Bs as [|B Bs IH]; simpl; [done | by rewrite IH]. Qed.

Lemma block_diag_from_shape left total (blocks : list matrix) :
  Forall (λ B, ∃ n, 0 < n ∧ square n B) blocks →
  left + sum_list_with length blocks = total →
  length (block_diag_from left total blocks) = sum_list_with length blocks
  ∧ Forall (λ row, length row = total) (block_diag_from left total blocks).
Proof.
  intros Hblocks. revert left.
  induction Hblocks as [|B blocks (n & Hn & Hl & HB) _ IH]; intros left Htot.
  - by split.
  - simpl in *.
    assert (Hcols : ncols B = n).
    { destruct B as [|row B]; [simpl in Hl; lia|].
      by apply Forall_cons in HB as [? _]. }
    destruct (IH (left + ncols B)) as [Hlen Hrows]; [lia|]. split.
    + by rewrite length_app, length_fmap, Hlen.
    + apply Forall_app. split; [|done].
      apply Forall_fmap, Forall_forall. intros row Hrow. simpl.
      pose proof (proj1 (Forall_forall _ _) HB row Hrow) as Hr.
      simpl in Hr. rewrite !length_app, !length_replicate. lia.
Qed.

Lemma block_diag_square (blocks : list matrix) :
  blocks ≠ [] → Forall (λ B, ∃ n, 0 < n ∧ square n B) blocks →
  square (sum_list_with length blocks) (block_diag blocks).
Proof.
  intros Hne Hblocks. unfold block_diag.
  destruct blocks as [|B0 blocks0] eqn:Hb; [done|]. rewrite <- Hb in *.
  assert (Hcols : sum_list_with ncols blocks = sum_list_with length blocks).
  { clear Hb Hne. induction Hblocks as [|B blocks (n & Hn & Hl & HB) _ IH];
      [done|]. simpl. rewrite IH. f_equal.
    destruct B as [|row B]; [simpl in Hl; lia|].
    apply Forall_cons in HB as [Hrow _]. simpl in *. congruence. }
  rewrite Hcols. by apply block_diag_from_shape.
Qed.

(** One block per run, as large as the count of its chromosome in the
    whole file; the sizes add up when every chromosome forms one run. *)
Lemma munge_sizes_of_runs (file_lines : list string)
    (all_sigmas : list matrix) (metadata : list gene_metadata_row) :
  munge_magma_covariance_metadata file_lines = Some (all_sigmas, metadata) →
  let lines := (λ line, split_spaces (strip_newlines line))
                 <$> drop 2 file_lines in
  ∃ chroms,
    mapM (λ line : list string, line !! 1) lines = Some chroms
    ∧ length <$> all_sigmas = count_of chroms <$> run_labels chroms
    ∧ (NoDup (run_labels chroms) →
         sum_list_with length all_sigmas = length lines).
Proof.
  intros Hmunge lines.
  revert Hmunge. unfold munge_magma_covariance_metadata. fold lines.
  destruct (lines !! 0) as [first|] eqn:Hfirst; [|done].
  cbn [mbind option_bind].
  destruct (first !! 1) as [chrom|] eqn:Hchrom; [|done].
  cbn [mbind option_bind].
  destruct (count_chrom lines chrom) as [num|] eqn:Hnum; [|done].
  cbn [mbind option_bind].
  destruct (fold_left _ lines _) as [st|] eqn:Hfold; [|done].
  cbn [mbind option_bind]. intros [= <- <-].
  unfold count_chrom in Hnum.
  destruct (mapM (λ line : list string, line !! 1) lines) as [chroms|] eqn:Hm;
    [|done].
  cbn [mbind option_bind] in Hnum. injection Hnum as <-.
  exists chroms. split; [done|].
  pose proof Hm as Hall. apply mapM_Some in Hall.
  destruct (munge_fold_sizes lines lines chroms chroms
              (mk_munge_state [] [] chrom 0
                 (zeros (length (filter (λ c, c = chrom) chroms))
                    (length (filter (λ c, c = chrom) chroms))) [])
              st Hm Hall) as [_ Hsizes];
    [apply zeros_square | exact Hfold |].
  cbn [sigmas curr_chrom] in Hsizes. rewrite fmap_nil, app_nil_l in Hsizes.
  assert (Hrun : run_labels chroms = chrom :: runs_after chrom chroms).
  { destruct lines as [|l0 lines0]; [done|].
    apply Forall2_cons_inv_l in Hall as (c0 & chroms0 & Hc0 & _ & ->).
    simpl in Hfirst. injection Hfirst as ->.
    assert (c0 = chrom) as -> by congruence.
    simpl. by rewrite decide_True. }
  rewrite Hrun. split; [done|]. intros Hnd.
  rewrite sum_list_with_fmap_length, Hsizes.
  rewrite (Forall2_length _ _ _ Hall).
  rewrite <- (sum_count_of (chrom :: runs_after chrom chroms) chroms).
  - generalize (chrom :: runs_after chrom chroms). intros ds.
    induction ds as [|d ds IH]; [done|].
    rewrite fmap_cons. simpl. by rewrite <- IH.
  - done.
  - intros x Hx. rewrite <- Hrun. by apply elem_of_run_labels.
Qed.

(** X25.  The covariance blocks follow the runs of the chromosome column
    (field 1 of each line): there is one block per maximal run of lines
    with one chromosome, in file order, and the block of a run has as many
    rows as lines of the whole file carry the chromosome of the run.  When
    every chromosome forms a single run, the block sizes add up to the
    number of lines and [block_diag] of the blocks is a square matrix with
    one row per line (gene); when a chromosome comes back later in the
    file, its blocks are too large. *)
Theorem munge_block_sizes (file_lines : list string)
    (all_sigmas : list matrix) (metadata : list gene_metadata_row) :
  munge_magma_covariance_metadata file_lines = Some (all_sigmas, metadata) →
  let lines := (λ line, split_spaces (strip_newlines line))
                 <$> drop 2 file_lines in
  ∃ chroms,
    mapM (λ line : list string, line !! 1) lines = Some chroms
    ∧ length <$> all_sigmas
      = (λ c, length (filter (λ x, x = c) chroms)) <$> run_labels chroms
    ∧ (NoDup (run_labels chroms) →
         sum_list_with length all_sigmas = length lines
         ∧ square (length lines) (block_diag all_sigmas)).
Proof.
  intros Hmunge lines.
  pose proof (munge_sigmas_symmetric_lemma file_lines all_sigmas metadata Hmunge)
    as [Hne Hgood].
  destruct (munge_sizes_of_runs file_lines all_sigmas metadata Hmunge)
    as (chroms & Hm & Hsizes & Hsum).
  exists chroms. split; [done|]. split; [done|]. intros Hnd.
  specialize (Hsum Hnd). split; [done|].
  fold lines in Hsum. rewrite <- Hsum. apply block_diag_square; [done|].
  eapply Forall_impl; [exact Hgood|].
  intros sigma (n & Hn & Hsq & _). by exists n.
Qed.

(** What a passed assertion says about the two arrays. *)
Lemma np_all_equal_true (a b : list string) :
  np_all_equal a b = Some true →
  (length a = length b → a = b)
  ∧ (length a ≠ length b →
       (length a = 1 ∨ length b = 1) ∧ ∀ x y, x ∈ a → y ∈ b → x = y).
Proof.
  unfold np_all_equal. destruct (decide (length a = length b)) as [Hl|Hl].
  - intros [= Hab]. apply bool_decide_eq_true in Hab. by split.
  - intros Hab. split; [done|]. intros _.
    destruct a as [|x [|x' a]].
    + destruct b as [|y [|y' b]]; [done | | done].
      split; [by right|].
      intros x0 y0 Hx0. by apply elem_of_nil in Hx0.
    + injection Hab as Hab. apply bool_decide_eq_true in Hab.
      split; [by left|]. intros x0 y0 Hx0 Hy0.
      apply list_elem_of_singleton in Hx0 as ->.
      by apply (proj1 (Forall_forall _ _) Hab).
    + destruct b as [|y [|y' b]]; [done | | done].
      injection Hab as Hab. apply bool_decide_eq_true in Hab.
      split; [by right|]. intros x0 y0 Hx0 Hy0.
      apply list_elem_of_singleton in Hy0 as ->.
      by apply (proj1 (Forall_forall _ _) Hab).
Qed.

(** X26.  [read_magma] and its two options.  When both options are [None]
    the function raises ([UnboundLocalError]: [covariates] and [error_cov]
    are never bound).  When it returns, the targets and the gene
    identifiers are the ZSTAT and GENE columns of the [.genes.out] file,
    the covariates are [None] exactly when [use_magma_covariates] is
    [False] and the error covariance is [None] exactly when
    [use_magma_error_cov] is [False]: an option left at [None] while the
    other is set behaves as [True].  The assertion has passed: when the
    [.genes.raw] file has as many genes as the [.genes.out] file they are
    the same genes in the same order; when the numbers differ, one of the
    files holds a single gene and all genes carry one name (numpy
    broadcasts the comparison), so the assertion does not compare the
    numbers of genes.  Covariates that are returned have one row of six
    entries per gene of the raw file, and an error covariance that is
    returned is [block_diag] of the blocks of the raw file. *)
Theorem read_magma_options (genes_out : list (string * R))
    (raw_lines : list string)
    (use_magma_covariates use_magma_error_cov : option bool) :
  (use_magma_covariates = None → use_magma_error_cov = None →
   read_magma genes_out raw_lines use_magma_covariates use_magma_error_cov
   = None)
  ∧ ∀ Y covariates error_cov Y_indices,
      read_magma genes_out raw_lines use_magma_covariates use_magma_error_cov
      = Some (Y, covariates, error_cov, Y_indices) →
      Y = snd <$> genes_out ∧ Y_indices = fst <$> genes_out
      ∧ (covariates = None ↔ use_magma_covariates = Some false)
      ∧ (error_cov = None ↔ use_magma_error_cov = Some false)
      ∧ ∃ all_sigmas metadata,
          munge_magma_covariance_metadata raw_lines
            = Some (all_sigmas, metadata)
          ∧ (length metadata = length Y_indices →
             GENE <$> metadata = Y_indices)
          ∧ (length metadata ≠ length Y_indices →
             (length metadata = 1 ∨ length Y_indices = 1)
             ∧ ∀ g g', g ∈ GENE <$> metadata → g' ∈ Y_indices → g = g')
          ∧ (∀ C, covariates = Some C →
               length C = length metadata
               ∧ Forall (λ row, length row = 6) C)
          ∧ (∀ E, error_cov = Some E → E = block_diag all_sigmas).
Proof.
  split.
  - intros -> ->. unfold read_magma.
    rewrite bool_decide_eq_false_2; [done|]. by intros [?|?].
  - intros Y covariates error_cov Y_indices. unfold read_magma.
    destruct (bool_decide _); [|done].
    destruct (munge_magma_covariance_metadata raw_lines)
      as [[all_sigmas metadata]|] eqn:Hmunge; [|done].
    cbn [mbind option_bind fst snd].
    destruct (np_all_equal _ _) as [[|]|] eqn:Hgenes; [|done|done].
    intros [= <- <- <- <-]. split; [done|]. split; [done|].
    assert (Hnames : (build_control_covariates metadata).*1
                     = GENE <$> metadata).
    { unfold build_control_covariates. by rewrite <- list_fmap_compose. }
    rewrite Hnames in Hgenes.
    apply np_all_equal_true in Hgenes as [Hsame Hdiff].
    rewrite length_fmap in Hsame, Hdiff.
    split; [|split].
    + destruct (bool_decide_reflect (use_magma_covariates = Some false));
        split; done.
    + destruct (bool_decide_reflect (use_magma_error_cov = Some false));
        split; done.
    + exists all_sigmas, metadata. split; [done|]. split; [done|].
      split; [done|]. split.
      * intros C HC.
        assert (C = (build_control_covariates metadata).*2) as ->
          by by destruct (bool_decide _); simplify_eq.
        split.
        -- unfold build_control_covariates. by rewrite !length_fmap.
        -- unfold build_control_covariates. rewrite <- list_fmap_compose.
           apply Forall_fmap, Forall_forall. by intros r _.
      * intros E HE. by destruct (bool_decide _); simplify_eq.
Qed.

(** *** The error covariance as a whole *)

Lemma nth_padded_row (left k : nat) row j :
  nth j (replicate left 0%R ++ row ++ replicate k 0%R) 0%R
  = if decide (left ≤ j < left + length row)
    then nth (j - left) row 0%R else 0%R.
Proof.
  rewrite !nth_lookup.
  destruct (decide (left ≤ j < left + length row)) as [Hj|Hj].
  - rewrite lookup_app_r by (rewrite length_replicate; lia).
    rewrite length_replicate, lookup_app_l by lia. done.
  - destruct (decide (j < left)).
    + rewrite lookup_app_l by (rewrite length_replicate; lia).
      by rewrite lookup_replicate_2.
    + rewrite lookup_app_r by (rewrite length_replicate; lia).
      rewrite length_replicate, lookup_app_r by lia.
      destruct (replicate k 0%R !! _) as [x|] eqn:Hx; [|done].
      by apply lookup_replicate in Hx as [-> _].
Qed.

(** The entries of the rows of the first block and of the rows below. *)
Lemma mget_block_diag_from_cons left total n B (blocks : list matrix) i j :
  square n B →
  mget (block_diag_from left total (B :: blocks)) i j
  = if decide (i < n)
    then if decide (left ≤ j < left + n) then mget B i (j - left) else 0%R
    else mget (block_diag_from (left + n) total blocks) (i - n) j.
Proof.
  intros [Hl HB].
  assert (Hcols : ncols B = n).
  { destruct B as [|row B]; [done|]. by apply Forall_cons in HB as [? _]. }
  unfold mget. cbn [block_diag_from]. rewrite Hcols.
  destruct (decide (i < n)) as [Hi|Hi].
  - rewrite app_nth1 by (rewrite length_fmap; lia).
    destruct (lookup_lt_is_Some_2 B i) as [row Hrow]; [lia|].
    rewrite (nth_lookup_Some _ _ _ _ Hrow).
    rewrite (nth_lookup_Some _ _ _
               (replicate left 0%R ++ row
                ++ replicate (total - left - length row) 0%R))
      by by rewrite list_lookup_fmap, Hrow.
    rewrite nth_padded_row.
    by rewrite (proj1 (Forall_forall _ _) HB row)
      by by eapply list_elem_of_lookup_2.
  - rewrite app_nth2 by (rewrite length_fmap; lia).
    by rewrite length_fmap, Hl.
Qed.

Lemma block_diag_from_left left total (blocks : list matrix) i j :
  Forall (λ B, ∃ n, square n B) blocks → j < left →
  mget (block_diag_from left total blocks) i j = 0%R.
Proof.
  intros Hblocks. revert left i.
  induction Hblocks as [|B blocks [n Hsq] _ IH]; intros left i Hj.
  - by destruct i, j.
  - rewrite (mget_block_diag_from_cons _ _ n) by done.
    destruct (decide (i < n)).
    + by rewrite decide_False by lia.
    + apply IH. lia.
Qed.

(** Blocks that are symmetric with a unit diagonal give a symmetric matrix
    with a unit diagonal; entries of two different blocks are zero. *)
Lemma block_diag_from_entries left total (blocks : list matrix)
    (ds : list string) :
  Forall good_sigma blocks → length ds = length blocks →
  (∀ i j, mget (block_diag_from left total blocks) i (left + j)
          = mget (block_diag_from left total blocks) j (left + i))
  ∧ (∀ i, i < sum_list_with length blocks →
          mget (block_diag_from left total blocks) i (left + i) = 1%R)
  ∧ (∀ i j ci cj,
       concat (zip_with (λ (B : matrix) d, replicate (length B) d) blocks ds)
         !! i = Some ci →
       concat (zip_with (λ (B : matrix) d, replicate (length B) d) blocks ds)
         !! j = Some cj →
       ci ≠ cj →
       mget (block_diag_from left total blocks) i (left + j) = 0%R).
Proof.
  intros Hblocks. revert left ds.
  induction Hblocks as [|B blocks (n & Hn & Hsq & Hsym & Hdiag) Hrest IH];
    intros left ds Hds.
  - split; [|split].
    + intros i j. by destruct i, j, left.
    + simpl. lia.
    + by intros i j ci cj.
  - destruct ds as [|d ds]; [done|]. injection Hds as Hds.
    destruct (IH (left + n) ds Hds) as (IHsym & IHdiag & IHoff).
    assert (Hsquares : Forall (λ B : matrix, ∃ n, square n B) blocks).
    { eapply Forall_impl; [exact Hrest|].
      intros B' (n' & _ & Hsq' & _). by exists n'. }
    assert (Hl : length B = n) by by destruct Hsq.
    split; [|split].
    + intros i j. rewrite !(mget_block_diag_from_cons _ _ n) by done.
      destruct (decide (i < n)) as [Hi|Hi], (decide (j < n)) as [Hj|Hj].
      * rewrite !decide_True by lia.
        replace (left + j - left) with j by lia.
        replace (left + i - left) with i by lia. apply Hsym.
      * rewrite decide_False by lia. symmetry.
        apply block_diag_from_left; [done | lia].
      * rewrite decide_False by lia.
        apply block_diag_from_left; [done | lia].
      * replace (left + j) with (left + n + (j - n)) by lia.
        replace (left + i) with (left + n + (i - n)) by lia. apply IHsym.
    + intros i Hi. cbn [sum_list_with] in Hi.
      rewrite (mget_block_diag_from_cons _ _ n) by done.
      destruct (decide (i < n)) as [Hin|Hin].
      * rewrite decide_True by lia.
        replace (left + i - left) with i by lia. by apply Hdiag.
      * replace (left + i) with (left + n + (i - n)) by lia.
        apply IHdiag. lia.
    + intros i j ci cj. cbn [zip_with concat]. rewrite Hl.
      intros Hi Hj Hne.
      rewrite (mget_block_diag_from_cons _ _ n) by done.
      destruct (decide (i < n)) as [Hin|Hin], (decide (j < n)) as [Hjn|Hjn].
      * rewrite lookup_app_l in Hi by by rewrite length_replicate.
        rewrite lookup_app_l in Hj by by rewrite length_replicate.
        apply lookup_replicate in Hi as [-> _].
        apply lookup_replicate in Hj as [-> _]. done.
      * by rewrite decide_False by lia.
      * apply block_diag_from_left; [done | lia].
      * rewrite lookup_app_r in Hi by (rewrite length_replicate; lia).
        rewrite lookup_app_r in Hj by (rewrite length_replicate; lia).
        rewrite length_replicate in Hi, Hj.
        replace (left + j) with (left + n + (j - n)) by lia.
        by apply (IHoff (i - n) (j - n) ci cj).
Qed.

(** When every chromosome forms one run, the chromosome column is the
    run labels, each repeated as often as it occurs. *)
Lemma count_of_cons (c x : string) (l : list string) :
  count_of (c :: l) x = if decide (c = x) then S (count_of l x) else count_of l x.
Proof. cbv beta. rewrite filter_cons. by destruct (decide (c = x)). Qed.

Lemma count_of_notin (x : string) (l : list string) :
  x ∉ l → count_of l x = 0.
Proof.
  induction l as [|c l IH]; intros Hx; [done|].
  rewrite count_of_cons, decide_False.
  - apply IH. intros Hin. apply Hx. by right.
  - intros ->. apply Hx. by left.
Qed.

Lemma runs_after_decompose prev (l : list string) :
  NoDup (prev :: runs_after prev l) →
  l = replicate (count_of l prev) prev
      ++ concat ((λ c, replicate (count_of l c) c) <$> runs_after prev l).
Proof.
  revert prev. induction l as [|c l IH]; intros prev Hnd; [done|].
  cbn [runs_after] in *. destruct (decide (c = prev)) as [->|Hne].
  - rewrite count_of_cons, decide_True by done. cbn [replicate].
    rewrite <- app_comm_cons. f_equal.
    rewrite (IH prev Hnd) at 1. f_equal. f_equal.
    apply Forall_fmap_ext, Forall_forall. intros x Hx.
    rewrite count_of_cons, decide_False; [done|].
    intros <-. apply NoDup_cons in Hnd as [Hnotin _]. done.
  - apply NoDup_cons in Hnd as [Hprev Hnd].
    assert (Hnone : count_of (c :: l) prev = 0).
    { apply count_of_notin. intros Hx. apply Hprev.
      apply elem_of_runs_after. apply elem_of_cons in Hx as [->|Hx]; auto. }
    rewrite Hnone. cbn [replicate app fmap list_fmap concat].
    rewrite count_of_cons, decide_True by done. cbn [replicate].
    rewrite <- app_comm_cons. f_equal.
    rewrite (IH c Hnd) at 1. f_equal. f_equal.
    apply Forall_fmap_ext, Forall_forall. intros x Hx.
    rewrite count_of_cons, decide_False; [done|].
    intros <-. apply NoDup_cons in Hnd as [Hnotin _]. done.
Qed.

Lemma run_labels_decompose (l : list string) :
  NoDup (run_labels l) →
  l = concat ((λ c, replicate (count_of l c) c) <$> run_labels l).
Proof.
  destruct l as [|c l]; [done|]. cbn [run_labels]. intros Hnd.
  pose proof (runs_after_decompose c (c :: l)) as Hdec.
  cbn [runs_after] in Hdec. rewrite decide_True in Hdec by done.
  rewrite fmap_cons. cbn [concat]. by apply Hdec.
Qed.

Lemma zip_replicate_sizes (blocks : list matrix) (f : string → nat)
    (ds : list string) :
  length <$> blocks = f <$> ds →
  concat (zip_with (λ (B : matrix) d, replicate (length B) d) blocks ds)
  = concat ((λ d, replicate (f d) d) <$> ds).
Proof.
  revert ds. induction blocks as [|B blocks IH]; intros [|d ds]; try done.
  rewrite !fmap_cons. intros [= HB Hrest]. cbn [zip_with concat].
  by rewrite HB, (IH ds Hrest).
Qed.

Lemma munge_metadata_length (file_lines : list string)
    (all_sigmas : list matrix) (metadata : list gene_metadata_row) :
  munge_magma_covariance_metadata file_lines = Some (all_sigmas, metadata) →
  length metadata = length (drop 2 file_lines).
Proof.
  unfold munge_magma_covariance_metadata.
  set (lines := (λ line, split_spaces (strip_newlines line))
                  <$> drop 2 file_lines).
  destruct (lines !! 0) as [first|]; [|done]. cbn [mbind option_bind].
  destruct (first !! 1) as [chrom|]; [|done]. cbn [mbind option_bind].
  destruct (count_chrom lines chrom) as [num|]; [|done].
  cbn [mbind option_bind].
  destruct (fold_left _ lines _) as [st|] eqn:Hfold; [|done].
  cbn [mbind option_bind]. intros [= <- <-].
  apply munge_fold_metadata in Hfold as (rows & Hrows & Hall).
  simpl in Hrows. rewrite Hrows, <- (Forall2_length _ _ _ Hall).
  unfold lines. by rewrite length_fmap.
Qed.

(** X27.  The error covariance [read_magma] returns.  Let every
    chromosome of the [.genes.raw] file form a single run of lines.  Then
    the error covariance is a square matrix with one row per gene line of
    the raw file, symmetric, with ones on the diagonal, and the entry of
    two genes on different chromosomes is zero: it is block diagonal for
    the chromosome column of the file, as the block operations require.
    The number of gene lines is the number of targets unless one of the
    two files holds a single gene. *)
Theorem read_magma_error_cov_block_diagonal (genes_out : list (string * R))
    (raw_lines : list string)
    (use_magma_covariates use_magma_error_cov : option bool)
    (Y : vector) (covariates : option matrix) (error_cov : matrix)
    (Y_indices : list string) (chroms : list string) :
  read_magma genes_out raw_lines use_magma_covariates use_magma_error_cov
  = Some (Y, covariates, Some error_cov, Y_indices) →
  mapM (λ line : list string, line !! 1)
    ((λ line, split_spaces (strip_newlines line)) <$> drop 2 raw_lines)
  = Some chroms →
  NoDup (run_labels chroms) →
  square (length chroms) error_cov
  ∧ symmetric error_cov
  ∧ (∀ i, i < length chroms → mget error_cov i i = 1%R)
  ∧ (∀ i j ci cj, chroms !! i = Some ci → chroms !! j = Some cj → ci ≠ cj →
                  entry error_cov i j = Some 0%R)
  ∧ (length chroms = length Y ∨ length chroms = 1 ∨ length Y = 1).
Proof.
  unfold read_magma. destruct (bool_decide _); [|done].
  destruct (munge_magma_covariance_metadata raw_lines)
    as [[all_sigmas metadata]|] eqn:Hmunge; [|done].
  cbn [mbind option_bind fst snd].
  destruct (np_all_equal _ _) as [[|]|] eqn:Hgenes; [|done|done].
  destruct (bool_decide (use_magma_error_cov = Some false)); [done|].
  intros [= <- _ <- _] Hchroms Hnd.
  destruct (munge_sigmas_symmetric_lemma _ _ _ Hmunge) as [Hne Hgood].
  destruct (munge_sizes_of_runs _ _ _ Hmunge) as (chroms' & Hm & Hsizes & Hsum).
  cbn zeta in Hm, Hsum. rewrite Hchroms in Hm. injection Hm as <-.
  specialize (Hsum Hnd). rewrite length_fmap in Hsum.
  assert (Hlenc : length chroms = length (drop 2 raw_lines)).
  { rewrite <- (length_mapM _ _ _ Hchroms). by rewrite length_fmap. }
  assert (Hsq : square (length chroms) (block_diag all_sigmas)).
  { rewrite Hlenc, <- Hsum. apply block_diag_square; [done|].
    eapply Forall_impl; [exact Hgood|].
    intros sigma (n & Hn & Hsq & _). by exists n. }
  destruct (block_diag_from_entries 0 (sum_list_with ncols all_sigmas)
              all_sigmas (run_labels chroms) Hgood)
    as (Hsym & Hdiag & Hoff).
  { rewrite <- (length_fmap length all_sigmas), Hsizes.
    by rewrite length_fmap. }
  rewrite (zip_replicate_sizes _ (count_of chroms) _ Hsizes) in Hoff.
  rewrite <- (run_labels_decompose chroms Hnd) in Hoff.
  assert (Hbd : block_diag all_sigmas
                = block_diag_from 0 (sum_list_with ncols all_sigmas) all_sigmas).
  { unfold block_diag. by destruct all_sigmas. }
  rewrite Hbd in *.
  split; [done|]. split; [exact Hsym|]. split; [|split].
  - intros i Hi. apply (Hdiag i). by rewrite Hsum, <- Hlenc.
  - intros i j ci cj Hi Hj Hdiff.
    rewrite (entry_square chroms _ eq_refl); [| done | |].
    + f_equal. by apply (Hoff i j ci cj).
    + by eapply lookup_lt_Some.
    + by eapply lookup_lt_Some.
  - apply np_all_equal_true in Hgenes as [_ Hdiff].
    unfold build_control_covariates in Hdiff.
    rewrite !length_fmap in Hdiff.
    rewrite (munge_metadata_length _ _ _ Hmunge), <- Hlenc in Hdiff.
    rewrite length_fmap.
    destruct (decide (length chroms = length genes_out)) as [|Hne'];
      [by left | right; by apply Hdiff].
Qed.

End MungeSigmas.

(** A [.genes.raw] file with two genes on chromosome 1 and one gene on
    chromosome 2, and the matching [.genes.out] columns. *)
Local Abbreviation example_genes_raw :=
  ((λ line, line +:+ String "010"%char "")
     <$> ["# VERSION = 110"; "# COVAR = NSAMP MAC";
          "G1 1 100 200 5 3 1000 20 2";
          "G2 1 300 400 6 2 1000 30 3 1";
          "G3 2 100 200 4 2 1000 10 1"]).

Local Abbreviation example_genes_out :=
  [("G1", 2%R); ("G2", 3%R); ("G3", 1%R)].

Lemma munge_sigmas_symmetric_witness :
  ∃ all_sigmas metadata,
    @munge_magma_covariance_metadata small_floats example_genes_raw
    = Some (all_sigmas, metadata)
    ∧ all_sigmas ≠ []
    ∧ Forall (λ sigma, ∃ n, 0 < n ∧ square n sigma ∧ symmetric sigma
                            ∧ ∀ i, i < n → mget sigma i i = 1%R) all_sigmas.
Proof.
  destruct (@munge_magma_covariance_metadata small_floats example_genes_raw)
    as [[all_sigmas metadata]|] eqn:Hmunge.
  - exists all_sigmas, metadata. split; [reflexivity|].
    exact (@munge_sigmas_symmetric small_floats example_genes_raw
             all_sigmas metadata Hmunge).
  - exfalso. vm_compute in Hmunge. discriminate Hmunge.
Defined.

Lemma munge_metadata_in_file_order_witness :
  ∃ all_sigmas metadata,
    @munge_magma_covariance_metadata small_floats example_genes_raw
    = Some (all_sigmas, metadata)
    ∧ length metadata = 3
    ∧ Forall2 (λ (line : list string) r,
                 line !! 0 = Some (GENE r)
                 ∧ line !! 4 ≫= float_of_digits = Some (NSNPS r)
                 ∧ line !! 5 ≫= float_of_digits = Some (NPARAM r)
                 ∧ line !! 7 ≫= float_of_digits = Some (MAC r))
        ((λ line, split_spaces (strip_newlines line))
           <$> drop 2 example_genes_raw) metadata.
Proof.
  destruct (@munge_magma_covariance_metadata small_floats example_genes_raw)
    as [[all_sigmas metadata]|] eqn:Hmunge.
  - exists all_sigmas, metadata. split; [reflexivity|].
    exact (@munge_metadata_in_file_order small_floats example_genes_raw
             all_sigmas metadata Hmunge).
  - exfalso. vm_compute in Hmunge. discriminate Hmunge.
Defined.

Lemma munge_block_sizes_witness :
  ∃ all_sigmas metadata,
    @munge_magma_covariance_metadata small_floats example_genes_raw
    = Some (all_sigmas, metadata)
    ∧ ∃ chroms,
        mapM (λ line : list string, line !! 1)
          ((λ line, split_spaces (strip_newlines line))
             <$> drop 2 example_genes_raw) = Some chroms
        ∧ length <$> all_sigmas
          = (λ c, length (filter (λ x, x = c) chroms)) <$> run_labels chroms
        ∧ (NoDup (run_labels chroms) →
             sum_list_with length all_sigmas = 3
             ∧ square 3 (block_diag all_sigmas)).
Proof.
  destruct (@munge_magma_covariance_metadata small_floats example_genes_raw)
    as [[all_sigmas metadata]|] eqn:Hmunge.
  - exists all_sigmas, metadata. split; [reflexivity|].
    exact (@munge_block_sizes small_floats example_genes_raw
             all_sigmas metadata Hmunge).
  - exfalso. vm_compute in Hmunge. discriminate Hmunge.
Defined.

Lemma read_magma_error_cov_block_diagonal_witness :
  ∃ Y covariates error_cov Y_indices,
    @read_magma small_floats example_genes_out example_genes_raw
      (Some true) None
    = Some (Y, covariates, Some error_cov, Y_indices)
    ∧ square 3 error_cov
    ∧ symmetric error_cov
    ∧ (∀ i, i < 3 → mget error_cov i i = 1%R)
    ∧ (∀ i j ci cj, ["1"; "1"; "2"] !! i = Some ci →
                    ["1"; "1"; "2"] !! j = Some cj → ci ≠ cj →
                    entry error_cov i j = Some 0%R)
    ∧ (3 = length Y ∨ 3 = 1 ∨ length Y = 1).
Proof.
  destruct (@read_magma small_floats example_genes_out example_genes_raw
              (Some true) None)
    as [[[[Y covariates] [error_cov|]] Y_indices]|] eqn:Hread.
  - exists Y, covariates, error_cov, Y_indices. split; [reflexivity|].
    apply (@read_magma_error_cov_block_diagonal small_floats
             example_genes_out example_genes_raw (Some true) None
             Y covariates error_cov Y_indices ["1"; "1"; "2"] Hread).
    + vm_compute. reflexivity.
    + compute_done.
  - exfalso. vm_compute in Hread. discriminate Hread.
  - exfalso. vm_compute in Hread. discriminate Hread.
Defined.

Lemma read_magma_options_witness :
  ∃ Y covariates error_cov Y_indices,
    @read_magma small_floats example_genes_out example_genes_raw
      None (Some false)
    = Some (Y, covariates, error_cov, Y_indices)
    ∧ Y = [2; 3; 1]%R ∧ Y_indices = ["G1"; "G2"; "G3"]
    ∧ covariates ≠ None ∧ error_cov = None.
Proof.
  destruct (@read_magma small_floats example_genes_out example_genes_raw
              None (Some false))
    as [[[[Y covariates] error_cov] Y_indices]|] eqn:Hread.
  - exists Y, covariates, error_cov, Y_indices. split; [reflexivity|].
    destruct (proj2 (@read_magma_options small_floats example_genes_out
                       example_genes_raw None (Some false))
                Y covariates error_cov Y_indices Hread)
      as (HY & Hind & Hcov & Herr & _).
    split; [exact HY|]. split; [exact Hind|]. split.
    + intros Hnone. apply Hcov in Hnone. discriminate Hnone.
    + apply Herr. reflexivity.
  - exfalso. vm_compute in Hread. discriminate Hread.
Defined.

(** ** From the coefficient table to the scores *)

Section Prediction.
Context `{Sklearn}.

Implicit Types (cols : list string) (coef : vector)
  (header df : list (string * cell)).

Local Abbreviation matches :=
  (λ (df : list (string * cell)) (c : string),
     filter (λ r : string * cell, r.1 = c) df).

Local Abbreviation occurrences :=
  (λ (l : list string) (c : string), length (filter (λ x, x = c) l)).

(** The table is a header followed by the coefficients. *)
Lemma compute_coefficients_table (X_train : matrix) (Y_train : vector)
    cols (method : string) (random_state : Z) df :
  compute_coefficients X_train Y_train cols method random_state = Some df →
  ∃ reg f header,
    initialize_regressor method random_state = Some reg
    ∧ fit reg X_train Y_train = Some f
    ∧ df = header ++ coef_frame cols (coef_ f)
    ∧ header.*1 = header_parameters method.
Proof.
  unfold compute_coefficients. destruct (bool_decide _); [|done].
  destruct (initialize_regressor method random_state) as [reg|] eqn:Hinit;
    [|done].
  cbn [mbind option_bind].
  destruct (fit reg X_train Y_train) as [f|] eqn:Hfit; [|done].
  cbn [mbind option_bind]. unfold header_parameters.
  destruct (decide (method = "ridge")) as [->|Hridge].
  { intros [= <-].
    exists reg, f, [("METHOD", cell_str "RidgeCV");
                    ("SELECTED_CV_ALPHA", cell_num (alpha_ f));
                    ("BEST_CV_SCORE", cell_num (best_score_ f))].
    split; [done|]. split; [done|]. split; reflexivity. }
  destruct (decide (method = "lasso")) as [->|Hlasso].
  { destruct (list_find _ _) as [found|]; [|done]. cbn [mbind option_bind].
    destruct (mse_path_ f !! found.1) as [path|]; [|done].
    cbn [mbind option_bind].
    intros [= <-].
    exists reg, f, [("METHOD", cell_str "LassoCV");
                    ("SELECTED_CV_ALPHA", cell_num (alpha_ f));
                    ("BEST_CV_SCORE", cell_num (np_mean path))].
    split; [done|]. split; [done|]. split; reflexivity. }
  intros [= <-].
  exists reg, f, [("METHOD", cell_str "LinearRegression")].
  split; [done|]. split; [done|]. split; [reflexivity|].
  unfold initialize_regressor in Hinit.
  rewrite !decide_False in Hinit by done.
  by destruct (decide (method = "linreg")).
Qed.

Lemma concat_singletons {A B} (g : A → B) (l : list A) :
  List.concat ((λ x, [g x]) <$> l) = g <$> l.
Proof.
  induction l as [|a l IH]; [done|].
  rewrite !fmap_cons. cbn [concat app]. by rewrite IH.
Qed.

Lemma matches_notin df c : c ∉ df.*1 → matches df c = [].
Proof.
  induction df as [|r df IH]; intros Hc; [done|].
  rewrite filter_cons, decide_False.
  - apply IH. intros Hin. apply Hc. rewrite fmap_cons. by right.
  - intros Heq. apply Hc. rewrite fmap_cons, Heq. by left.
Qed.

(** In a table of distinct labels, a label selects its own row. *)
Lemma matches_coef_frame cols coef i c x :
  NoDup cols → length coef = length cols →
  cols !! i = Some c → coef !! i = Some x →
  matches (coef_frame cols coef) c = [(c, cell_num x)].
Proof.
  unfold coef_frame. intros Hnd. revert coef i.
  induction Hnd as [|d cols Hd Hnd IH]; intros coef i Hlen Hc Hx; [done|].
  destruct coef as [|y coef]; [done|]. simpl in Hlen.
  rewrite fmap_cons. cbn [zip zip_with]. rewrite filter_cons. cbn [fst].
  destruct i as [|i]; simpl in Hc, Hx.
  - injection Hc as ->. injection Hx as ->. rewrite decide_True by done.
    f_equal. apply matches_notin.
    rewrite fst_zip; [done|]. rewrite length_fmap. lia.
  - rewrite decide_False.
    + apply (IH coef i); [lia | done | done].
    + intros ->. apply Hd. by eapply list_elem_of_lookup_2.
Qed.

Lemma loc_beta_table header cols coef :
  NoDup cols → length coef = length cols →
  (∀ c, c ∈ cols → c ∉ header.*1) →
  loc_beta (header ++ coef_frame cols coef) cols = Some (cell_num <$> coef).
Proof.
  intros Hnd Hlen Hhdr. unfold loc_beta.
  assert (Hall : mapM (λ c, match matches (header ++ coef_frame cols coef) c with
                           | [] => None
                           | found => Some (found.*2)
                           end) cols
                 = Some ((λ x, [cell_num x]) <$> coef)).
  { apply mapM_Some, Forall2_same_length_lookup_2.
    - by rewrite length_fmap.
    - intros i c l Hc Hl. rewrite list_lookup_fmap in Hl.
      destruct (coef !! i) as [x|] eqn:Hx; [|done]. injection Hl as <-.
      rewrite filter_app, (matches_notin header c),
        (matches_coef_frame cols coef i c x); try done.
      apply Hhdr. by eapply list_elem_of_lookup_2. }
  rewrite Hall. cbn [mbind option_bind]. by rewrite concat_singletons.
Qed.

Lemma mapM_cell_num coef :
  mapM (λ c, match c with
             | cell_num x => Some x
             | cell_str _ => None
             end) (cell_num <$> coef) = Some coef.
Proof.
  apply mapM_Some. induction coef as [|x coef IH]; by constructor.
Qed.

Lemma mapM_dot_cells (mat : matrix) coef :
  Forall (λ row, length row = length coef) mat →
  mapM (λ row, dot_cells row (cell_num <$> coef)) mat = Some (matvec mat coef).
Proof.
  intros Hmat. apply mapM_Some. unfold matvec.
  induction Hmat as [|row mat Hrow _ IH]; [constructor|].
  rewrite fmap_cons. constructor; [|done].
  unfold dot_cells. rewrite decide_True by by rewrite length_fmap.
  by rewrite mapM_cell_num.
Qed.

(** The values [.loc] returns: as many as rows carry the labels. *)
Lemma length_loc_beta df cols beta :
  loc_beta df cols = Some beta →
  length beta = sum_list_with (λ c, length (matches df c)) cols.
Proof.
  unfold loc_beta.
  destruct (mapM _ cols) as [found|] eqn:Hfound; [|done].
  cbn [mbind option_bind]. intros [= <-]. apply mapM_Some in Hfound.
  induction Hfound as [|c l cols found Hc _ IH]; [done|].
  cbn [concat sum_list_with]. rewrite length_app, IH. f_equal.
  destruct (filter _ df) as [|r rs]; [done|]. injection Hc as <-.
  exact (length_fmap snd (r :: rs)).
Qed.

Lemma length_matches_coef_frame cols coef c :
  length coef = length cols →
  length (matches (coef_frame cols coef) c) = occurrences cols c.
Proof.
  unfold coef_frame. revert coef.
  induction cols as [|d cols IH]; intros [|y coef] Hlen; try done.
  rewrite fmap_cons. cbn [zip zip_with]. rewrite !filter_cons. cbn [fst].
  simpl in Hlen. destruct (decide (d = c)); simpl; rewrite IH; done || lia.
Qed.

Lemma length_le_sum {A} (f : A → nat) (l : list A) :
  Forall (λ c, 1 ≤ f c) l → length l ≤ sum_list_with f l.
Proof. induction 1 as [|c l Hc _ IH]; simpl; lia. Qed.

Lemma sum_all_one {A} (f : A → nat) (l : list A) :
  Forall (λ c, 1 ≤ f c) l → sum_list_with f l = length l →
  Forall (λ c, f c = 1) l.
Proof.
  induction 1 as [|c l Hc Hl IH]; [constructor|]. simpl. intros Hsum.
  pose proof (length_le_sum f l Hl). constructor; [lia|]. apply IH. lia.
Qed.

Lemma occurrences_pos (l : list string) c : c ∈ l → 1 ≤ occurrences l c.
Proof.
  induction l as [|d l IH]; intros Hc; [by apply elem_of_nil in Hc|].
  rewrite filter_cons. destruct (decide (d = c)); [simpl; lia|].
  apply elem_of_cons in Hc as [->|Hc]; [done|]. by apply IH.
Qed.

Lemma occurrences_one_NoDup (l : list string) :
  (∀ c, c ∈ l → occurrences l c = 1) → NoDup l.
Proof.
  induction l as [|d l IH]; intros Hone; [constructor|].
  assert (Hd : d ∉ l).
  { intros Hd. apply occurrences_pos in Hd.
    specialize (Hone d ltac:(by left)).
    rewrite filter_cons, decide_True in Hone by done. simpl in Hone. lia. }
  constructor; [done|]. apply IH. intros c Hc.
  specialize (Hone c ltac:(by right)).
  rewrite filter_cons, decide_False in Hone by (by intros ->). done.
Qed.

Lemma matches_nil_notin df c : matches df c = [] → c ∉ df.*1.
Proof.
  induction df as [|r df IH]; [intros _ Hc; by apply elem_of_nil in Hc|].
  rewrite filter_cons. destruct (decide (r.1 = c)) as [|Hne]; [done|].
  intros Hnil. rewrite fmap_cons. intros Hc.
  apply elem_of_cons in Hc as [?|Hc]; [done|]. by apply IH.
Qed.

(** When [.loc] returns as many values as there are labels, the labels
    are distinct and none is carried by a row of the header. *)
Lemma loc_beta_exact header cols coef beta :
  length coef = length cols →
  loc_beta (header ++ coef_frame cols coef) cols = Some beta →
  length beta = length cols →
  NoDup cols ∧ ∀ c, c ∈ cols → c ∉ header.*1.
Proof.
  intros Hlen Hbeta Hexact. apply length_loc_beta in Hbeta.
  rewrite Hexact in Hbeta. symmetry in Hbeta.
  apply sum_all_one in Hbeta.
  - assert (Hboth : ∀ c, c ∈ cols →
                      matches header c = [] ∧ occurrences cols c = 1).
    { intros c Hc. pose proof (proj1 (Forall_forall _ _) Hbeta c Hc) as Hone.
      cbv beta in Hone.
      rewrite filter_app, length_app, length_matches_coef_frame in Hone
        by done.
      pose proof (occurrences_pos cols c Hc).
      split; [|lia]. apply length_zero_iff_nil. lia. }
    split.
    + apply occurrences_one_NoDup. intros c Hc. by apply Hboth.
    + intros c Hc. apply matches_nil_notin. by apply Hboth.
  - apply Forall_forall. intros c Hc.
    rewrite filter_app, length_app, length_matches_coef_frame by done.
    pose proof (occurrences_pos cols c Hc). lia.
Qed.

(** X28.  From [compute_coefficients] to [pops_predict].  Let
    [compute_coefficients] return a table for [cols], the fitted regressor
    having one coefficient per name of [cols], and let [mat] have [n] rows
    of one entry per name of [cols], named by [rows].  When the names of
    [cols] are distinct and none of them is a label of the header rows of
    the table (METHOD, and for ridge and lasso SELECTED_CV_ALPHA and
    BEST_CV_SCORE), [pops_predict] returns for every row name the product
    of the row of [mat] with the fitted coefficients.  When [mat] has a row and
    [pops_predict] returns, the names are distinct and none is a header
    label: with a repeated feature name, or a feature called METHOD, the
    lookup [coefs_df.loc[cols]] returns more values than [mat] has columns
    and the product raises. *)
Theorem pops_predict_after_compute_coefficients (X_train : matrix)
    (Y_train : vector) cols (method : string) (random_state : Z) df
    (mat : matrix) (rows : list string) (n : nat) :
  compute_coefficients X_train Y_train cols method random_state = Some df →
  (∀ reg f, fit reg X_train Y_train = Some f →
            length (coef_ f) = length cols) →
  rect n (length cols) mat → length rows = n →
  ∃ reg f,
    initialize_regressor method random_state = Some reg
    ∧ fit reg X_train Y_train = Some f
    ∧ (NoDup cols → (∀ c, c ∈ cols → c ∉ header_parameters method) →
       pops_predict mat rows cols df = Some (zip rows (matvec mat (coef_ f))))
    ∧ (0 < n → is_Some (pops_predict mat rows cols df) →
       NoDup cols ∧ ∀ c, c ∈ cols → c ∉ header_parameters method).
Proof.
  intros Hdf Hcontract [Hn Hmat] _.
  destruct (compute_coefficients_table _ _ _ _ _ _ Hdf)
    as (reg & f & header & Hinit & Hfit & -> & Hheader).
  pose proof (Hcontract reg f Hfit) as Hlen.
  exists reg, f. split; [done|]. split; [done|]. split.
  - intros Hnd Hfree. unfold pops_predict.
    rewrite loc_beta_table; [|done|done|by rewrite Hheader].
    cbn [mbind option_bind]. rewrite mapM_dot_cells; [done|].
    by rewrite Hlen.
  - intros Hpos [preds Hpreds]. rewrite <- Hheader.
    revert Hpreds. unfold pops_predict.
    destruct (loc_beta _ cols) as [beta|] eqn:Hbeta; [|done].
    cbn [mbind option_bind].
    destruct (mapM _ mat) as [pred|] eqn:Hpred; [|done]. intros _.
    apply (loc_beta_exact header cols (coef_ f) beta Hlen Hbeta).
    destruct mat as [|row mat]; [simpl in Hn; lia|].
    apply mapM_Some, Forall2_cons_inv_l in Hpred
      as (y & pred' & Hy & _ & _).
    apply Forall_cons in Hmat as [Hrow _].
    unfold dot_cells in Hy.
    destruct (decide (length row = length beta)); [congruence | done].
Qed.

End Prediction.

Lemma pops_predict_after_compute_coefficients_witness :
  ∃ df,
    @compute_coefficients small_sklearn [[1]; [2]]%R [2; 4]%R ["f1"]
      "ridge" 42 = Some df
    ∧ ∃ reg f,
        initialize_regressor "ridge" 42 = Some reg
        ∧ @fit small_sklearn reg [[1]; [2]]%R [2; 4]%R = Some f
        ∧ (NoDup ["f1"] →
           (∀ c, c ∈ ["f1"] → c ∉ header_parameters "ridge") →
           pops_predict [[1]; [3]]%R ["g1"; "g2"] ["f1"] df
           = Some (zip ["g1"; "g2"] (matvec [[1]; [3]]%R (coef_ f))))
        ∧ (0 < 2 →
           is_Some (pops_predict [[1]; [3]]%R ["g1"; "g2"] ["f1"] df) →
           NoDup ["f1"] ∧ ∀ c, c ∈ ["f1"] → c ∉ header_parameters "ridge").
Proof.
  destruct (@compute_coefficients small_sklearn [[1]; [2]]%R [2; 4]%R ["f1"]
              "ridge" 42) as [df|] eqn:Hdf.
  - exists df. split; [reflexivity|].
    apply (@pops_predict_after_compute_coefficients small_sklearn
             [[1]; [2]]%R [2; 4]%R ["f1"] "ridge" 42 df
             [[1]; [3]]%R ["g1"; "g2"] 2 Hdf).
    + intros reg f Hfit. injection Hfit as <-. reflexivity.
    + split; [reflexivity | repeat constructor].
    + reflexivity.
  - exfalso. vm_compute in Hdf. discriminate Hdf.
Defined.
